(** * Morpho optimisation core: a shallow embedding and its verified properties

    The development follows the layout of the sources:
    - [matrix.c]      dense column-major matrices            (Module [Matrix])
    - [sparse.c]      DOK and CCS sparse formats             (Module [Sparse])
    - [functional.c]  the functional evaluator               (Module [Functional])
    - [optimize.morpho]  Brent, problems and optimizers      (Module [Optimize])
    - [graphics.morpho]  the mesh refiner                    (Module [Refine])

    Numbers.  The C and morpho sources compute with IEEE doubles.  Every
    definition below is written over an arbitrary [Scalar] structure that only
    supplies the operations the sources use, so that theorems that do not
    depend on laws of arithmetic hold for any interpretation of the
    operations, doubles included.  Theorems that need the laws of an ordered
    field are stated for the instance of exact rationals [Q]. *)

From Stdlib Require Import QArith Qabs Lia Lqa.
From stdpp Require Import base option list gmap sets sorting.

Set Default Proof Using "Type".
Local Open Scope nat_scope.

(* ===================================================================== *)
(** * Scalars *)
(* ===================================================================== *)

Class Scalar (R : Type) := {
  rconst : Q -> R;            (* a numeric literal *)
  radd : R -> R -> R;
  rsub : R -> R -> R;
  rmul : R -> R -> R;
  rdiv : R -> R -> R;
  ropp : R -> R;
  rabs : R -> R;
  rltb : R -> R -> bool;      (* x < y  *)
  rleb : R -> R -> bool;      (* x <= y *)
  reqb : R -> R -> bool       (* x == y *)
}.

Declare Scope sc_scope.
Delimit Scope sc_scope with sc.
Notation "x + y" := (radd x y) : sc_scope.
Notation "x - y" := (rsub x y) : sc_scope.
Notation "x * y" := (rmul x y) : sc_scope.
Notation "x / y" := (rdiv x y) : sc_scope.
Notation "- x" := (ropp x) : sc_scope.
Notation "x <? y" := (rltb x y) : sc_scope.
Notation "x <=? y" := (rleb x y) : sc_scope.
Notation "x >? y" := (rltb y x) : sc_scope.
Notation "x >=? y" := (rleb y x) : sc_scope.
Notation "x =? y" := (reqb x y) : sc_scope.

Definition rzero {R} `{Scalar R} : R := rconst 0%Q.

(** Exact rational arithmetic. *)
#[export] Instance Q_Scalar : Scalar Q := {|
  rconst := fun q => q;
  radd := Qplus;
  rsub := Qminus;
  rmul := Qmult;
  rdiv := Qdiv;
  ropp := Qopp;
  rabs := Qabs;
  rltb := fun x y => negb (Qle_bool y x);
  rleb := Qle_bool;
  reqb := Qeq_bool
|}.

(* ===================================================================== *)
(** * A state-and-failure monad

    Morpho methods mutate objects and may stop with a runtime error.  A
    computation takes the current state and either fails ([None]) or returns a
    result and the next state. *)
(* ===================================================================== *)

Definition M (S A : Type) : Type := S -> option (A * S).

Definition mret {S A} (a : A) : M S A := fun s => Some (a, s).

Definition mbind {S A B} (c : M S A) (k : A -> M S B) : M S B :=
  fun s => match c s with
           | Some (a, s') => k a s'
           | None => None
           end.

Definition mget {S} : M S S := fun s => Some (s, s).
Definition mput {S} (s : S) : M S unit := fun _ => Some (tt, s).
Definition mmodify {S} (f : S -> S) : M S unit := fun s => Some (tt, f s).
Definition mfail {S A} : M S A := fun _ => None.
Definition mlift {S A} (o : option A) : M S A :=
  fun s => match o with Some a => Some (a, s) | None => None end.

Declare Scope monad_scope.
Delimit Scope monad_scope with monad.
Notation "x <- c ;; k" := (mbind c (fun x => k))
  (at level 100, c at next level, right associativity) : monad_scope.
Notation "c ;;; k" := (mbind c (fun _ => k))
  (at level 100, right associativity) : monad_scope.

(* ===================================================================== *)
(** * Brent's one-dimensional minimiser ([brent] in optimize.morpho) *)
(* ===================================================================== *)

Module Brent.
Section Brent.
Context {R : Type} `{Scalar R}.
Local Open Scope sc_scope.

Definition zeps : R := rconst (1 # 10000000000).
Definition cgold : R := rconst (3819660 # 10000000).
Definition half : R := rconst (1 # 2).
Definition two : R := rconst 2.

(** [sign(x, y)]: returns sign(y)*|x|, and 0.0 when [y] is zero. *)
Definition sign (x y : R) : R :=
  if y <? rzero then - rabs x
  else if y >? rzero then rabs x
  else rzero.

(** The local variables of [brent] that live across iterations. *)
Record bstate := {
  ba : R; bb : R;            (* the minimum lies between a and b *)
  bd : R; be : R;            (* last step and the step before last *)
  bv : R; bw : R; bx : R;
  bfv : R; bfw : R; bfx : R
}.

Definition xmid (st : bstate) : R := half * (ba st + bb st).
Definition tol1 (tol : R) (st : bstate) : R := tol * rabs (bx st) + zeps.
Definition tol2 (tol : R) (st : bstate) : R := two * tol1 tol st.

(** [abs(x-xm) <= (tol2-0.5*(b-a))] *)
Definition converged (tol : R) (st : bstate) : bool :=
  rabs (bx st - xmid st) <=? (tol2 tol st - half * (bb st - ba st)).

(** The parabola through (v,fv), (w,fw), (x,fx): the pair [(p, q)] after
    the sign adjustment [if (q>0) p = -p; q=abs(q)]. *)
Definition parabola (st : bstate) : R * R :=
  let r := (bx st - bw st) * (bfx st - bfv st) in
  let q := (bx st - bv st) * (bfx st - bfw st) in
  let p := (bx st - bv st) * q - (bx st - bw st) * r in
  let q := two * (q - r) in
  let p := if q >? rzero then - p else p in
  (p, rabs q).

(** Golden section step: [if (x>=xm) e=a-x else e=b-x; d = cgold*e].
    The result is the pair [(d, e)]. *)
Definition golden (st : bstate) : R * R :=
  let e := if bx st >=? xmid st then ba st - bx st else bb st - bx st in
  (cgold * e, e).

(** The test that rejects the parabolic fit. *)
Definition parabola_bad (st : bstate) : bool :=
  let '(p, q) := parabola st in
  let etemp := be st in
  (rabs p >=? rabs (half * q * etemp))
  || (p <=? q * (ba st - bx st))
  || (p >=? q * (bb st - bx st)).

(** The new [(d, e)] chosen in one pass of the loop. *)
Definition trialstep (tol : R) (st : bstate) : R * R :=
  if rabs (be st) >? tol1 tol st then
    if parabola_bad st then golden st
    else
      let '(p, q) := parabola st in
      let d := p / q in
      let u := bx st + d in
      let d := if (u - ba st <? tol2 tol st) || (bb st - u <? tol2 tol st)
               then sign (tol1 tol st) (xmid st - bx st) else d in
      (d, bd st)
  else golden st.

(** [if (abs(d)>=tol1) u=x+d else u=x+sign(tol1, d)] *)
Definition abscissa (tol : R) (st : bstate) (d : R) : R :=
  if rabs d >=? tol1 tol st then bx st + d
  else bx st + sign (tol1 tol st) d.

(** The bracket update after [fu = func(u)]. *)
Definition update (st : bstate) (d e u fu : R) : bstate :=
  if fu <=? bfx st then
    let a := if u >=? bx st then bx st else ba st in
    let b := if u >=? bx st then bb st else bx st in
    {| ba := a; bb := b; bd := d; be := e;
       bv := bw st; bw := bx st; bx := u;
       bfv := bfw st; bfw := bfx st; bfx := fu |}
  else
    let a := if u <? bx st then u else ba st in
    let b := if u <? bx st then bb st else u in
    if (fu <=? bfw st) || (bw st =? bx st) then
      {| ba := a; bb := b; bd := d; be := e;
         bv := bw st; bw := u; bx := bx st;
         bfv := bfw st; bfw := fu; bfx := bfx st |}
    else if (fu <=? bfv st) || (bv st =? bx st) || (bv st =? bw st) then
      {| ba := a; bb := b; bd := d; be := e;
         bv := u; bw := bw st; bx := bx st;
         bfv := fu; bfw := bfw st; bfx := bfx st |}
    else
      {| ba := a; bb := b; bd := d; be := e;
         bv := bv st; bw := bw st; bx := bx st;
         bfv := bfv st; bfw := bfw st; bfx := bfx st |}.

Section Loop.
Context {S : Type}.
Variable func : R -> M S R.
Variable tol : R.
Local Open Scope monad_scope.

(** [for (iter in 0...itermax) { ... }  return [x, fx]] *)
Fixpoint brent_loop (n : nat) (st : bstate) : M S (R * R) :=
  match n with
  | O => mret (bx st, bfx st)
  | Datatypes.S n' =>
      if converged tol st then mret (bx st, bfx st)
      else
        let de := trialstep tol st in
        let u := abscissa tol st (fst de) in
        fu <- func u ;;
        brent_loop n' (update st (fst de) (snd de) u fu)
  end.

Definition brent_init (bracket : R * R * R) (fv : R) : bstate :=
  let '(b0, b1, b2) := bracket in
  {| ba := if b0 <? b2 then b0 else b2;
     bb := if b0 >? b2 then b0 else b2;
     bd := rzero; be := rzero;
     bv := b1; bw := b1; bx := b1;
     bfv := fv; bfw := fv; bfx := fv |}.

Definition brent (bracket : R * R * R) (itermax : nat) : M S (R * R) :=
  fv <- func (snd (fst bracket)) ;;
  brent_loop itermax (brent_init bracket fv).
End Loop.
End Brent.
End Brent.


(* ===================================================================== *)
(** * Dense matrices (matrix.c) *)
(* ===================================================================== *)

Module Matrix.
Section Matrix.
Context {R : Type} `{Scalar R}.

(** [objectmatrix]: [elements] is the column-major array of
    [nrows*ncols] doubles, entry (row, col) at index [col*nrows+row]. *)
Record objectmatrix := {
  nrows : nat;
  ncols : nat;
  elements : list R
}.

Definition wf_matrix (m : objectmatrix) : Prop :=
  length (elements m) = (ncols m * nrows m)%nat.

(** [object_newmatrix(nrows, ncols, true)]: a zeroed matrix. *)
Definition object_newmatrix (nr nc : nat) : objectmatrix :=
  {| nrows := nr; ncols := nc; elements := replicate (nc * nr) rzero |}.

(** [object_clonematrix]: a new object with a copy of the entries. *)
Definition object_clonematrix (m : objectmatrix) : objectmatrix :=
  {| nrows := nrows m; ncols := ncols m;
     elements := take (ncols m * nrows m) (elements m) |}.

(** [matrix_setelement]: the returned flag tells whether (row, col) is in
    range; out of range the matrix is left as it is. *)
Definition matrix_setelement (m : objectmatrix) (row col : nat) (v : R)
  : bool * objectmatrix :=
  if bool_decide (col < ncols m)%nat && bool_decide (row < nrows m)%nat then
    (true, {| nrows := nrows m; ncols := ncols m;
              elements := <[(col * nrows m + row)%nat := v]> (elements m) |})
  else (false, m).

(** [matrix_getelement]: [None] stands for the [false] return, in which case
    the output argument is not written. *)
Definition matrix_getelement (m : objectmatrix) (row col : nat) : option R :=
  if bool_decide (col < ncols m)%nat && bool_decide (row < nrows m)%nat then
    elements m !! (col * nrows m + row)%nat
  else None.

(** [matrix_getcolumn]: the [nrows] entries starting at [col*nrows]. *)
Definition matrix_getcolumn (m : objectmatrix) (col : nat) : option (list R) :=
  if bool_decide (col < ncols m)%nat then
    Some (take (nrows m) (drop (col * nrows m) (elements m)))
  else None.

(** [matrix_setcolumn]: copies [nrows] entries of [v] over the column. *)
Definition matrix_setcolumn (m : objectmatrix) (col : nat) (v : list R)
  : bool * objectmatrix :=
  if bool_decide (col < ncols m)%nat then
    (true, {| nrows := nrows m; ncols := ncols m;
              elements := list_inserts (col * nrows m) (take (nrows m) v) (elements m) |})
  else (false, m).

(** [matrix_accumulate]: a + lambda*b -> a; [None] stands for
    [MATRIX_INCMPTBLDIM]. *)
Definition matrix_accumulate (a : objectmatrix) (lambda : R) (b : objectmatrix)
  : option objectmatrix :=
  if bool_decide (ncols a = ncols b) && bool_decide (nrows a = nrows b) then
    Some {| nrows := nrows a; ncols := ncols a;
            elements := zip_with (fun x y => (x + lambda * y)%sc) (elements a) (elements b) |}
  else None.

End Matrix.
Arguments objectmatrix R : clear implicits.
End Matrix.

(* ===================================================================== *)
(** * Dense matrices: arithmetic and the [Matrix] class (matrix.c) *)
(* ===================================================================== *)

Module MatrixOps.
Import Matrix.
Section MatrixOps.
Context {R : Type} `{Scalar R}.

(** The values of [objectmatrixerror] that the routines below return. *)
Inductive objectmatrixerror := MATRIX_OK | MATRIX_INCMPTBLDIM | MATRIX_NSQ.

(** The level 1 BLAS routines matrix.c calls, with unit stride:
    [cblas_dcopy(n, x, 1, y, 1)] copies [x] over the first [n] entries of
    [y], [cblas_daxpy(n, alpha, x, 1, y, 1)] adds [alpha*x] to them,
    [cblas_dscal(n, alpha, x, 1)] scales them and [cblas_ddot] is the dot
    product, accumulated from the first entry on. *)
Definition cblas_dcopy (n : nat) (x y : list R) : list R :=
  list_inserts 0 (take n x) y.

Definition cblas_daxpy (n : nat) (alpha : R) (x y : list R) : list R :=
  list_inserts 0 (zip_with (fun yi xi => (yi + alpha * xi)%sc) (take n y) x) y.

Definition cblas_dscal (n : nat) (alpha : R) (x : list R) : list R :=
  list_inserts 0 ((fun xi => (alpha * xi)%sc) <$> take n x) x.

Definition cblas_ddot (n : nat) (x y : list R) : R :=
  foldl (fun acc xy => (acc + fst xy * snd xy)%sc) rzero (zip (take n x) y).

(** [object_newmatrix(nrows, ncols, false)]: the entries are whatever the
    allocated memory holds, [junk]. *)
Definition object_newmatrix_uninitialized (nr nc : nat) (junk : nat -> R) : objectmatrix R :=
  {| nrows := nr; ncols := nc; elements := junk <$> seq 0 (nc * nr) |}.

(** [object_matrixfromfloats(nrows, ncols, list)] *)
Definition object_matrixfromfloats (nr nc : nat) (l : list R) : objectmatrix R :=
  {| nrows := nr; ncols := nc;
     elements := cblas_dcopy (nc * nr) l (elements (object_newmatrix (R:=R) nr nc)) |}.

(** [matrix_addtocolumn(m, col, alpha, v)] *)
Definition matrix_addtocolumn (m : objectmatrix R) (col : nat) (alpha : R) (v : list R)
  : bool * objectmatrix R :=
  if bool_decide (col < ncols m) then
    (true, {| nrows := nrows m; ncols := ncols m;
              elements :=
                take (col * nrows m) (elements m)
                ++ cblas_daxpy (nrows m) alpha v (drop (col * nrows m) (elements m)) |})
  else (false, m).

(** [matrix_copy(a, out)] *)
Definition matrix_copy (a out : objectmatrix R) : objectmatrixerror * objectmatrix R :=
  if bool_decide (ncols a = ncols out) && bool_decide (nrows a = nrows out) then
    (MATRIX_OK, {| nrows := nrows out; ncols := ncols out;
                   elements := cblas_dcopy (ncols a * nrows a) (elements a) (elements out) |})
  else (MATRIX_INCMPTBLDIM, out).

(** [matrix_add(a, b, out)] with [out] an object of its own ([a != out]):
    [a] is copied to [out] and [1.0*b] added. *)
Definition matrix_add (a b out : objectmatrix R) : objectmatrixerror * objectmatrix R :=
  if bool_decide (ncols a = ncols b) && bool_decide (ncols a = ncols out)
     && bool_decide (nrows a = nrows b) && bool_decide (nrows a = nrows out) then
    (MATRIX_OK,
     {| nrows := nrows out; ncols := ncols out;
        elements := cblas_daxpy (ncols a * nrows a) (rconst 1) (elements b)
                      (cblas_dcopy (ncols a * nrows a) (elements a) (elements out)) |})
  else (MATRIX_INCMPTBLDIM, out).

(** [matrix_sub(a, b, out)] with [out] an object of its own. *)
Definition matrix_sub (a b out : objectmatrix R) : objectmatrixerror * objectmatrix R :=
  if bool_decide (ncols a = ncols b) && bool_decide (ncols a = ncols out)
     && bool_decide (nrows a = nrows b) && bool_decide (nrows a = nrows out) then
    (MATRIX_OK,
     {| nrows := nrows out; ncols := ncols out;
        elements := cblas_daxpy (ncols a * nrows a) (rconst (-1)) (elements b)
                      (cblas_dcopy (ncols a * nrows a) (elements a) (elements out)) |})
  else (MATRIX_INCMPTBLDIM, out).

(** [matrix_inner(a, b, out)]: [None] is [MATRIX_INCMPTBLDIM]. *)
Definition matrix_inner (a b : objectmatrix R) : option R :=
  if bool_decide (ncols a = ncols b) && bool_decide (nrows a = nrows b) then
    Some (cblas_ddot (ncols a * nrows a) (elements a) (elements b))
  else None.

(** [matrix_sum(a)]: Kahan summation of the [ncols*nrows] entries,
    [y=a->elements[i]-c; t=sum+y; c=(t-sum)-y; sum=t]. *)
Definition matrix_sum (a : objectmatrix R) : R :=
  fst (foldl (fun '(sum, c) x =>
                let y := (x - c)%sc in
                let t := (sum + y)%sc in
                (t, ((t - sum) - y)%sc))
             (rzero, rzero) (take (ncols a * nrows a) (elements a))).

(** [matrix_transpose(a, out)]: column [i] of [a] is copied with stride
    [a->ncols] to [out->elements+i]. *)
Definition matrix_transpose (a out : objectmatrix R) : objectmatrixerror * objectmatrix R :=
  if negb (bool_decide (ncols a = nrows out) && bool_decide (nrows a = ncols out)) then
    (MATRIX_INCMPTBLDIM, out)
  else
    (MATRIX_OK,
     {| nrows := nrows out; ncols := ncols out;
        elements :=
          foldl (fun els i =>
                   foldl (fun els r =>
                            match elements a !! (i * nrows a + r) with
                            | Some x => <[i + r * ncols a := x]> els
                            | None => els
                            end) els (seq 0 (nrows a)))
                (elements out) (seq 0 (ncols a)) |}).

(** [matrix_scale(a, scale)] *)
Definition matrix_scale (a : objectmatrix R) (scale : R) : objectmatrix R :=
  {| nrows := nrows a; ncols := ncols a;
     elements := cblas_dscal (ncols a * nrows a) scale (elements a) |}.

(** [matrix_identity(a)]:
    [a->elements[i+a->nrows*j]=(i==j ? 1.0 : 0.0)] for every row [i] and
    column [j]. *)
Definition matrix_identity (a : objectmatrix R) : objectmatrixerror * objectmatrix R :=
  if negb (bool_decide (ncols a = nrows a)) then (MATRIX_NSQ, a)
  else
    (MATRIX_OK,
     {| nrows := nrows a; ncols := ncols a;
        elements :=
          foldl (fun els i =>
                   foldl (fun els j =>
                            <[i + nrows a * j :=
                                if bool_decide (i = j) then rconst 1 else rconst 0]> els)
                         els (seq 0 (ncols a)))
                (elements a) (seq 0 (nrows a)) |}).

(** ** The methods of the [Matrix] class.  [None] is a runtime error. *)

(** [Matrix(nrows, ncols)] *)
Definition matrix_constructor (nr nc : nat) : objectmatrix R := object_newmatrix nr nc.

(** [m[i, j]] *)
Definition Matrix_getindex (m : objectmatrix R) (i j : nat) : option R :=
  matrix_getelement m i j.

(** [m[i, j] = value] *)
Definition Matrix_setindex (m : objectmatrix R) (i j : nat) (value : R)
  : option (objectmatrix R) :=
  match matrix_setelement m i j value with
  | (true, m') => Some m'
  | (false, _) => None
  end.

(** [m.setcolumn(col, src)] *)
Definition Matrix_setcolumn (m : objectmatrix R) (col : nat) (src : objectmatrix R)
  : option (objectmatrix R) :=
  if bool_decide (col < ncols m) then
    if bool_decide (ncols src * nrows src = nrows m)
    then Some (snd (matrix_setcolumn m col (elements src)))
    else None
  else None.

(** [m.column(col)]: a new matrix with one column. *)
Definition Matrix_getcolumn (m : objectmatrix R) (col : nat) : option (objectmatrix R) :=
  if bool_decide (col < ncols m) then
    vals ← matrix_getcolumn m col;
    Some (object_matrixfromfloats (nrows m) 1 vals)
  else None.

(** [a + b] for two matrices. *)
Definition Matrix_add (junk : nat -> R) (a b : objectmatrix R) : option (objectmatrix R) :=
  if bool_decide (ncols a = ncols b) && bool_decide (nrows a = nrows b) then
    Some (snd (matrix_add a b (object_newmatrix_uninitialized (nrows a) (ncols a) junk)))
  else None.

(** [a - b] for two matrices. *)
Definition Matrix_sub (junk : nat -> R) (a b : objectmatrix R) : option (objectmatrix R) :=
  if bool_decide (ncols a = ncols b) && bool_decide (nrows a = nrows b) then
    Some (snd (matrix_sub a b (object_newmatrix_uninitialized (nrows a) (ncols a) junk)))
  else None.

(** [a.acc(lambda, b)]: [a] after the call. *)
Definition Matrix_acc (a : objectmatrix R) (lambda : R) (b : objectmatrix R)
  : option (objectmatrix R) :=
  if bool_decide (ncols a = ncols b) && bool_decide (nrows a = nrows b) then
    matrix_accumulate a lambda b
  else None.

(** [a.inner(b)] *)
Definition Matrix_inner (a b : objectmatrix R) : option R := matrix_inner a b.

(** [a.transpose()] *)
Definition Matrix_transpose (junk : nat -> R) (a : objectmatrix R) : objectmatrix R :=
  snd (matrix_transpose a (object_newmatrix_uninitialized (ncols a) (nrows a) junk)).

End MatrixOps.
End MatrixOps.

(* ===================================================================== *)
(** * Sparse matrices (sparse.c) *)
(* ===================================================================== *)

Module Sparse.
Section Sparse.
Context {R : Type} `{Scalar R}.

(** The morpho values a DOK entry can hold. *)
Inductive value :=
| VFloat (x : R)
| VInteger (n : Z)
| VNil.

(** [sparsedok]: the dictionary from (row, col) to values, the dimensions,
    and the linked list of keys.  [sparsedok_addkey] pushes a new key on the
    front of the list, so the list runs from the newest key to the oldest. *)
Record sparsedok := {
  dok_nrows : nat;
  dok_ncols : nat;
  dict : gmap (nat * nat) value;
  keys : list (nat * nat)
}.

Definition sparsedok_init : sparsedok :=
  {| dok_nrows := 0; dok_ncols := 0; dict := ∅; keys := [] |}.

(** [sparsedok_insert] (allocation is taken to succeed, so the result is
    always [true]). *)
Definition sparsedok_insert (dok : sparsedok) (i j : nat) (val : value) : sparsedok :=
  match dict dok !! (i, j) with
  | None =>
      {| dok_nrows := if bool_decide (dok_nrows dok = 0) || bool_decide (dok_nrows dok <= i)
                      then i + 1 else dok_nrows dok;
         dok_ncols := if bool_decide (dok_ncols dok = 0) || bool_decide (dok_ncols dok <= j)
                      then j + 1 else dok_ncols dok;
         dict := <[(i, j) := val]> (dict dok);
         keys := (i, j) :: keys dok |}
  | Some _ =>
      {| dok_nrows := dok_nrows dok; dok_ncols := dok_ncols dok;
         dict := <[(i, j) := val]> (dict dok);
         keys := keys dok |}
  end.

Definition sparsedok_get (dok : sparsedok) (i j : nat) : option value :=
  dict dok !! (i, j).

(** [sparsedok_setdimensions] *)
Definition sparsedok_setdimensions (dok : sparsedok) (nr nc : nat) : bool * sparsedok :=
  if bool_decide (nr < dok_nrows dok) || bool_decide (nc < dok_ncols dok) then (false, dok)
  else (true, {| dok_nrows := nr; dok_ncols := nc; dict := dict dok; keys := keys dok |}).

(** [sparsedok_loopstart] / [sparsedok_loop]: the keys in list order. *)
Definition sparsedok_loop (dok : sparsedok) : list (nat * nat) := keys dok.

(** [sparseccs]: column pointers, row indices and (optional) values. *)
Record sparseccs := {
  nentries : nat;
  ccs_nrows : nat;
  ccs_ncols : nat;
  cptr : list nat;
  rix : list Z;
  values : option (list R)
}.

(** [sparseccs_getrowindices]: the row indices of a column, [None] when the
    column is out of range. *)
Definition sparseccs_getrowindices (ccs : sparseccs) (col : nat) : option (list Z) :=
  if bool_decide (ccs_ncols ccs <= col) then None
  else
    match cptr ccs !! col, cptr ccs !! (col + 1) with
    | Some c0, Some c1 => Some (take (c1 - c0) (drop c0 (rix ccs)))
    | _, _ => None
    end.

(** The hash table of the DOK is scanned slot by slot
    ([in->dict.contents[i].key] for [i < capacity]).  The order in which the
    keys appear depends on the hash function, the capacity and the history of
    the table, none of which is fixed by the set of keys: it is a parameter
    [slots], of which only [slots_perm] is known. *)
Variable slots : gmap (nat * nat) value -> list (nat * nat).

(** Count the number of entries per column: [out->cptr[col]++]. *)
Definition count_columns (ks : list (nat * nat)) (cp : list nat) : list nat :=
  foldl (fun cp k => alter Datatypes.S (snd k) cp) cp ks.

(** Construct the column pointer array:
    [for (i<ncols+1) { p=ptr; ptr+=cptr[i]; cptr[i]=p; }] *)
Definition column_pointers (n : nat) (cp : list nat) : list nat :=
  snd (foldl (fun '(ptr, cp) i =>
                match cp !! i with
                | Some c => ((ptr + c)%nat, <[i := ptr]> cp)
                | None => (ptr, cp)
                end) (0%nat, cp) (seq 0 n)).

(** [while (out->rix[k]!=-1) k++]: the first free position from [k] on.
    Reading past the end of the array has no defined result ([None]). *)
Fixpoint find_free (rx : list Z) (k fuel : nat) : option nat :=
  match fuel with
  | O => None
  | Datatypes.S fuel' =>
      match rx !! k with
      | Some v => if bool_decide (v = (-1)%Z) then Some k else find_free rx (Datatypes.S k) fuel'
      | None => None
      end
  end.

(** Copy entries into the appropriate row index. *)
Definition fill_rows (cp : list nat) (ks : list (nat * nat)) (rx : list Z)
  : option (list Z) :=
  foldl (fun orx k =>
           rx ← orx;
           c ← cp !! (snd k);
           pos ← find_free rx c (Datatypes.S (length rx));
           Some (<[pos := Z.of_nat (fst k)]> rx))
        (Some rx) ks.

(** [qsort] with [sparseccs_compareuint] on the segment of one column. *)
Definition sort_segment (rx : list Z) (c0 len : nat) : list Z :=
  take c0 rx ++ merge_sort Z.le (take len (drop c0 rx)) ++ drop (c0 + len) rx.

(** Sort columns. *)
Definition sort_columns (nc : nat) (cp : list nat) (rx : list Z) : list Z :=
  foldl (fun rx i =>
           match cp !! i, cp !! (i + 1) with
           | Some c0, Some c1 =>
               if bool_decide (1 < c1 - c0) then sort_segment rx c0 (c1 - c0) else rx
           | _, _ => rx
           end) rx (seq 0 nc).

(** Copy over values: [0.0] unless the DOK holds a float or an integer. *)
Definition copy_values (dok : sparsedok) (nc : nat) (cp : list nat) (rx : list Z)
  : list R :=
  foldl (fun vals j =>
           match cp !! j, cp !! (j + 1) with
           | Some c0, Some c1 =>
               foldl (fun vals i =>
                        match rx !! (c0 + i) with
                        | Some r =>
                            match sparsedok_get dok (Z.to_nat r) j with
                            | Some (VFloat x) => <[(c0 + i)%nat := x]> vals
                            | Some (VInteger n) => <[(c0 + i)%nat := rconst (inject_Z n)]> vals
                            | _ => vals
                            end
                        | None => vals
                        end) vals (seq 0 (c1 - c0))
           | _, _ => vals
           end) (replicate (length rx) rzero) (seq 0 nc).

(** The C structure [sparseccs] while it is being allocated: [None] stands
    for a [NULL] array. *)
Record ccs_arrays := {
  a_nentries : nat;
  a_nrows : nat;
  a_ncols : nat;
  a_cptr : option (list nat);
  a_rix : option (list Z);
  a_values : option (list R)
}.

(** [sparseccs_init]: no entries, no rows, no columns, the three arrays
    [NULL]. *)
Definition sparseccs_init : ccs_arrays :=
  {| a_nentries := 0; a_nrows := 0; a_ncols := 0;
     a_cptr := None; a_rix := None; a_values := None |}.

(** [MORPHO_REALLOC(p, n)]: a block of [n] cells that keeps the old
    contents.  The new cells are not initialised by the code; they hold
    [fill] here, and [sparseccs_doktoccs] writes every cell before it reads
    it.  The allocator is taken to return a block for every request, also
    for one of no cells. *)
Definition MORPHO_REALLOC {A : Type} (fill : A) (p : option (list A)) (n : nat)
  : option (list A) :=
  Some (take n (default [] p) ++ replicate (n - length (default [] p)) fill).

(** [sparseccs_resize]: [cptr] (and [values]) are reallocated only
    [if (ncols>ccs->ncols)]; [rix] always; [if (!(ccs->cptr && ccs->rix))]
    the structure is cleared and the result is [false] ([None]).  On a
    structure that has no column pointers yet, a request for no columns
    therefore fails. *)
Definition sparseccs_resize (c : ccs_arrays) (nrows ncols nentries : nat) (vals : bool)
  : option ccs_arrays :=
  let grow := bool_decide (a_ncols c < ncols) in
  let cp := if grow then MORPHO_REALLOC 0%nat (a_cptr c) (ncols + 1) else a_cptr c in
  let vs := if grow && (bool_decide (is_Some (a_values c)) || vals)
            then MORPHO_REALLOC rzero (a_values c) nentries else a_values c in
  if grow && (bool_decide (is_Some (a_values c)) || vals) && negb (bool_decide (is_Some vs))
  then None
  else
    let rx := MORPHO_REALLOC (-1)%Z (a_rix c) nentries in
    if bool_decide (is_Some cp) && bool_decide (is_Some rx)
    then Some {| a_nentries := nentries; a_nrows := nrows; a_ncols := ncols;
                 a_cptr := cp; a_rix := rx; a_values := vs |}
    else None.

(** [sparseccs_doktoccs]: [None] when [sparseccs_resize] fails (the code
    returns [false]), and when the loop that places the rows would read past
    the row index array. *)
Definition sparseccs_doktoccs (dok : sparsedok) (copyvals : bool) : option sparseccs :=
  let n := size (dict dok) in
  out ← sparseccs_resize sparseccs_init (dok_nrows dok) (dok_ncols dok) n copyvals;
  cp ← a_cptr out;
  rx ← a_rix out;
  let ks := slots (dict dok) in
  let cp := foldl (fun cp i => <[i := 0%nat]> cp) cp (seq 0 (dok_ncols dok + 1)) in
  let cp := count_columns ks cp in
  let cp := column_pointers (dok_ncols dok + 1) cp in
  let rx := foldl (fun rx i => <[i := (-1)%Z]> rx) rx (seq 0 n) in
  rx ← fill_rows cp ks rx;
  let rx := sort_columns (dok_ncols dok) cp rx in
  Some {| nentries := a_nentries out;
          ccs_nrows := a_nrows out;
          ccs_ncols := a_ncols out;
          cptr := cp;
          rix := rx;
          values := if copyvals then Some (copy_values dok (dok_ncols dok) cp rx) else None |}.

(** [objectsparse]: the DOK form and the derived CCS form.  [ccs = None]
    stands for a cleared CCS structure ([cptr == NULL]). *)
Record objectsparse := {
  dok : sparsedok;
  ccs : option sparseccs
}.

Inductive objectsparseformat := SPARSE_DOK | SPARSE_CCS.


(** [sparse_removeformat] *)
Definition sparse_removeformat (s : objectsparse) (format : objectsparseformat)
  : objectsparse :=
  match format with
  | SPARSE_DOK => {| dok := sparsedok_init; ccs := ccs s |}
  | SPARSE_CCS => {| dok := dok s; ccs := None |}
  end.

(** [sparse_setelement] *)
Definition sparse_setelement (s : objectsparse) (row col : nat) (val : value)
  : bool * objectsparse :=
  (true, sparse_removeformat
           {| dok := sparsedok_insert (dok s) row col val; ccs := ccs s |} SPARSE_CCS).

End Sparse.
Arguments value R : clear implicits.
Arguments sparsedok R : clear implicits.
Arguments sparseccs R : clear implicits.
Arguments objectsparse R : clear implicits.
End Sparse.

(* ===================================================================== *)
(** * Sparse matrices: copies and the entries of the CCS form (sparse.c) *)
(* ===================================================================== *)

Module SparseOps.
Import Sparse.
Section SparseOps.
Context {R : Type} `{Scalar R}.


(** [for (k=cptr[j]; k<cptr[j+1]; k++) if (rix[k]==i)]: the first of the
    [n] positions from [k] on that holds the row [i], if any.  The outer
    [None] stands for a read outside the array. *)
Fixpoint find_row (rx : list Z) (i : Z) (k n : nat) : option (option nat) :=
  match n with
  | O => Some None
  | Datatypes.S n' =>
      match rx !! k with
      | Some r => if bool_decide (r = i) then Some (Some k)
                  else find_row rx i (Datatypes.S k) n'
      | None => None
      end
  end.

Definition sparseccs_find (ccs : sparseccs R) (i : Z) (j : nat) : option (option nat) :=
  c0 ← cptr ccs !! j;
  c1 ← cptr ccs !! (j + 1);
  find_row (rix ccs) i c0 (c1 - c0).

(** [sparseccs_set]: the flag tells whether (i, j) is in the sparsity
    structure. *)
Definition sparseccs_set (ccs : sparseccs R) (i : Z) (j : nat) (val : R)
  : option (bool * sparseccs R) :=
  pos ← sparseccs_find ccs i j;
  match pos with
  | Some k =>
      match values ccs with
      | Some vs =>
          if bool_decide (k < length vs) then
            Some (true, {| nentries := nentries ccs; ccs_nrows := ccs_nrows ccs;
                           ccs_ncols := ccs_ncols ccs; cptr := cptr ccs; rix := rix ccs;
                           values := Some (<[k := val]> vs) |})
          else None
      | None => Some (true, ccs)
      end
  | None => Some (false, ccs)
  end.

(** [sparseccs_get]: [Some None] is the [false] return; a structure without
    values reads as 1 wherever it has an entry. *)
Definition sparseccs_get (ccs : sparseccs R) (i : Z) (j : nat) : option (option R) :=
  pos ← sparseccs_find ccs i j;
  match pos with
  | Some k =>
      match values ccs with
      | Some vs => v ← vs !! k; Some (Some v)
      | None => Some (Some (rconst 1))
      end
  | None => Some None
  end.

(** [sparseccs_setrowindices]: the row indices of a column are overwritten
    when their number is that of the column. *)
Definition sparseccs_setrowindices (ccs : sparseccs R) (col : nat) (entries : list Z)
  : option (bool * sparseccs R) :=
  if bool_decide (ccs_ncols ccs <= col) then Some (false, ccs)
  else
    c0 ← cptr ccs !! col;
    c1 ← cptr ccs !! (col + 1);
    if bool_decide (Z.of_nat (length entries) = (Z.of_nat c1 - Z.of_nat c0)%Z) then
      if bool_decide (c0 + length entries <= length (rix ccs)) then
        Some (true, {| nentries := nentries ccs; ccs_nrows := ccs_nrows ccs;
                       ccs_ncols := ccs_ncols ccs; cptr := cptr ccs;
                       rix := list_inserts c0 entries (rix ccs);
                       values := values ccs |})
      else None
    else Some (false, ccs).

End SparseOps.
End SparseOps.


(* ===================================================================== *)
(** * The functional evaluator (functional.c) *)
(* ===================================================================== *)

Module Functional.
Import Matrix Sparse.
Section Functional.
Context {R : Type} `{Scalar R}.

(** [objectmesh], as far as the evaluator reads it: the dimension, the vertex
    matrix and the table of connectivity matrices behind
    [mesh_getconnectivityelement]. *)
Record objectmesh := {
  dim : nat;
  vert : objectmatrix R;
  conn : nat -> nat -> option (objectsparse R)
}.

Definition mesh_getconnectivityelement (mesh : objectmesh) (row col : nat)
  : option (objectsparse R) := conn mesh row col.

Definition set_vert (mesh : objectmesh) (v : objectmatrix R) : objectmesh :=
  {| dim := dim mesh; vert := v; conn := conn mesh |}.

(** [objectselection]: per grade, the dictionary whose keys are the selected
    element ids. *)
Record objectselection := {
  selected : nat -> gset nat
}.

(** The selection dictionaries are scanned slot by slot
    ([sel->selected[g].contents[k].key] for [k < capacity]); the order of the
    ids in the slots is a parameter. *)
Variable selslots : gset nat -> list nat.

Inductive symmetrybhvr := SYMMETRY_NONE | SYMMETRY_ADD.

(** Integrand and gradient callbacks.  The arguments are the mesh, the
    element id and its vertex ids ([nv] is the length of the list); the
    reference [ref] is part of the closure.  [None] is the [false] return. *)
Definition functional_integrand : Type :=
  objectmesh -> nat -> list Z -> option R.

Definition functional_gradient : Type :=
  objectmesh -> nat -> list Z -> objectmatrix R -> option (objectmatrix R).

Record functional_mapinfo := {
  mesh : objectmesh;
  sel : option objectselection;
  g : nat;
  integrand : functional_integrand;
  grad : functional_gradient;
  sym : symmetrybhvr
}.

(** The column count [s->ccs.ncols]: zero for a cleared CCS structure. *)
Definition ccs_ncols_of (s : objectsparse R) : nat :=
  match ccs s with Some c => ccs_ncols c | None => 0 end.

(** [functional_countelements]: the number of elements and the connectivity
    matrix [s] (left [NULL] for grade 0); [None] is the error [FUNC_ELNTFND]. *)
Definition functional_countelements (mesh : objectmesh) (g : nat)
  : option (nat * option (objectsparse R)) :=
  if bool_decide (g = 0) then Some (ncols (vert mesh), None)
  else
    match mesh_getconnectivityelement mesh 0 g with
    | Some s => Some (ccs_ncols_of s, Some s)
    | None => None
    end.

(** [functional_symmetryimagelist]: the column index of every key of C(g,g),
    sorted ascending on request. *)
Definition functional_symmetryimagelist (mesh : objectmesh) (g : nat) (sort : bool)
  : list nat :=
  match mesh_getconnectivityelement mesh g g with
  | Some c =>
      let ids := snd <$> sparsedok_loop (dok c) in
      if sort then merge_sort Nat.le ids else ids
  | None => []
  end.

(** [functional_symmetrysumforces] *)
Definition sum_pair (d : nat) (frc : objectmatrix R) (ij : nat * nat) : objectmatrix R :=
  match matrix_getcolumn frc (fst ij), matrix_getcolumn frc (snd ij) with
  | Some fi, Some fj =>
      let fsum := zip_with radd (take d fi) (take d fj) in
      snd (matrix_setcolumn (snd (matrix_setcolumn frc (fst ij) fsum)) (snd ij) fsum)
  | _, _ => frc
  end.

Definition functional_symmetrysumforces (mesh : objectmesh) (frc : objectmatrix R)
  : bool * objectmatrix R :=
  match mesh_getconnectivityelement mesh 0 0 with
  | Some s => (true, foldl (sum_pair (dim mesh)) frc (sparsedok_loop (dok s)))
  | None => (false, frc)
  end.

(** The loop variables shared by the element loops: the index [sindx] into
    the image list and the current vertex list ([vid] with its length [nv];
    [None] is the [NULL] pointer with [nv = 0]). *)
Record loopvars := {
  sindx : nat;
  vid : option (list Z)
}.

(** [int *vid=(g==0 ? &vertexid : NULL), nv=(g==0 ? 1 : 0)]; the content of
    [vertexid] before its first assignment is [junk]. *)
Definition init_loopvars (g : nat) (junk : Z) : loopvars :=
  {| sindx := 0; vid := if bool_decide (g = 0) then Some [junk] else None |}.

(** [(imageids.count>0) && (sindx<imageids.count) && imageids.data[sindx]==i] *)
Definition is_image (imageids : list nat) (lv : loopvars) (i : nat) : bool :=
  match imageids !! sindx lv with
  | Some x => bool_decide (x = i)
  | None => false
  end.

Definition skip (lv : loopvars) : loopvars :=
  {| sindx := Datatypes.S (sindx lv); vid := vid lv |}.

(** [if (s) sparseccs_getrowindices(&s->ccs, i, &nv, &vid); else vertexid=i;]
    When the look-up fails, [nv] and [vid] keep their previous values. *)
Definition fetch (s : option (objectsparse R)) (lv : loopvars) (i : nat) : loopvars :=
  match s with
  | Some sp =>
      match ccs sp with
      | Some c =>
          match sparseccs_getrowindices c i with
          | Some l => {| sindx := sindx lv; vid := Some l |}
          | None => lv
          end
      | None => lv
      end
  | None =>
      match vid lv with
      | Some _ => {| sindx := sindx lv; vid := Some [Z.of_nat i] |}
      | None => lv
      end
  end.

(** [vid && nv>0] *)
Definition has_vertices (lv : loopvars) : option (list Z) :=
  match vid lv with
  | Some (v :: l) => Some (v :: l)
  | _ => None
  end.

(** The element ids the loops run over: the slots of the selection
    dictionary of grade [g] (when its count is positive), or [0 .. n-1]. *)
Definition loop_ids (sel : option objectselection) (g n : nat) : list nat :=
  match sel with
  | Some sl =>
      if bool_decide (0 < size (selected sl g)) then selslots (selected sl g) else []
  | None => seq 0 n
  end.

(** Kahan summation: [y=result-c; t=sum+y; c=(t-sum)-y; sum=t]. *)
Definition kahan_add (acc : R * R) (result : R) : R * R :=
  let '(sum, c) := acc in
  let y := rsub result c in
  let t := radd sum y in
  let c := rsub (rsub t sum) y in
  (t, c).

(** The element loop of [functional_sumintegrand]; [None] is the jump to
    [functional_sumintegrand_cleanup]. *)
Fixpoint sum_loop (integrand : functional_integrand) (mesh : objectmesh)
    (s : option (objectsparse R)) (imageids : list nat)
    (ids : list nat) (lv : loopvars) (acc : R * R) : option (R * R) :=
  match ids with
  | [] => Some acc
  | i :: ids' =>
      if is_image imageids lv i then
        sum_loop integrand mesh s imageids ids' (skip lv) acc
      else
        let lv := fetch s lv i in
        match has_vertices lv with
        | Some vs =>
            match integrand mesh i vs with
            | Some result =>
                sum_loop integrand mesh s imageids ids' lv (kahan_add acc result)
            | None => None
            end
        | None => sum_loop integrand mesh s imageids ids' lv acc
        end
  end.

(** [functional_sumintegrand]: [None] is the [false] return; [Some None] is
    success with [*out] left as it was (no elements); [Some (Some x)] is
    success with [*out = MORPHO_FLOAT(x)]. *)
Definition functional_sumintegrand (junk : Z) (info : functional_mapinfo)
  : option (option R) :=
  match functional_countelements (mesh info) (g info) with
  | None => None
  | Some (n, s) =>
      let imageids := functional_symmetryimagelist (mesh info) (g info) true in
      if bool_decide (0 < n) then
        match sum_loop (integrand info) (mesh info) s imageids
                (loop_ids (sel info) (g info) n) (init_loopvars (g info) junk)
                (rzero, rzero) with
        | Some (sum, _) => Some (Some sum)
        | None => None
        end
      else Some None
  end.

(** The element loop of [functional_mapintegrand]. *)
Fixpoint map_loop (integrand : functional_integrand) (mesh : objectmesh)
    (s : option (objectsparse R)) (imageids : list nat)
    (ids : list nat) (lv : loopvars) (new : objectmatrix R)
  : option (objectmatrix R) :=
  match ids with
  | [] => Some new
  | i :: ids' =>
      if is_image imageids lv i then
        map_loop integrand mesh s imageids ids' (skip lv) new
      else
        let lv := fetch s lv i in
        match has_vertices lv with
        | Some vs =>
            match integrand mesh i vs with
            | Some result =>
                map_loop integrand mesh s imageids ids' lv
                  (snd (matrix_setelement new 0 i result))
            | None => None
            end
        | None => map_loop integrand mesh s imageids ids' lv new
        end
  end.

(** [functional_mapintegrand]: [None] is the [false] return (also taken when
    there are no elements), [Some m] the 1 x n matrix of integrand values. *)
Definition functional_mapintegrand (junk : Z) (info : functional_mapinfo)
  : option (objectmatrix R) :=
  match functional_countelements (mesh info) (g info) with
  | None => None
  | Some (n, s) =>
      let imageids := functional_symmetryimagelist (mesh info) (g info) true in
      if bool_decide (0 < n) then
        map_loop (integrand info) (mesh info) s imageids
          (loop_ids (sel info) (g info) n) (init_loopvars (g info) junk)
          (object_newmatrix 1 n)
      else None
  end.

(** The element loop of [functional_mapgradient] (no image elements are
    skipped here). *)
Fixpoint grad_loop (grad : functional_gradient) (mesh : objectmesh)
    (s : option (objectsparse R)) (ids : list nat) (lv : loopvars)
    (frc : objectmatrix R) : option (objectmatrix R) :=
  match ids with
  | [] => Some frc
  | i :: ids' =>
      let lv := fetch s lv i in
      match has_vertices lv with
      | Some vs =>
          match grad mesh i vs frc with
          | Some frc' => grad_loop grad mesh s ids' lv frc'
          | None => None
          end
      | None => grad_loop grad mesh s ids' lv frc
      end
  end.

(** [functional_mapgradient] *)
Definition functional_mapgradient (junk : Z) (info : functional_mapinfo)
  : option (objectmatrix R) :=
  match functional_countelements (mesh info) (g info) with
  | None => None
  | Some (n, s) =>
      if bool_decide (0 < n) then
        match grad_loop (grad info) (mesh info) s
                (loop_ids (sel info) (g info) n) (init_loopvars (g info) junk)
                (object_newmatrix (nrows (vert (mesh info))) (ncols (vert (mesh info)))) with
        | Some frc =>
            match sym info with
            | SYMMETRY_ADD => Some (snd (functional_symmetrysumforces (mesh info) frc))
            | SYMMETRY_NONE => Some frc
            end
        | None => None
        end
      else None
  end.

(** The conversion of an [int] to the [unsigned int] index the matrix
    routines take. *)
Definition uint (z : Z) : nat := Z.to_nat (z mod 4294967296).

(** [eps=1e-10] *)
Definition eps : R := rconst (1 # 10000000000).

(** The state of a numerical gradient: the vertex matrix of the mesh, the
    force matrix, and the locals [f0] and [x0]. *)
Record ngstate := {
  ng_vert : objectmatrix R;
  ng_frc : objectmatrix R;
  ng_f0 : R;
  ng_x0 : R
}.

(** The body shared by [functional_numericalgradient] (with [col = vid[j]])
    and [functional_numericalremotegradient] (with [col = remoteid]):
    perturb coordinate [k] of vertex [col] by [+eps] and [-eps], evaluate the
    integrand of element [i], put the coordinate back and add the central
    difference to the force.  The flag is [false] when the integrand fails. *)
Definition perturb_coordinate (integrand : functional_integrand) (mesh : objectmesh)
    (i : nat) (vs : list Z) (col k : nat) (st : ngstate) : bool * ngstate :=
  let f0 := default (ng_f0 st) (matrix_getelement (ng_frc st) k col) in
  let x0 := default (ng_x0 st) (matrix_getelement (ng_vert st) k col) in
  let v1 := snd (matrix_setelement (ng_vert st) k col (radd x0 eps)) in
  match integrand (set_vert mesh v1) i vs with
  | None => (false, {| ng_vert := v1; ng_frc := ng_frc st; ng_f0 := f0; ng_x0 := x0 |})
  | Some fp =>
      let v2 := snd (matrix_setelement v1 k col (rsub x0 eps)) in
      match integrand (set_vert mesh v2) i vs with
      | None => (false, {| ng_vert := v2; ng_frc := ng_frc st; ng_f0 := f0; ng_x0 := x0 |})
      | Some fm =>
          let v3 := snd (matrix_setelement v2 k col x0) in
          let frc := snd (matrix_setelement (ng_frc st) k col
                            (radd f0 (rdiv (rsub fp fm) (rmul (rconst 2) eps)))) in
          (true, {| ng_vert := v3; ng_frc := frc; ng_f0 := f0; ng_x0 := x0 |})
      end
  end.

(** A loop with early exit: [for (...) { if (!body) return false; } return true]. *)
Fixpoint for_each {A S : Type} (body : A -> S -> bool * S) (l : list A) (st : S)
  : bool * S :=
  match l with
  | [] => (true, st)
  | a :: l' =>
      match body a st with
      | (true, st') => for_each body l' st'
      | (false, st') => (false, st')
      end
  end.

(** [functional_numericalgradient] *)
Definition functional_numericalgradient (integrand : functional_integrand)
    (mesh : objectmesh) (i : nat) (vs : list Z) (st : ngstate) : bool * ngstate :=
  for_each (fun v st =>
              for_each (perturb_coordinate integrand mesh i vs (uint v))
                       (seq 0 (dim mesh)) st)
           vs st.

(** [functional_numericalremotegradient] *)
Definition functional_numericalremotegradient (integrand : functional_integrand)
    (mesh : objectmesh) (remoteid : Z) (i : nat) (vs : list Z) (st : ngstate)
  : bool * ngstate :=
  for_each (perturb_coordinate integrand mesh i vs (uint remoteid))
           (seq 0 (dim mesh)) st.

End Functional.
Arguments objectmesh R : clear implicits.
Arguments functional_mapinfo R : clear implicits.
Arguments ngstate R : clear implicits.
End Functional.

(* ===================================================================== *)
(** * The enclosed volume ([VolumeEnclosed] in functional.c) *)
(* ===================================================================== *)

Module FunctionalOps.
Import Matrix MatrixOps Functional.
Section FunctionalOps.
Context {R : Type} `{Scalar R}.

(** [functional_vecdot] *)
Definition functional_vecdot (n : nat) (a b : list R) : R := cblas_ddot n a b.

(** [functional_veccross]: the three-dimensional cross product.  [None]
    stands for a read past the end of a vector. *)
Definition functional_veccross (a b : list R) : option (list R) :=
  a0 ← a !! 0; a1 ← a !! 1; a2 ← a !! 2;
  b0 ← b !! 0; b1 ← b !! 1; b2 ← b !! 2;
  Some [(a1 * b2 - a2 * b1)%sc; (a2 * b0 - a0 * b2)%sc; (a0 * b1 - a1 * b0)%sc].

(** [for (j<nv) matrix_getcolumn(mesh->vert, vid[j], &x[j])]: the vertex
    positions of an element.  A vertex id outside the matrix leaves [x[j]]
    unset ([None]). *)
Definition element_positions (mesh : objectmesh R) (vs : list Z) : option (list (list R)) :=
  mapM (fun v => matrix_getcolumn (vert mesh) (uint v)) vs.

(** [volumeenclosed_integrand].  The cross product fills three entries of
    [cx[mesh->dim]] and the dot product reads [mesh->dim] of them: the
    result is defined in three dimensions. *)
Definition volumeenclosed_integrand : functional_integrand (R:=R) :=
  fun mesh id vs =>
    if bool_decide (dim mesh = 3) then
      x ← element_positions mesh vs;
      x0 ← x !! 0; x1 ← x !! 1; x2 ← x !! 2;
      cx ← functional_veccross x0 x1;
      Some (rabs (functional_vecdot (dim mesh) cx x2) / rconst (6 # 1))%sc
    else None.

(** [dot/=fabs(dot)]: the sign of [dot], of magnitude one.  For a [dot]
    that is zero the code divides zero by zero; the quotient is NaN, a value
    the scalars of this model do not have, and it has no value here
    ([None]). *)
Definition unit_sign (dot : R) : option R :=
  if (rabs dot =? rzero)%sc then None else Some (dot / rabs dot)%sc.

(** [volumeenclosed_gradient]; the result of [matrix_addtocolumn] is not
    looked at.  Where the triple product of the vertices is zero (a face in
    a plane through the origin) the code adds NaN to the three force columns
    and returns [true]; no matrix of the model describes that force, and the
    gradient has no value there ([None]). *)
Definition volumeenclosed_gradient : functional_gradient (R:=R) :=
  fun mesh id vs frc =>
    if bool_decide (dim mesh = 3) then
      x ← element_positions mesh vs;
      x0 ← x !! 0; x1 ← x !! 1; x2 ← x !! 2;
      v0 ← vs !! 0; v1 ← vs !! 1; v2 ← vs !! 2;
      cx ← functional_veccross x0 x1;
      let dot := functional_vecdot (dim mesh) cx x2 in
      dot ← unit_sign dot;
      let frc := snd (matrix_addtocolumn frc (uint v2) (dot / rconst (6 # 1))%sc cx) in
      cx ← functional_veccross x1 x2;
      let frc := snd (matrix_addtocolumn frc (uint v0) (dot / rconst (6 # 1))%sc cx) in
      cx ← functional_veccross x2 x0;
      let frc := snd (matrix_addtocolumn frc (uint v1) (dot / rconst (6 # 1))%sc cx) in
      Some frc
    else None.

End FunctionalOps.
End FunctionalOps.


(* ===================================================================== *)
(** * Optimisation problems and optimizers (optimize.morpho) *)
(* ===================================================================== *)

Module Optimize.
Import Matrix.
Section Optimize.
Context {R : Type} `{Scalar R}.
Local Open Scope monad_scope.

(** Objects are held by reference.  The store maps the reference of a
    matrix or of a field to its entries (the single dense vector of a field
    is kept as a matrix too), and the reference of a mesh to the reference
    of its vertex matrix: [mesh.vertexmatrix()] returns that reference and
    [mesh.setvertexmatrix(v)] replaces it. *)
Definition loc := nat.

Record world := {
  heap : gmap nat (objectmatrix R);
  meshes : gmap nat nat
}.

Definition selection := Functional.objectselection.

(** The [field] property some functionals carry: a field or a list of
    fields. *)
Inductive fieldprop :=
| OneField (f : loc)
| FieldList (fs : list loc).

(** A functional object: its [total(mesh)] / [total(mesh, selection)]
    method, evaluated in the current store, and its [field] property. *)
Record functional := {
  f_total : world -> loc -> option selection -> option R;
  f_field : option fieldprop
}.

(** [class Constraint] (with the [prefactor] the problem adds) *)
Record Constraint := {
  c_functional : functional;
  c_target : R;
  c_field : option loc;
  c_selection : option selection;
  c_onesided : bool;
  c_prefactor : option R
}.

(** [class Energy] *)
Record Energy := {
  e_functional : functional;
  e_selection : option selection;
  e_prefactor : option R
}.

(** [class OptimizationProblem] *)
Record OptimizationProblem := {
  p_mesh : loc;
  p_fields : list loc;
  p_energies : list Energy;
  p_constraints : list Constraint;
  p_localconstraints : list Constraint
}.

(** [OptimizationProblem.init(m)] *)
Definition problem_init (m : loc) : OptimizationProblem :=
  {| p_mesh := m; p_fields := []; p_energies := [];
     p_constraints := []; p_localconstraints := [] |}.

(** [addenergy(functional, selection=nil, prefactor=nil)] *)
Definition addenergy (p : OptimizationProblem) (f : functional)
    (sl : option selection) (prefactor : option R) : Energy * OptimizationProblem :=
  let en := {| e_functional := f; e_selection := sl; e_prefactor := prefactor |} in
  (en, {| p_mesh := p_mesh p; p_fields := p_fields p;
          p_energies := p_energies p ++ [en];
          p_constraints := p_constraints p;
          p_localconstraints := p_localconstraints p |}).

(** [addconstraint(functional, selection=nil, field=nil)]: the target is
    [functional.total(self.mesh, selection)], or [functional.total(self.mesh)]
    without a selection.  [None] is a runtime error raised by [total]. *)
Definition addconstraint (p : OptimizationProblem) (w : world) (f : functional)
    (sl : option selection) (field : option loc)
  : option (Constraint * OptimizationProblem) :=
  target ← f_total f w (p_mesh p) sl;
  let cons := {| c_functional := f; c_target := target; c_field := field;
                 c_selection := sl; c_onesided := false; c_prefactor := None |} in
  Some (cons, {| p_mesh := p_mesh p; p_fields := p_fields p;
                 p_energies := p_energies p;
                 p_constraints := p_constraints p ++ [cons];
                 p_localconstraints := p_localconstraints p |}).

(** [addlocalconstraint(functional, selection=nil, field=nil, onesided=false,
    target=0)]: an argument that is not given takes its default. *)
Definition addlocalconstraint (p : OptimizationProblem) (w : world) (f : functional)
    (sl : option selection) (field : option loc) (onesided : option bool)
    (target : option R) : Constraint * OptimizationProblem :=
  let cons := {| c_functional := f; c_target := default rzero target; c_field := field;
                 c_selection := sl; c_onesided := default false onesided;
                 c_prefactor := None |} in
  (cons, {| p_mesh := p_mesh p; p_fields := p_fields p;
            p_energies := p_energies p;
            p_constraints := p_constraints p;
            p_localconstraints := p_localconstraints p ++ [cons] |}).

(** ** Optimizers *)

(** The two subclasses: a [ShapeOptimizer] has the mesh as its target, a
    [FieldOptimizer] a field. *)
Inductive optimizerkind :=
| ShapeOptimizer
| FieldOptimizer (target : loc).

(** [class Optimizer].  [lcactive] holds, per local constraint, the active
    selection ([None] for [true]: all elements). *)
Record Optimizer := {
  problem : OptimizationProblem;
  kind : optimizerkind;
  force : option (objectmatrix R);
  stepsize : R;
  steplimit : R;
  energy : list R;
  etol : R;
  ctol : R;
  linmintol : R;
  linminmax : nat;
  maxconstraintsteps : nat;
  quiet : bool;
  lcactive : list (option selection)
}.

(** [Optimizer.init(problem, target)] *)
Definition optimizer_init (p : OptimizationProblem) (k : optimizerkind) : Optimizer :=
  {| problem := p; kind := k; force := None;
     stepsize := rconst (1 # 10); steplimit := rconst (1 # 2);
     energy := [];
     etol := rconst (1 # 100000000); ctol := rconst (1 # 10000000000);
     linmintol := rconst (1 # 1000); linminmax := 10;
     maxconstraintsteps := 20; quiet := false; lcactive := [] |}.

Definition set_force (frc : option (objectmatrix R)) (o : Optimizer) : Optimizer :=
  {| problem := problem o; kind := kind o; force := frc;
     stepsize := stepsize o; steplimit := steplimit o; energy := energy o;
     etol := etol o; ctol := ctol o; linmintol := linmintol o;
     linminmax := linminmax o; maxconstraintsteps := maxconstraintsteps o;
     quiet := quiet o; lcactive := lcactive o |}.

Definition set_stepsize (x : R) (o : Optimizer) : Optimizer :=
  {| problem := problem o; kind := kind o; force := force o;
     stepsize := x; steplimit := steplimit o; energy := energy o;
     etol := etol o; ctol := ctol o; linmintol := linmintol o;
     linminmax := linminmax o; maxconstraintsteps := maxconstraintsteps o;
     quiet := quiet o; lcactive := lcactive o |}.

Definition set_energy (es : list R) (o : Optimizer) : Optimizer :=
  {| problem := problem o; kind := kind o; force := force o;
     stepsize := stepsize o; steplimit := steplimit o; energy := es;
     etol := etol o; ctol := ctol o; linmintol := linmintol o;
     linminmax := linminmax o; maxconstraintsteps := maxconstraintsteps o;
     quiet := quiet o; lcactive := lcactive o |}.

Definition set_lcactive (a : list (option selection)) (o : Optimizer) : Optimizer :=
  {| problem := problem o; kind := kind o; force := force o;
     stepsize := stepsize o; steplimit := steplimit o; energy := energy o;
     etol := etol o; ctol := ctol o; linmintol := linmintol o;
     linminmax := linminmax o; maxconstraintsteps := maxconstraintsteps o;
     quiet := quiet o; lcactive := a |}.

(** The methods run on the store and the optimizer object. *)
Definition ostate : Type := world * Optimizer.

Definition set_heap (h : gmap nat (objectmatrix R)) (w : world) : world :=
  {| heap := h; meshes := meshes w |}.

Definition set_meshes (ms : gmap nat nat) (w : world) : world :=
  {| heap := heap w; meshes := ms |}.

Definition self : M ostate Optimizer := fun st => Some (snd st, st).

Definition update_self (f : Optimizer -> Optimizer) : M ostate unit :=
  fun st => Some (tt, (fst st, f (snd st))).

(** Reading and writing the entries of an object in place. *)
Definition read (l : loc) : M ostate (objectmatrix R) :=
  fun st => m ← heap (fst st) !! l; Some (m, st).

Definition write (l : loc) (m : objectmatrix R) : M ostate unit :=
  fun st => Some (tt, (set_heap (<[l := m]> (heap (fst st))) (fst st), snd st)).

(** [x.clone()]: a new object with the same entries. *)
Definition clone (l : loc) : M ostate loc :=
  fun st =>
    m ← heap (fst st) !! l;
    let l' := fresh (dom (heap (fst st))) in
    Some (l', (set_heap (<[l' := object_clonematrix m]> (heap (fst st))) (fst st), snd st)).

(** [gettarget()]: [self.problem.mesh.vertexmatrix()] for a shape
    optimizer, [self.target] for a field optimizer. *)
Definition gettarget : M ostate loc :=
  fun st =>
    match kind (snd st) with
    | ShapeOptimizer => v ← meshes (fst st) !! p_mesh (problem (snd st)); Some (v, st)
    | FieldOptimizer t => Some (t, st)
    end.

(** [settarget(v)]: [self.problem.mesh.setvertexmatrix(v)] makes [v] the
    vertex matrix of the mesh; [self.target.assign(val)] copies the entries
    of [val] into the field. *)
Definition settarget (v : loc) : M ostate unit :=
  fun st =>
    match kind (snd st) with
    | ShapeOptimizer =>
        Some (tt, (set_meshes (<[p_mesh (problem (snd st)) := v]> (meshes (fst st))) (fst st),
                   snd st))
    | FieldOptimizer t => (val <- read v ;; write t val) st
    end.

(** [checkfield(fld)] *)
Definition checkfield (t : loc) (fld : fieldprop) : bool :=
  match fld with
  | OneField f => bool_decide (f = t)
  | FieldList fs => bool_decide (t ∈ fs)
  end.

(** [energies()]: all energies of the problem for a shape optimizer; for a
    field optimizer those whose functional has the target as its field. *)
Definition energies (o : Optimizer) : list Energy :=
  match kind o with
  | ShapeOptimizer => p_energies (problem o)
  | FieldOptimizer t =>
      List.filter (fun e => match f_field (e_functional e) with
                            | Some fld => checkfield t fld
                            | None => false
                            end) (p_energies (problem o))
  end.

(** [total(func)]: [prefactor*func.functional.total(self.problem.mesh, ...)] *)
Definition total (en : Energy) : M ostate R :=
  fun st =>
    t ← f_total (e_functional en) (fst st) (p_mesh (problem (snd st))) (e_selection en);
    Some (rmul (default (rconst 1) (e_prefactor en)) t, st).

(** [totalenergy()] *)
Fixpoint sum_energies (ens : list Energy) (acc : R) : M ostate R :=
  match ens with
  | [] => mret acc
  | en :: ens' => t <- total en ;; sum_energies ens' (radd acc t)
  end.

Definition totalenergy : M ostate R :=
  o <- self ;; sum_energies (energies o) rzero.

(** The constraint machinery.  [initlocalconstraints] assigns
    [self.lcactive]; the loops of [reprojectlocalconstraints] and of
    [reprojectconstraints] write the target object only, in place (through
    [v.setcolumn(k,newv)], [v[k].acc(...)] and [v.acc(sol[i],fv[i])] with
    [v] the target), and [totalforcewithconstraints] returns a new force
    matrix after [initlocalconstraints].  The values they compute come from
    gradients, selections and linear solves that lie outside this model;
    they are parameters, and [None] is a runtime error. *)
Variable active_localconstraints : world -> Optimizer -> option (list (option selection)).
Variable reprojected_local : world -> Optimizer -> option (objectmatrix R).
Variable reprojected_global : world -> Optimizer -> option (objectmatrix R).
Variable constrained_force : world -> Optimizer -> option (objectmatrix R).

Definition initlocalconstraints : M ostate unit :=
  fun st =>
    a ← active_localconstraints (fst st) (snd st);
    Some (tt, (fst st, set_lcactive a (snd st))).

Definition reprojectlocalconstraints : M ostate unit :=
  target <- gettarget ;;
  v <- (fun st => v ← reprojected_local (fst st) (snd st); Some (v, st)) ;;
  write target v.

Definition reprojectconstraints : M ostate unit :=
  target <- gettarget ;;
  v <- (fun st => v ← reprojected_global (fst st) (snd st); Some (v, st)) ;;
  write target v.

Definition totalforcewithconstraints : M ostate (objectmatrix R) :=
  f <- (fun st => f ← constrained_force (fst st) (snd st); Some (f, st)) ;;
  initlocalconstraints ;;;
  mret f.

(** [step(stepsize)] *)
Definition step (size : R) : M ostate unit :=
  target <- gettarget ;;
  o <- self ;;
  match force o with
  | None => mret tt
  | Some frc =>
      v <- read target ;;
      v' <- mlift (matrix_accumulate v (ropp size) frc) ;;
      write target v' ;;;
      initlocalconstraints ;;;
      reprojectlocalconstraints ;;;
      reprojectconstraints
  end.

(** [energywithstepsize(size)] *)
Definition energywithstepsize (size : R) : M ostate R :=
  target <- gettarget ;;
  vsave <- clone target ;;
  step size ;;;
  energy <- totalenergy ;;
  settarget vsave ;;;
  mret energy.

(** The lists [s] and [bracket] of [bracketstepsize]. *)
Record brackets := {
  s0 : R; s1 : R; s2 : R;
  e0 : R; e1 : R; e2 : R
}.

(** [bracket[1]<bracket[0] && bracket[1]<bracket[2]] *)
Definition bracketed (b : brackets) : bool :=
  rltb (e1 b) (e0 b) && rltb (e1 b) (e2 b).

(** One pass through the body of the [while] loop, up to the test of
    [iter]: the step size is doubled or halved, or the search stops with
    [Cannot resolve bracket] ([None]). *)
Definition bracket_pass (b : brackets) : M ostate (option brackets) :=
  if rltb (e2 b) (e1 b) then
    let s2' := rmul (rconst 2) (s2 b) in
    e <- energywithstepsize s2' ;;
    mret (Some {| s0 := s0 b; s1 := s2 b; s2 := s2';
                  e0 := e0 b; e1 := e2 b; e2 := e |})
  else if rltb (e0 b) (e1 b) then
    let s1' := rdiv (s1 b) (rconst 2) in
    e <- energywithstepsize s1' ;;
    mret (Some {| s0 := s0 b; s1 := s1'; s2 := s2 b;
                  e0 := e0 b; e1 := e; e2 := e2 b |})
  else mret None.

(** The outcome of the loop; [OutOfFuel] marks the end of the recursion
    budget of this model, which the loop never reaches
    (see [bracket_loop_fuel]). *)
Inductive loop_result :=
| Bracketed (b : brackets)
| GaveUp
| OutOfFuel.

(** [while (!(...)) { ... if (iter>10) return nil; iter+=1 }] *)
Fixpoint bracket_loop (fuel iter : nat) (b : brackets) : M ostate loop_result :=
  if bracketed b then mret (Bracketed b)
  else
    match fuel with
    | O => mret OutOfFuel
    | Datatypes.S fuel' =>
        ob <- bracket_pass b ;;
        match ob with
        | None => mret GaveUp
        | Some b' =>
            if bool_decide (10 < iter) then mret GaveUp
            else bracket_loop fuel' (Datatypes.S iter) b'
        end
    end.

(** The first trial sizes and energies:
    [s = [0, stepsize, 2*stepsize]],
    [bracket = [totalenergy(), energywithstepsize(s[1]), energywithstepsize(s[2])]]. *)
Definition bracket_start : M ostate brackets :=
  o <- self ;;
  let z := rzero in
  let a := stepsize o in
  let b := rmul (rconst 2) (stepsize o) in
  ea <- totalenergy ;;
  eb <- energywithstepsize a ;;
  ec <- energywithstepsize b ;;
  mret {| s0 := z; s1 := a; s2 := b; e0 := ea; e1 := eb; e2 := ec |}.

(** [bracketstepsize()]: [Some b] is the list [[s, bracket]], [None] is [nil]. *)
Definition bracketstepsize : M ostate (option brackets) :=
  b <- bracket_start ;;
  r <- bracket_loop 12 0 b ;;
  match r with
  | Bracketed b' => mret (Some b')
  | GaveUp => mret None
  | OutOfFuel => mfail
  end.

(** [hasconverged()] *)
Definition hasconverged (o : Optimizer) : bool :=
  match rev (energy o) with
  | last :: before :: _ =>
      let de := rabs (rsub last before) in
      rltb (rabs last) (etol o) || rltb (rdiv de (rabs last)) (etol o)
  | _ => false
  end.

(** [dolinesearch()]: [false] when no bracket was found, otherwise the
    step size is set to the minimiser found by [brent]. *)
Definition dolinesearch : M ostate bool :=
  brack <- bracketstepsize ;;
  match brack with
  | None => mret false
  | Some b =>
      o <- self ;;
      st <- Brent.brent energywithstepsize (linmintol o) (s0 b, s1 b, s2 b) (linminmax o) ;;
      update_self (set_stepsize (fst st)) ;;;
      mret true
  end.

(** The [for] loop of [linesearch(n)]. *)
Fixpoint linesearch_loop (n : nat) : M ostate unit :=
  match n with
  | O => mret tt
  | Datatypes.S n' =>
      f <- totalforcewithconstraints ;;
      update_self (set_force (Some f)) ;;;
      ok <- dolinesearch ;;
      if negb ok then mret tt
      else
        update_self (fun o => if rltb (steplimit o) (stepsize o)
                              then set_stepsize (steplimit o) o else o) ;;;
        o <- self ;;
        step (stepsize o) ;;;
        e <- totalenergy ;;
        update_self (fun o => set_energy (energy o ++ [e]) o) ;;;
        o <- self ;;
        if hasconverged o then mret tt else linesearch_loop n'
  end.

(** [if (self.energy.count()==0) self.energy.append(self.totalenergy())] *)
Definition record_initial_energy : M ostate unit :=
  o <- self ;;
  if bool_decide (length (energy o) = 0)
  then e <- totalenergy ;; update_self (fun o => set_energy (energy o ++ [e]) o)
  else mret tt.

(** [linesearch(n)] returns [self.energy]. *)
Definition linesearch (n : nat) : M ostate (list R) :=
  record_initial_energy ;;;
  linesearch_loop n ;;;
  o <- self ;;
  mret (energy o).


End Optimize.
Arguments world R : clear implicits.
Arguments functional R : clear implicits.
Arguments Constraint R : clear implicits.
Arguments Energy R : clear implicits.
Arguments OptimizationProblem R : clear implicits.
Arguments Optimizer R : clear implicits.
Arguments ostate R : clear implicits.
Arguments brackets R : clear implicits.
Arguments loop_result R : clear implicits.
End Optimize.

(* ===================================================================== *)
(** * Forces and fixed vertices ([Optimizer], [ShapeOptimizer]) *)
(* ===================================================================== *)

Module OptimizeOps.
Import Matrix MatrixOps.
Section OptimizeOps.
Context {R : Type} `{Scalar R}.

(** [forceinnerproducts(fv)]: the matrix of the inner products of the
    forces; only the pairs with [i <= j] are computed.  [None] is a runtime
    error. *)
Definition forceinnerproducts_entry (fv : list (objectmatrix R)) (i : nat)
    (om : option (objectmatrix R)) (j : nat) : option (objectmatrix R) :=
  m ← om;
  a ← fv !! i;
  b ← fv !! j;
  x ← Matrix_inner a b;
  m ← Matrix_setindex m i j x;
  y ← Matrix_getindex m i j;
  Matrix_setindex m j i y.

Definition forceinnerproducts (fv : list (objectmatrix R)) : option (objectmatrix R) :=
  let nc := length fv in
  foldl (fun om i => foldl (forceinnerproducts_entry fv i) om (seq i (nc - i)))
        (Some (matrix_constructor nc nc)) (seq 0 nc).

(** The body of the loop of [ShapeOptimizer.sublocal(f, g)] for the vertex
    [i]: the part of the force along the constraint gradient of the vertex
    is removed when that gradient is not negligible. *)
Definition sublocal_vertex (ctol : R) (g : objectmatrix R)
    (cur : option (objectmatrix R)) (i : nat) : option (objectmatrix R) :=
  f ← cur;
  gc ← Matrix_getcolumn g i;
  gg ← Matrix_inner gc gc;
  if (rabs gg >? ctol)%sc then
    fc ← Matrix_getcolumn f i;
    p ← Matrix_inner fc gc;
    let lambda := (p / gg)%sc in
    fc ← Matrix_acc fc (- lambda)%sc gc;
    Matrix_setcolumn f i fc
  else Some f.

(** [ShapeOptimizer.sublocal(f, g)]: [f] after the call. *)
Definition sublocal (ctol : R) (f g : objectmatrix R) : option (objectmatrix R) :=
  foldl (sublocal_vertex ctol g) (Some f) (seq 0 (ncols f)).

(** [ShapeOptimizer.fixgrad(grad)]: [grad] after the call; [fixed] is
    [self.fixed], [None] for [nil]. *)
Definition fixgrad (fixed : option (list nat)) (grad : objectmatrix R)
  : option (objectmatrix R) :=
  match fixed with
  | Some l =>
      let zero := matrix_constructor (nrows grad) 1 in
      foldl (fun og i => g ← og; Matrix_setcolumn g i zero) (Some grad) l
  | None => Some grad
  end.

(** [ShapeOptimizer.fix(s)] for a list [s] of vertex ids: [self.fixed]
    after the call. *)
Definition fix_vertices (fixed : option (list nat)) (lst : list nat) : list nat :=
  foldl (fun fx i => if bool_decide (i ∈ fx) then fx else fx ++ [i])
        (default [] fixed) lst.

End OptimizeOps.
End OptimizeOps.

(* ===================================================================== *)
(** * Relaxation at fixed step size ([Optimizer.relax]) *)
(* ===================================================================== *)

Module OptimizeLoops.
Import Matrix Optimize.
Section OptimizeLoops.
Context {R : Type} `{Scalar R}.
Local Open Scope monad_scope.

Variable active_localconstraints : world R -> Optimizer R -> option (list (option selection)).
Variable reprojected_local : world R -> Optimizer R -> option (objectmatrix R).
Variable reprojected_global : world R -> Optimizer R -> option (objectmatrix R).
Variable constrained_force : world R -> Optimizer R -> option (objectmatrix R).



End OptimizeLoops.
End OptimizeLoops.

(* ===================================================================== *)
(** * The mesh refiner ([MeshRefiner] in graphics.morpho) *)
(* ===================================================================== *)

Module Refine.
Section Refine.
Context {R : Type} `{Scalar R}.

(** An entry of a dictionary of the refinement map: the id of one old
    element (an integer), or a list of old ids. *)
Inductive mapentry :=
| MapInt (old : nat)
| MapList (olds : list nat).

(** ** Selections *)

(** Modelled from the spec: the Selection class (selection.c is not among
    the sources).  Per grade, a mapping from element id to a boolean flag,
    with [count(g)], the membership test [sel[g, id]] and the assignment
    [sel[g, id] = true]. *)
Record Selection := {
  selected : nat -> gset nat
}.

Definition selection_new : Selection := {| selected := fun _ => ∅ |}.

Definition selection_count (sel : Selection) (g : nat) : nat := size (selected sel g).

Definition selection_isselected (sel : Selection) (g id : nat) : bool :=
  bool_decide (id ∈ selected sel g).

Definition selection_select (sel : Selection) (g id : nat) : Selection :=
  {| selected := fun g' => if bool_decide (g' = g) then {[id]} ∪ selected sel g'
                           else selected sel g' |}.

(** ** Fields *)

(** The items a field stores: numbers, or matrices of a fixed shape. *)
Inductive item :=
| FloatItem (x : R)
| MatrixItem (xs : list R).

(** [a + b] on items; [None] is a runtime error. *)
Definition item_add (a b : item) : option item :=
  match a, b with
  | FloatItem x, FloatItem y => Some (FloatItem (radd x y))
  | MatrixItem xs, MatrixItem ys =>
      if bool_decide (length xs = length ys)
      then Some (MatrixItem (zip_with radd xs ys)) else None
  | _, _ => None
  end.

(** [a / n] for an integer [n].  Two numbers are divided.  For a matrix,
    [Matrix_div] by a scalar raises [VM_DVZR] when [fabs(scale)<MORPHO_EPS]
    ([None]) and otherwise scales a copy of the matrix by [1.0/scale]
    ([cblas_dscal]).  [MORPHO_EPS], a small positive constant, is not among
    the sources; of the integers only 0 is taken to be below it. *)
Definition item_div (a : item) (n : nat) : option item :=
  let d := rconst (inject_Z (Z.of_nat n)) in
  match a with
  | FloatItem x => Some (FloatItem (rdiv x d))
  | MatrixItem xs =>
      if bool_decide (n = 0) then None
      else Some (MatrixItem ((fun x => rmul (rdiv (rconst 1) d) x) <$> xs))
  end.

(** Modelled from the spec: the Field class (field.c is not among the
    sources), following the spec and the reference manual (field.tex).  A
    field stores [shape[g]] items on every element of grade [g];
    [Field(mesh, prototype, grade=shape)] initialises every item to the
    prototype; the full access is [f[grade, element, index]], and an
    omitted index is 0, so [f[g, id]] reads and [f[g, id] = v] writes the
    item of index 0 of an element; an access outside the field is a
    runtime error ([None]); [enumerate(0)] is the first item in storage
    order. *)
Record Field := {
  fshape : list nat;
  fcount : nat -> nat;
  fitems : nat -> nat -> nat -> item
}.

Definition field_new (count : nat -> nat) (prototype : item) (shape : list nat) : Field :=
  {| fshape := shape; fcount := count; fitems := fun _ _ _ => prototype |}.

Definition field_getitem (f : Field) (g id k : nat) : option item :=
  if bool_decide (id < fcount f g) && bool_decide (k < default 0 (fshape f !! g))
  then Some (fitems f g id k) else None.

Definition field_setitem (f : Field) (g id k : nat) (v : item) : option Field :=
  if bool_decide (id < fcount f g) && bool_decide (k < default 0 (fshape f !! g))
  then Some {| fshape := fshape f; fcount := fcount f;
               fitems := fun g' id' k' =>
                 if bool_decide (g' = g /\ id' = id /\ k' = k) then v
                 else fitems f g' id' k' |}
  else None.

Definition field_getindex (f : Field) (g id : nat) : option item := field_getitem f g id 0.

Definition field_setindex (f : Field) (g id : nat) (v : item) : option Field :=
  field_setitem f g id 0 v.

Definition field_enumerate0 (f : Field) : option item :=
  (fun g => fitems f g 0 0) <$>
    list_find (fun g => 0 < default 0 (fshape f !! g) /\ 0 < fcount f g)
              (seq 0 (length (fshape f))) ≫= (fun p => Some (snd p)).

(** ** The refiner *)

(** The state of a [MeshRefiner] that its other methods read after
    [refinemesh]: the refinement map ([None] for [nil]) and, of the new
    mesh [self.new], the largest grade and the number of elements of each
    grade. *)
Record MeshRefiner := {
  refinemap : option (list (gmap nat mapentry));
  new_maxgrade : nat;
  new_count : nat -> nat
}.

(** The body of the loop over the keys of one dictionary in
    [refineselection]:
    [if (isint(dict[id]) && sel[g, dict[id]]) result[g, id]=true]. *)
Definition refineselection_entry (sel : Selection) (g : nat)
    (id : nat) (entry : mapentry) (result : Selection) : Selection :=
  match entry with
  | MapInt old =>
      if selection_isselected sel g old then selection_select result g id else result
  | MapList _ => result
  end.

(** The body of the loop over the grades. *)
Definition refineselection_grade (rm : list (gmap nat mapentry)) (sel : Selection)
    (result : option Selection) (g : nat) : option Selection :=
  result ← result;
  dict ← rm !! g;
  if bool_decide (selection_count sel g = 0) then Some result
  else Some (map_fold (refineselection_entry sel g) result dict).

(** [refineselection(sel)]: [None] is a runtime error, [Some None] the
    result [nil]. *)
Definition refineselection (mr : MeshRefiner) (sel : Selection)
  : option (option Selection) :=
  match refinemap mr with
  | Some rm =>
      result ← foldl (refineselection_grade rm sel) (Some selection_new)
                     (seq 0 (Datatypes.S (new_maxgrade mr)));
      Some (Some result)
  | None => Some None
  end.

(** [for (i in 0...nn) sum+=field[g, map[i]]], starting from [sum]
    ([None] is [nil], and [nil + x] is [x]). *)
Fixpoint sum_parents (field : Field) (g : nat) (olds : list nat) (sum : option item)
  : option (option item) :=
  match olds with
  | [] => Some sum
  | old :: olds' =>
      x ← field_getindex field g old;
      s ← match sum with
          | Some s => item_add s x
          | None => Some x
          end;
      sum_parents field g olds' (Some s)
  end.

(** [isfloat(prototype)] *)
Definition isfloat (v : item) : bool :=
  match v with FloatItem _ => true | MatrixItem _ => false end.

(** The body of the loop over one dictionary in [refinefield]. *)
Definition refinefield_entry (field : Field) (prototype : item) (g : nat)
    (result : option Field) (kv : nat * mapentry) : option Field :=
  result ← result;
  match snd kv with
  | MapList olds =>
      let sum := if isfloat prototype then Some (FloatItem rzero) else None in
      if bool_decide (length olds = 0) then Some result
      else
        sum ← sum_parents field g olds sum;
        sum ← sum;
        sum ← item_div sum (length olds);
        field_setindex result g (fst kv) sum
  | MapInt old =>
      x ← field_getindex field g old;
      field_setindex result g (fst kv) x
  end.

(** The body of the loop over the grades. *)
Definition refinefield_grade (rm : list (gmap nat mapentry)) (field : Field)
    (prototype : item) (result : option Field) (g : nat) : option Field :=
  result ← result;
  if bool_decide (default 0 (fshape field !! g) = 0) then Some result
  else
    dict ← rm !! g;
    foldl (refinefield_entry field prototype g) (Some result) (map_to_list dict).

(** [refinefield(field)]: [None] is a runtime error, [Some None] the result
    [nil]. *)
Definition refinefield (mr : MeshRefiner) (field : Field) : option (option Field) :=
  match refinemap mr, field_enumerate0 field with
  | Some rm, Some prototype =>
      result ← foldl (refinefield_grade rm field prototype)
                     (Some (field_new (new_count mr) prototype (fshape field)))
                     (seq 0 (length (fshape field)));
      Some (Some result)
  | _, _ => Some None
  end.

(** ** Splitting elements *)

(** Modelled from the spec: the k-d tree (not among the sources) that
    de-duplicates midpoints by their coordinates; its tolerance is taken to
    be zero.  A node holds a point and the [id] assigned to it, if any. *)
Definition kdtree : Type := list (list R * option nat).

Definition same_point (p q : list R) : bool :=
  bool_decide (length p = length q) && forallb (fun xy => reqb (fst xy) (snd xy)) (zip p q).

Definition tree_ismember (tree : kdtree) (p : list R) : option (list R * option nat) :=
  List.find (fun node => same_point (fst node) p) tree.

(** What [split] updates: the vertices of the mesh builder, the tree and
    the dictionary of grade 0. *)
Record splitstate := {
  mb_vertices : list (list R);
  tree : kdtree;
  vdict : gmap nat mapentry
}.

(** [(vert.column(a)+vert.column(b))/2] *)
Definition midpoint (vert : list (list R)) (a b : nat) : option (list R) :=
  va ← vert !! a;
  vb ← vert !! b;
  Some (zip_with (fun x y => rdiv (radd x y) (rconst 2)) va vb).

(** The body of the two loops of [split] for the vertices [el[i]], [el[j]]. *)
Definition split_pair (vert : list (list R)) (st : option splitstate) (ab : nat * nat)
  : option splitstate :=
  st ← st;
  m ← midpoint vert (fst ab) (snd ab);
  match tree_ismember (tree st) m with
  | Some _ => Some st
  | None =>
      let id := length (mb_vertices st) in
      Some {| mb_vertices := mb_vertices st ++ [m];
              tree := tree st ++ [(m, Some id)];
              vdict := <[id := MapList [fst ab; snd ab]]> (vdict st) |}
  end.

(** The pairs [(el[i], el[j])] with [i < j], in the order of the loops. *)
Fixpoint vertex_pairs (el : list nat) : list (nat * nat) :=
  match el with
  | [] => []
  | a :: rest => ((fun b => (a, b)) <$> rest) ++ vertex_pairs rest
  end.

(** [split(id, el, vert, mb, tree, dict)] *)
Definition split (el : list nat) (vert : list (list R)) (st : option splitstate)
  : option splitstate :=
  foldl (split_pair vert) st (vertex_pairs el).

(** The first part of [refinemesh]: every old vertex is added to the mesh
    builder and recorded in the dictionary of grade 0, the tree is built
    from the old vertices, and the elements of each grade (of the
    selection, if one is given) are split. [elements] lists, grade by grade
    from grade 1 on, the vertex ids of the elements. *)
Definition seed_vertices (vert : list (list R)) : splitstate :=
  {| mb_vertices := vert;
     tree := (fun v => (v, None)) <$> vert;
     vdict := list_to_map ((fun i => (i, MapInt i)) <$> seq 0 (length vert)) |}.

Definition split_grade (vert : list (list R)) (selection : option Selection)
    (st : option splitstate) (gels : nat * list (list nat)) : option splitstate :=
  foldl (fun st iel =>
           match selection with
           | Some sel =>
               if selection_isselected sel (fst gels) (fst iel) then split (snd iel) vert st
               else st
           | None => split (snd iel) vert st
           end)
        st (imap (fun i el => (i, el)) (snd gels)).

Definition refinemesh_vertices (vert : list (list R)) (elements : list (list (list nat)))
    (selection : option Selection) : option splitstate :=
  foldl (split_grade vert selection) (Some (seed_vertices vert))
        (imap (fun g els => (Datatypes.S g, els)) elements).

End Refine.
Arguments mapentry : clear implicits.
Arguments item R : clear implicits.
Arguments Field R : clear implicits.
Arguments splitstate R : clear implicits.
Arguments kdtree R : clear implicits.
End Refine.

(* ===================================================================== *)
(** * Connectivity of a mesh under construction ([MeshBuilder]) *)
(* ===================================================================== *)

Module MeshBuild.
Import Sparse.
Section MeshBuild.
Context {R : Type} `{Scalar R}.

(** [Sparse(nrows, ncols)]: [object_newsparse] with the dimensions set. *)
Definition sparse_constructor (nr nc : nat) : objectsparse R :=
  {| dok := snd (sparsedok_setdimensions sparsedok_init nr nc); ccs := None |}.

(** [s[i, j] = val] for a number [val]: the element is entered as a float. *)
Definition Sparse_setindex (s : objectsparse R) (i j : nat) (val : R) : objectsparse R :=
  snd (sparse_setelement s i j (VFloat val)).

(** [MeshBuilder.makeconnectivity(el)]: [nil] ([None]) without elements,
    otherwise the sparse matrix with a one at (v, id) for every vertex [v]
    of the element [id]. *)
Definition makeconnectivity (el : list (list nat)) : option (objectsparse R) :=
  if bool_decide (length el = 0) then None
  else
    Some (foldl (fun s idlst =>
                   foldl (fun s v => Sparse_setindex s v (fst idlst) (rconst 1))
                         s (snd idlst))
                (sparse_constructor 0 0) (imap pair el)).

End MeshBuild.
End MeshBuild.


(* ===================================================================== *)
(** * Part II: properties *)
(* ===================================================================== *)

Lemma Q_rltb_spec (x y : Q) : rltb x y = true <-> (x < y)%Q.
Proof.
  simpl. rewrite negb_true_iff. split.
  - intros Hb. apply Qnot_le_lt. intros Hle.
    apply Qle_bool_iff in Hle. congruence.
  - intros Hlt. destruct (Qle_bool y x) eqn:E; [|reflexivity].
    apply Qle_bool_iff in E. exfalso. exact (Qlt_not_le _ _ Hlt E).
Qed.

Lemma Q_rleb_spec (x y : Q) : rleb x y = true <-> (x <= y)%Q.
Proof. simpl. apply Qle_bool_iff. Qed.

Lemma Q_rltb_false (x y : Q) : rltb x y = false <-> (y <= x)%Q.
Proof.
  simpl. rewrite negb_false_iff. apply Qle_bool_iff.
Qed.

Lemma Q_rleb_false (x y : Q) : rleb x y = false <-> (y < x)%Q.
Proof.
  rewrite <- Q_rltb_spec. simpl. destruct (Qle_bool x y); simpl; intuition congruence.
Qed.


Module BrentQ.
Import Brent.
Local Open Scope Q_scope.

(** The conditions under which a pass takes the parabolic step, over the
    rationals: the step before last exceeds [tol1] (the guard of the fit),
    [|p| < |q*e/2|], and [p/q] lies strictly between [a-x] and [b-x]. *)
Definition parabola_ok (tol : Q) (st : bstate (R:=Q)) : Prop :=
  let p := fst (parabola st) in
  let q := snd (parabola st) in
  tol1 tol st < Qabs (be st)
  /\ Qabs p < Qabs ((1 # 2) * q * be st)
  /\ ba st - bx st < p / q
  /\ p / q < bb st - bx st.

(** The new abscissa [x + p/q] lies within [tol2] of an end of the
    bracket: [u-a < tol2 || b-u < tol2]. *)
Definition near_end (tol : Q) (st : bstate (R:=Q)) : Prop :=
  let u := bx st + fst (parabola st) / snd (parabola st) in
  u - ba st < tol2 tol st \/ bb st - u < tol2 tol st.

(** C7, as stated: the parabolic step is accepted only when
    [|p| < |q*e/2|], [p/q] lies in [(a-x, b-x)] and the magnitude of the
    step is at least [tol1]; in every other case the step of the pass is
    the golden-section step. *)
Definition step_rule_as_claimed (tol : Q) (st : bstate (R:=Q)) : Prop :=
  let p := fst (parabola st) in
  let q := snd (parabola st) in
  ~ (Qabs p < Qabs ((1 # 2) * q * be st)
     /\ ba st - bx st < p / q /\ p / q < bb st - bx st
     /\ tol1 tol st <= Qabs (p / q)) ->
  trialstep tol st = golden st.

Lemma parabola_q_nonneg (st : bstate (R:=Q)) : 0 <= snd (parabola st).
Proof. unfold parabola. cbv [snd]. exact (Qabs_nonneg _). Qed.

Lemma Qabs_half_q_zero (q e : Q) : q == 0 -> Qabs ((1 # 2) * q * e) == 0.
Proof. intros ->. rewrite Qmult_0_r, Qmult_0_l. reflexivity. Qed.

Lemma parabola_q_pos (st : bstate (R:=Q)) (e : Q) :
  Qabs (fst (parabola st)) < Qabs ((1 # 2) * snd (parabola st) * e) ->
  0 < snd (parabola st).
Proof.
  intros Hlt. destruct (Qle_lt_or_eq _ _ (parabola_q_nonneg st)) as [Hp|Hz]; [exact Hp|].
  exfalso. symmetry in Hz. rewrite (Qabs_half_q_zero _ e Hz) in Hlt.
  exact (Qlt_not_le _ _ Hlt (Qabs_nonneg _)).
Qed.

Lemma parabola_ok_iff_not_bad (tol : Q) (st : bstate (R:=Q)) :
  parabola_ok tol st <->
  (rltb (tol1 tol st) (rabs (be st)) = true /\ parabola_bad st = false).
Proof.
  unfold parabola_ok, parabola_bad.
  destruct (parabola st) as [p q] eqn:Epq.
  assert (Hq0 : 0 <= q).
  { pose proof (parabola_q_nonneg st) as Hn. rewrite Epq in Hn. exact Hn. }
  cbn [fst snd].
  rewrite !orb_false_iff, Q_rltb_spec, !Q_rleb_false.
  split.
  - intros (He & Hp & Hl & Hr).
    assert (Hq : 0 < q).
    { pose proof (parabola_q_pos st (be st)) as Hpos. rewrite Epq in Hpos. exact (Hpos Hp). }
    assert (Hqne : ~ q == 0) by (intros Hz; rewrite Hz in Hq; discriminate Hq).
    repeat split; [exact He | exact Hp | |].
    + apply (Qmult_lt_l _ _ q Hq) in Hl.
      rewrite Qmult_div_r in Hl by exact Hqne. exact Hl.
    + apply (Qmult_lt_l _ _ q Hq) in Hr.
      rewrite Qmult_div_r in Hr by exact Hqne. exact Hr.
  - intros (He & (Hp & Hl) & Hr).
    assert (Hq : 0 < q).
    { pose proof (parabola_q_pos st (be st)) as Hpos. rewrite Epq in Hpos. exact (Hpos Hp). }
    repeat split; [exact He | exact Hp | |].
    + apply Qlt_shift_div_l; [exact Hq|]. rewrite Qmult_comm. exact Hl.
    + apply Qlt_shift_div_r; [exact Hq|]. rewrite Qmult_comm. exact Hr.
Qed.

Lemma sign_cases (x y : Q) :
  (y < 0 -> sign x y = - Qabs x)
  /\ (0 < y -> sign x y = Qabs x)
  /\ (y == 0 -> sign x y = 0).
Proof.
  unfold sign, rzero. cbn [rconst ropp rabs Q_Scalar].
  split; [|split]; intros Hy.
  - by rewrite (proj2 (Q_rltb_spec y 0) Hy).
  - rewrite (proj2 (Q_rltb_false y 0)) by lra. by rewrite (proj2 (Q_rltb_spec 0 y) Hy).
  - rewrite (proj2 (Q_rltb_false y 0)) by lra. by rewrite (proj2 (Q_rltb_false 0 y)) by lra.
Qed.

(** C7, as amended (exact arithmetic).  Brent's minimiser uses
    [cgold = 0.3819660] and [zeps = 1e-10]; with [tol1 = tol*|x| + zeps] and
    [tol2 = 2*tol1] a pass of the loop returns [[x, fx]] exactly when
    [|x - xm| <= tol2 - (b-a)/2], and otherwise evaluates the function at
    one new abscissa.  The step of that pass is parabolic exactly when
    [parabola_ok] holds: the step before last exceeds [tol1],
    [|p| < |q*e/2|] and [p/q] lies in [(a-x, b-x)]; then [e] becomes the
    previous [d], and [d] is [p/q], or [tol1] towards the midpoint when
    [x + p/q] is within [tol2] of an end of the bracket.  In every other
    case it is the golden-section step [d = cgold*e] with [e = a-x] or
    [e = b-x].  The magnitude of the step is no condition of acceptance: the
    function is evaluated at [x+d] when [|d| >= tol1], and at a distance
    [tol1] from [x] on the side of [d] otherwise, whichever step [d] is. *)
Theorem brent_step_rule {S : Type} (func : Q -> M S Q) (tol : Q) (n : nat)
    (st : bstate (R:=Q)) :
  cgold = (3819660 # 10000000) /\ zeps = (1 # 10000000000)
  /\ xmid st = (1 # 2) * (ba st + bb st)
  /\ tol1 tol st = tol * Qabs (bx st) + zeps
  /\ tol2 tol st = 2 * tol1 tol st
  /\ (Qabs (bx st - xmid st) <= tol2 tol st - (1 # 2) * (bb st - ba st) ->
      brent_loop func tol (Datatypes.S n) st = mret (bx st, bfx st))
  /\ (~ Qabs (bx st - xmid st) <= tol2 tol st - (1 # 2) * (bb st - ba st) ->
      brent_loop func tol (Datatypes.S n) st =
      mbind (func (abscissa tol st (fst (trialstep tol st))))
            (fun fu => brent_loop func tol n
               (update st (fst (trialstep tol st)) (snd (trialstep tol st))
                       (abscissa tol st (fst (trialstep tol st))) fu)))
  /\ (parabola_ok tol st ->
      snd (trialstep tol st) = bd st
      /\ (near_end tol st ->
            fst (trialstep tol st) = sign (tol1 tol st) (xmid st - bx st))
      /\ (~ near_end tol st ->
            fst (trialstep tol st) = fst (parabola st) / snd (parabola st)))
  /\ (~ parabola_ok tol st ->
      trialstep tol st = golden st)
  /\ golden st =
     (cgold * (if Qle_bool (xmid st) (bx st) then ba st - bx st else bb st - bx st),
      if Qle_bool (xmid st) (bx st) then ba st - bx st else bb st - bx st)
  /\ (Qle_bool (xmid st) (bx st) = true <-> xmid st <= bx st)
  /\ (forall d, tol1 tol st <= Qabs d -> abscissa tol st d = bx st + d)
  /\ (forall d, Qabs d < tol1 tol st ->
        abscissa tol st d = bx st + sign (tol1 tol st) d)
  /\ (forall x y, (y < 0 -> sign x y = - Qabs x)
                  /\ (0 < y -> sign x y = Qabs x)
                  /\ (y == 0 -> sign x y = 0)).
Proof.
  repeat match goal with |- _ /\ _ => split end; try reflexivity.
  - intros Hc. cbn [brent_loop]. unfold converged.
    destruct (rleb _ _) eqn:E; [reflexivity|].
    exfalso. apply Q_rleb_false in E. exact (Qlt_not_le _ _ E Hc).
  - intros Hc. cbn [brent_loop]. unfold converged.
    destruct (rleb _ _) eqn:E; [|reflexivity].
    exfalso. apply Hc. apply Q_rleb_spec. exact E.
  - intros Hok. apply parabola_ok_iff_not_bad in Hok as [He Hbad].
    unfold trialstep, near_end. rewrite He, Hbad.
    destruct (parabola st) as [p q]. cbn [fst snd].
    split.
    { reflexivity. }
    split.
    + intros Hnear.
      assert (E : rltb (bx st + p / q - ba st)%sc (tol2 tol st)
                  || rltb (bb st - (bx st + p / q))%sc (tol2 tol st) = true).
      { apply orb_true_iff. destruct Hnear as [Hl|Hr]; [left; exact (proj2 (Q_rltb_spec _ _) Hl)
                                   |right; exact (proj2 (Q_rltb_spec _ _) Hr)]. }
      by rewrite E.
    + intros Hfar.
      assert (E : rltb (bx st + p / q - ba st)%sc (tol2 tol st)
                  || rltb (bb st - (bx st + p / q))%sc (tol2 tol st) = false).
      { apply orb_false_iff.
        split; apply (proj2 (Q_rltb_false _ _)); apply Qnot_lt_le; intros Hlt;
          apply Hfar; [left|right]; exact Hlt. }
      by rewrite E.
  - intros Hnok. unfold trialstep.
    destruct (rltb (tol1 tol st) (rabs (be st))) eqn:He; [|reflexivity].
    destruct (parabola_bad st) eqn:Hbad; [reflexivity|].
    exfalso. apply Hnok. apply parabola_ok_iff_not_bad. auto.
  - apply Qle_bool_iff.
  - intros d Hd. unfold abscissa.
    destruct (rleb (tol1 tol st) (rabs d)) eqn:E; [reflexivity|].
    apply Q_rleb_false in E. exfalso. exact (Qlt_not_le _ _ E Hd).
  - intros d Hd. unfold abscissa.
    destruct (rleb (tol1 tol st) (rabs d)) eqn:E; [|reflexivity].
    apply Q_rleb_spec in E. exfalso. exact (Qlt_not_le _ _ Hd E).
  - intros x y. apply sign_cases.
Qed.

(** A state in which the parabolic step is taken: the parabola through
    (0,9), (3,9), (2,1) on the bracket [0,3] has its vertex at 3/2, so the
    step from x = 2 is p/q = -1/2. *)
Definition parabolic_state : bstate (R:=Q) :=
  {| ba := 0; bb := 3; bd := 1; be := 2;
     bv := 0; bw := 3; bx := 2;
     bfv := 9; bfw := 9; bfx := 1 |}.

Lemma parabolic_state_ok : parabola_ok (1 # 1000) parabolic_state.
Proof. unfold parabola_ok. vm_compute. repeat split. Qed.

Lemma parabolic_state_far : ~ near_end (1 # 1000) parabolic_state.
Proof. unfold near_end. vm_compute. intros [Hl|Hr]; discriminate. Qed.

Lemma brent_step_rule_witness :
  snd (trialstep (1 # 1000) parabolic_state) = 1
  /\ fst (trialstep (1 # 1000) parabolic_state)
     = fst (parabola parabolic_state) / snd (parabola parabolic_state).
Proof.
  destruct (brent_step_rule (S:=unit) (fun x => mret x) (1 # 1000) 0 parabolic_state)
    as (_ & _ & _ & _ & _ & _ & _ & Hpar & _).
  destruct (Hpar parabolic_state_ok) as (He & _ & Hd).
  split; [exact He|exact (Hd parabolic_state_far)].
Defined.

(** A state in which the parabola through (0, 3.61), (3, 1.21), (2, 0.01)
    has its vertex at 1.9: the step from x = 2 is p/q = -1/10, shorter than
    tol1 = 0.2 + 1e-10 for tol = 1/10. *)
Definition short_parabolic_state : bstate (R:=Q) :=
  {| ba := 0; bb := 3; bd := 1; be := 2;
     bv := 0; bw := 3; bx := 2;
     bfv := 361 # 100; bfw := 121 # 100; bfx := 1 # 100 |}.

(** The fit is accepted ([d = p/q = -1/10], [e] the previous [d]) and the
    function is evaluated at [x - tol1]: neither at [x + p/q] nor at the
    golden-section point. *)
Lemma short_parabolic_step_is_lengthened :
  parabola_ok (1 # 10) short_parabolic_state
  /\ ~ near_end (1 # 10) short_parabolic_state
  /\ fst (parabola short_parabolic_state) / snd (parabola short_parabolic_state) == - (1 # 10)
  /\ trialstep (1 # 10) short_parabolic_state
     = (fst (parabola short_parabolic_state) / snd (parabola short_parabolic_state), 1)
  /\ abscissa (1 # 10) short_parabolic_state (fst (trialstep (1 # 10) short_parabolic_state))
     == 2 - ((2 # 10) + (1 # 10000000000))
  /\ fst (golden short_parabolic_state) == - (2 * (3819660 # 10000000)).
Proof.
  split; [unfold parabola_ok; vm_compute; repeat split|].
  split; [unfold near_end; vm_compute; intros [Hl|Hr]; discriminate|].
  split; [reflexivity|]. split; [reflexivity|]. split; reflexivity.
Qed.

Lemma step_rule_as_claimed_counterexample :
  ~ step_rule_as_claimed (1 # 10) short_parabolic_state.
Proof.
  intros Hclaim. unfold step_rule_as_claimed in Hclaim.
  assert (Hgolden : trialstep (1 # 10) short_parabolic_state = golden short_parabolic_state).
  { apply Hclaim. intros (_ & _ & _ & Hlong).
    apply (Qle_not_lt _ _ Hlong). reflexivity. }
  vm_compute in Hgolden. discriminate Hgolden.
Qed.
End BrentQ.

(* ===================================================================== *)
(** ** Brent's minimiser stays inside its bracket *)
(* ===================================================================== *)

Module BrentBracket.
Import Brent.
Local Open Scope Q_scope.

(** The current best point lies in the bracket. *)
Definition in_bracket (st : bstate (R:=Q)) : Prop :=
  ba st <= bx st /\ bx st <= bb st.

(** Unfold the arithmetic of the rational instance. *)
Ltac qarith :=
  unfold rzero in *;
  cbn [radd rsub rmul rdiv ropp rabs rconst Q_Scalar] in *.

Lemma Qabs_cases (z : Q) : (0 <= z /\ Qabs z == z) \/ (z <= 0 /\ Qabs z == - z).
Proof.
  destruct (Qlt_le_dec z 0) as [Hneg|Hpos].
  - right. split; [lra|]. apply Qabs_neg. lra.
  - left. split; [done|]. by apply Qabs_pos.
Qed.

Lemma tol1_pos (tol : Q) (st : bstate (R:=Q)) : 0 <= tol -> 0 < tol1 tol st.
Proof.
  intros Htol. unfold tol1, zeps. qarith.
  pose proof (Qmult_le_0_compat _ _ Htol (Qabs_nonneg (bx st))). lra.
Qed.

Lemma sign_tol1 (t y : Q) :
  0 < t ->
  (y < 0 /\ sign t y == - t) \/ (0 < y /\ sign t y == t) \/ (y == 0 /\ sign t y == 0).
Proof.
  intros Ht. unfold sign.
  assert (Habs : Qabs t == t) by (apply Qabs_pos; lra).
  destruct (rltb y rzero) eqn:E1.
  - apply Q_rltb_spec in E1. qarith. left. split; [done|]. lra.
  - apply Q_rltb_false in E1. destruct (rltb rzero y) eqn:E2.
    + apply Q_rltb_spec in E2. qarith. right. left. split; [done|]. done.
    + apply Q_rltb_false in E2. qarith. right. right. split; [lra|reflexivity].
Qed.

(** While the loop has not returned, the distance from [x] to the far end
    of the bracket exceeds [tol2]. *)
Lemma not_converged_room (tol : Q) (st : bstate (R:=Q)) :
  converged tol st = false ->
  (xmid st <= bx st -> tol2 tol st < bx st - ba st)
  /\ (bx st <= xmid st -> tol2 tol st < bb st - bx st).
Proof.
  unfold converged. intros Hc. apply Q_rleb_false in Hc.
  unfold tol2, two, xmid, half in *. qarith.
  destruct (Qabs_cases (bx st - (1 # 2) * (ba st + bb st))) as [[Hs Ha]|[Hs Ha]];
    split; intros Hx; lra.
Qed.

(** The abscissa at which a pass evaluates the function lies in the
    bracket. *)
Lemma abscissa_in_bracket (tol : Q) (st : bstate (R:=Q)) :
  0 <= tol -> in_bracket st -> converged tol st = false ->
  ba st <= abscissa tol st (fst (trialstep tol st))
  /\ abscissa tol st (fst (trialstep tol st)) <= bb st.
Proof.
  intros Htol [Hax Hxb] Hconv.
  pose proof (tol1_pos tol st Htol) as Ht1.
  destruct (not_converged_room tol st Hconv) as [Hleft Hright].
  assert (Ht2 : tol2 tol st == 2 * tol1 tol st) by reflexivity.
  assert (Hxm : xmid st == (1 # 2) * (ba st + bb st)) by reflexivity.
  assert (Hgolden : forall d, d = fst (golden st) ->
            ba st <= abscissa tol st d /\ abscissa tol st d <= bb st).
  { intros d ->. unfold golden, abscissa, cgold. cbn [fst].
    destruct (rleb (xmid st) (bx st)) eqn:Ex.
    - apply Q_rleb_spec in Ex. specialize (Hleft Ex).
      destruct (rleb (tol1 tol st) _) eqn:Ed.
      + qarith. lra.
      + apply Q_rleb_false in Ed.
        destruct (sign_tol1 (tol1 tol st) ((3819660 # 10000000) * (ba st - bx st)) Ht1)
          as [[_ Hs]|[[Hpos _]|[_ Hs]]]; qarith; lra.
    - apply Q_rleb_false in Ex. specialize (Hright ltac:(lra)).
      destruct (rleb (tol1 tol st) _) eqn:Ed.
      + qarith. lra.
      + apply Q_rleb_false in Ed.
        destruct (sign_tol1 (tol1 tol st) ((3819660 # 10000000) * (bb st - bx st)) Ht1)
          as [[Hneg _]|[[_ Hs]|[_ Hs]]]; qarith; lra. }
  destruct (rltb (tol1 tol st) (rabs (be st))) eqn:He.
  2:{ apply Hgolden. unfold trialstep. by rewrite He. }
  destruct (parabola_bad st) eqn:Hbad.
  { apply Hgolden. unfold trialstep. by rewrite He, Hbad. }
  assert (Hok : BrentQ.parabola_ok tol st) by (by apply BrentQ.parabola_ok_iff_not_bad).
  destruct Hok as (_ & _ & Hlo & Hhi).
  unfold trialstep. rewrite He, Hbad.
  destruct (parabola st) as [p q]. cbn [fst snd] in *. qarith.
  set (d0 := p / q) in *. clearbody d0.
  destruct (_ || _) eqn:Hnudge; cbn [fst].
  - unfold abscissa.
    destruct (sign_tol1 (tol1 tol st) (xmid st - bx st) Ht1) as [[Hy Hs]|[[Hy Hs]|[Hy Hs]]].
    + specialize (Hleft ltac:(lra)).
      destruct (rleb (tol1 tol st) _) eqn:Ed; [qarith; lra|].
      apply Q_rleb_false in Ed. exfalso. qarith.
      destruct (Qabs_cases (sign (tol1 tol st) (xmid st - bx st))) as [[? Ha]|[? Ha]]; lra.
    + specialize (Hright ltac:(lra)).
      destruct (rleb (tol1 tol st) _) eqn:Ed; [qarith; lra|].
      apply Q_rleb_false in Ed. exfalso. qarith.
      destruct (Qabs_cases (sign (tol1 tol st) (xmid st - bx st))) as [[? Ha]|[? Ha]]; lra.
    + destruct (rleb (tol1 tol st) _) eqn:Ed.
      * qarith; lra.
      * destruct (sign_tol1 (tol1 tol st) (sign (tol1 tol st) (xmid st - bx st)) Ht1)
          as [[? Hs']|[[? Hs']|[? Hs']]]; qarith; lra.
  - apply orb_false_iff in Hnudge as [Hn1 Hn2].
    apply Q_rltb_false in Hn1, Hn2. qarith.
    unfold abscissa. destruct (rleb (tol1 tol st) (rabs d0)) eqn:Ed.
    + qarith. lra.
    + apply Q_rleb_false in Ed. qarith.
      destruct (Qabs_cases d0) as [[? Ha]|[? Ha]];
        destruct (sign_tol1 (tol1 tol st) d0 Ht1) as [[? Hs]|[[? Hs]|[? Hs]]];
        qarith; lra.
Qed.

(** The bracket update keeps the best point inside a bracket that does not
    grow. *)
Lemma update_in_bracket (st : bstate (R:=Q)) (d e u fu : Q) :
  in_bracket st -> ba st <= u -> u <= bb st ->
  in_bracket (update st d e u fu)
  /\ ba st <= ba (update st d e u fu)
  /\ bb (update st d e u fu) <= bb st.
Proof.
  intros [Hax Hxb] Hau Hub. unfold update, in_bracket.
  destruct (rleb fu (bfx st)) eqn:Ef.
  - destruct (rleb (bx st) u) eqn:Eu; cbn [ba bb bx].
    + apply Q_rleb_spec in Eu. lra.
    + apply Q_rleb_false in Eu. lra.
  - assert (Hgen : forall a b : Q,
              a = (if rltb u (bx st) then u else ba st) ->
              b = (if rltb u (bx st) then bb st else u) ->
              (a <= bx st /\ bx st <= b) /\ ba st <= a /\ b <= bb st).
    { intros a b -> ->. destruct (rltb u (bx st)) eqn:Eu.
      - apply Q_rltb_spec in Eu. lra.
      - apply Q_rltb_false in Eu. lra. }
    destruct (_ || _); [by apply Hgen|].
    destruct (_ || _); by apply Hgen.
Qed.


(** The bracket update keeps [fx = f(x)], does not increase [fx], and moves
    [x] only to the new abscissa. *)
Lemma update_best (f : Q -> Q) (st : bstate (R:=Q)) (d e u : Q) :
  bfx st = f (bx st) ->
  bfx (update st d e u (f u)) = f (bx (update st d e u (f u)))
  /\ bfx (update st d e u (f u)) <= bfx st
  /\ (bx (update st d e u (f u)) = u \/ bx (update st d e u (f u)) = bx st).
Proof.
  intros Hbest. unfold update. destruct (rleb (f u) (bfx st)) eqn:Ef.
  - apply Q_rleb_spec in Ef. cbn [bfx bx]. auto.
  - destruct (_ || _); [cbn [bfx bx]; split; [done|split; [lra|auto]]|].
    destruct (_ || _); cbn [bfx bx]; split; try done; split; try lra; auto.
Qed.

(** A function that records the abscissae at which it is evaluated. *)
Definition logged (f : Q -> Q) : Q -> M (list Q) Q :=
  fun x log => Some (f x, log ++ [x]).

(** [u] lies between [b0] and [b2], whichever is larger. *)
Definition between (b0 b2 u : Q) : Prop :=
  (b0 <= u /\ u <= b2) \/ (b2 <= u /\ u <= b0).

Lemma brent_loop_logged (f : Q -> Q) (tol : Q) (n : nat) :
  0 <= tol ->
  forall (st : bstate (R:=Q)) (log : list Q),
    in_bracket st -> bfx st = f (bx st) ->
    exists x evals,
      brent_loop (logged f) tol n st log = Some ((x, f x), log ++ evals)
      /\ Forall (fun u => ba st <= u /\ u <= bb st) evals
      /\ (length evals <= n)%nat
      /\ (x = bx st \/ x ∈ evals)
      /\ f x <= bfx st
      /\ ba st <= x /\ x <= bb st.
Proof.
  intros Htol. induction n as [|n IH]; intros st log Hin Hbest.
  - exists (bx st), []. cbn [brent_loop]. unfold mret. rewrite app_nil_r, Hbest.
    destruct Hin. repeat split; auto; try lra; simpl; lia.
  - cbn [brent_loop]. destruct (converged tol st) eqn:Hconv.
    + exists (bx st), []. unfold mret. rewrite app_nil_r, Hbest.
      destruct Hin. repeat split; auto; try lra; simpl; lia.
    + cbv zeta. set (de := trialstep tol st). set (u := abscissa tol st (fst de)).
      destruct (abscissa_in_bracket tol st Htol Hin Hconv) as [Hau Hub].
      fold de in Hau, Hub. fold u in Hau, Hub.
      destruct (update_in_bracket st (fst de) (snd de) u (f u) Hin Hau Hub)
        as (Hin' & Ha' & Hb').
      destruct (update_best f st (fst de) (snd de) u Hbest) as (Hbest' & Hle & Hx').
      destruct (IH (update st (fst de) (snd de) u (f u)) (log ++ [u]) Hin' Hbest')
        as (x & evals & Hrun & Hall & Hlen & Hmem & Hfx & Hxa & Hxb).
      exists x, (u :: evals). unfold mbind.
      change (logged f u log) with (Some (f u, log ++ [u])). cbv beta iota.
      rewrite Hrun.
      split; [by rewrite <- app_assoc|]. split.
      { constructor; [done|]. eapply Forall_impl; [exact Hall|].
        intros v [? ?]. split; lra. }
      split; [simpl; lia|]. split.
      { destruct Hmem as [->|Hmem].
        - destruct Hx' as [->| ->]; [right; by left|by left].
        - right. by right. }
      split; [lra|]. split; lra.
Qed.

(** The state [brent] starts from: the bracket is the interval between
    [bracket[0]] and [bracket[2]], with [bracket[1]] as the best point. *)
Lemma brent_init_bracket (f : Q -> Q) (b0 b1 b2 : Q) :
  between b0 b2 b1 ->
  in_bracket (brent_init (b0, b1, b2) (f b1))
  /\ bfx (brent_init (b0, b1, b2) (f b1)) = f (bx (brent_init (b0, b1, b2) (f b1)))
  /\ forall u, ba (brent_init (b0, b1, b2) (f b1)) <= u ->
               u <= bb (brent_init (b0, b1, b2) (f b1)) -> between b0 b2 u.
Proof.
  intros Hb1. unfold in_bracket, between, brent_init in *. cbn [ba bb bx bfx].
  destruct (rltb b0 b2) eqn:E1; destruct (rltb b2 b0) eqn:E2;
    try apply Q_rltb_spec in E1; try apply Q_rltb_false in E1;
    try apply Q_rltb_spec in E2; try apply Q_rltb_false in E2;
    (split; [lra|]); (split; [done|]); intros u Hu1 Hu2; lra.
Qed.

(** Brent never evaluates the function outside the bracket it is given:
    with a tolerance that is not negative and [bracket[1]] between
    [bracket[0]] and [bracket[2]], [brent] returns, and apart from the
    first evaluation at [bracket[1]] it evaluates the function at no more
    than [itermax] points, all of them between [bracket[0]] and
    [bracket[2]]. *)
Theorem brent_evaluates_inside_bracket (f : Q -> Q) (tol b0 b1 b2 : Q) (itermax : nat) :
  0 <= tol -> between b0 b2 b1 ->
  exists r evals,
    brent (logged f) tol (b0, b1, b2) itermax [] = Some (r, b1 :: evals)
    /\ (length evals <= itermax)%nat
    /\ Forall (between b0 b2) evals.
Proof.
  intros Htol Hb1.
  destruct (brent_init_bracket f b0 b1 b2 Hb1) as (Hin & Hbest & Hsub).
  destruct (brent_loop_logged f tol itermax Htol _ [b1] Hin Hbest)
    as (x & evals & Hrun & Hall & Hlen & _).
  exists (x, f x), evals. unfold brent, mbind. cbn [fst snd].
  change (logged f b1 []) with (Some (f b1, [b1])). cbv beta iota.
  rewrite Hrun. split; [done|]. split; [done|].
  eapply Forall_impl; [exact Hall|]. intros u [? ?]. by apply Hsub.
Qed.

(** With a tolerance that is not negative and [bracket[1]] between
    [bracket[0]] and [bracket[2]], [brent] returns a pair [[x, fx]] in
    which [fx] is the value of the function at [x], [x] is [bracket[1]] or
    one of the later points at which the function was evaluated, [x] lies
    between [bracket[0]] and [bracket[2]], and [fx] is no larger than the
    value at [bracket[1]]. *)
Theorem brent_returns_best_evaluated (f : Q -> Q) (tol b0 b1 b2 : Q) (itermax : nat) :
  0 <= tol -> between b0 b2 b1 ->
  exists x evals,
    brent (logged f) tol (b0, b1, b2) itermax [] = Some ((x, f x), b1 :: evals)
    /\ x ∈ b1 :: evals
    /\ between b0 b2 x
    /\ f x <= f b1.
Proof.
  intros Htol Hb1.
  destruct (brent_init_bracket f b0 b1 b2 Hb1) as (Hin & Hbest & Hsub).
  destruct (brent_loop_logged f tol itermax Htol _ [b1] Hin Hbest)
    as (x & evals & Hrun & _ & _ & Hmem & Hfx & Hxa & Hxb).
  exists x, evals. unfold brent, mbind. cbn [fst snd].
  change (logged f b1 []) with (Some (f b1, [b1])). cbv beta iota.
  rewrite Hrun. split; [done|]. split.
  { destruct Hmem as [->|Hmem]; [by left|by right]. }
  split; [by apply Hsub|]. exact Hfx.
Qed.

(** The search for the minimum of (x-1)^2 on the bracket (0, 2, 5). *)
Lemma brent_evaluates_inside_bracket_witness :
  exists r evals,
    brent (logged (fun x => (x - 1) * (x - 1))) (1 # 1000) (0, 2, 5) 10 []
    = Some (r, 2 :: evals)
    /\ (length evals <= 10)%nat
    /\ Forall (between 0 5) evals.
Proof.
  apply (brent_evaluates_inside_bracket (fun x => (x - 1) * (x - 1)) (1 # 1000) 0 2 5 10).
  - discriminate.
  - left. split; discriminate.
Defined.

Lemma brent_returns_best_evaluated_witness :
  exists x evals,
    brent (logged (fun x => (x - 1) * (x - 1))) (1 # 1000) (0, 2, 5) 10 []
    = Some ((x, (x - 1) * (x - 1)), 2 :: evals)
    /\ x ∈ 2 :: evals
    /\ between 0 5 x
    /\ (x - 1) * (x - 1) <= (2 - 1) * (2 - 1).
Proof.
  apply (brent_returns_best_evaluated (fun x => (x - 1) * (x - 1)) (1 # 1000) 0 2 5 10).
  - discriminate.
  - left. split; discriminate.
Defined.

End BrentBracket.

(* ===================================================================== *)
(** ** Dense matrices *)
(* ===================================================================== *)

Module MatrixProps.
Import Matrix.
Section MatrixProps.
Context {R : Type} `{Scalar R}.
Implicit Types m : objectmatrix R.

Lemma wf_newmatrix nr nc : wf_matrix (object_newmatrix (R:=R) nr nc).
Proof. unfold wf_matrix. simpl. by rewrite length_replicate. Qed.

Lemma setelement_dims m row col v :
  nrows (snd (matrix_setelement m row col v)) = nrows m
  /\ ncols (snd (matrix_setelement m row col v)) = ncols m.
Proof. unfold matrix_setelement. by destruct (_ && _). Qed.

Lemma wf_setelement m row col v :
  wf_matrix m -> wf_matrix (snd (matrix_setelement m row col v)).
Proof.
  unfold wf_matrix, matrix_setelement. intros Hwf.
  destruct (_ && _); simpl; [|done]. by rewrite length_insert.
Qed.

Lemma index_in_range m row col :
  wf_matrix m -> col < ncols m -> row < nrows m ->
  col * nrows m + row < length (elements m).
Proof. unfold wf_matrix. intros ->. nia. Qed.

Lemma getelement_is_Some m row col :
  wf_matrix m -> col < ncols m -> row < nrows m ->
  is_Some (matrix_getelement m row col).
Proof.
  intros Hwf Hc Hr. unfold matrix_getelement.
  rewrite (bool_decide_eq_true_2 _ Hc), (bool_decide_eq_true_2 _ Hr). simpl.
  apply lookup_lt_is_Some. by apply index_in_range.
Qed.

Lemma getelement_Some_range m row col x :
  matrix_getelement m row col = Some x -> col < ncols m /\ row < nrows m.
Proof.
  unfold matrix_getelement. intros Hget.
  destruct (bool_decide (col < ncols m)) eqn:E1; [|done].
  destruct (bool_decide (row < nrows m)) eqn:E2; [|done].
  apply bool_decide_eq_true in E1. apply bool_decide_eq_true in E2. done.
Qed.

Lemma getelement_None_setelement m row col v :
  matrix_getelement m row col = None -> wf_matrix m ->
  matrix_setelement m row col v = (false, m).
Proof.
  unfold matrix_getelement, matrix_setelement. intros Hget Hwf.
  destruct (bool_decide (col < ncols m)) eqn:Ec; [|done].
  destruct (bool_decide (row < nrows m)) eqn:Er; [|done].
  simpl in *. apply bool_decide_eq_true in Ec. apply bool_decide_eq_true in Er.
  apply lookup_ge_None in Hget.
  pose proof (index_in_range m row col Hwf Ec Er). lia.
Qed.

Lemma setelement_in_range m row col v :
  col < ncols m -> row < nrows m ->
  matrix_setelement m row col v
  = (true, {| nrows := nrows m; ncols := ncols m;
              elements := <[col * nrows m + row := v]> (elements m) |}).
Proof.
  intros Hc Hr. unfold matrix_setelement.
  rewrite (bool_decide_eq_true_2 _ Hc), (bool_decide_eq_true_2 _ Hr). done.
Qed.

Lemma getelement_in_range m row col :
  col < ncols m -> row < nrows m ->
  matrix_getelement m row col = elements m !! (col * nrows m + row).
Proof.
  intros Hc Hr. unfold matrix_getelement.
  rewrite (bool_decide_eq_true_2 _ Hc), (bool_decide_eq_true_2 _ Hr). done.
Qed.

Lemma getelement_setelement_same m row col v :
  wf_matrix m -> col < ncols m -> row < nrows m ->
  matrix_getelement (snd (matrix_setelement m row col v)) row col = Some v.
Proof.
  intros Hwf Hc Hr. rewrite setelement_in_range by done. simpl.
  rewrite getelement_in_range by done. simpl.
  apply list_lookup_insert_eq. by apply index_in_range.
Qed.

Lemma getelement_setelement_other m row col row' col' v :
  row < nrows m -> row' < nrows m -> (row, col) <> (row', col') ->
  matrix_getelement (snd (matrix_setelement m row col v)) row' col'
  = matrix_getelement m row' col'.
Proof.
  intros Hr Hr' Hne. unfold matrix_getelement, matrix_setelement.
  destruct (bool_decide (col < ncols m) && bool_decide (row < nrows m)); simpl; [|done].
  destruct (bool_decide (col' < ncols m) && bool_decide (row' < nrows m)); [|done].
  apply list_lookup_insert_ne. intros Heq.
  apply Hne. assert (col = col') by nia. subst. f_equal. lia.
Qed.

(** Writing back the value that was read gives the matrix back, whatever
    was written in between at the same place. *)
Lemma setelement_restore m row col x0 a b :
  matrix_getelement m row col = Some x0 ->
  snd (matrix_setelement
         (snd (matrix_setelement (snd (matrix_setelement m row col a)) row col b))
         row col x0) = m.
Proof.
  unfold matrix_getelement, matrix_setelement. intros Hget.
  destruct (bool_decide (col < ncols m) && bool_decide (row < nrows m)) eqn:E; [|done].
  simpl. rewrite E. simpl. rewrite E. simpl.
  destruct m as [nr nc els]. simpl in *. f_equal.
  rewrite !list_insert_insert_eq. by apply list_insert_id.
Qed.

(** Columns. *)

Lemma setcolumn_dims m col v :
  nrows (snd (matrix_setcolumn m col v)) = nrows m
  /\ ncols (snd (matrix_setcolumn m col v)) = ncols m.
Proof. unfold matrix_setcolumn. by destruct (bool_decide _). Qed.

Lemma wf_setcolumn m col v :
  wf_matrix m -> wf_matrix (snd (matrix_setcolumn m col v)).
Proof.
  unfold wf_matrix, matrix_setcolumn. intros Hwf.
  destruct (bool_decide _); simpl; [|done]. by rewrite length_inserts.
Qed.

Lemma getcolumn_length m col l :
  wf_matrix m -> matrix_getcolumn m col = Some l -> length l = nrows m.
Proof.
  unfold wf_matrix, matrix_getcolumn. intros Hwf.
  case_bool_decide as Hc; [|done]. intros [= <-].
  rewrite length_take, length_drop. nia.
Qed.

Lemma getcolumn_is_Some m col :
  col < ncols m -> is_Some (matrix_getcolumn m col).
Proof. intros Hc. unfold matrix_getcolumn. rewrite bool_decide_eq_true_2 by done. eauto. Qed.

Lemma getcolumn_setcolumn_same m col v :
  wf_matrix m -> col < ncols m -> length v = nrows m ->
  matrix_getcolumn (snd (matrix_setcolumn m col v)) col = Some v.
Proof.
  intros Hwf Hc Hlen. unfold matrix_getcolumn, matrix_setcolumn.
  rewrite (bool_decide_eq_true_2 _ Hc). simpl.
  rewrite (bool_decide_eq_true_2 _ Hc). f_equal.
  rewrite <- Hlen, firstn_all.
  unfold wf_matrix in Hwf.
  apply list_eq. intros i.
  destruct (decide (i < length v)) as [Hi|Hi].
  - rewrite lookup_take_lt by done. rewrite lookup_drop.
    rewrite list_lookup_inserts by (rewrite ?Hwf; nia).
    f_equal. lia.
  - rewrite lookup_take_ge by lia. symmetry. apply lookup_ge_None. lia.
Qed.

Lemma getcolumn_setcolumn_other m col col' v :
  length v = nrows m -> col <> col' ->
  matrix_getcolumn (snd (matrix_setcolumn m col v)) col' = matrix_getcolumn m col'.
Proof.
  intros Hlen Hne. unfold matrix_getcolumn, matrix_setcolumn.
  destruct (bool_decide (col < ncols m)); simpl; [|done].
  destruct (bool_decide (col' < ncols m)); [|done]. f_equal.
  rewrite <- Hlen, firstn_all.
  apply list_eq. intros i.
  destruct (decide (i < length v)) as [Hi|Hi].
  - rewrite !lookup_take_lt by done. rewrite !lookup_drop.
    destruct (decide (col' < col)).
    + apply list_lookup_inserts_lt. nia.
    + apply list_lookup_inserts_ge. nia.
  - by rewrite !lookup_take_ge by lia.
Qed.

End MatrixProps.
End MatrixProps.

(* ===================================================================== *)
(** ** Dense matrices: arithmetic and the [Matrix] class *)
(* ===================================================================== *)

Module MatrixOpsProps.
Import Matrix MatrixOps MatrixProps.

Section Writes.
Context {A : Type}.

(** A sequence of writes [els[k] = x]. *)
Definition writes (ups : list (nat * A)) (els : list A) : list A :=
  foldl (fun els p => <[fst p := snd p]> els) els ups.

Lemma length_writes ups els : length (writes ups els) = length els.
Proof.
  unfold writes. revert els. induction ups as [|p ups IH]; intros els; simpl; [done|].
  by rewrite IH, length_insert.
Qed.

Lemma writes_lookup_other ups els k :
  (forall p, p ∈ ups -> fst p <> k) -> writes ups els !! k = els !! k.
Proof.
  unfold writes. revert els. induction ups as [|p ups IH]; intros els Hk; simpl; [done|].
  rewrite IH by (intros q Hq; apply Hk; by right).
  apply list_lookup_insert_ne. apply Hk. by left.
Qed.

Lemma writes_lookup ups els k x :
  (forall p, p ∈ ups -> fst p = k -> snd p = x) ->
  els !! k = Some x \/ (exists p, p ∈ ups /\ fst p = k) ->
  k < length els ->
  writes ups els !! k = Some x.
Proof.
  unfold writes. revert els. induction ups as [|p ups IH]; intros els Hval Hex Hk; simpl.
  - destruct Hex as [?|(p & Hp & _)]; [done|]. by apply elem_of_nil in Hp.
  - apply IH.
    + intros q Hq. apply Hval. by right.
    + destruct (decide (fst p = k)) as [Heq|Hne].
      * left. rewrite <- Heq, list_lookup_insert_eq by lia. f_equal. apply Hval; [by left|done].
      * rewrite list_lookup_insert_ne by done.
        destruct Hex as [?|(q & Hq & Hqk)]; [by left|]. right.
        apply elem_of_cons in Hq as [->|Hq]; [done|]. by exists q.
    + by rewrite length_insert.
Qed.

Lemma writes_omap {B : Type} (g : B -> option (nat * A)) (l : list B) (els : list A) :
  writes (omap g l) els
  = foldl (fun els b => match g b with
                        | Some u => <[fst u := snd u]> els
                        | None => els
                        end) els l.
Proof.
  unfold writes. revert els. induction l as [|b l IH]; intros els; simpl; [done|].
  destruct (g b); simpl; apply IH.
Qed.

(** Two nested loops are one loop over the pairs of indices. *)
Lemma foldl_nested {B C : Type} (f : C -> A -> B -> C) (l1 : list A) (l2 : list B) (c : C) :
  foldl (fun c a => foldl (fun c b => f c a b) c l2) c l1
  = foldl (fun c ab => f c (fst ab) (snd ab)) c (list_prod l1 l2).
Proof.
  revert c. induction l1 as [|a l1 IH]; intros c; simpl; [done|].
  rewrite foldl_app, IH. f_equal.
  change (map (fun y => (a, y)) l2) with ((fun y => (a, y)) <$> l2). by rewrite foldl_fmap.
Qed.

Lemma foldl_ext_in {B : Type} (f g : B -> A -> B) (l : list A) (b : B) :
  (forall b a, a ∈ l -> f b a = g b a) -> foldl f b l = foldl g b l.
Proof.
  revert b. induction l as [|a l IH]; intros b Hfg; simpl; [done|].
  rewrite Hfg by (by left). apply IH. intros b' a' Ha'. apply Hfg. by right.
Qed.

End Writes.

Lemma elem_of_list_prod_seq n m (p : nat * nat) :
  p ∈ list_prod (seq 0 n) (seq 0 m) <-> fst p < n /\ snd p < m.
Proof.
  destruct p as [i j]. rewrite list_elem_of_In, in_prod_iff, <- !list_elem_of_In, !elem_of_seq.
  simpl. lia.
Qed.

Lemma index_injective n i r i' r' :
  i < n -> i' < n -> i + r * n = i' + r' * n -> i = i' /\ r = r'.
Proof.
  intros Hi Hi' Heq.
  assert (i = i').
  { pose proof (f_equal (fun x => x mod n) Heq) as Hm. simpl in Hm.
    rewrite !Nat.Div0.mod_add, !Nat.mod_small in Hm by lia. done. }
  subst i'. split; [done|]. nia.
Qed.

Lemma index_injective_row n row col row' col' :
  row < n -> row' < n -> col' * n + row' = col * n + row -> row' = row /\ col' = col.
Proof. intros Hr Hr' Heq. apply (index_injective n); lia. Qed.

Section Generic.
Context {R : Type} `{Scalar R}.
Implicit Types a b m out : objectmatrix R.

(** *** Transposition *)

Lemma transpose_elements a (els : list R) :
  foldl (fun els i =>
           foldl (fun els r =>
                    match elements a !! (i * nrows a + r) with
                    | Some x => <[i + r * ncols a := x]> els
                    | None => els
                    end) els (seq 0 (nrows a)))
        els (seq 0 (ncols a))
  = writes (omap (fun p => (fun x => (fst p + snd p * ncols a, x)) <$>
                             elements a !! (fst p * nrows a + snd p))
                 (list_prod (seq 0 (ncols a)) (seq 0 (nrows a)))) els.
Proof.
  rewrite (foldl_nested (fun els i r =>
                           match elements a !! (i * nrows a + r) with
                           | Some x => <[i + r * ncols a := x]> els
                           | None => els
                           end)).
  rewrite writes_omap. apply foldl_ext_in.
  intros els' [i r] _. simpl. by destruct (elements a !! _).
Qed.

Lemma matrix_transpose_entry a out i j :
  wf_matrix a -> wf_matrix out ->
  ncols a = nrows out -> nrows a = ncols out ->
  matrix_getelement (snd (matrix_transpose a out)) i j = matrix_getelement a j i.
Proof.
  intros Hwfa Hwfo Hc Hr. unfold matrix_transpose.
  rewrite !bool_decide_eq_true_2 by done. simpl negb. cbn [snd].
  unfold matrix_getelement at 1. cbn [nrows ncols elements].
  unfold matrix_getelement.
  destruct (decide (j < ncols out /\ i < nrows out)) as [[Hj Hi]|Hout].
  2:{ assert (bool_decide (j < ncols out) && bool_decide (i < nrows out) = false) as ->.
      { apply andb_false_iff. rewrite !bool_decide_eq_false. lia. }
      assert (bool_decide (i < ncols a) && bool_decide (j < nrows a) = false) as ->; [|done].
      apply andb_false_iff. rewrite !bool_decide_eq_false. lia. }
  rewrite !bool_decide_eq_true_2 by lia. simpl andb.
  rewrite transpose_elements.
  destruct (lookup_lt_is_Some_2 (elements a) (i * nrows a + j)) as [x Hx].
  { unfold wf_matrix in Hwfa. rewrite Hwfa. nia. }
  rewrite Hx. rewrite <- Hc. replace (j * ncols a + i) with (i + j * ncols a) by lia.
  apply writes_lookup.
  - intros p Hp Hidx. apply list_elem_of_omap in Hp as ([i' r'] & Hp & Hv).
    apply elem_of_list_prod_seq in Hp as [Hi' Hr']. simpl in *.
    destruct (elements a !! (i' * nrows a + r')) as [x'|] eqn:Hx'; [|done].
    simpl in Hv. injection Hv as <-. simpl in *.
    apply index_injective in Hidx as [-> ->]; [|lia..]. congruence.
  - right. exists (i + j * ncols a, x). split; [|done].
    apply list_elem_of_omap. exists (i, j). simpl. rewrite Hx. split; [|done].
    apply elem_of_list_prod_seq. simpl. lia.
  - unfold wf_matrix in Hwfo. rewrite Hwfo. nia.
Qed.


(** Two well-formed matrices with the same dimensions and the same entries
    are equal. *)
Lemma matrix_ext a b :
  wf_matrix a -> wf_matrix b ->
  nrows a = nrows b -> ncols a = ncols b ->
  (forall i j, i < nrows a -> j < ncols a ->
     matrix_getelement a i j = matrix_getelement b i j) ->
  a = b.
Proof.
  destruct a as [nr nc ea], b as [nr' nc' eb]. unfold wf_matrix. simpl.
  intros Ha Hb <- <- Hent. f_equal. apply list_eq. intros k.
  destruct (decide (k < nc * nr)) as [Hk|Hk].
  2:{ rewrite !(proj2 (lookup_ge_None _ _)) by lia. done. }
  assert (Hnr : 0 < nr) by nia.
  specialize (Hent (k mod nr) (k / nr)).
  unfold matrix_getelement in Hent. simpl in Hent.
  assert (Hmod : k mod nr < nr) by (apply Nat.mod_upper_bound; lia).
  assert (Hdiv : k / nr < nc) by (apply Nat.Div0.div_lt_upper_bound; lia).
  rewrite !bool_decide_eq_true_2 in Hent by done. simpl in Hent.
  replace (k / nr * nr + k mod nr) with k in Hent; [by apply Hent|].
  rewrite (Nat.div_mod_eq k nr) at 1. lia.
Qed.

Lemma wf_uninitialized nr nc (junk : nat -> R) :
  wf_matrix (object_newmatrix_uninitialized nr nc junk).
Proof. unfold wf_matrix. simpl. by rewrite length_fmap, length_seq. Qed.

Lemma transpose_dims a out :
  nrows (snd (matrix_transpose a out)) = nrows out
  /\ ncols (snd (matrix_transpose a out)) = ncols out.
Proof. unfold matrix_transpose. by destruct (negb _). Qed.

Lemma wf_transpose a out : wf_matrix out -> wf_matrix (snd (matrix_transpose a out)).
Proof.
  unfold matrix_transpose, wf_matrix. destruct (negb _); [done|]. simpl.
  intros Hwf. by rewrite transpose_elements, length_writes.
Qed.

(** [matrix_transpose] refuses an output matrix of the wrong shape and
    leaves it as it is.  [a.transpose()] is the [ncols x nrows] matrix
    whose entry (i, j) is the entry (j, i) of [a], whatever the new matrix
    held when it was allocated, and transposing twice gives [a] back. *)
Theorem matrix_transpose_involution a out (junk junk' : nat -> R) :
  wf_matrix a ->
  (~ (ncols a = nrows out /\ nrows a = ncols out) ->
     matrix_transpose a out = (MATRIX_INCMPTBLDIM, out))
  /\ nrows (Matrix_transpose junk a) = ncols a
  /\ ncols (Matrix_transpose junk a) = nrows a
  /\ wf_matrix (Matrix_transpose junk a)
  /\ (forall i j, matrix_getelement (Matrix_transpose junk a) i j = matrix_getelement a j i)
  /\ Matrix_transpose junk' (Matrix_transpose junk a) = a.
Proof.
  intros Hwf.
  assert (Hdims : forall jk b, nrows (Matrix_transpose jk b) = ncols b
                               /\ ncols (Matrix_transpose jk b) = nrows b).
  { intros jk b. unfold Matrix_transpose.
    destruct (transpose_dims b (object_newmatrix_uninitialized (ncols b) (nrows b) jk))
      as [-> ->]. done. }
  assert (Hwft : forall jk b, wf_matrix (Matrix_transpose jk b)).
  { intros jk b. apply wf_transpose, wf_uninitialized. }
  assert (Hent : forall jk b i j, wf_matrix b ->
            matrix_getelement (Matrix_transpose jk b) i j = matrix_getelement b j i).
  { intros jk b i j Hb. unfold Matrix_transpose.
    apply matrix_transpose_entry; [done|apply wf_uninitialized|done|done]. }
  split.
  { intros Hbad. unfold matrix_transpose.
    assert (bool_decide (ncols a = nrows out) && bool_decide (nrows a = ncols out) = false)
      as ->; [|done].
    apply andb_false_iff. rewrite !bool_decide_eq_false. 
    destruct (decide (ncols a = nrows out)); [right|left]; tauto. }
  destruct (Hdims junk a) as [Hr Hc].
  split; [done|]. split; [done|]. split; [done|]. split; [by intros; apply Hent|].
  destruct (Hdims junk' (Matrix_transpose junk a)) as [Hr' Hc'].
  apply matrix_ext; [done|done|lia|lia|].
  intros i j _ _. rewrite Hent by done. by apply Hent.
Qed.

(** *** The identity matrix *)

Lemma identity_elements a (els : list R) :
  foldl (fun els i =>
           foldl (fun els j =>
                    <[i + nrows a * j := if bool_decide (i = j) then rconst 1 else rconst 0]>
                      els)
                 els (seq 0 (ncols a)))
        els (seq 0 (nrows a))
  = writes ((fun p => (fst p + nrows a * snd p,
                       if bool_decide (fst p = snd p) then rconst 1 else rconst 0))
              <$> list_prod (seq 0 (nrows a)) (seq 0 (ncols a))) els.
Proof.
  rewrite (foldl_nested (fun els i j =>
             <[i + nrows a * j := if bool_decide (i = j) then rconst 1 else rconst 0]> els)).
  unfold writes. by rewrite foldl_fmap.
Qed.

(** [matrix_identity] refuses a matrix that is not square and leaves it as
    it is; a square matrix keeps its dimensions, and afterwards its entry
    (i, j) is 1 on the diagonal and 0 elsewhere. *)
Theorem matrix_identity_entries a :
  wf_matrix a ->
  (ncols a <> nrows a -> matrix_identity a = (MATRIX_NSQ, a))
  /\ (ncols a = nrows a ->
      fst (matrix_identity a) = MATRIX_OK
      /\ nrows (snd (matrix_identity a)) = nrows a
      /\ ncols (snd (matrix_identity a)) = ncols a
      /\ wf_matrix (snd (matrix_identity a))
      /\ forall i j, i < nrows a -> j < ncols a ->
           matrix_getelement (snd (matrix_identity a)) i j
           = Some (if bool_decide (i = j) then rconst 1 else rconst 0)).
Proof.
  intros Hwf. unfold matrix_identity. split.
  - intros Hne. by rewrite bool_decide_eq_false_2.
  - intros Hsq. rewrite bool_decide_eq_true_2 by done. simpl negb. cbn [fst snd nrows ncols].
    split; [done|]. split; [done|]. split; [done|]. rewrite identity_elements. split.
    { unfold wf_matrix. simpl. by rewrite length_writes. }
    intros i j Hi Hj. unfold matrix_getelement. cbn [nrows ncols elements].
    rewrite !bool_decide_eq_true_2 by done. simpl andb.
    replace (j * nrows a + i) with (i + nrows a * j) by lia.
    apply writes_lookup.
    + intros p Hp Hidx. apply list_elem_of_fmap in Hp as ([i' j'] & -> & Hp).
      apply elem_of_list_prod_seq in Hp as [Hi' Hj']. simpl in *.
      destruct (index_injective (nrows a) i' j' i j) as [-> ->]; [lia|lia|lia|done].
    + right. exists (i + nrows a * j, if bool_decide (i = j) then rconst 1 else rconst 0).
      split; [|done].
      apply list_elem_of_fmap. exists (i, j). split; [done|].
      apply elem_of_list_prod_seq. simpl. lia.
    + unfold wf_matrix in Hwf. rewrite Hwf. nia.
Qed.

(** *** BLAS on arrays of the right length *)

Lemma dcopy_full n (x y : list R) :
  length x = n -> length y = n -> cblas_dcopy n x y = x.
Proof.
  intros Hx Hy. unfold cblas_dcopy. rewrite take_ge by lia.
  rewrite <- (app_nil_r x) at 1. apply list_inserts_0_l. lia.
Qed.

Lemma daxpy_full n alpha (x y : list R) :
  length x = n -> length y = n ->
  cblas_daxpy n alpha x y = zip_with (fun yi xi => (yi + alpha * xi)%sc) y x.
Proof.
  intros Hx Hy. unfold cblas_daxpy. rewrite take_ge by lia.
  rewrite <- (app_nil_r (zip_with _ _ _)) at 1. apply list_inserts_0_l.
  rewrite length_zip_with. lia.
Qed.

Lemma Matrix_add_elements junk a b :
  wf_matrix a -> wf_matrix b -> ncols a = ncols b -> nrows a = nrows b ->
  Matrix_add junk a b
  = Some {| nrows := nrows a; ncols := ncols a;
            elements := zip_with (fun x y => (x + rconst 1 * y)%sc) (elements a) (elements b) |}.
Proof.
  intros Ha Hb Hc Hr. unfold Matrix_add, matrix_add.
  rewrite !bool_decide_eq_true_2 by done. cbn [andb snd nrows ncols elements].
  rewrite ?bool_decide_eq_true_2 by done. cbn [andb snd nrows ncols elements].
  unfold wf_matrix, object_newmatrix_uninitialized in *. cbn [nrows ncols elements].
  rewrite dcopy_full; [|done|by rewrite length_fmap, length_seq].
  rewrite daxpy_full; [done|lia|done].
Qed.

Lemma Matrix_sub_elements junk a b :
  wf_matrix a -> wf_matrix b -> ncols a = ncols b -> nrows a = nrows b ->
  Matrix_sub junk a b
  = Some {| nrows := nrows a; ncols := ncols a;
            elements := zip_with (fun x y => (x + rconst (-1) * y)%sc)
                                 (elements a) (elements b) |}.
Proof.
  intros Ha Hb Hc Hr. unfold Matrix_sub, matrix_sub.
  rewrite !bool_decide_eq_true_2 by done. cbn [andb snd nrows ncols elements].
  rewrite ?bool_decide_eq_true_2 by done. cbn [andb snd nrows ncols elements].
  unfold wf_matrix, object_newmatrix_uninitialized in *. cbn [nrows ncols elements].
  rewrite dcopy_full; [|done|by rewrite length_fmap, length_seq].
  rewrite daxpy_full; [done|lia|done].
Qed.

(** *** Adding to a column *)

(** [matrix_addtocolumn] refuses a column outside the matrix and leaves the
    matrix as it is; otherwise it adds [alpha*v] to that column, entry by
    entry, and changes no other column. *)
Theorem matrix_addtocolumn_entries m col alpha (v : list R) :
  wf_matrix m -> length v = nrows m ->
  (ncols m <= col -> matrix_addtocolumn m col alpha v = (false, m))
  /\ (col < ncols m ->
      fst (matrix_addtocolumn m col alpha v) = true
      /\ nrows (snd (matrix_addtocolumn m col alpha v)) = nrows m
      /\ ncols (snd (matrix_addtocolumn m col alpha v)) = ncols m
      /\ wf_matrix (snd (matrix_addtocolumn m col alpha v))
      /\ (forall r x y, matrix_getelement m r col = Some x -> v !! r = Some y ->
            matrix_getelement (snd (matrix_addtocolumn m col alpha v)) r col
            = Some (x + alpha * y)%sc)
      /\ (forall r c, c <> col ->
            matrix_getelement (snd (matrix_addtocolumn m col alpha v)) r c
            = matrix_getelement m r c)).
Proof.
  intros Hwf Hv. unfold matrix_addtocolumn. split.
  - intros Hcol. by rewrite bool_decide_eq_false_2 by lia.
  - intros Hcol. rewrite bool_decide_eq_true_2 by done. cbn [fst snd nrows ncols].
    unfold wf_matrix in Hwf.
    assert (Hlen : length (drop (col * nrows m) (elements m)) >= nrows m).
    { rewrite length_drop, Hwf. nia. }
    assert (Hpre : length (take (col * nrows m) (elements m)) = col * nrows m).
    { rewrite length_take, Hwf. nia. }
    assert (Haxpy : length (cblas_daxpy (nrows m) alpha v (drop (col * nrows m) (elements m)))
                    = length (elements m) - col * nrows m).
    { unfold cblas_daxpy. by rewrite length_inserts, length_drop. }
    split; [done|]. split; [done|]. split; [done|]. split.
    { unfold wf_matrix. cbn [elements nrows ncols]. rewrite length_app, Hpre, Haxpy, Hwf. nia. }
    split.
    + intros r x y Hx Hy. apply getelement_Some_range in Hx as Hrange.
      destruct Hrange as [_ Hr]. unfold matrix_getelement in *. cbn [nrows ncols elements].
      rewrite !bool_decide_eq_true_2 in * by done. simpl andb in *.
      rewrite lookup_app_r by lia. rewrite Hpre.
      replace (col * nrows m + r - col * nrows m) with r by lia.
      unfold cblas_daxpy. rewrite list_lookup_inserts.
      * rewrite Nat.sub_0_r, lookup_zip_with, lookup_take_lt, lookup_drop, Hx by done.
        simpl. by rewrite Hy.
      * rewrite length_zip_with, length_take. lia.
      * rewrite length_drop, Hwf. nia.
    + intros r c Hc. unfold matrix_getelement. cbn [nrows ncols elements].
      destruct (bool_decide (c < ncols m) && bool_decide (r < nrows m)) eqn:Hin; [|done].
      apply andb_true_iff in Hin as [Hc' Hr'].
      apply bool_decide_eq_true in Hc', Hr'.
      destruct (decide (c < col)) as [Hlt|Hgt].
      * rewrite lookup_app_l by (rewrite Hpre; nia). apply lookup_take_lt. nia.
      * rewrite lookup_app_r by (rewrite Hpre; nia). rewrite Hpre.
        unfold cblas_daxpy. rewrite list_lookup_inserts_ge.
        -- rewrite lookup_drop. f_equal. nia.
        -- rewrite length_zip_with, length_take. nia.
Qed.

(** *** Elements and columns *)

(** Writing an entry and reading it back: inside the matrix the entry read
    is the value written and every other entry is as before; outside the
    matrix the write is refused, the matrix is unchanged and the read
    fails. *)
Theorem matrix_setelement_getelement m row col (v : R) :
  wf_matrix m ->
  (row < nrows m -> col < ncols m ->
     fst (matrix_setelement m row col v) = true
     /\ wf_matrix (snd (matrix_setelement m row col v))
     /\ matrix_getelement (snd (matrix_setelement m row col v)) row col = Some v
     /\ forall row' col', (row', col') <> (row, col) ->
          matrix_getelement (snd (matrix_setelement m row col v)) row' col'
          = matrix_getelement m row' col')
  /\ (~ (row < nrows m /\ col < ncols m) ->
        matrix_setelement m row col v = (false, m)
        /\ matrix_getelement m row col = None).
Proof.
  intros Hwf. split.
  - intros Hrow Hcol. split; [by rewrite setelement_in_range|].
    split; [by apply wf_setelement|]. split; [by apply getelement_setelement_same|].
    intros row' col' Hne. unfold matrix_getelement.
    destruct (setelement_dims m row col v) as [-> ->].
    destruct (bool_decide (col' < ncols m) && bool_decide (row' < nrows m)) eqn:Hin; [|done].
    apply andb_true_iff in Hin as [Hc' Hr']. apply bool_decide_eq_true in Hc', Hr'.
    rewrite setelement_in_range by done. cbn [snd elements].
    apply list_lookup_insert_ne. intros Heq. apply Hne.
    destruct (index_injective_row (nrows m) row col row' col') as [-> ->]; [lia..|done].
  - intros Hout.
    assert (Hget : matrix_getelement m row col = None).
    { unfold matrix_getelement.
      assert (bool_decide (col < ncols m) && bool_decide (row < nrows m) = false) as ->; [|done].
      apply andb_false_iff. rewrite !bool_decide_eq_false. 
      destruct (decide (col < ncols m)); [right|left]; tauto. }
    split; [by apply getelement_None_setelement|done].
Qed.

(** Writing a column and reading it back: the column read is the vector
    written and every other column is as before; a column outside the
    matrix is refused and the matrix is unchanged. *)
Theorem matrix_setcolumn_getcolumn m col (v : list R) :
  wf_matrix m -> length v = nrows m ->
  (col < ncols m ->
     fst (matrix_setcolumn m col v) = true
     /\ wf_matrix (snd (matrix_setcolumn m col v))
     /\ matrix_getcolumn (snd (matrix_setcolumn m col v)) col = Some v
     /\ forall col', col' <> col ->
          matrix_getcolumn (snd (matrix_setcolumn m col v)) col' = matrix_getcolumn m col')
  /\ (ncols m <= col ->
        matrix_setcolumn m col v = (false, m) /\ matrix_getcolumn m col = None).
Proof.
  intros Hwf Hv. split.
  - intros Hcol. split.
    { unfold matrix_setcolumn. by rewrite bool_decide_eq_true_2. }
    split; [by apply wf_setcolumn|]. split; [by apply getcolumn_setcolumn_same|].
    intros col' Hne. by apply getcolumn_setcolumn_other.
  - intros Hcol. unfold matrix_setcolumn, matrix_getcolumn.
    by rewrite !bool_decide_eq_false_2 by lia.
Qed.

End Generic.

(** *** Exact arithmetic *)

Section Rational.
Local Open Scope Q_scope.

Definition Qsum (l : list Q) : Q := foldr Qplus 0 l.

Lemma kahan_exact (l : list Q) (sum c : Q) :
  c == 0 ->
  fst (foldl (fun '(sum, c) x =>
                let y := rsub x c in
                let t := radd sum y in
                (t, rsub (rsub t sum) y))
             (sum, c) l) == sum + Qsum l.
Proof.
  revert sum c. induction l as [|x l IH]; intros sum c Hc; simpl.
  - ring.
  - rewrite IH.
    + rewrite Hc. ring.
    + ring.
Qed.

(** In exact arithmetic the compensation term of the Kahan summation stays
    zero, and [matrix_sum] is the sum of the entries of the matrix. *)
Theorem matrix_sum_exact (a : objectmatrix Q) :
  wf_matrix a -> matrix_sum a == Qsum (elements a).
Proof.
  intros Hwf. unfold matrix_sum. rewrite take_ge by (unfold wf_matrix in Hwf; lia).
  unfold rzero. simpl rconst. rewrite kahan_exact by reflexivity. ring.
Qed.

(** *** Dot products *)

(** The dot product of two vectors of rationals. *)
Definition dotQ (x y : list Q) : Q := Qsum (zip_with Qmult x y).

Lemma ddot_acc (l : list (Q * Q)) (a : Q) :
  foldl (fun acc xy => radd acc (rmul (fst xy) (snd xy))) a l
  == a + Qsum ((fun xy => fst xy * snd xy) <$> l).
Proof.
  unfold Qsum. revert a.
  induction l as [|xy l IH]; intros a; cbn [foldl fmap list_fmap foldr].
  - ring.
  - rewrite IH. cbn [radd rmul Q_Scalar]. ring.
Qed.

Lemma ddot_exact (n : nat) (x y : list Q) :
  length x = n -> cblas_ddot n x y == dotQ x y.
Proof.
  intros Hx. unfold cblas_ddot, dotQ. rewrite take_ge by lia.
  rewrite ddot_acc. unfold rzero. simpl rconst.
  replace ((fun xy => fst xy * snd xy) <$> zip x y) with (zip_with Qmult x y).
  - ring.
  - clear Hx. revert y. induction x as [|a x IH]; intros [|b y]; simpl; try done.
    by rewrite IH.
Qed.

Lemma dotQ_axpy (c : Q) (x y : list Q) :
  length x = length y ->
  dotQ (zip_with (fun xi yi => radd xi (rmul c yi)) x y) y == dotQ x y + c * dotQ y y.
Proof.
  unfold dotQ, Qsum. revert y.
  induction x as [|a x IH]; intros [|b y] Hlen; simpl in Hlen; try done;
    cbn [zip_with foldr].
  - ring.
  - rewrite IH by lia. cbn [radd rmul Q_Scalar]. ring.
Qed.


(** The sum of two matrices of the same shape has the entries
    [a(i,j) + b(i,j)], whatever the new matrix held when it was allocated;
    subtracting [b] again gives the entries of [a] back.  Matrices of
    different shapes cannot be added. *)
Theorem Matrix_add_sub_cancel (junk junk' : nat -> Q) (a b : objectmatrix Q) :
  wf_matrix a -> wf_matrix b ->
  (~ (ncols a = ncols b /\ nrows a = nrows b) -> Matrix_add junk a b = None)
  /\ (ncols a = ncols b -> nrows a = nrows b ->
      exists c d,
        Matrix_add junk a b = Some c
        /\ Matrix_sub junk' c b = Some d
        /\ nrows d = nrows a /\ ncols d = ncols a
        /\ forall i j x y,
             matrix_getelement a i j = Some x -> matrix_getelement b i j = Some y ->
             (exists z, matrix_getelement c i j = Some z /\ z == x + y)
             /\ (exists z, matrix_getelement d i j = Some z /\ z == x)).
Proof.
  intros Ha Hb. split.
  - intros Hbad. unfold Matrix_add.
    assert (bool_decide (ncols a = ncols b) && bool_decide (nrows a = nrows b) = false) as ->;
      [|done].
    apply andb_false_iff. rewrite !bool_decide_eq_false.
    destruct (decide (ncols a = ncols b)); [right|left]; tauto.
  - intros Hc Hr. eexists _, _. rewrite Matrix_add_elements by done.
    split; [done|].
    assert (Hlen : length (elements a) = length (elements b)).
    { unfold wf_matrix in *. rewrite Ha, Hb, Hc, Hr. done. }
    rewrite Matrix_sub_elements; [|unfold wf_matrix; simpl; rewrite length_zip_with;
                                      unfold wf_matrix in *; lia|done..].
    split; [done|]. cbn [nrows ncols elements]. split; [done|]. split; [done|].
    intros i j x y Hx Hy. apply getelement_Some_range in Hx as Hrange.
    destruct Hrange as [Hj Hi]. unfold matrix_getelement in *. cbn [nrows ncols elements].
    rewrite <- Hc, <- Hr in Hy.
    rewrite !bool_decide_eq_true_2 in * by done. simpl andb in *.
    simpl in Hx, Hy. rewrite !lookup_zip_with, Hx. simpl. rewrite Hy. simpl. split.
    + eexists. split; [done|]. ring.
    + eexists. split; [done|]. ring.
Qed.

End Rational.

(** *** Examples *)

Definition example_matrix : objectmatrix Q :=
  {| nrows := 2; ncols := 3; elements := [1; 2; 3; 4; 5; 6]%Q |}.

Lemma example_matrix_wf : wf_matrix example_matrix.
Proof. reflexivity. Qed.

Lemma matrix_transpose_involution_witness :
  matrix_getelement (Matrix_transpose (fun _ => 7%Q) example_matrix) 2 1
  = matrix_getelement example_matrix 1 2
  /\ Matrix_transpose (fun _ => 9%Q) (Matrix_transpose (fun _ => 7%Q) example_matrix)
     = example_matrix.
Proof.
  destruct (matrix_transpose_involution example_matrix example_matrix
              (fun _ => 7%Q) (fun _ => 9%Q) example_matrix_wf)
    as (_ & _ & _ & _ & Hent & Hinv).
  split; [apply Hent|exact Hinv].
Defined.

Definition example_square : objectmatrix Q :=
  {| nrows := 2; ncols := 2; elements := [1; 2; 3; 4]%Q |}.

Lemma matrix_identity_entries_witness :
  matrix_getelement (snd (matrix_identity example_square)) 0 0 = Some 1%Q
  /\ matrix_getelement (snd (matrix_identity example_square)) 1 0 = Some 0%Q
  /\ matrix_identity example_matrix = (MATRIX_NSQ, example_matrix).
Proof.
  destruct (matrix_identity_entries example_square eq_refl) as [_ Hsq].
  destruct (Hsq eq_refl) as (_ & _ & _ & _ & Hent).
  destruct (matrix_identity_entries example_matrix example_matrix_wf) as [Hnsq _].
  split; [|split].
  - apply (Hent 0 0); simpl; lia.
  - apply (Hent 1 0); simpl; lia.
  - apply Hnsq. simpl. lia.
Defined.

Lemma matrix_addtocolumn_entries_witness :
  matrix_getelement (snd (matrix_addtocolumn example_matrix 1 2%Q [10; 20]%Q)) 1 1
  = Some (4 + 2 * 20)%Q
  /\ matrix_addtocolumn example_matrix 3 2%Q [10; 20]%Q = (false, example_matrix).
Proof.
  destruct (matrix_addtocolumn_entries example_matrix 1 2%Q [10; 20]%Q
              example_matrix_wf eq_refl) as [_ Hin].
  destruct (Hin ltac:(simpl; lia)) as (_ & _ & _ & _ & Hcol & _).
  destruct (matrix_addtocolumn_entries example_matrix 3 2%Q [10; 20]%Q
              example_matrix_wf eq_refl) as [Hout _].
  split; [by apply (Hcol 1 4%Q 20%Q)|apply Hout; simpl; lia].
Defined.

Lemma matrix_setelement_getelement_witness :
  matrix_getelement (snd (matrix_setelement example_matrix 1 2 9%Q)) 1 2 = Some 9%Q
  /\ matrix_getelement (snd (matrix_setelement example_matrix 1 2 9%Q)) 0 2 = Some 5%Q
  /\ matrix_setelement example_matrix 2 0 9%Q = (false, example_matrix).
Proof.
  destruct (matrix_setelement_getelement example_matrix 1 2 9%Q example_matrix_wf)
    as [Hin _].
  destruct (Hin ltac:(simpl; lia) ltac:(simpl; lia)) as (_ & _ & Hsame & Hother).
  destruct (matrix_setelement_getelement example_matrix 2 0 9%Q example_matrix_wf)
    as [_ Hout].
  split; [exact Hsame|]. split.
  - rewrite (Hother 0 2) by congruence. reflexivity.
  - apply Hout. simpl. lia.
Defined.

Lemma matrix_setcolumn_getcolumn_witness :
  matrix_getcolumn (snd (matrix_setcolumn example_matrix 1 [8; 9]%Q)) 1 = Some [8; 9]%Q
  /\ matrix_getcolumn (snd (matrix_setcolumn example_matrix 1 [8; 9]%Q)) 2 = Some [5; 6]%Q
  /\ matrix_getcolumn example_matrix 3 = None.
Proof.
  destruct (matrix_setcolumn_getcolumn example_matrix 1 [8; 9]%Q example_matrix_wf eq_refl)
    as [Hin _].
  destruct (Hin ltac:(simpl; lia)) as (_ & _ & Hsame & Hother).
  destruct (matrix_setcolumn_getcolumn example_matrix 3 [8; 9]%Q example_matrix_wf eq_refl)
    as [_ Hout].
  split; [exact Hsame|]. split.
  - rewrite (Hother 2) by lia. reflexivity.
  - apply Hout. simpl. lia.
Defined.

Lemma matrix_sum_exact_witness : (matrix_sum example_matrix == 21)%Q.
Proof. rewrite (matrix_sum_exact example_matrix example_matrix_wf). reflexivity. Defined.

Lemma Matrix_add_sub_cancel_witness :
  exists c d,
    Matrix_add (fun _ => 7%Q) example_matrix example_matrix = Some c
    /\ Matrix_sub (fun _ => 9%Q) c example_matrix = Some d
    /\ (exists z, matrix_getelement d 1 2 = Some z /\ (z == 6)%Q)
    /\ Matrix_add (fun _ => 7%Q) example_matrix example_square = None.
Proof.
  destruct (Matrix_add_sub_cancel (fun _ => 7%Q) (fun _ => 9%Q) example_matrix example_matrix
              example_matrix_wf example_matrix_wf) as [_ Hok].
  destruct (Hok eq_refl eq_refl) as (c & d & Hc & Hd & _ & _ & Hent).
  destruct (Matrix_add_sub_cancel (fun _ => 7%Q) (fun _ => 9%Q) example_matrix example_square
              example_matrix_wf eq_refl) as [Hbad _].
  exists c, d. split; [exact Hc|]. split; [exact Hd|]. split.
  - apply (Hent 1 2 6%Q 6%Q); reflexivity.
  - apply Hbad. simpl. lia.
Defined.

End MatrixOpsProps.

(* ===================================================================== *)
(** * Properties of the DOK to CCS conversion *)
(* ===================================================================== *)

Module SparseProps.
Import Sparse.

(** ** What the conversion is expected to produce *)

(** The keys of column [j] among [ks], in the order of [ks]. *)
Definition column (j : nat) (ks : list (nat * nat)) : list (nat * nat) :=
  filter (fun k => snd k = j) ks.

(** Their row indices, as the CCS structure stores them. *)
Definition rows (j : nat) (ks : list (nat * nat)) : list Z :=
  (fun k => Z.of_nat (fst k)) <$> column j ks.

(** The number of keys of column [j], and of the columns before [j]. *)
Definition cnt (j : nat) (ks : list (nat * nat)) : nat := length (column j ks).

Definition off (j : nat) (ks : list (nat * nat)) : nat :=
  length (filter (fun k => snd k < j) ks).

Lemma cnt_cons j k ks :
  cnt j (k :: ks) = if decide (snd k = j) then Datatypes.S (cnt j ks) else cnt j ks.
Proof. unfold cnt, column. rewrite filter_cons. by destruct (decide _). Qed.

Lemma cnt_app j ks1 ks2 : cnt j (ks1 ++ ks2) = cnt j ks1 + cnt j ks2.
Proof. unfold cnt, column. by rewrite filter_app, length_app. Qed.

Lemma rows_app j ks1 ks2 : rows j (ks1 ++ ks2) = rows j ks1 ++ rows j ks2.
Proof. unfold rows, column. by rewrite filter_app, fmap_app. Qed.

Lemma length_rows j ks : length (rows j ks) = cnt j ks.
Proof. unfold rows, cnt. by rewrite length_fmap. Qed.

Lemma off_0 ks : off 0 ks = 0.
Proof.
  unfold off. induction ks as [|k ks IH]; [done|].
  rewrite filter_cons. destruct (decide _); [lia|done].
Qed.

Lemma off_S j ks : off (Datatypes.S j) ks = off j ks + cnt j ks.
Proof.
  unfold off, cnt, column. induction ks as [|k ks IH]; [done|].
  rewrite !filter_cons. repeat destruct (decide _); simpl; lia.
Qed.

Lemma off_mono j j' ks : j <= j' -> off j ks <= off j' ks.
Proof. induction 1 as [|j' _ IH]; [done|]. rewrite off_S. lia. Qed.

Lemma off_disjoint j j' ks : j < j' -> off j ks + cnt j ks <= off j' ks.
Proof. intros Hlt. rewrite <- off_S. by apply off_mono. Qed.


Lemma off_le_length j ks : off j ks <= length ks.
Proof. unfold off. apply length_filter. Qed.


(** ** Counting and the column pointers *)

Lemma count_columns_lookup ks cp j :
  count_columns ks cp !! j = (fun c => c + cnt j ks) <$> cp !! j.
Proof.
  unfold count_columns. revert cp. induction ks as [|k ks IH]; intros cp; simpl.
  - destruct (cp !! j); simpl; [f_equal; unfold cnt, column; simpl; lia|done].
  - rewrite IH, list_lookup_alter, cnt_cons.
    destruct (decide (snd k = j)) as [->|]; [|done].
    destruct (cp !! j); simpl; [f_equal; lia|done].
Qed.

Lemma count_columns_length ks cp : length (count_columns ks cp) = length cp.
Proof.
  unfold count_columns. revert cp. induction ks as [|k ks IH]; intros cp; simpl; [done|].
  by rewrite IH, length_alter.
Qed.

Lemma column_pointers_spec (cp0 : list nat) k :
  forall m cp,
    m + k <= length cp0 -> length cp = length cp0 ->
    (forall i, i < m -> cp !! i = Some (sum_list (take i cp0))) ->
    (forall i, m <= i -> cp !! i = cp0 !! i) ->
    let r := foldl (fun '(ptr, cp) i =>
                      match cp !! i with
                      | Some c => ((ptr + c)%nat, <[i := ptr]> cp)
                      | None => (ptr, cp)
                      end) (sum_list (take m cp0), cp) (seq m k) in
    length (snd r) = length cp0
    /\ (forall i, i < m + k -> snd r !! i = Some (sum_list (take i cp0)))
    /\ (forall i, m + k <= i -> snd r !! i = cp0 !! i).
Proof.
  induction k as [|k IH]; intros m cp Hmk Hlen Hlow Hhigh; simpl.
  - rewrite Nat.add_0_r. done.
  - destruct (lookup_lt_is_Some_2 cp0 m) as [c Hc]; [lia|].
    rewrite Hhigh, Hc by lia.
    replace (sum_list (take m cp0) + c) with (sum_list (take (Datatypes.S m) cp0)).
    2:{ rewrite (take_S_r _ _ _ Hc), sum_list_with_app. simpl. lia. }
    replace (m + Datatypes.S k) with (Datatypes.S m + k) by lia.
    apply IH.
    + lia.
    + by rewrite length_insert.
    + intros i Hi. destruct (decide (i = m)) as [->|Hne].
      * rewrite list_lookup_insert_eq; [done|lia].
      * rewrite list_lookup_insert_ne by done. apply Hlow. lia.
    + intros i Hi. rewrite list_lookup_insert_ne by lia. apply Hhigh. lia.
Qed.

Lemma sum_counts (counts : list nat) ks i :
  (forall j, j < length counts -> counts !! j = Some (cnt j ks)) ->
  i <= length counts -> sum_list (take i counts) = off i ks.
Proof.
  intros Hcounts. induction i as [|i IH]; intros Hi.
  - by rewrite off_0.
  - rewrite (take_S_r _ _ (cnt i ks)) by (apply Hcounts; lia).
    rewrite sum_list_with_app, off_S, IH by lia. simpl. lia.
Qed.

(** The column pointers are the offsets of the columns. *)
Lemma cptr_spec nc ks :
  let cp := column_pointers (nc + 1) (count_columns ks (replicate (nc + 1) 0)) in
  length cp = nc + 1 /\ forall j, j <= nc -> cp !! j = Some (off j ks).
Proof.
  set (counts := count_columns ks (replicate (nc + 1) 0)).
  assert (Hlen : length counts = nc + 1).
  { unfold counts. by rewrite count_columns_length, length_replicate. }
  assert (Hcounts : forall j, j < length counts -> counts !! j = Some (cnt j ks)).
  { intros j Hj. unfold counts. rewrite count_columns_lookup.
    rewrite lookup_replicate_2 by lia. done. }
  destruct (column_pointers_spec counts (nc + 1) 0 counts) as (Hl & Hlow & _).
  - lia.
  - done.
  - intros i Hi. lia.
  - done.
  - simpl. unfold column_pointers. simpl in Hl, Hlow. split; [by rewrite Hl|].
    intros j Hj. rewrite Hlow by lia. f_equal. apply sum_counts; [done|lia].
Qed.


(** ** Filling the row indices *)

Lemma find_free_spec (rx : list Z) m :
  forall k fuel,
    (forall t, t < m -> exists v, rx !! (k + t) = Some v /\ v <> (-1)%Z) ->
    rx !! (k + m) = Some (-1)%Z ->
    m < fuel ->
    find_free rx k fuel = Some (k + m).
Proof.
  induction m as [|m IH]; intros k fuel Hused Hfree Hfuel.
  - destruct fuel as [|fuel]; [lia|]. simpl. rewrite Nat.add_0_r in *.
    rewrite Hfree. by rewrite bool_decide_eq_true_2.
  - destruct fuel as [|fuel]; [lia|]. simpl.
    destruct (Hused 0 ltac:(lia)) as (v & Hv & Hne). rewrite Nat.add_0_r in Hv.
    rewrite Hv, bool_decide_eq_false_2 by done.
    replace (k + Datatypes.S m) with (Datatypes.S k + m) in * by lia.
    apply IH; [|done|lia].
    intros t Ht. destruct (Hused (Datatypes.S t) ltac:(lia)) as (v' & Hv' & Hne').
    exists v'. split; [|done]. rewrite <- Hv'. f_equal. lia.
Qed.

(** The row index array after the keys [ks1] of [ks] have been entered:
    the segment of column [j] starts with the rows of its keys among [ks1],
    in their order, and is free ([-1]) after them. *)
Definition expected (ks ks1 : list (nat * nat)) (j : nat) : list Z :=
  rows j ks1 ++ replicate (cnt j ks - cnt j ks1) (-1)%Z.

Definition filled (ks ks1 : list (nat * nat)) (rx : list Z) : Prop :=
  length rx = length ks
  /\ forall j t, t < cnt j ks -> rx !! (off j ks + t) = expected ks ks1 j !! t.

Lemma rows_lookup_not_free j ks t :
  t < cnt j ks -> exists v, rows j ks !! t = Some v /\ v <> (-1)%Z.
Proof.
  intros Ht. destruct (lookup_lt_is_Some_2 (rows j ks) t) as [v Hv].
  { by rewrite length_rows. }
  exists v. split; [done|]. unfold rows in Hv.
  apply list_lookup_fmap_Some in Hv as (k & -> & _). lia.
Qed.

Lemma rows_same k : rows (snd k) [k] = [Z.of_nat (fst k)].
Proof. unfold rows, column. by rewrite filter_cons, decide_True. Qed.

Lemma cnt_same k : cnt (snd k) [k] = 1.
Proof. by rewrite cnt_cons, decide_True. Qed.

Lemma rows_other j k : j <> snd k -> rows j [k] = [].
Proof. intros Hj. unfold rows, column. by rewrite filter_cons, decide_False. Qed.

Lemma cnt_other j k : j <> snd k -> cnt j [k] = 0.
Proof. intros Hj. by rewrite cnt_cons, decide_False. Qed.

Lemma segment_in_range j ks t : t < cnt j ks -> off j ks + t < length ks.
Proof.
  intros Ht. pose proof (off_le_length (Datatypes.S j) ks) as Hle.
  rewrite off_S in Hle. lia.
Qed.

Lemma fill_step (cp : list nat) ks ks1 k ks2 rx :
  ks = ks1 ++ k :: ks2 ->
  cp !! (snd k) = Some (off (snd k) ks) ->
  filled ks ks1 rx ->
  exists rx',
    (c ← cp !! (snd k);
     pos ← find_free rx c (Datatypes.S (length rx));
     Some (<[pos := Z.of_nat (fst k)]> rx)) = Some rx'
    /\ filled ks (ks1 ++ [k]) rx'.
Proof.
  intros Hks Hcp [Hlen Hfill]. rewrite Hcp. cbn -[find_free].
  assert (Hcnt : cnt (snd k) ks = cnt (snd k) ks1 + Datatypes.S (cnt (snd k) ks2)).
  { rewrite Hks, cnt_app, cnt_cons. by rewrite decide_True. }
  assert (Hpos : off (snd k) ks + cnt (snd k) ks1 < length rx).
  { rewrite Hlen. apply segment_in_range. lia. }
  rewrite (find_free_spec rx (cnt (snd k) ks1)).
  - simpl. eexists. split; [done|]. split; [by rewrite length_insert|].
    intros j t Ht. unfold expected.
    destruct (decide (j = snd k)) as [->|Hj].
    + rewrite rows_app, cnt_app, rows_same, cnt_same.
      destruct (decide (t = cnt (snd k) ks1)) as [->|Hne].
      * rewrite list_lookup_insert_eq by done.
        rewrite <- app_assoc, lookup_app_r by (rewrite length_rows; lia).
        by rewrite length_rows, Nat.sub_diag.
      * rewrite list_lookup_insert_ne by lia. rewrite Hfill by done. unfold expected.
        destruct (decide (t < cnt (snd k) ks1)) as [Hlt|Hge].
        -- rewrite !lookup_app_l by (rewrite ?length_app, length_rows; simpl; lia).
           done.
        -- rewrite <- app_assoc.
           rewrite !lookup_app_r by (rewrite length_rows; lia). rewrite length_rows.
           destruct (t - cnt (snd k) ks1) as [|d] eqn:Hd; [lia|]. simpl.
           rewrite !lookup_replicate_2 by lia. done.
    + assert (Hother : off j ks + t <> off (snd k) ks + cnt (snd k) ks1).
      { destruct (decide (j < snd k)) as [Hlt|Hge].
        - pose proof (off_disjoint j (snd k) ks Hlt). lia.
        - pose proof (off_disjoint (snd k) j ks ltac:(lia)). lia. }
      rewrite list_lookup_insert_ne by lia. rewrite Hfill by done. unfold expected.
      rewrite rows_app, cnt_app, rows_other, cnt_other by done.
      by rewrite app_nil_r, Nat.add_0_r.
  - intros t Ht. rewrite Hfill by lia. unfold expected.
    rewrite lookup_app_l by (rewrite length_rows; lia).
    by apply rows_lookup_not_free.
  - rewrite Hfill by lia. unfold expected.
    rewrite lookup_app_r by (rewrite length_rows; lia).
    rewrite length_rows, Nat.sub_diag. apply lookup_replicate_2. lia.
  - lia.
Qed.

Lemma fill_rows_from (cp : list nat) ks ks2 :
  forall ks1 rx,
    ks = ks1 ++ ks2 ->
    (forall k, k ∈ ks -> cp !! (snd k) = Some (off (snd k) ks)) ->
    filled ks ks1 rx ->
    exists rx', fill_rows cp ks2 rx = Some rx' /\ filled ks ks rx'.
Proof.
  unfold fill_rows.
  induction ks2 as [|k ks2 IH]; intros ks1 rx Hks Hcp Hfill; cbn [foldl mbind option_bind].
  - rewrite app_nil_r in Hks. subst ks1. by exists rx.
  - destruct (fill_step cp ks ks1 k ks2 rx Hks) as (rx' & Hstep & Hfill'); [|done|].
    { apply Hcp. rewrite Hks. apply elem_of_app. right. by left. }
    match goal with
    | |- context [Some rx ≫= ?f] => change (Some rx ≫= f) with (f rx); cbv beta
    end.
    rewrite Hstep. apply (IH (ks1 ++ [k])); [|done|done].
    by rewrite <- app_assoc.
Qed.

(** After the copy loop the segment of every column holds the rows of its
    keys. *)
Lemma fill_rows_spec (cp : list nat) ks :
  (forall k, k ∈ ks -> cp !! (snd k) = Some (off (snd k) ks)) ->
  exists rx,
    fill_rows cp ks (replicate (length ks) (-1)%Z) = Some rx
    /\ length rx = length ks
    /\ forall j t, t < cnt j ks -> rx !! (off j ks + t) = rows j ks !! t.
Proof.
  intros Hcp.
  destruct (fill_rows_from cp ks ks [] (replicate (length ks) (-1)%Z))
    as (rx & Hrun & Hlen & Hfill); [done|done| |].
  - split; [by rewrite length_replicate|]. intros j t Ht. unfold expected. simpl.
    rewrite Nat.sub_0_r. rewrite !lookup_replicate_2; [done|lia|].
    by apply segment_in_range.
  - exists rx. split; [done|]. split; [done|]. intros j t Ht.
    rewrite Hfill by done. unfold expected.
    rewrite lookup_app_l by (rewrite length_rows; lia). done.
Qed.


(** ** Sorting the columns *)

(** The part of the row index array that belongs to column [j]. *)
Definition segment (rx : list Z) (j : nat) (ks : list (nat * nat)) : list Z :=
  take (cnt j ks) (drop (off j ks) rx).

Lemma segment_lookup rx j ks t :
  segment rx j ks !! t = if decide (t < cnt j ks) then rx !! (off j ks + t) else None.
Proof. unfold segment. by rewrite lookup_take, lookup_drop. Qed.

Lemma segment_ext rx rx' j ks :
  (forall t, t < cnt j ks -> rx !! (off j ks + t) = rx' !! (off j ks + t)) ->
  segment rx j ks = segment rx' j ks.
Proof.
  intros Hsame. apply list_eq. intros t. rewrite !segment_lookup.
  destruct (decide _); [by apply Hsame|done].
Qed.

Lemma segment_filled rx j ks :
  (forall t, t < cnt j ks -> rx !! (off j ks + t) = rows j ks !! t) ->
  segment rx j ks = rows j ks.
Proof.
  intros Hfill. apply list_eq. intros t. rewrite segment_lookup.
  destruct (decide _) as [|Hge]; [by apply Hfill|].
  symmetry. apply lookup_ge_None. rewrite length_rows. lia.
Qed.

Lemma length_merge_sort (l : list Z) : length (merge_sort Z.le l) = length l.
Proof. apply Permutation_length, merge_sort_Permutation. Qed.

Lemma length_sort_segment rx c0 len :
  c0 + len <= length rx -> length (sort_segment rx c0 len) = length rx.
Proof.
  intros Hle. unfold sort_segment.
  rewrite !length_app, length_merge_sort, !length_take, !length_drop. lia.
Qed.

Lemma sort_segment_outside rx c0 len p :
  c0 + len <= length rx -> p < c0 \/ c0 + len <= p ->
  sort_segment rx c0 len !! p = rx !! p.
Proof.
  intros Hle Hp. unfold sort_segment. destruct Hp as [Hlt|Hge].
  - rewrite lookup_app_l by (rewrite length_take; lia). by rewrite lookup_take_lt.
  - rewrite lookup_app_r by (rewrite length_take; lia).
    rewrite lookup_app_r by (rewrite length_merge_sort, !length_take, length_drop; lia).
    rewrite lookup_drop, length_merge_sort, !length_take, length_drop. f_equal. lia.
Qed.

Lemma sort_segment_inside rx c0 len :
  c0 + len <= length rx ->
  take len (drop c0 (sort_segment rx c0 len)) = merge_sort Z.le (take len (drop c0 rx)).
Proof.
  intros Hle. unfold sort_segment.
  rewrite drop_app_length' by (rewrite length_take; lia).
  apply take_app_length'. rewrite length_merge_sort, length_take, length_drop. lia.
Qed.

Lemma cnt_out_of_range nc j ks :
  (forall k, k ∈ ks -> snd k < nc) -> nc <= j -> cnt j ks = 0.
Proof.
  intros Hwf Hj. induction ks as [|k ks IH]; [done|].
  rewrite cnt_cons. destruct (decide _) as [Heq|_].
  - pose proof (Hwf k ltac:(by left)). lia.
  - apply IH. intros k' Hk'. apply Hwf. by right.
Qed.

(** The row index array after the columns before [m] have been sorted. *)
Definition sorted_upto (ks : list (nat * nat)) (m : nat) (rx : list Z) : Prop :=
  length rx = length ks
  /\ (forall j, segment rx j ks ≡ₚ rows j ks)
  /\ (forall j, j < m -> Sorted Z.le (segment rx j ks)).

Lemma sort_columns_from (cp : list nat) ks nc k :
  (forall j, j <= nc -> cp !! j = Some (off j ks)) ->
  forall m rx,
    m + k <= nc ->
    sorted_upto ks m rx ->
    sorted_upto ks (m + k)
      (foldl (fun rx i =>
                match cp !! i, cp !! (i + 1) with
                | Some c0, Some c1 =>
                    if bool_decide (1 < c1 - c0) then sort_segment rx c0 (c1 - c0) else rx
                | _, _ => rx
                end) rx (seq m k)).
Proof.
  intros Hcp. induction k as [|k IH]; intros m rx Hmk Hinv; cbn [seq foldl].
  - by rewrite Nat.add_0_r.
  - replace (m + Datatypes.S k) with (Datatypes.S m + k) by lia. apply IH; [lia|].
    rewrite !Hcp by lia. replace (m + 1) with (Datatypes.S m) by lia.
    rewrite off_S. replace (off m ks + cnt m ks - off m ks) with (cnt m ks) by lia.
    destruct Hinv as (Hlen & Hperm & Hsorted).
    assert (Hrange : off m ks + cnt m ks <= length rx).
    { rewrite Hlen, <- off_S. apply off_le_length. }
    case_bool_decide as Hlong.
    + assert (Hothers : forall j, j <> m ->
                segment (sort_segment rx (off m ks) (cnt m ks)) j ks = segment rx j ks).
      { intros j Hj. apply segment_ext. intros t Ht.
        apply sort_segment_outside; [done|].
        destruct (decide (j < m)) as [Hlt|Hge].
        - pose proof (off_disjoint j m ks Hlt). lia.
        - pose proof (off_disjoint m j ks ltac:(lia)). lia. }
      assert (Hthis : segment (sort_segment rx (off m ks) (cnt m ks)) m ks
                      = merge_sort Z.le (segment rx m ks)).
      { unfold segment. by apply sort_segment_inside. }
      split; [by rewrite length_sort_segment|]. split.
      * intros j. destruct (decide (j = m)) as [->|Hj].
        -- rewrite Hthis, merge_sort_Permutation. apply Hperm.
        -- rewrite Hothers by done. apply Hperm.
      * intros j Hj. destruct (decide (j = m)) as [->|Hne].
        -- rewrite Hthis. apply Sorted_merge_sort. apply _.
        -- rewrite Hothers by done. apply Hsorted. lia.
    + split; [done|]. split; [done|]. intros j Hj.
      destruct (decide (j = m)) as [->|Hne]; [|apply Hsorted; lia].
      pose proof (Permutation_length (Hperm m)) as Hl. rewrite length_rows in Hl.
      destruct (segment rx m ks) as [|x [|y l]]; [constructor|repeat constructor|].
      simpl in Hl. lia.
Qed.

Lemma sort_columns_spec (cp : list nat) ks nc rx :
  (forall j, j <= nc -> cp !! j = Some (off j ks)) ->
  (forall k, k ∈ ks -> snd k < nc) ->
  length rx = length ks ->
  (forall j t, t < cnt j ks -> rx !! (off j ks + t) = rows j ks !! t) ->
  let rx' := sort_columns nc cp rx in
  length rx' = length ks
  /\ forall j, segment rx' j ks ≡ₚ rows j ks /\ Sorted Z.le (segment rx' j ks).
Proof.
  intros Hcp Hwf Hlen Hfill.
  destruct (sort_columns_from cp ks nc nc Hcp 0 rx) as (Hl & Hperm & Hsorted); [lia| |].
  - split; [done|]. split; [|intros j Hj; lia].
    intros j. by rewrite segment_filled by (by apply Hfill).
  - simpl in Hsorted. unfold sort_columns. simpl. split; [done|]. intros j. split; [done|].
    destruct (decide (j < nc)) as [Hj|Hj]; [by apply Hsorted|].
    unfold segment. rewrite (cnt_out_of_range nc j ks) by (done || lia). constructor.
Qed.


(** ** The conversion *)

Lemma cnt_Permutation j ks ks' : ks ≡ₚ ks' -> cnt j ks = cnt j ks'.
Proof. intros Hp. unfold cnt, column. by rewrite Hp. Qed.

Lemma off_Permutation j ks ks' : ks ≡ₚ ks' -> off j ks = off j ks'.
Proof. intros Hp. unfold off. by rewrite Hp. Qed.

Lemma rows_Permutation j ks ks' : ks ≡ₚ ks' -> rows j ks ≡ₚ rows j ks'.
Proof. intros Hp. unfold rows, column. by rewrite Hp. Qed.

Lemma segment_Permutation rx j ks ks' : ks ≡ₚ ks' -> segment rx j ks = segment rx j ks'.
Proof.
  intros Hp. unfold segment.
  by rewrite (cnt_Permutation _ _ _ Hp), (off_Permutation _ _ _ Hp).
Qed.



Lemma elem_of_rows j ks z :
  z ∈ rows j ks <-> exists i, z = Z.of_nat i /\ (i, j) ∈ ks.
Proof.
  unfold rows, column. rewrite list_elem_of_fmap. split.
  - intros ([i j'] & -> & Hin). apply list_elem_of_filter in Hin as [Hj Hin].
    simpl in Hj. subst j'. by exists i.
  - intros (i & -> & Hin). exists (i, j). split; [done|].
    by apply list_elem_of_filter.
Qed.


Section Conversion.
Context {R : Type} `{Scalar R}.

(** The keys the dictionary of a DOK holds. *)
Definition stored_keys (d : sparsedok R) : list (nat * nat) :=
  (map_to_list (dict d)).*1.

(** The columns of the keys lie within the dimensions of the DOK. *)
Definition wf_dok (d : sparsedok R) : Prop :=
  forall i j, is_Some (dict d !! (i, j)) -> j < dok_ncols d.

Lemma elem_of_stored_keys d i j : (i, j) ∈ stored_keys d <-> is_Some (dict d !! (i, j)).
Proof.
  unfold stored_keys. rewrite list_elem_of_fmap. split.
  - intros ([k v] & Hk & Hin). simpl in Hk. subst k.
    apply elem_of_map_to_list in Hin. by exists v.
  - intros [v Hv]. exists ((i, j), v). split; [done|]. by apply elem_of_map_to_list.
Qed.

Lemma wf_dok_init : wf_dok (sparsedok_init (R:=R)).
Proof. intros i j [v Hv]. simpl in Hv. by rewrite lookup_empty in Hv. Qed.

Lemma wf_dok_insert d i j v : wf_dok d -> wf_dok (sparsedok_insert d i j v).
Proof.
  intros Hwf i' j' Hsome. unfold sparsedok_insert in *.
  destruct (dict d !! (i, j)) as [old|] eqn:Hold; simpl in *.
  - destruct (decide ((i, j) = (i', j'))) as [[= <- <-]|Hne].
    + apply (Hwf i j). by exists old.
    + rewrite lookup_insert_ne in Hsome by done. by apply (Hwf i' j').
  - destruct (decide ((i, j) = (i', j'))) as [[= <- <-]|Hne].
    + repeat case_bool_decide; simpl; lia.
    + rewrite lookup_insert_ne in Hsome by done. apply (Hwf i' j') in Hsome.
      repeat case_bool_decide; simpl; lia.
Qed.

Lemma wf_dok_setdimensions d nr nc :
  wf_dok d -> wf_dok (snd (sparsedok_setdimensions d nr nc)).
Proof.
  intros Hwf i j Hsome. unfold sparsedok_setdimensions in *.
  destruct (_ || _) eqn:E; simpl in *; [by apply (Hwf i j)|].
  apply orb_false_iff in E as [_ E]. apply bool_decide_eq_false in E.
  pose proof (Hwf i j Hsome). lia.
Qed.

(** [sparseccs_resize] on the structure [sparseccs_init] leaves. *)
Lemma sparseccs_resize_init (nr nc n : nat) (vals : bool) :
  sparseccs_resize (R:=R) sparseccs_init nr nc n vals
  = if bool_decide (0 < nc)
    then Some {| a_nentries := n; a_nrows := nr; a_ncols := nc;
                 a_cptr := Some (replicate (nc + 1) 0);
                 a_rix := Some (replicate n (-1)%Z);
                 a_values := if vals then Some (replicate n rzero) else None |}
    else None.
Proof.
  unfold sparseccs_resize, sparseccs_init, MORPHO_REALLOC. cbn.
  rewrite !Nat.sub_0_r.
  case_bool_decide as Hnc; destruct vals; cbn; rewrite ?take_nil; done.
Qed.

Lemma clear_cells {A : Type} (x y : A) (n : nat) :
  foldl (fun l i => <[i := x]> l) (replicate n y) (seq 0 n) = replicate n x.
Proof.
  assert (Hgen : forall k, k <= n ->
            foldl (fun l i => <[i := x]> l) (replicate n y) (seq 0 k)
            = replicate k x ++ replicate (n - k) y).
  { induction k as [|k IH]; intros Hk.
    - simpl. by rewrite Nat.sub_0_r.
    - rewrite seq_S, foldl_app, IH by lia. simpl.
      rewrite insert_app_r_alt by (rewrite length_replicate; lia).
      rewrite length_replicate, Nat.sub_diag.
      replace (n - k) with (Datatypes.S (n - Datatypes.S k)) by lia. simpl.
      generalize (replicate (n - Datatypes.S k) y). intros l.
      clear. induction k as [|k IH]; [done|]. cbn [replicate app]. by rewrite IH. }
  rewrite Hgen by lia. by rewrite Nat.sub_diag, app_nil_r.
Qed.

(** A DOK without columns has no CCS form: [sparseccs_resize] leaves [cptr]
    [NULL] and the conversion returns [false]. *)
Lemma doktoccs_no_columns (slots : gmap (nat * nat) (value R) -> list (nat * nat))
    (d : sparsedok R) (copyvals : bool) :
  dok_ncols d = 0 -> sparseccs_doktoccs slots d copyvals = None.
Proof.
  intros Hnc. unfold sparseccs_doktoccs.
  rewrite sparseccs_resize_init, bool_decide_eq_false_2 by lia. done.
Qed.

(** The result of the conversion of a DOK with columns, whatever the order
    of the slots. *)
Lemma doktoccs_canonical (slots : gmap (nat * nat) (value R) -> list (nat * nat))
    (d : sparsedok R) (copyvals : bool) :
  slots (dict d) ≡ₚ stored_keys d -> wf_dok d -> 0 < dok_ncols d ->
  exists rx,
    sparseccs_doktoccs slots d copyvals
    = Some {| nentries := size (dict d);
              ccs_nrows := dok_nrows d;
              ccs_ncols := dok_ncols d;
              cptr := (fun j => off j (stored_keys d)) <$> seq 0 (dok_ncols d + 1);
              rix := rx;
              values :=
                if copyvals
                then Some (copy_values d (dok_ncols d)
                             ((fun j => off j (stored_keys d)) <$> seq 0 (dok_ncols d + 1)) rx)
                else None |}
    /\ length rx = length (stored_keys d)
    /\ forall j, segment rx j (stored_keys d) ≡ₚ rows j (stored_keys d)
                 /\ Sorted Z.le (segment rx j (stored_keys d)).
Proof.
  intros Hperm Hwf Hpos. unfold sparseccs_doktoccs.
  rewrite sparseccs_resize_init, bool_decide_eq_true_2 by done.
  repeat (match goal with
          | |- context [Some ?x ≫= ?k] => change (Some x ≫= k) with (k x)
          end; cbv beta; cbn [a_cptr a_rix a_nentries a_nrows a_ncols]).
  rewrite !clear_cells.
  set (ks := slots (dict d)) in *. set (nc := dok_ncols d) in *.
  assert (Hsize : size (dict d) = length ks).
  { rewrite Hperm. unfold stored_keys. by rewrite length_fmap, length_map_to_list. }
  assert (Hcols : forall k, k ∈ ks -> snd k < nc).
  { intros [i j] Hk. rewrite Hperm in Hk. apply elem_of_stored_keys in Hk. by apply (Hwf i j). }
  destruct (cptr_spec nc ks) as [Hcplen Hcp].
  set (cp := column_pointers (nc + 1) (count_columns ks (replicate (nc + 1) 0))) in *.
  assert (Hcpeq : cp = (fun j => off j (stored_keys d)) <$> seq 0 (nc + 1)).
  { apply list_eq. intros j. rewrite list_lookup_fmap.
    destruct (decide (j <= nc)) as [Hj|Hj].
    - rewrite Hcp by done. rewrite lookup_seq_lt by lia. simpl.
      by rewrite (off_Permutation _ _ _ Hperm).
    - rewrite lookup_seq_ge by lia. apply lookup_ge_None. lia. }
  destruct (fill_rows_spec cp ks) as (rx & Hfill & Hlen & Hrows).
  { intros k Hk. apply Hcp. pose proof (Hcols k Hk). lia. }
  rewrite Hsize, Hfill. cbn [mbind option_bind].
  destruct (sort_columns_spec cp ks nc rx Hcp Hcols Hlen Hrows) as [Hlen' Hseg].
  exists (sort_columns nc cp rx). rewrite <- Hcpeq. split; [done|].
  split; [by rewrite Hlen', Hperm|].
  intros j. rewrite <- (segment_Permutation _ _ _ _ Hperm), <- (rows_Permutation _ _ _ Hperm).
  apply Hseg.
Qed.


End Conversion.

(** The matrix with the entries (0,0), (1,1), (2,1), (1,2), (2,2), (0,3) and
    (3,3), entered in this order. *)
Definition example_dok : sparsedok Q :=
  foldl (fun d k => sparsedok_insert d (fst k) (snd k) (VFloat 1%Q)) sparsedok_init
        [(0, 0); (1, 1); (2, 1); (1, 2); (2, 2); (0, 3); (3, 3)].

(** Two orders in which a table may present its keys. *)
Definition ascending_slots (m : gmap (nat * nat) (value Q)) : list (nat * nat) :=
  (map_to_list m).*1.

Definition descending_slots (m : gmap (nat * nat) (value Q)) : list (nat * nat) :=
  reverse (map_to_list m).*1.


Lemma example_dok_ccs :
  (fun c => (cptr c, rix c)) <$> sparseccs_doktoccs descending_slots example_dok false
  = Some ([0; 1; 3; 5; 7], [0; 1; 2; 1; 2; 0; 3]%Z).
Proof. vm_compute. reflexivity. Qed.

(** The DOK a fresh sparse matrix holds, with no column. *)
Lemma empty_dok_has_no_ccs :
  sparseccs_doktoccs ascending_slots (sparsedok_init (R:=Q)) true = None.
Proof. vm_compute. reflexivity. Qed.


End SparseProps.

(* ===================================================================== *)
(** ** Sparse matrices: copies and the entries of the CCS form *)
(* ===================================================================== *)

Module SparseOpsProps.
Import Sparse SparseOps SparseProps.

Local Ltac bind_some :=
  match goal with
  | |- context [Some ?x ≫= ?k] => change (Some x ≫= k) with (k x); cbv beta iota
  end.

Section Generic.
Context {R : Type} `{Scalar R}.
Implicit Types d src : sparsedok R.

(** *** The list of keys of a DOK *)

(** The list of keys names each entry of the dictionary once, and the
    dimensions cover every key. *)
Definition dok_consistent d : Prop :=
  NoDup (keys d)
  /\ (forall k, k ∈ keys d <-> is_Some (dict d !! k))
  /\ (forall i j, (i, j) ∈ keys d -> i < dok_nrows d /\ j < dok_ncols d).

Lemma dok_consistent_init : dok_consistent (sparsedok_init (R:=R)).
Proof.
  split; [constructor|]. split.
  - intros k. simpl. rewrite lookup_empty. split; [by intros ?%elem_of_nil|by intros [? ?]].
  - intros i j Hk. by apply elem_of_nil in Hk.
Qed.

Lemma dok_consistent_insert d i j v :
  dok_consistent d -> dok_consistent (sparsedok_insert d i j v).
Proof.
  intros (Hnd & Hdom & Hdim). unfold dok_consistent, sparsedok_insert.
  destruct (dict d !! (i, j)) as [old|] eqn:Hold; simpl.
  - split; [done|]. split; [|done].
    intros k. rewrite Hdom. destruct (decide (k = (i, j))) as [->|Hne].
    + rewrite lookup_insert_eq, Hold. split; eauto.
    + by rewrite lookup_insert_ne.
  - split; [|split].
    + apply NoDup_cons. split; [|done]. rewrite Hdom, Hold. by intros [? ?].
    + intros k. rewrite elem_of_cons, Hdom. destruct (decide (k = (i, j))) as [->|Hne].
      * rewrite lookup_insert_eq. split; eauto.
      * rewrite lookup_insert_ne by done. split; [by intros [?|?]|by right].
    + intros i' j' Hk. apply elem_of_cons in Hk as [[= -> ->]|Hk].
      * repeat case_bool_decide; simpl; lia.
      * apply Hdim in Hk. repeat case_bool_decide; simpl; lia.
Qed.

Lemma dok_consistent_setdimensions d nr nc :
  dok_consistent d -> dok_consistent (snd (sparsedok_setdimensions d nr nc)).
Proof.
  intros (Hnd & Hdom & Hdim). unfold dok_consistent, sparsedok_setdimensions.
  destruct (_ || _) eqn:E; simpl; [done|].
  apply orb_false_iff in E as [E1 E2].
  apply bool_decide_eq_false in E1. apply bool_decide_eq_false in E2.
  split; [done|]. split; [done|]. intros i j Hk. apply Hdim in Hk. simpl. lia.
Qed.


(** *** Copying a DOK *)



(** *** The entries of the CCS form *)

Lemma find_row_spec (rx : list Z) (z : Z) (n k : nat) :
  k + n <= length rx ->
  (z ∉ take n (drop k rx) -> find_row rx z k n = Some None)
  /\ (z ∈ take n (drop k rx) ->
      exists p, k <= p < k + n /\ rx !! p = Some z /\ find_row rx z k n = Some (Some p)).
Proof.
  revert k. induction n as [|n IH]; intros k Hlen.
  - simpl. rewrite take_0. split; [done|]. by intros ?%elem_of_nil.
  - destruct (lookup_lt_is_Some_2 rx k) as [r Hr]; [lia|].
    rewrite (drop_S _ _ _ Hr). cbn [take find_row]. rewrite Hr.
    destruct (IH (Datatypes.S k)) as [IHn IHy]; [lia|].
    case_bool_decide as Hz.
    + subst r. split.
      * intros Hnot. exfalso. apply Hnot. by left.
      * intros _. exists k. split; [lia|done].
    + split.
      * intros Hnot. apply IHn. intros Hin. apply Hnot. by right.
      * intros Hin. apply elem_of_cons in Hin as [->|Hin]; [done|].
        destruct (IHy Hin) as (p & Hp & Hrx & Hf). exists p. split; [lia|done].
Qed.

(** The number the CCS form holds for a value of the DOK. *)
Definition value_float (v : value R) : R :=
  match v with
  | VFloat x => x
  | VInteger n => rconst (inject_Z n)
  | VNil => rzero
  end.

(** What the copy of the values leaves at the position [p] of column [j]. *)
Definition copy_entry d (rx : list Z) (j p : nat) (old : R) : R :=
  match rx !! p with
  | Some r =>
      match sparsedok_get d (Z.to_nat r) j with
      | Some (VFloat x) => x
      | Some (VInteger n) => rconst (inject_Z n)
      | _ => old
      end
  | None => old
  end.

Lemma copy_column d (rx : list Z) (j c0 n : nat) (vals : list R) (p : nat) :
  foldl (fun vals i =>
           match rx !! (c0 + i) with
           | Some r =>
               match sparsedok_get d (Z.to_nat r) j with
               | Some (VFloat x) => <[(c0 + i)%nat := x]> vals
               | Some (VInteger n) => <[(c0 + i)%nat := rconst (inject_Z n)]> vals
               | _ => vals
               end
           | None => vals
           end) vals (seq 0 n) !! p
  = if decide (c0 <= p < c0 + n) then copy_entry d rx j p <$> vals !! p else vals !! p.
Proof.
  induction n as [|n IH].
  - simpl. destruct (decide _); [lia|done].
  - rewrite seq_S, foldl_app. cbn [foldl]. rewrite Nat.add_0_l.
    match goal with |- context [foldl ?f vals (seq 0 n)] => set (acc := foldl f vals (seq 0 n)) in * end.
    assert (Hstep : match rx !! (c0 + n) with
                    | Some r =>
                        match sparsedok_get d (Z.to_nat r) j with
                        | Some (VFloat x) => <[(c0 + n)%nat := x]> acc
                        | Some (VInteger m) => <[(c0 + n)%nat := rconst (inject_Z m)]> acc
                        | _ => acc
                        end
                    | None => acc
                    end = alter (copy_entry d rx j (c0 + n)) (c0 + n) acc).
    { unfold copy_entry. destruct (rx !! (c0 + n)) as [r|]; [|by rewrite list_alter_id].
      destruct (sparsedok_get d (Z.to_nat r) j) as [[x|m|]|].
      - by rewrite list_insert_alter.
      - by rewrite list_insert_alter.
      - by rewrite list_alter_id.
      - by rewrite list_alter_id. }
    rewrite Hstep, list_lookup_alter. destruct (decide (c0 + n = p)) as [<-|Hne].
    + rewrite IH. rewrite decide_False by lia. by rewrite decide_True by lia.
    + rewrite IH. destruct (decide (c0 <= p < c0 + n)).
      * by rewrite decide_True by lia.
      * by rewrite decide_False by lia.
Qed.

Lemma copy_values_lookup d (nc : nat) (ks : list (nat * nat)) (rx : list Z) (j p : nat) :
  j < nc -> off j ks <= p < off (Datatypes.S j) ks -> p < length rx ->
  copy_values d nc ((fun j => off j ks) <$> seq 0 (nc + 1)) rx !! p
  = Some (copy_entry d rx j p rzero).
Proof.
  intros Hj Hp Hlen. unfold copy_values.
  set (cp := (fun j => off j ks) <$> seq 0 (nc + 1)).
  set (init := replicate (length rx) rzero).
  match goal with |- context [foldl ?f init (seq 0 nc)] => set (outer := f) end.
  assert (Hloop : forall J, J <= nc ->
            forall q,
              (forall j', j' < J -> off j' ks <= q < off (Datatypes.S j') ks ->
                 foldl outer init (seq 0 J) !! q = copy_entry d rx j' q <$> init !! q)
              /\ (off J ks <= q -> foldl outer init (seq 0 J) !! q = init !! q)).
  { induction J as [|J IH]; intros HJ q.
    - split; [lia|done].
    - destruct (IH ltac:(lia) q) as [IHa IHb].
      assert (Hstep : forall acc,
                outer acc J !! q
                = if decide (off J ks <= q < off J ks + cnt J ks)
                  then copy_entry d rx J q <$> acc !! q else acc !! q).
      { intros acc. unfold outer, cp.
        rewrite !list_lookup_fmap, !lookup_seq_lt by lia.
        cbn [fmap option_fmap option_map]. rewrite !Nat.add_0_l.
        replace (J + 1) with (Datatypes.S J) by lia. rewrite off_S.
        replace (off J ks + cnt J ks - off J ks) with (cnt J ks) by lia.
        apply copy_column. }
      rewrite seq_S, foldl_app. cbn [foldl]. rewrite Nat.add_0_l, Hstep. split.
      + intros j' Hj' Hq. destruct (decide (j' = J)) as [->|Hne].
        * rewrite off_S in Hq. rewrite decide_True by lia. rewrite IHb by lia. done.
        * pose proof (off_mono (Datatypes.S j') J ks ltac:(lia)).
          rewrite decide_False by lia. apply IHa; [lia|done].
      + intros Hq. rewrite off_S in Hq. rewrite decide_False by lia. apply IHb. lia. }
  destruct (Hloop nc ltac:(lia) p) as [Ha _]. rewrite (Ha j Hj Hp).
  unfold init. by rewrite lookup_replicate_2 by lia.
Qed.

(** Where the entry (i, j) of a DOK lies in the row index array of its CCS
    form. *)
Lemma converted_position d (rx : list Z) (i j : nat) :
  length rx = length (stored_keys d) ->
  segment rx j (stored_keys d) ≡ₚ rows j (stored_keys d) ->
  (is_Some (dict d !! (i, j)) ->
     exists p, off j (stored_keys d) <= p < off (Datatypes.S j) (stored_keys d)
               /\ rx !! p = Some (Z.of_nat i)
               /\ find_row rx (Z.of_nat i) (off j (stored_keys d)) (cnt j (stored_keys d))
                  = Some (Some p))
  /\ (dict d !! (i, j) = None ->
      find_row rx (Z.of_nat i) (off j (stored_keys d)) (cnt j (stored_keys d)) = Some None).
Proof.
  intros Hlen Hseg. set (ks := stored_keys d) in *.
  assert (Hbound : off j ks + cnt j ks <= length rx).
  { rewrite <- off_S, Hlen. apply off_le_length. }
  destruct (find_row_spec rx (Z.of_nat i) (cnt j ks) (off j ks) Hbound) as [Hno Hyes].
  fold (segment rx j ks) in Hno, Hyes.
  assert (Hmem : Z.of_nat i ∈ segment rx j ks <-> is_Some (dict d !! (i, j))).
  { rewrite Hseg, elem_of_rows. unfold ks. setoid_rewrite elem_of_stored_keys. split.
    - intros (i' & Hi & Hs). by replace i with i' by lia.
    - intros Hs. by exists i. }
  split.
  - intros Hs. destruct (Hyes (proj2 Hmem Hs)) as (p & Hp & Hrx & Hf).
    exists p. rewrite off_S. split; [lia|done].
  - intros Hn. apply Hno. rewrite Hmem, Hn. by intros [? ?].
Qed.

Lemma converted_find (c : sparseccs R) d (i j : nat) :
  cptr c = (fun j => off j (stored_keys d)) <$> seq 0 (dok_ncols d + 1) ->
  j < dok_ncols d ->
  sparseccs_find c (Z.of_nat i) j
  = find_row (rix c) (Z.of_nat i) (off j (stored_keys d)) (cnt j (stored_keys d)).
Proof.
  intros Hcp Hj. unfold sparseccs_find. rewrite Hcp.
  rewrite !list_lookup_fmap, !lookup_seq_lt by lia. simpl.
  replace (j + 1) with (Datatypes.S j) by lia. rewrite off_S. f_equal. lia.
Qed.

(** The conversion keeps the elements.  A DOK without columns has no CCS
    form (the conversion returns [false], with or without values).  A DOK
    with a column, whose keys lie within its dimensions, is converted, and in
    its CCS form [sparseccs_get] finds exactly the elements the DOK holds,
    with the value of a float as it is, an integer converted and zero for
    any other value; converted without its values, every element of the DOK
    reads as 1. *)
Theorem doktoccs_preserves_entries
    (slots : gmap (nat * nat) (value R) -> list (nat * nat)) d :
  slots (dict d) ≡ₚ stored_keys d -> wf_dok d ->
  (dok_ncols d = 0 ->
     sparseccs_doktoccs slots d true = None /\ sparseccs_doktoccs slots d false = None)
  /\ (0 < dok_ncols d ->
       exists c c',
         sparseccs_doktoccs slots d true = Some c
         /\ sparseccs_doktoccs slots d false = Some c'
         /\ forall i j, j < dok_ncols d ->
              sparseccs_get c (Z.of_nat i) j = Some (value_float <$> sparsedok_get d i j)
              /\ sparseccs_get c' (Z.of_nat i) j
                 = Some ((fun _ => rconst 1) <$> sparsedok_get d i j)).
Proof.
  intros Hperm Hwf. split.
  { intros Hz. by rewrite !doktoccs_no_columns. }
  intros Hpos.
  destruct (doktoccs_canonical slots d true Hperm Hwf Hpos) as (rx & Hrun & Hlen & Hseg).
  destruct (doktoccs_canonical slots d false Hperm Hwf Hpos) as (rx' & Hrun' & Hlen' & Hseg').
  eexists. eexists. split; [exact Hrun|]. split; [exact Hrun'|].
  intros i j Hj. unfold sparseccs_get.
  rewrite !(converted_find _ d i j) by done. cbn [rix values].
  destruct (converted_position d rx i j Hlen (proj1 (Hseg j))) as [Hyes Hno].
  destruct (converted_position d rx' i j Hlen' (proj1 (Hseg' j))) as [Hyes' Hno'].
  unfold sparsedok_get. destruct (dict d !! (i, j)) as [v|] eqn:Hv.
  - destruct Hyes as (p & Hp & Hrx & ->); [by eexists|].
    destruct Hyes' as (p' & _ & _ & ->); [by eexists|].
    split; [|done]. bind_some.
    rewrite (copy_values_lookup d _ _ rx j p) by (done || (rewrite Hlen; pose proof (off_le_length (Datatypes.S j) (stored_keys d)); lia)).
    simpl. do 2 f_equal. unfold copy_entry, sparsedok_get.
    rewrite Hrx, Nat2Z.id, Hv. by destruct v.
  - rewrite Hno, Hno' by done. done.
Qed.

Lemma off_column_unique (ks : list (nat * nat)) (j j' p : nat) :
  off j ks <= p < off (Datatypes.S j) ks ->
  off j' ks <= p < off (Datatypes.S j') ks -> j = j'.
Proof.
  intros Hp Hp'. destruct (decide (j = j')) as [|Hne]; [done|]. exfalso.
  destruct (decide (j < j')).
  - pose proof (off_mono (Datatypes.S j) j' ks ltac:(lia)). lia.
  - pose proof (off_mono (Datatypes.S j') j ks ltac:(lia)). lia.
Qed.

(** Setting an element in the CCS form of a DOK succeeds exactly for the
    elements the DOK holds and changes neither the column pointers nor the
    row indices; the element then reads as the value set, and every other
    element reads as before. *)
Theorem sparseccs_set_get_converted
    (slots : gmap (nat * nat) (value R) -> list (nat * nat)) d c (i j : nat) (x : R) :
  slots (dict d) ≡ₚ stored_keys d -> wf_dok d ->
  sparseccs_doktoccs slots d true = Some c -> j < dok_ncols d ->
  exists c',
    sparseccs_set c (Z.of_nat i) j x
    = Some (bool_decide (is_Some (sparsedok_get d i j)), c')
    /\ cptr c' = cptr c /\ rix c' = rix c
    /\ (is_Some (sparsedok_get d i j) -> sparseccs_get c' (Z.of_nat i) j = Some (Some x))
    /\ (sparsedok_get d i j = None -> c' = c)
    /\ forall i' j', j' < dok_ncols d -> (i', j') <> (i, j) ->
         sparseccs_get c' (Z.of_nat i') j' = sparseccs_get c (Z.of_nat i') j'.
Proof.
  intros Hperm Hwf Hrun Hj.
  assert (Hpos : 0 < dok_ncols d) by lia.
  destruct (doktoccs_canonical slots d true Hperm Hwf Hpos) as (rx & Hrun' & Hlen & Hseg).
  rewrite Hrun in Hrun'. injection Hrun' as ->.
  set (cp := (fun j => off j (stored_keys d)) <$> seq 0 (dok_ncols d + 1)).
  set (vals := copy_values d (dok_ncols d) cp rx).
  unfold sparseccs_set, sparseccs_get.
  rewrite (converted_find _ d i j) by done. cbn [rix values cptr].
  destruct (converted_position d rx i j Hlen (proj1 (Hseg j))) as [Hyes Hno].
  unfold sparsedok_get. destruct (dict d !! (i, j)) as [v|] eqn:Hv.
  - destruct Hyes as (p & Hp & Hrx & Hfp); [by eexists|]. rewrite Hfp. bind_some.
    assert (Hplen : p < length vals).
    { eapply lookup_lt_Some. apply (copy_values_lookup d _ (stored_keys d) rx j p); [done|done|].
      rewrite Hlen. pose proof (off_le_length (Datatypes.S j) (stored_keys d)). lia. }
    rewrite (bool_decide_eq_true_2 (p < length vals)) by done.
    rewrite (bool_decide_eq_true_2 (is_Some (Some v))) by (by eexists).
    eexists. split; [done|]. cbn [cptr rix values]. split; [done|]. split; [done|].
    split; [|split; [done|]].
    + intros _. rewrite (converted_find _ d i j) by done. cbn [rix].
      rewrite Hfp. bind_some. by rewrite list_lookup_insert_eq by done.
    + intros i' j' Hj' Hne. rewrite !(converted_find _ d i' j') by done. cbn [rix].
      destruct (converted_position d rx i' j' Hlen (proj1 (Hseg j'))) as [Hyes' Hno'].
      destruct (dict d !! (i', j')) as [v'|] eqn:Hv'.
      * destruct Hyes' as (p' & Hp' & Hrx' & ->); [by eexists|]. bind_some.
        rewrite list_lookup_insert_ne; [done|]. intros <-.
        rewrite Hrx in Hrx'. injection Hrx' as Hii.
        pose proof (off_column_unique (stored_keys d) j j' p Hp Hp'). apply Hne. f_equal; lia.
      * by rewrite Hno'.
  - rewrite Hno by done. bind_some.
    rewrite (bool_decide_eq_false_2 (is_Some None)) by (by intros [? ?]).
    eexists. split; [done|]. split; [done|]. split; [done|].
    split; [by intros [? ?]|]. split; done.
Qed.

(** *** The row indices of a column *)

(** The column pointers rise from column to column and stay within the row
    index array. *)
Definition ccs_ok (c : sparseccs R) : Prop :=
  length (cptr c) = ccs_ncols c + 1
  /\ (forall j j' c0 c1, j <= j' -> cptr c !! j = Some c0 -> cptr c !! j' = Some c1 -> c0 <= c1)
  /\ (forall c1, cptr c !! ccs_ncols c = Some c1 -> c1 <= length (rix c)).

(** [sparseccs_setrowindices] accepts as many row indices as the column
    has and refuses any other number, leaving the structure as it is; the
    indices accepted are those [sparseccs_getrowindices] then returns for
    the column, and the row indices of every other column are as before. *)
Theorem sparseccs_setrowindices_getrowindices (c : sparseccs R) (col : nat)
    (entries : list Z) :
  ccs_ok c -> col < ccs_ncols c ->
  exists old,
    sparseccs_getrowindices c col = Some old
    /\ (length entries <> length old ->
        sparseccs_setrowindices c col entries = Some (false, c))
    /\ (length entries = length old ->
        exists c',
          sparseccs_setrowindices c col entries = Some (true, c')
          /\ ccs_ok c' /\ cptr c' = cptr c /\ values c' = values c
          /\ sparseccs_getrowindices c' col = Some entries
          /\ forall col', col' <> col ->
               sparseccs_getrowindices c' col' = sparseccs_getrowindices c col').
Proof.
  intros (Hlen & Hmono & Hlast) Hcol.
  destruct (lookup_lt_is_Some_2 (cptr c) col) as [c0 Hc0]; [lia|].
  destruct (lookup_lt_is_Some_2 (cptr c) (col + 1)) as [c1 Hc1]; [lia|].
  destruct (lookup_lt_is_Some_2 (cptr c) (ccs_ncols c)) as [cn Hcn]; [lia|].
  pose proof (Hmono col (col + 1) c0 c1 ltac:(lia) Hc0 Hc1) as H01.
  pose proof (Hmono (col + 1) (ccs_ncols c) c1 cn ltac:(lia) Hc1 Hcn) as H1n.
  pose proof (Hlast cn Hcn) as Hn.
  exists (take (c1 - c0) (drop c0 (rix c))).
  assert (Hold : length (take (c1 - c0) (drop c0 (rix c))) = c1 - c0).
  { rewrite length_take, length_drop. lia. }
  split; [|split].
  - unfold sparseccs_getrowindices. rewrite bool_decide_eq_false_2 by lia.
    by rewrite Hc0, Hc1.
  - rewrite Hold. intros Hne. unfold sparseccs_setrowindices.
    rewrite bool_decide_eq_false_2 by lia. rewrite Hc0, Hc1. bind_some. bind_some.
    by rewrite bool_decide_eq_false_2 by lia.
  - rewrite Hold. intros Heq. unfold sparseccs_setrowindices.
    rewrite bool_decide_eq_false_2 by lia. rewrite Hc0, Hc1. bind_some. bind_some.
    rewrite bool_decide_eq_true_2 by lia. rewrite bool_decide_eq_true_2 by lia.
    eexists. split; [done|]. cbn [cptr values]. split; [|split; [done|split; [done|split]]].
    + split; [done|]. split; [done|]. cbn [cptr ccs_ncols rix].
      intros c2 Hc2. rewrite length_inserts. by apply Hlast.
    + unfold sparseccs_getrowindices. cbn [ccs_ncols cptr rix].
      rewrite bool_decide_eq_false_2 by lia. rewrite Hc0, Hc1. f_equal.
      apply list_eq. intros t. rewrite lookup_take, lookup_drop.
      destruct (decide (t < c1 - c0)).
      * rewrite list_lookup_inserts by lia. f_equal. lia.
      * symmetry. apply lookup_ge_None. lia.
    + intros col' Hne. unfold sparseccs_getrowindices. cbn [ccs_ncols cptr rix].
      destruct (bool_decide (ccs_ncols c <= col')) eqn:Hr; [done|].
      apply bool_decide_eq_false in Hr.
      destruct (lookup_lt_is_Some_2 (cptr c) col') as [d0 Hd0]; [lia|].
      destruct (lookup_lt_is_Some_2 (cptr c) (col' + 1)) as [d1 Hd1]; [lia|].
      rewrite Hd0, Hd1. f_equal. apply list_eq. intros t.
      rewrite !lookup_take, !lookup_drop. destruct (decide (t < d1 - d0)); [|done].
      destruct (decide (col' < col)).
      * pose proof (Hmono (col' + 1) col d1 c0 ltac:(lia) Hd1 Hc0).
        apply list_lookup_inserts_lt. lia.
      * pose proof (Hmono (col + 1) col' c1 d0 ltac:(lia) Hc1 Hd0).
        apply list_lookup_inserts_ge. lia.
Qed.

End Generic.

(** The DOK with the entries 2 at (0,0), the integer 3 at (1,1) and 5 at
    (2,1). *)
Definition small_dok : sparsedok Q :=
  sparsedok_insert
    (sparsedok_insert (sparsedok_insert sparsedok_init 0 0 (VFloat 2%Q)) 1 1 (VInteger 3))
    2 1 (VFloat 5%Q).


Lemma small_dok_wf : wf_dok small_dok.
Proof. unfold small_dok. repeat apply wf_dok_insert. apply wf_dok_init. Qed.



Lemma doktoccs_preserves_entries_witness :
  exists c,
    sparseccs_doktoccs ascending_slots small_dok true = Some c
    /\ sparseccs_get c 1 1 = Some (Some 3%Q)
    /\ sparseccs_get c 0 1 = Some None.
Proof.
  destruct (doktoccs_preserves_entries ascending_slots small_dok)
    as [_ Hconv]; [reflexivity|exact small_dok_wf|].
  destruct Hconv as (c & c' & Hrun & _ & Hget); [vm_compute; lia|].
  exists c. split; [exact Hrun|]. split.
  - destruct (Hget 1 1) as [H11 _]; [vm_compute; lia|]. exact H11.
  - destruct (Hget 0 1) as [H01 _]; [vm_compute; lia|]. exact H01.
Defined.

Lemma sparseccs_set_get_converted_witness :
  exists c c',
    sparseccs_doktoccs ascending_slots small_dok true = Some c
    /\ sparseccs_set c 2 1 (9 : Q) = Some (true, c')
    /\ sparseccs_get c' 2 1 = Some (Some 9%Q)
    /\ sparseccs_get c' 1 1 = sparseccs_get c 1 1.
Proof.
  destruct (sparseccs_doktoccs ascending_slots small_dok true) as [c|] eqn:Hrun;
    [|vm_compute in Hrun; discriminate Hrun].
  destruct (sparseccs_set_get_converted ascending_slots small_dok c 2 1 (9 : Q))
    as (c' & Hset & _ & _ & Hget & _ & Hother);
    [reflexivity|exact small_dok_wf|exact Hrun|vm_compute; lia|].
  exists c, c'. split; [reflexivity|]. split; [exact Hset|]. split.
  - apply Hget. by eexists.
  - apply (Hother 1 1); [vm_compute; lia|discriminate].
Defined.

(** Three columns with the rows 0; 1, 2; and none. *)
Definition small_ccs : sparseccs Q :=
  {| nentries := 3; ccs_nrows := 3; ccs_ncols := 3;
     cptr := [0; 1; 3; 3]; rix := [0; 1; 2]%Z; values := None |}.

Lemma small_ccs_ok : ccs_ok small_ccs.
Proof.
  split; [done|]. split.
  - intros j j' c0 c1 Hle Hj Hj'. simpl in Hj, Hj'.
    destruct j as [|[|[|[|j]]]]; destruct j' as [|[|[|[|j']]]];
      simpl in Hj, Hj'; try discriminate; try lia;
      injection Hj as <-; injection Hj' as <-; lia.
  - intros c1 [= <-]. simpl. lia.
Qed.

Lemma sparseccs_setrowindices_getrowindices_witness :
  exists c',
    sparseccs_setrowindices small_ccs 1 [2; 0]%Z = Some (true, c')
    /\ sparseccs_getrowindices c' 1 = Some [2; 0]%Z
    /\ sparseccs_getrowindices c' 0 = Some [0]%Z.
Proof.
  destruct (sparseccs_setrowindices_getrowindices small_ccs 1 [2; 0]%Z small_ccs_ok)
    as (old & Hold & _ & Hset); [vm_compute; lia|].
  destruct Hset as (c' & Hrun & _ & _ & _ & Hget & Hother).
  { injection Hold as <-. reflexivity. }
  exists c'. split; [exact Hrun|]. split; [exact Hget|].
  rewrite (Hother 0) by lia. reflexivity.
Defined.

End SparseOpsProps.

(* ===================================================================== *)
(** ** The functional evaluator *)
(* ===================================================================== *)

Module FunctionalProps.
Import Matrix Sparse Functional MatrixProps.

Section Generic.
Context {R : Type} `{Scalar R}.
Implicit Types m frc : objectmatrix R.

(** *** Numerical gradients *)

Lemma perturb_coordinate_restores integrand mesh i vs col k st st' :
  wf_matrix (ng_vert st) ->
  perturb_coordinate integrand mesh i vs col k st = (true, st') ->
  ng_vert st' = ng_vert st.
Proof.
  intros Hwf. unfold perturb_coordinate.
  destruct (integrand _ i vs) as [fp|]; [|done].
  destruct (integrand _ i vs) as [fm|]; [|done].
  intros [= <-]. simpl.
  destruct (matrix_getelement (ng_vert st) k col) as [x0|] eqn:Hget; simpl.
  - by apply setelement_restore.
  - by rewrite !(getelement_None_setelement _ _ _ _ Hget Hwf).
Qed.

Lemma for_each_restores {A : Type} (body : A -> ngstate R -> bool * ngstate R) l :
  (forall a st st', wf_matrix (ng_vert st) -> body a st = (true, st') ->
                    ng_vert st' = ng_vert st) ->
  forall st st', wf_matrix (ng_vert st) -> for_each body l st = (true, st') ->
                 ng_vert st' = ng_vert st.
Proof.
  intros Hbody. induction l as [|a l IH]; intros st st' Hwf; simpl.
  - by intros [= <-].
  - destruct (body a st) as [[] st1] eqn:E; [|done].
    intros Hrest. pose proof (Hbody _ _ _ Hwf E) as E1.
    rewrite <- E1. apply IH; [by rewrite E1|done].
Qed.

(** When a numerical gradient succeeds, the vertex matrix is what it was
    before the call. *)
Lemma numericalgradient_success_restores integrand mesh i vs st st' :
  wf_matrix (ng_vert st) ->
  functional_numericalgradient integrand mesh i vs st = (true, st') ->
  ng_vert st' = ng_vert st.
Proof.
  unfold functional_numericalgradient. intros Hwf. revert st st' Hwf.
  apply for_each_restores. intros v st st' Hwf. revert st st' Hwf.
  apply for_each_restores. intros k st st'. apply perturb_coordinate_restores.
Qed.

Lemma numericalremotegradient_success_restores integrand mesh remoteid i vs st st' :
  wf_matrix (ng_vert st) ->
  functional_numericalremotegradient integrand mesh remoteid i vs st = (true, st') ->
  ng_vert st' = ng_vert st.
Proof.
  unfold functional_numericalremotegradient. intros Hwf. revert st st' Hwf.
  apply for_each_restores. intros k st st'. apply perturb_coordinate_restores.
Qed.

(** The force entry receives the central difference with step [eps]. *)
Lemma perturb_coordinate_central_difference integrand mesh i vs col k st x0 f0 :
  wf_matrix (ng_vert st) -> wf_matrix (ng_frc st) ->
  matrix_getelement (ng_vert st) k col = Some x0 ->
  matrix_getelement (ng_frc st) k col = Some f0 ->
  forall st', perturb_coordinate integrand mesh i vs col k st = (true, st') ->
  exists fp fm,
    integrand (set_vert mesh (snd (matrix_setelement (ng_vert st) k col (radd x0 eps)))) i vs
      = Some fp
    /\ integrand (set_vert mesh (snd (matrix_setelement (ng_vert st) k col (rsub x0 eps)))) i vs
      = Some fm
    /\ matrix_getelement (ng_frc st') k col
       = Some (radd f0 (rdiv (rsub fp fm) (rmul (rconst 2) eps))).
Proof.
  intros Hwfv Hwff Hx Hf st'. unfold perturb_coordinate. rewrite Hx, Hf. simpl.
  destruct (getelement_Some_range _ _ _ _ Hx) as [Hc Hr].
  destruct (getelement_Some_range _ _ _ _ Hf) as [Hcf Hrf].
  destruct (integrand _ i vs) as [fp|] eqn:Efp; [|done].
  assert (Hv2 : snd (matrix_setelement
                  (snd (matrix_setelement (ng_vert st) k col (radd x0 eps))) k col (rsub x0 eps))
                = snd (matrix_setelement (ng_vert st) k col (rsub x0 eps))).
  { rewrite !(setelement_in_range (ng_vert st)) by done. simpl.
    rewrite setelement_in_range by done. simpl.
    by rewrite list_insert_insert_eq. }
  rewrite Hv2.
  destruct (integrand (set_vert mesh (snd (matrix_setelement (ng_vert st) k col (rsub x0 eps))))
              i vs) as [fm|] eqn:Efm; [|done].
  intros Heq. injection Heq as Heq. subst st'.
  exists fp, fm. split; [done|]. split; [done|]. simpl.
  by apply getelement_setelement_same.
Qed.

(** *** Summing forces over symmetry pairs *)

Lemma sum_pair_dims d frc ij :
  nrows (sum_pair d frc ij) = nrows frc /\ ncols (sum_pair d frc ij) = ncols frc.
Proof.
  unfold sum_pair.
  destruct (matrix_getcolumn frc ij.1); [|done].
  destruct (matrix_getcolumn frc ij.2); [|done].
  destruct (setcolumn_dims (snd (matrix_setcolumn frc ij.1 (zip_with radd (take d l) (take d l0))))
              ij.2 (zip_with radd (take d l) (take d l0))) as [-> ->].
  apply setcolumn_dims.
Qed.

Lemma wf_sum_pair d frc ij : wf_matrix frc -> wf_matrix (sum_pair d frc ij).
Proof.
  intros Hwf. unfold sum_pair.
  destruct (matrix_getcolumn frc ij.1); [|done].
  destruct (matrix_getcolumn frc ij.2); [|done].
  by do 2 apply wf_setcolumn.
Qed.

Lemma sum_pair_columns frc i j fi fj :
  wf_matrix frc -> i <> j ->
  matrix_getcolumn frc i = Some fi -> matrix_getcolumn frc j = Some fj ->
  matrix_getcolumn (sum_pair (nrows frc) frc (i, j)) i = Some (zip_with radd fi fj)
  /\ matrix_getcolumn (sum_pair (nrows frc) frc (i, j)) j = Some (zip_with radd fi fj).
Proof.
  intros Hwf Hne Hi Hj. unfold sum_pair. simpl. rewrite Hi, Hj.
  pose proof (getcolumn_length _ _ _ Hwf Hi) as Hli.
  pose proof (getcolumn_length _ _ _ Hwf Hj) as Hlj.
  rewrite !take_ge by lia.
  assert (Hlen : length (zip_with radd fi fj) = nrows frc).
  { rewrite length_zip_with. lia. }
  assert (Hci : i < ncols frc).
  { unfold matrix_getcolumn in Hi. case_bool_decide; done. }
  assert (Hcj : j < ncols frc).
  { unfold matrix_getcolumn in Hj. case_bool_decide; done. }
  set (frc1 := snd (matrix_setcolumn frc i (zip_with radd fi fj))).
  assert (Hwf1 : wf_matrix frc1) by by apply wf_setcolumn.
  destruct (setcolumn_dims frc i (zip_with radd fi fj)) as [Hnr1 Hnc1].
  fold frc1 in Hnr1, Hnc1.
  split.
  - rewrite getcolumn_setcolumn_other; [|by rewrite Hnr1|done].
    by apply getcolumn_setcolumn_same.
  - apply getcolumn_setcolumn_same; [done|by rewrite Hnc1|by rewrite Hnr1].
Qed.

Lemma sum_pair_other_column d frc ij c :
  wf_matrix frc -> d = nrows frc -> c <> ij.1 -> c <> ij.2 ->
  matrix_getcolumn (sum_pair d frc ij) c = matrix_getcolumn frc c.
Proof.
  intros Hwf -> H1 H2. unfold sum_pair.
  destruct (matrix_getcolumn frc ij.1) as [fi|] eqn:Hi; [|done].
  destruct (matrix_getcolumn frc ij.2) as [fj|] eqn:Hj; [|done].
  pose proof (getcolumn_length _ _ _ Hwf Hi) as Hli.
  pose proof (getcolumn_length _ _ _ Hwf Hj) as Hlj.
  rewrite !take_ge by lia.
  assert (Hlen : length (zip_with radd fi fj) = nrows frc).
  { rewrite length_zip_with. lia. }
  destruct (setcolumn_dims frc ij.1 (zip_with radd fi fj)) as [Hnr1 Hnc1].
  rewrite getcolumn_setcolumn_other; [|by rewrite Hnr1|done].
  by rewrite getcolumn_setcolumn_other.
Qed.

(** The vertices named by a list of pairs. *)
Definition pair_vertices (pairs : list (nat * nat)) : list nat :=
  flat_map (fun ij => [ij.1; ij.2]) pairs.

Lemma foldl_sum_pair_dims d pairs frc :
  nrows (foldl (sum_pair d) frc pairs) = nrows frc
  /\ ncols (foldl (sum_pair d) frc pairs) = ncols frc.
Proof.
  revert frc. induction pairs as [|p ps IH]; intros frc; simpl; [done|].
  destruct (IH (sum_pair d frc p)) as [-> ->]. apply sum_pair_dims.
Qed.

Lemma foldl_sum_pair_other d pairs frc c :
  wf_matrix frc -> d = nrows frc -> c ∉ pair_vertices pairs ->
  matrix_getcolumn (foldl (sum_pair d) frc pairs) c = matrix_getcolumn frc c.
Proof.
  revert frc. induction pairs as [|p ps IH]; intros frc Hwf Hd Hc; simpl; [done|].
  simpl in Hc. rewrite !not_elem_of_cons in Hc. destruct Hc as (H1 & H2 & Hc).
  rewrite IH; [|by apply wf_sum_pair|by rewrite (proj1 (sum_pair_dims _ _ _))|done].
  by apply sum_pair_other_column.
Qed.

(** Each pair of a list of pairs has, in [result], both of its columns equal
    to the sum of the two columns it has in [frc]. *)
Definition pairs_summed (pairs : list (nat * nat)) (frc result : objectmatrix R) : Prop :=
  forall i j, (i, j) ∈ pairs ->
    exists fi fj,
      matrix_getcolumn frc i = Some fi /\ matrix_getcolumn frc j = Some fj
      /\ matrix_getcolumn result i = Some (zip_with radd fi fj)
      /\ matrix_getcolumn result j = Some (zip_with radd fi fj).

Lemma foldl_sum_pair_disjoint pairs frc :
  wf_matrix frc ->
  NoDup (pair_vertices pairs) ->
  (forall c, c ∈ pair_vertices pairs -> c < ncols frc) ->
  pairs_summed pairs frc (foldl (sum_pair (nrows frc)) frc pairs).
Proof.
  revert frc. induction pairs as [|[i j] ps IH]; intros frc Hwf Hnd Hrange a b Hab.
  { by apply elem_of_nil in Hab. }
  simpl in Hnd. apply NoDup_cons in Hnd as [Hi Hnd]. apply NoDup_cons in Hnd as [Hj Hnd].
  assert (Hij : i <> j) by (intros ->; apply Hi; left).
  apply not_elem_of_cons in Hi as [_ Hi].
  destruct (getcolumn_is_Some frc i) as [fi Hfi]; [apply Hrange; simpl; left|].
  destruct (getcolumn_is_Some frc j) as [fj Hfj]; [apply Hrange; simpl; right; left|].
  destruct (sum_pair_columns frc i j fi fj Hwf Hij Hfi Hfj) as [Hsi Hsj].
  pose proof (wf_sum_pair (nrows frc) frc (i, j) Hwf) as Hwf1.
  destruct (sum_pair_dims (nrows frc) frc (i, j)) as [Hnr1 Hnc1].
  simpl. apply elem_of_cons in Hab as [[= -> ->]|Hab].
  - exists fi, fj. repeat split; [done|done| |].
    + rewrite foldl_sum_pair_other; done.
    + rewrite foldl_sum_pair_other; done.
  - assert (Ha : a ∈ pair_vertices ps).
    { unfold pair_vertices. apply list_elem_of_In, in_flat_map. exists (a, b).
      split; [by apply list_elem_of_In|simpl; auto]. }
    assert (Hb : b ∈ pair_vertices ps).
    { unfold pair_vertices. apply list_elem_of_In, in_flat_map. exists (a, b).
      split; [by apply list_elem_of_In|simpl; auto]. }
    destruct (IH (sum_pair (nrows frc) frc (i, j)) Hwf1 Hnd) with (i := a) (j := b)
      as (fa & fb & Hfa & Hfb & Hra & Hrb); [|done|].
    { intros c Hc. rewrite Hnc1. apply Hrange. simpl. by do 2 right. }
    rewrite Hnr1 in Hra, Hrb.
    assert (Hai : a <> i) by (intros ->; by apply Hi).
    assert (Haj : a <> j) by (intros ->; by apply Hj).
    assert (Hbi : b <> i) by (intros ->; by apply Hi).
    assert (Hbj : b <> j) by (intros ->; by apply Hj).
    rewrite sum_pair_other_column in Hfa by done.
    rewrite sum_pair_other_column in Hfb by done.
    exists fa, fb. done.
Qed.

Lemma grad_loop_dims (grad : functional_gradient) mesh s ids lv frc frc' :
  (forall mesh i vs frc frc', grad mesh i vs frc = Some frc' -> wf_matrix frc ->
     wf_matrix frc' /\ nrows frc' = nrows frc /\ ncols frc' = ncols frc) ->
  wf_matrix frc ->
  grad_loop grad mesh s ids lv frc = Some frc' ->
  wf_matrix frc' /\ nrows frc' = nrows frc /\ ncols frc' = ncols frc.
Proof.
  intros Hgrad. revert lv frc. induction ids as [|i ids IH]; intros lv frc Hwf; simpl.
  - by intros [= <-].
  - destruct (has_vertices (fetch s lv i)) as [vs|]; [|by apply IH].
    destruct (grad mesh i vs frc) as [frc1|] eqn:E; [|done].
    destruct (Hgrad _ _ _ _ _ E Hwf) as (Hwf1 & <- & <-). by apply IH.
Qed.

(** *** Totals and integrands *)

(** The elements the loops of [functional_sumintegrand] and
    [functional_mapintegrand] evaluate, with the values of the integrand,
    in the order of the loop ([None]: the integrand fails). *)
Fixpoint evaluated (integrand : functional_integrand) (mesh : objectmesh R)
    (s : option (objectsparse R)) (imageids ids : list nat) (lv : loopvars)
  : option (list (nat * R)) :=
  match ids with
  | [] => Some []
  | i :: ids' =>
      if is_image imageids lv i then evaluated integrand mesh s imageids ids' (skip lv)
      else
        let lv := fetch s lv i in
        match has_vertices lv with
        | Some vs =>
            match integrand mesh i vs with
            | Some result =>
                cons (i, result) <$> evaluated integrand mesh s imageids ids' lv
            | None => None
            end
        | None => evaluated integrand mesh s imageids ids' lv
        end
  end.

(** [matrix_setelement(new, 0, i, result)] for every evaluated element. *)
Definition store_results (new : objectmatrix R) (l : list (nat * R)) : objectmatrix R :=
  foldl (fun m ir => snd (matrix_setelement m 0 (fst ir) (snd ir))) new l.

Lemma sum_loop_evaluated integrand mesh s imageids ids lv acc :
  sum_loop integrand mesh s imageids ids lv acc
  = (fun l => foldl kahan_add acc l.*2) <$> evaluated integrand mesh s imageids ids lv.
Proof.
  revert lv acc. induction ids as [|i ids IH]; intros lv acc; simpl; [done|].
  destruct (is_image imageids lv i); [apply IH|].
  destruct (has_vertices (fetch s lv i)) as [vs|]; [|apply IH].
  destruct (integrand mesh i vs) as [result|]; [|done].
  rewrite IH. by destruct (evaluated _ _ _ _ _ _).
Qed.

Lemma map_loop_evaluated integrand mesh s imageids ids lv new :
  map_loop integrand mesh s imageids ids lv new
  = store_results new <$> evaluated integrand mesh s imageids ids lv.
Proof.
  revert lv new. induction ids as [|i ids IH]; intros lv new; simpl; [done|].
  destruct (is_image imageids lv i); [apply IH|].
  destruct (has_vertices (fetch s lv i)) as [vs|]; [|apply IH].
  destruct (integrand mesh i vs) as [result|]; [|done].
  rewrite IH. by destruct (evaluated _ _ _ _ _ _).
Qed.

Lemma evaluated_ids integrand mesh s imageids ids lv l :
  evaluated integrand mesh s imageids ids lv = Some l -> l.*1 `sublist_of` ids.
Proof.
  revert lv l. induction ids as [|i ids IH]; intros lv l; simpl.
  - by intros [= <-].
  - destruct (is_image imageids lv i).
    { intros Hev. apply sublist_cons. by eapply IH. }
    destruct (has_vertices (fetch s lv i)) as [vs|].
    2:{ intros Hev. apply sublist_cons. by eapply IH. }
    destruct (integrand mesh i vs) as [result|]; [|done].
    destruct (evaluated _ _ _ _ _ _) as [l'|] eqn:Hev; [|done].
    intros [= <-]. simpl. apply sublist_skip. by eapply IH.
Qed.

Lemma store_results_dims new l :
  nrows (store_results new l) = nrows new /\ ncols (store_results new l) = ncols new.
Proof.
  unfold store_results. revert new. induction l as [|[i r] l IH]; intros new; simpl; [done|].
  destruct (IH (snd (matrix_setelement new 0 i r))) as [-> ->]. apply setelement_dims.
Qed.

Lemma store_results_other new l i :
  0 < nrows new -> i ∉ l.*1 ->
  matrix_getelement (store_results new l) 0 i = matrix_getelement new 0 i.
Proof.
  unfold store_results. revert new. induction l as [|[j r] l IH]; intros new Hr Hi; simpl; [done|].
  simpl in Hi. apply not_elem_of_cons in Hi as [Hne Hi].
  rewrite IH; [|by rewrite (proj1 (setelement_dims _ _ _ _))|done].
  apply getelement_setelement_other; [done|done|]. intros [= ?]. done.
Qed.

Lemma store_results_entry new l i r :
  wf_matrix new -> 0 < nrows new -> i < ncols new ->
  NoDup l.*1 -> (i, r) ∈ l ->
  matrix_getelement (store_results new l) 0 i = Some r.
Proof.
  revert new. induction l as [|[j r'] l IH]; intros new Hwf Hr Hi Hnd Hin.
  - by apply elem_of_nil in Hin.
  - simpl in Hnd. apply NoDup_cons in Hnd as [Hj Hnd].
    apply elem_of_cons in Hin as [[= <- <-]|Hin].
    + change (store_results new ((i, r) :: l))
        with (store_results (snd (matrix_setelement new 0 i r)) l).
      rewrite store_results_other; [|by rewrite (proj1 (setelement_dims _ _ _ _))|done].
      by apply getelement_setelement_same.
    + change (store_results new ((j, r') :: l))
        with (store_results (snd (matrix_setelement new 0 j r')) l).
      apply IH; [by apply wf_setelement| | |done|done].
      * by rewrite (proj1 (setelement_dims _ _ _ _)).
      * by rewrite (proj2 (setelement_dims _ _ _ _)).
Qed.

(** The value the loop evaluated last for the element [i], if any. *)
Fixpoint last_value (l : list (nat * R)) (i : nat) : option R :=
  match l with
  | [] => None
  | (j, r) :: l' =>
      match last_value l' i with
      | Some r' => Some r'
      | None => if decide (j = i) then Some r else None
      end
  end.

Lemma last_value_None l i : last_value l i = None <-> i ∉ l.*1.
Proof.
  induction l as [|[j r] l IH]; simpl.
  - split; [intros _; apply not_elem_of_nil|done].
  - rewrite not_elem_of_cons, <- IH.
    destruct (last_value l i); [split; [done|intros [_ ?]; done]|].
    destruct (decide (j = i)) as [->|Hne]; [split; [done|intros [? _]; done]|].
    split; [intros _; split; [congruence|done]|done].
Qed.

Lemma last_value_NoDup l i r : NoDup l.*1 -> (i, r) ∈ l -> last_value l i = Some r.
Proof.
  induction l as [|[j r'] l IH]; intros Hnd Hin.
  - by apply elem_of_nil in Hin.
  - simpl in Hnd. apply NoDup_cons in Hnd as [Hj Hnd]. simpl.
    apply elem_of_cons in Hin as [[= <- <-]|Hin].
    + apply last_value_None in Hj. rewrite Hj. by rewrite decide_True.
    + by rewrite (IH Hnd Hin).
Qed.

Lemma store_results_lookup new l i :
  wf_matrix new -> 0 < nrows new -> i < ncols new ->
  matrix_getelement (store_results new l) 0 i
  = match last_value l i with
    | Some r => Some r
    | None => matrix_getelement new 0 i
    end.
Proof.
  revert new. induction l as [|[j r] l IH]; intros new Hwf Hr Hi; [done|].
  change (store_results new ((j, r) :: l))
    with (store_results (snd (matrix_setelement new 0 j r)) l).
  rewrite IH; [|by apply wf_setelement|by rewrite (proj1 (setelement_dims _ _ _ _))
               |by rewrite (proj2 (setelement_dims _ _ _ _))].
  simpl. destruct (last_value l i); [done|].
  destruct (decide (j = i)) as [->|Hne].
  - by apply getelement_setelement_same.
  - apply getelement_setelement_other; [done|done|]. intros [= ?]. done.
Qed.

(** Whenever [total] and [integrand] both succeed on a functional, they
    have evaluated the same elements [l], in the same order.  The total is
    the Kahan sum of all the values.  The row matrix has one column for each
    of the [n] elements of the grade: column [i] holds the value evaluated
    last for the element [i] (its value, when the loop meets every id once)
    and zero when [i] was not evaluated.  A value evaluated for an id that
    is not below [n] (an id of the selection outside the mesh) is counted in
    the total and has no column in the row. *)
Lemma total_is_kahan_sum_of_integrand
    (selslots : gset nat -> list nat) junk (info : functional_mapinfo R) total row :
  functional_sumintegrand selslots junk info = Some (Some total) ->
  functional_mapintegrand selslots junk info = Some row ->
  exists n l,
    total = fst (foldl kahan_add (rzero, rzero) l.*2)
    /\ row = store_results (object_newmatrix 1 n) l
    /\ nrows row = 1 /\ ncols row = n
    /\ l.*1 `sublist_of` loop_ids selslots (sel info) (g info) n
    /\ (forall i, i < n ->
          matrix_getelement row 0 i = Some (default rzero (last_value l i)))
    /\ (forall i, n <= i -> matrix_getelement row 0 i = None)
    /\ (NoDup (loop_ids selslots (sel info) (g info) n) ->
        (forall i r, (i, r) ∈ l -> i < n -> matrix_getelement row 0 i = Some r)
        /\ (forall i, i ∉ l.*1 -> i < n -> matrix_getelement row 0 i = Some rzero)).
Proof.
  unfold functional_sumintegrand, functional_mapintegrand.
  destruct (functional_countelements _ _) as [[n s]|]; [|done].
  case_bool_decide as Hn; [|done].
  rewrite sum_loop_evaluated, map_loop_evaluated.
  destruct (evaluated _ _ _ _ _ _) as [l|] eqn:Hev; [|done]. simpl.
  destruct (foldl kahan_add _ _) as [sum c] eqn:Hsum.
  intros [= <-] [= <-]. exists n, l. rewrite Hsum.
  pose proof (evaluated_ids _ _ _ _ _ _ _ Hev) as Hsub.
  destruct (store_results_dims (object_newmatrix 1 n) l) as [Hnr Hnc].
  assert (Hlook : forall i, i < n ->
            matrix_getelement (store_results (object_newmatrix 1 n) l) 0 i
            = Some (default rzero (last_value l i))).
  { intros i Hi. rewrite store_results_lookup; [|apply wf_newmatrix|simpl; lia|simpl; lia].
    destruct (last_value l i); [done|].
    rewrite getelement_in_range by (simpl; lia). simpl.
    apply lookup_replicate_2. lia. }
  split; [done|]. split; [done|]. split; [done|]. split; [done|]. split; [done|].
  split; [done|]. split.
  { intros i Hi. unfold matrix_getelement. rewrite Hnc. simpl.
    rewrite bool_decide_eq_false_2 by lia. done. }
  intros Hnd. split.
  - intros i r Hin Hi. rewrite Hlook by done.
    rewrite (last_value_NoDup l i r); [done| |done]. by eapply sublist_NoDup.
  - intros i Hi Hlt. rewrite Hlook by done.
    apply last_value_None in Hi. by rewrite Hi.
Qed.

End Generic.

(** A gradient callback writes entries of the force matrix; it does not
    change its shape. *)
Definition shape_preserving {R : Type} `{Scalar R} (grad : functional_gradient (R:=R)) : Prop :=
  forall mesh i vs frc frc', grad mesh i vs frc = Some frc' -> wf_matrix frc ->
    wf_matrix frc' /\ nrows frc' = nrows frc /\ ncols frc' = ncols frc.

(** The same request with the symmetry behaviour switched off: its gradient
    is the matrix of accumulated forces. *)
Definition without_symmetry {R : Type} `{Scalar R} (info : functional_mapinfo R)
  : functional_mapinfo R :=
  {| mesh := mesh info; sel := sel info; g := g info;
     integrand := integrand info; grad := grad info; sym := SYMMETRY_NONE |}.

(** C3, as amended.  For a functional declaring [SYMMETRY_ADD] on a mesh
    whose C(0,0) pairs name every vertex at most once, each identified pair
    (i,j) has, in the gradient that is returned, column i and column j both
    equal to the sum of the two forces accumulated for i and j. *)
Theorem symmetry_add_disjoint_pairs {R : Type} `{Scalar R}
    (selslots : gset nat -> list nat) (junk : Z)
    (info : functional_mapinfo R) (s : objectsparse R) (M : objectmatrix R) :
  sym info = SYMMETRY_ADD ->
  mesh_getconnectivityelement (mesh info) 0 0 = Some s ->
  dim (mesh info) = nrows (vert (mesh info)) ->
  shape_preserving (grad info) ->
  NoDup (pair_vertices (sparsedok_loop (dok s))) ->
  (forall c, c ∈ pair_vertices (sparsedok_loop (dok s)) -> c < ncols (vert (mesh info))) ->
  functional_mapgradient selslots junk info = Some M ->
  exists acc,
    functional_mapgradient selslots junk (without_symmetry info) = Some acc
    /\ pairs_summed (sparsedok_loop (dok s)) acc M.
Proof.
  intros Hsym Hs Hdim Hgrad Hnd Hrange. unfold functional_mapgradient. simpl.
  destruct (functional_countelements (mesh info) (g info)) as [[n s0]|]; [|done].
  case_bool_decide; [|done].
  destruct (grad_loop _ _ _ _ _ _) as [frc|] eqn:Eloop; [|done].
  rewrite Hsym. intros [= <-]. exists frc. split; [done|].
  destruct (grad_loop_dims _ _ _ _ _ _ _ Hgrad (wf_newmatrix _ _) Eloop) as (Hwf & Hnr & Hnc).
  simpl in Hnr, Hnc.
  unfold functional_symmetrysumforces. rewrite Hs. simpl.
  rewrite Hdim, <- Hnr. apply foldl_sum_pair_disjoint; [done|done|].
  intros c Hc. rewrite Hnc. by apply Hrange.
Qed.

(** C3, as stated: every identified pair ends with both columns equal to
    the sum of its two accumulated forces. *)
Definition symmetry_add_all_pairs {R : Type} `{Scalar R}
    (selslots : gset nat -> list nat) (junk : Z) (info : functional_mapinfo R) : Prop :=
  forall s M,
    sym info = SYMMETRY_ADD ->
    mesh_getconnectivityelement (mesh info) 0 0 = Some s ->
    sparsedok_loop (dok s) <> [] ->
    functional_mapgradient selslots junk info = Some M ->
    exists acc,
      functional_mapgradient selslots junk (without_symmetry info) = Some acc
      /\ pairs_summed (sparsedok_loop (dok s)) acc M.

(** The gradient of the sum of squared coordinates: the force on vertex i
    grows by twice its coordinate. *)
Definition square_gradient : functional_gradient (R:=Q) :=
  fun mesh i vs frc =>
    match matrix_getelement (vert mesh) 0 i, matrix_getelement frc 0 i with
    | Some x, Some f => Some (snd (matrix_setelement frc 0 i (f + 2 * x)%Q))
    | _, _ => None
    end.

Lemma square_gradient_shape : shape_preserving square_gradient.
Proof.
  intros mesh i vs frc frc'. unfold square_gradient.
  destruct (matrix_getelement (vert mesh) 0 i); [|done].
  destruct (matrix_getelement frc 0 i); [|done].
  intros [= <-] Hwf. split; [by apply wf_setelement|]. apply setelement_dims.
Qed.

Definition symmetry_of_pairs (pairs : list (nat * nat)) : objectsparse Q :=
  {| dok := foldl (fun d ij => sparsedok_insert d ij.1 ij.2 (VFloat 1%Q)) sparsedok_init pairs;
     ccs := None |}.

(** A line of vertices at the given coordinates with the given symmetry
    pairs, and the squared-coordinate functional on its vertices. *)
Definition line_info (xs : list Q) (pairs : list (nat * nat)) (sl : option objectselection)
  : functional_mapinfo Q :=
  {| mesh := {| dim := 1;
                vert := {| nrows := 1; ncols := length xs; elements := xs |};
                conn := fun r c => if bool_decide (r = 0 /\ c = 0)
                                   then Some (symmetry_of_pairs pairs) else None |};
     sel := sl; g := 0;
     integrand := fun mesh i vs =>
                    x ← matrix_getelement (vert mesh) 0 i; Some (x * x)%Q;
     grad := square_gradient;
     sym := SYMMETRY_ADD |}.

(** One possible slot order of the selection dictionaries, for the examples. *)
Definition some_slots (X : gset nat) : list nat := base.elements X.

(** A corner vertex 0 with the two images 1 and 2. *)
Definition corner_info : functional_mapinfo Q :=
  line_info [1; 2; 4]%Q [(0, 1); (0, 2)] None.

Lemma symmetry_add_all_pairs_counterexample :
  ~ symmetry_add_all_pairs some_slots 0 corner_info.
Proof.
  intros Hclaim.
  destruct (Hclaim (symmetry_of_pairs [(0, 1); (0, 2)])
              {| nrows := 1; ncols := 3; elements := [14; 14; 10]%Q |})
    as (acc & Hacc & Hpairs); [done|done|done|by vm_compute|].
  destruct (Hpairs 0 2) as (fi & fj & Hfi & Hfj & Hri & Hrj); [vm_compute; by left|].
  vm_compute in Hacc. injection Hacc as <-.
  vm_compute in Hfi, Hfj, Hri. injection Hfi as <-. injection Hfj as <-.
  vm_compute in Hri. discriminate Hri.
Qed.

(** Two disjoint pairs. *)
Definition two_pairs_info : functional_mapinfo Q :=
  line_info [1; 2; 4; 8]%Q [(0, 1); (2, 3)] None.

Lemma symmetry_add_disjoint_pairs_witness :
  exists acc,
    functional_mapgradient some_slots 0 (without_symmetry two_pairs_info) = Some acc
    /\ pairs_summed [(2, 3); (0, 1)] acc
         {| nrows := 1; ncols := 4; elements := [6; 6; 24; 24]%Q |}.
Proof.
  apply (symmetry_add_disjoint_pairs some_slots 0 two_pairs_info
           (symmetry_of_pairs [(0, 1); (2, 3)])).
  - reflexivity.
  - reflexivity.
  - reflexivity.
  - exact square_gradient_shape.
  - vm_compute. apply (bool_decide_unpack _). by vm_compute.
  - vm_compute. intros c Hc. repeat (apply elem_of_cons in Hc as [->|Hc]; [lia|]).
    by apply elem_of_nil in Hc.
  - vm_compute. reflexivity.
Defined.

(** *** Numerical gradient with a failing integrand *)

(** An integrand that is defined only while the coordinate of its vertex is
    not negative (a square root of the coordinate, for instance). *)
Definition half_line_integrand : functional_integrand (R:=Q) :=
  fun mesh i vs =>
    x ← matrix_getelement (vert mesh) 0 i;
    if Qle_bool 0 x then Some x else None.

(** One vertex at the origin of a line. *)
Definition origin_mesh : objectmesh Q :=
  {| dim := 1;
     vert := {| nrows := 1; ncols := 1; elements := [0%Q] |};
     conn := fun _ _ => None |}.

Definition origin_state : ngstate Q :=
  {| ng_vert := vert origin_mesh; ng_frc := object_newmatrix 1 1;
     ng_f0 := 0%Q; ng_x0 := 0%Q |}.

(** C9, at a failing integrand.  The numerical gradient of the vertex at the
    origin first moves it to +1e-10, where the integrand succeeds, then to
    -1e-10, where it fails: the call returns [false] at once and the vertex
    stays at -1e-10 instead of its coordinate 0 before the call. *)
Theorem numericalgradient_failure_leaves_perturbation :
  matrix_getelement (vert origin_mesh) 0 0 = Some 0%Q
  /\ fst (functional_numericalgradient half_line_integrand origin_mesh 0 [0%Z] origin_state)
     = false
  /\ matrix_getelement
       (ng_vert (snd (functional_numericalgradient half_line_integrand origin_mesh 0 [0%Z]
                        origin_state))) 0 0
     = Some (-1 # 10000000000)%Q.
Proof. vm_compute. done. Qed.

(** The same holds for the gradient with respect to a remote vertex. *)
Lemma numericalremotegradient_failure_leaves_perturbation :
  fst (functional_numericalremotegradient half_line_integrand origin_mesh 0%Z 0 [0%Z]
         origin_state) = false
  /\ matrix_getelement
       (ng_vert (snd (functional_numericalremotegradient half_line_integrand origin_mesh
                        0%Z 0 [0%Z] origin_state))) 0 0
     = Some (-1 # 10000000000)%Q.
Proof. vm_compute. done. Qed.

(** *** Image elements under a selection *)

Definition select_vertices (X : gset nat) : objectselection :=
  {| selected := fun g => if bool_decide (g = 0) then X else ∅ |}.

(** The corner mesh again, its squared-coordinate functional restricted to
    the selection that holds vertex 2 alone. *)
Definition corner_selected_info : functional_mapinfo Q :=
  line_info [1; 2; 4]%Q [(0, 1); (0, 2)] (Some (select_vertices {[2]})).

(** C1, at a selection that holds an image element.  Vertex 2 is listed as
    an image in C(0,0), yet neither [total] nor [integrand] skips it: the
    index into the sorted image list [1; 2] still points at 1 when the loop
    reaches 2.  The total is 16 and the integrand row is [0, 0, 16]. *)
Theorem selected_image_is_not_skipped :
  functional_symmetryimagelist (mesh corner_selected_info) 0 true = [1; 2]
  /\ functional_sumintegrand some_slots 0 corner_selected_info = Some (Some 16%Q)
  /\ functional_mapintegrand some_slots 0 corner_selected_info
     = Some {| nrows := 1; ncols := 3; elements := [0; 0; 16]%Q |}.
Proof. vm_compute. done. Qed.

End FunctionalProps.

(* ===================================================================== *)
(** ** Numerical gradients and the enclosed volume *)
(* ===================================================================== *)

Module FunctionalOpsProps.
Import Matrix MatrixOps Functional FunctionalOps MatrixProps MatrixOpsProps FunctionalProps.

Local Ltac bind_some :=
  match goal with
  | |- context [Some ?x ≫= ?k] => change (Some x ≫= k) with (k x); cbv beta iota
  end.

Section Generic.
Context {R : Type} `{Scalar R}.
Implicit Types m frc : objectmatrix R.

(** *** The numerical gradient with respect to a remote vertex *)

Lemma getelement_setelement_ne m row col row' col' (v : R) :
  (row, col) <> (row', col') ->
  matrix_getelement (snd (matrix_setelement m row col v)) row' col'
  = matrix_getelement m row' col'.
Proof.
  intros Hne. unfold matrix_setelement.
  destruct (bool_decide (col < ncols m) && bool_decide (row < nrows m)) eqn:Hin; [|done].
  apply andb_true_iff in Hin as [Hc Hr]. apply bool_decide_eq_true in Hc, Hr.
  unfold matrix_getelement. cbn [snd nrows ncols elements].
  destruct (bool_decide (col' < ncols m) && bool_decide (row' < nrows m)) eqn:Hin'; [|done].
  apply andb_true_iff in Hin' as [Hc' Hr']. apply bool_decide_eq_true in Hc', Hr'.
  apply list_lookup_insert_ne. intros Heq. apply Hne.
  destruct (index_injective_row (nrows m) row' col' row col) as [-> ->]; [lia|lia|lia|done].
Qed.

Lemma perturb_coordinate_frc integrand (mesh : objectmesh R) i vs col k st st' :
  wf_matrix (ng_frc st) ->
  perturb_coordinate integrand mesh i vs col k st = (true, st') ->
  wf_matrix (ng_frc st')
  /\ nrows (ng_frc st') = nrows (ng_frc st) /\ ncols (ng_frc st') = ncols (ng_frc st)
  /\ forall r c, (r, c) <> (k, col) ->
       matrix_getelement (ng_frc st') r c = matrix_getelement (ng_frc st) r c.
Proof.
  intros Hwf. unfold perturb_coordinate.
  destruct (integrand _ i vs) as [fp|]; [|done].
  destruct (integrand _ i vs) as [fm|]; [|done].
  intros [= <-]. cbn [ng_frc].
  split; [by apply wf_setelement|]. split; [apply setelement_dims|].
  split; [apply setelement_dims|].
  intros r c Hne. apply getelement_setelement_ne. intros [= -> ->]. done.
Qed.

(** The central difference of the integrand in the coordinate [k] of the
    vertex [col], the other coordinates being those of [v]. *)
Definition central_difference (integrand : functional_integrand (R:=R))
    (mesh : objectmesh R) (i : nat) (vs : list Z) (v : objectmatrix R) (col k : nat)
  : option R :=
  x0 ← matrix_getelement v k col;
  fp ← integrand (set_vert mesh (snd (matrix_setelement v k col (radd x0 eps)))) i vs;
  fm ← integrand (set_vert mesh (snd (matrix_setelement v k col (rsub x0 eps)))) i vs;
  Some (rdiv (rsub fp fm) (rmul (rconst 2) eps)).

Lemma remote_loop integrand (mesh : objectmesh R) i vs col (ks : list nat) :
  forall st st',
    wf_matrix (ng_vert st) -> wf_matrix (ng_frc st) ->
    NoDup ks ->
    (forall k, k ∈ ks -> k < nrows (ng_vert st) /\ k < nrows (ng_frc st)) ->
    col < ncols (ng_vert st) -> col < ncols (ng_frc st) ->
    for_each (perturb_coordinate integrand mesh i vs col) ks st = (true, st') ->
    ng_vert st' = ng_vert st
    /\ (forall k, k ∈ ks ->
          exists f0 d,
            matrix_getelement (ng_frc st) k col = Some f0
            /\ central_difference integrand mesh i vs (ng_vert st) col k = Some d
            /\ matrix_getelement (ng_frc st') k col = Some (radd f0 d))
    /\ (forall r c, (c <> col \/ r ∉ ks) ->
          matrix_getelement (ng_frc st') r c = matrix_getelement (ng_frc st) r c).
Proof.
  induction ks as [|k ks IH]; intros st st' Hwfv Hwff Hnd Hks Hcv Hcf; simpl.
  - intros [= <-]. split; [done|]. split; [|done]. by intros k ?%elem_of_nil.
  - destruct (perturb_coordinate integrand mesh i vs col k st) as [[] st1] eqn:Hstep; [|done].
    intros Hrest. apply NoDup_cons in Hnd as [Hk Hnd].
    destruct (Hks k) as [Hkv Hkf]; [by left|].
    pose proof (perturb_coordinate_restores _ _ _ _ _ _ _ _ Hwfv Hstep) as Hv1.
    destruct (perturb_coordinate_frc _ _ _ _ _ _ _ _ Hwff Hstep) as (Hwf1 & Hr1 & Hc1 & Hother1).
    destruct (lookup_lt_is_Some_2 (elements (ng_vert st)) (col * nrows (ng_vert st) + k))
      as [x0 Hx0]; [unfold wf_matrix in Hwfv; rewrite Hwfv; nia|].
    destruct (lookup_lt_is_Some_2 (elements (ng_frc st)) (col * nrows (ng_frc st) + k))
      as [f0 Hf0]; [unfold wf_matrix in Hwff; rewrite Hwff; nia|].
    rewrite <- getelement_in_range in Hx0, Hf0 by done.
    destruct (perturb_coordinate_central_difference integrand mesh i vs col k st x0 f0
                Hwfv Hwff Hx0 Hf0 st1 Hstep) as (fp & fm & Hfp & Hfm & Hnew).
    destruct (IH st1 st') as (Hv' & Hin' & Hout'); try done.
    { by rewrite Hv1. }
    { intros k' Hk'. rewrite Hv1, Hr1. apply Hks. by right. }
    { by rewrite Hv1. }
    { by rewrite Hc1. }
    split; [by rewrite Hv', Hv1|]. split.
    + intros k' Hk'. apply elem_of_cons in Hk' as [->|Hk'].
      * exists f0, (rdiv (rsub fp fm) (rmul (rconst 2) eps)). split; [done|]. split.
        -- unfold central_difference. rewrite Hx0. bind_some. rewrite Hfp. bind_some.
           by rewrite Hfm.
        -- rewrite Hout' by (by right). done.
      * destruct (Hin' k' Hk') as (f0' & d & Hf0' & Hd & Hnew').
        exists f0', d. rewrite Hv1 in Hd. split; [|done].
        rewrite <- Hf0'. symmetry. apply Hother1. intros [= ->]. done.
    + intros r c Hrc. rewrite Hout'.
      * apply Hother1. intros [= -> ->]. destruct Hrc as [?|Hr]; [done|].
        apply Hr. by left.
      * destruct Hrc as [?|Hr]; [by left|]. right. intros Hin. apply Hr. by right.
Qed.

(** When the numerical gradient with respect to a remote vertex succeeds,
    the vertex matrix is what it was before the call, every coordinate of
    the force on that vertex has grown by the central difference of the
    integrand in that coordinate, taken with all other coordinates in
    place, and no other entry of the force matrix has changed. *)
Theorem numericalremotegradient_central_differences integrand (mesh : objectmesh R)
    (remoteid : Z) i vs st st' :
  wf_matrix (ng_vert st) -> wf_matrix (ng_frc st) ->
  dim mesh <= nrows (ng_vert st) -> dim mesh <= nrows (ng_frc st) ->
  uint remoteid < ncols (ng_vert st) -> uint remoteid < ncols (ng_frc st) ->
  functional_numericalremotegradient integrand mesh remoteid i vs st = (true, st') ->
  ng_vert st' = ng_vert st
  /\ (forall k, k < dim mesh ->
        exists f0 d,
          matrix_getelement (ng_frc st) k (uint remoteid) = Some f0
          /\ central_difference integrand mesh i vs (ng_vert st) (uint remoteid) k = Some d
          /\ matrix_getelement (ng_frc st') k (uint remoteid) = Some (radd f0 d))
  /\ (forall r c, (c <> uint remoteid \/ dim mesh <= r) ->
        matrix_getelement (ng_frc st') r c = matrix_getelement (ng_frc st) r c).
Proof.
  intros Hwfv Hwff Hdv Hdf Hcv Hcf Hrun. unfold functional_numericalremotegradient in Hrun.
  destruct (remote_loop integrand mesh i vs (uint remoteid) (seq 0 (dim mesh)) st st')
    as (Hv & Hin & Hout); try done.
  - apply NoDup_seq.
  - intros k Hk. apply elem_of_seq in Hk. lia.
  - split; [done|]. split.
    + intros k Hk. apply Hin. apply elem_of_seq. lia.
    + intros r c Hrc. apply Hout. destruct Hrc as [?|Hr]; [by left|].
      right. rewrite elem_of_seq. lia.
Qed.

(** *** Adding to a column, column by column *)

Lemma addtocolumn_columns m col alpha (v c : list R) :
  wf_matrix m -> length v = nrows m -> matrix_getcolumn m col = Some c ->
  wf_matrix (snd (matrix_addtocolumn m col alpha v))
  /\ nrows (snd (matrix_addtocolumn m col alpha v)) = nrows m
  /\ ncols (snd (matrix_addtocolumn m col alpha v)) = ncols m
  /\ matrix_getcolumn (snd (matrix_addtocolumn m col alpha v)) col
     = Some (zip_with (fun y x => radd y (rmul alpha x)) c v)
  /\ forall col', col' <> col ->
       matrix_getcolumn (snd (matrix_addtocolumn m col alpha v)) col'
       = matrix_getcolumn m col'.
Proof.
  intros Hwf Hv Hc. unfold matrix_getcolumn in Hc.
  case_bool_decide as Hcol; [|done]. injection Hc as <-.
  unfold matrix_addtocolumn. rewrite bool_decide_eq_true_2 by done. cbn [snd].
  unfold wf_matrix in Hwf.
  assert (Hpre : length (take (col * nrows m) (elements m)) = col * nrows m).
  { rewrite length_take, Hwf. nia. }
  assert (Hzip : length (zip_with (fun y x => radd y (rmul alpha x))
                           (take (nrows m) (drop (col * nrows m) (elements m))) v)
                 = nrows m).
  { rewrite length_zip_with, length_take, length_drop, Hwf. nia. }
  assert (Haxpy : length (cblas_daxpy (nrows m) alpha v (drop (col * nrows m) (elements m)))
                  = length (elements m) - col * nrows m).
  { unfold cblas_daxpy. by rewrite length_inserts, length_drop. }
  split; [|split; [done|split; [done|split]]].
  - unfold wf_matrix. cbn [elements nrows ncols]. rewrite length_app, Hpre, Haxpy, Hwf. nia.
  - unfold matrix_getcolumn. cbn [nrows ncols elements].
    rewrite bool_decide_eq_true_2 by done. f_equal.
    apply list_eq. intros t. rewrite lookup_take, lookup_drop.
    destruct (decide (t < nrows m)) as [Ht|Ht].
    + rewrite lookup_app_r by lia. rewrite Hpre.
      replace (col * nrows m + t - col * nrows m) with t by lia.
      unfold cblas_daxpy. rewrite list_lookup_inserts.
      * by rewrite Nat.sub_0_r.
      * rewrite Hzip. lia.
      * rewrite length_drop, Hwf. nia.
    + symmetry. apply lookup_ge_None. rewrite Hzip. lia.
  - intros col' Hne. unfold matrix_getcolumn. cbn [nrows ncols elements].
    destruct (bool_decide (col' < ncols m)) eqn:Hin; [|done].
    apply bool_decide_eq_true in Hin. f_equal.
    apply list_eq. intros t. rewrite !lookup_take, !lookup_drop.
    destruct (decide (t < nrows m)) as [Ht|Ht]; [|done].
    destruct (decide (col' < col)) as [Hlt|Hgt].
    + rewrite lookup_app_l by (rewrite Hpre; nia). apply lookup_take_lt. nia.
    + rewrite lookup_app_r by (rewrite Hpre; nia). rewrite Hpre.
      unfold cblas_daxpy. rewrite list_lookup_inserts_ge.
      * rewrite lookup_drop. f_equal. nia.
      * rewrite Hzip. nia.
Qed.

End Generic.

(** *** The enclosed volume and its gradient *)

Section Volume.
Local Open Scope Q_scope.
Implicit Types mesh : objectmesh Q.

Local Ltac qarith :=
  unfold rzero in *; cbn [radd rsub rmul rdiv ropp rabs rconst Q_Scalar] in *.

Lemma vec3 (x : list Q) : length x = 3%nat -> exists a b c, x = [a; b; c].
Proof. destruct x as [|a [|b [|c [|? ?]]]]; try done. intros _. by exists a, b, c. Qed.

(** The triple product [(x0 x x1) . x2], as the code computes it. *)
Definition triple (x0 x1 x2 : list Q) : Q :=
  match functional_veccross x0 x1 with
  | Some cx => functional_vecdot 3 cx x2
  | None => 0
  end.

(** The mesh after the vertex [v] has moved by [h]. *)
Definition moved mesh (v : nat) (h : list Q) : objectmesh Q :=
  match matrix_getcolumn (vert mesh) v with
  | Some x => set_vert mesh (snd (matrix_setcolumn (vert mesh) v (zip_with Qplus x h)))
  | None => mesh
  end.

Lemma integrand_eval mesh id (v0 v1 v2 : Z) (x0 x1 x2 : list Q) :
  dim mesh = 3%nat ->
  matrix_getcolumn (vert mesh) (uint v0) = Some x0 ->
  matrix_getcolumn (vert mesh) (uint v1) = Some x1 ->
  matrix_getcolumn (vert mesh) (uint v2) = Some x2 ->
  length x0 = 3%nat -> length x1 = 3%nat -> length x2 = 3%nat ->
  volumeenclosed_integrand mesh id [v0; v1; v2] = Some (Qabs (triple x0 x1 x2) / 6).
Proof.
  intros Hdim H0 H1 H2 L0 L1 L2.
  destruct (vec3 x0 L0) as (a0 & a1 & a2 & ->).
  destruct (vec3 x1 L1) as (b0 & b1 & b2 & ->).
  destruct (vec3 x2 L2) as (c0 & c1 & c2 & ->).
  unfold volumeenclosed_integrand, element_positions.
  rewrite bool_decide_eq_true_2 by done. cbn [mapM]. rewrite H0, H1, H2, Hdim. reflexivity.
Qed.

Lemma triple_move0 (x0 x1 x2 h c12 : list Q) :
  length x0 = 3%nat -> length x1 = 3%nat -> length x2 = 3%nat -> length h = 3%nat ->
  functional_veccross x1 x2 = Some c12 ->
  triple (zip_with Qplus x0 h) x1 x2 == triple x0 x1 x2 + dotQ c12 h.
Proof.
  intros L0 L1 L2 Lh.
  destruct (vec3 x0 L0) as (a0 & a1 & a2 & ->).
  destruct (vec3 x1 L1) as (b0 & b1 & b2 & ->).
  destruct (vec3 x2 L2) as (c0 & c1 & c2 & ->).
  destruct (vec3 h Lh) as (h0 & h1 & h2 & ->).
  intros [= <-]. unfold triple, functional_vecdot, cblas_ddot, dotQ, Qsum. simpl. qarith. ring.
Qed.

Lemma triple_move1 (x0 x1 x2 h c20 : list Q) :
  length x0 = 3%nat -> length x1 = 3%nat -> length x2 = 3%nat -> length h = 3%nat ->
  functional_veccross x2 x0 = Some c20 ->
  triple x0 (zip_with Qplus x1 h) x2 == triple x0 x1 x2 + dotQ c20 h.
Proof.
  intros L0 L1 L2 Lh.
  destruct (vec3 x0 L0) as (a0 & a1 & a2 & ->).
  destruct (vec3 x1 L1) as (b0 & b1 & b2 & ->).
  destruct (vec3 x2 L2) as (c0 & c1 & c2 & ->).
  destruct (vec3 h Lh) as (h0 & h1 & h2 & ->).
  intros [= <-]. unfold triple, functional_vecdot, cblas_ddot, dotQ, Qsum. simpl. qarith. ring.
Qed.

Lemma triple_move2 (x0 x1 x2 h c01 : list Q) :
  length x0 = 3%nat -> length x1 = 3%nat -> length x2 = 3%nat -> length h = 3%nat ->
  functional_veccross x0 x1 = Some c01 ->
  triple x0 x1 (zip_with Qplus x2 h) == triple x0 x1 x2 + dotQ c01 h.
Proof.
  intros L0 L1 L2 Lh.
  destruct (vec3 x0 L0) as (a0 & a1 & a2 & ->).
  destruct (vec3 x1 L1) as (b0 & b1 & b2 & ->).
  destruct (vec3 x2 L2) as (c0 & c1 & c2 & ->).
  destruct (vec3 h Lh) as (h0 & h1 & h2 & ->).
  intros [= <-]. unfold triple, functional_vecdot, cblas_ddot, dotQ, Qsum. simpl. qarith. ring.
Qed.

Lemma dotQ_scale (alpha : Q) (c h : list Q) :
  dotQ (Qmult alpha <$> c) h == alpha * dotQ c h.
Proof.
  unfold dotQ, Qsum. revert h. induction c as [|x c IH]; intros [|y h]; simpl; try ring.
  rewrite IH. ring.
Qed.

(** The volume [|D|/6] changes by [alpha*t] when [D] changes by [t], as
    long as that change is smaller than the volume. *)
Lemma abs_first_order (D t : Q) :
  Qabs (D / Qabs D / 6 * t) < Qabs D / 6 ->
  Qabs (D + t) / 6 == Qabs D / 6 + D / Qabs D / 6 * t.
Proof.
  intros Hsmall.
  destruct (Qlt_le_dec 0 D) as [Hpos|Hnonpos].
  - assert (Habs : Qabs D == D) by (apply Qabs_pos; lra).
    assert (Halpha : D / Qabs D / 6 == 1 # 6) by (rewrite Habs; field; lra).
    rewrite Halpha, Habs in Hsmall. rewrite Halpha, Habs.
    unfold Qdiv in *. change (/ 6) with (1 # 6) in *.
    assert (Hdt : 0 <= D + t).
    { destruct (Qlt_le_dec t 0) as [Hn|Hp]; [|lra].
      assert (Ht : Qabs ((1 # 6) * t) == - ((1 # 6) * t)) by (apply Qabs_neg; lra).
      rewrite Ht in Hsmall. lra. }
    assert (Hdt' : Qabs (D + t) == D + t) by (by apply Qabs_pos).
    rewrite Hdt'. lra.
  - destruct (Qeq_dec D 0) as [Hz|Hnz].
    + exfalso. assert (Habs : Qabs D == 0) by (rewrite Hz; reflexivity).
      rewrite Habs in Hsmall.
      pose proof (Qabs_nonneg (D / 0 / 6 * t)).
      unfold Qdiv in *. change (/ 6) with (1 # 6) in *. lra.
    + assert (Hneg : D < 0) by lra.
      assert (Habs : Qabs D == - D) by (apply Qabs_neg; lra).
      assert (Halpha : D / Qabs D / 6 == - (1 # 6)) by (rewrite Habs; field; lra).
      rewrite Halpha, Habs in Hsmall. rewrite Halpha, Habs.
      unfold Qdiv in *. change (/ 6) with (1 # 6) in *.
      assert (Hdt : D + t <= 0).
      { destruct (Qlt_le_dec t 0) as [Hn|Hp]; [lra|].
        assert (Ht : Qabs (- (1 # 6) * t) == - (- (1 # 6) * t)) by (apply Qabs_neg; lra).
        rewrite Ht in Hsmall. lra. }
      assert (Hdt' : Qabs (D + t) == - (D + t)) by (by apply Qabs_neg).
      rewrite Hdt'. lra.
Qed.

Lemma moved_columns mesh (v : nat) (x h : list Q) :
  wf_matrix (vert mesh) -> matrix_getcolumn (vert mesh) v = Some x ->
  length h = nrows (vert mesh) ->
  dim (moved mesh v h) = dim mesh
  /\ matrix_getcolumn (vert (moved mesh v h)) v = Some (zip_with Qplus x h)
  /\ forall v', v' <> v ->
       matrix_getcolumn (vert (moved mesh v h)) v' = matrix_getcolumn (vert mesh) v'.
Proof.
  intros Hwf Hx Hh. unfold moved. rewrite Hx. cbn [set_vert dim vert].
  pose proof (getcolumn_length _ _ _ Hwf Hx) as Hlx.
  assert (Hv : (v < ncols (vert mesh))%nat).
  { unfold matrix_getcolumn in Hx. by case_bool_decide. }
  assert (Hlen : length (zip_with Qplus x h) = nrows (vert mesh)).
  { rewrite length_zip_with. lia. }
  split; [done|]. split.
  - by apply getcolumn_setcolumn_same.
  - intros v' Hne. apply getcolumn_setcolumn_other; [done|]. by intros ->.
Qed.

Lemma unit_sign_nonzero (D : Q) :
  ~ D == 0 -> unit_sign D = Some (D / Qabs D).
Proof.
  intros HD. unfold unit_sign, rzero.
  cbn [rdiv rabs rconst reqb Q_Scalar].
  destruct (Qeq_bool (Qabs D) 0) eqn:E; [|done].
  apply Qeq_bool_iff in E. exfalso. apply HD.
  destruct (Qlt_le_dec D 0) as [Hn|Hp].
  - rewrite Qabs_neg in E by lra. lra.
  - rewrite Qabs_pos in E by lra. lra.
Qed.

Lemma unit_sign_zero (D : Q) : D == 0 -> unit_sign D = None.
Proof.
  intros HD. unfold unit_sign, rzero.
  cbn [rdiv rabs rconst reqb Q_Scalar].
  assert (E : Qeq_bool (Qabs D) 0 = true); [|by rewrite E].
  apply Qeq_bool_iff. rewrite HD. reflexivity.
Qed.

(** The enclosed volume of a face is a sixth of the absolute value of the
    triple product of its vertices.  Where that volume is positive, its
    gradient adds to the force on each vertex a vector [g] (a signed sixth
    of the cross product of the other two vertices) and leaves the force on
    every other vertex as it is; [g] is the derivative of the volume: when
    the vertex moves by [h], the volume changes by exactly [g . h], as long
    as that change is smaller than the volume itself.  (Stated in exact
    arithmetic; where the volume is zero the code divides zero by zero.) *)
Theorem volumeenclosed_gradient_is_derivative mesh (id : nat) (v0 v1 v2 : Z)
    (frc : objectmatrix Q) (V : Q) :
  dim mesh = 3%nat -> wf_matrix (vert mesh) -> nrows (vert mesh) = 3%nat ->
  wf_matrix frc -> nrows frc = 3%nat -> ncols frc = ncols (vert mesh) ->
  (uint v0 < ncols (vert mesh))%nat -> (uint v1 < ncols (vert mesh))%nat ->
  (uint v2 < ncols (vert mesh))%nat ->
  uint v0 <> uint v1 -> uint v1 <> uint v2 -> uint v0 <> uint v2 ->
  volumeenclosed_integrand mesh id [v0; v1; v2] = Some V -> 0 < V ->
  exists frc' g0 g1 g2,
    volumeenclosed_gradient mesh id [v0; v1; v2] frc = Some frc'
    /\ (forall c f, matrix_getcolumn frc c = Some f ->
          matrix_getcolumn frc' c
          = Some (if decide (c = uint v0) then zip_with Qplus f g0
                  else if decide (c = uint v1) then zip_with Qplus f g1
                  else if decide (c = uint v2) then zip_with Qplus f g2
                  else f))
    /\ forall h, length h = 3%nat ->
         (Qabs (dotQ g0 h) < V ->
            exists V', volumeenclosed_integrand (moved mesh (uint v0) h) id [v0; v1; v2]
                       = Some V' /\ V' == V + dotQ g0 h)
         /\ (Qabs (dotQ g1 h) < V ->
            exists V', volumeenclosed_integrand (moved mesh (uint v1) h) id [v0; v1; v2]
                       = Some V' /\ V' == V + dotQ g1 h)
         /\ (Qabs (dotQ g2 h) < V ->
            exists V', volumeenclosed_integrand (moved mesh (uint v2) h) id [v0; v1; v2]
                       = Some V' /\ V' == V + dotQ g2 h).
Proof.
  intros Hdim Hwf Hnr Hwff Hfr Hfc Hv0 Hv1 Hv2 H01 H12 H02 HV Hpos.
  destruct (getcolumn_is_Some (vert mesh) (uint v0) Hv0) as [x0 Hx0].
  destruct (getcolumn_is_Some (vert mesh) (uint v1) Hv1) as [x1 Hx1].
  destruct (getcolumn_is_Some (vert mesh) (uint v2) Hv2) as [x2 Hx2].
  pose proof (getcolumn_length _ _ _ Hwf Hx0) as L0.
  pose proof (getcolumn_length _ _ _ Hwf Hx1) as L1.
  pose proof (getcolumn_length _ _ _ Hwf Hx2) as L2.
  rewrite Hnr in L0, L1, L2.
  pose proof (integrand_eval mesh id v0 v1 v2 x0 x1 x2 Hdim Hx0 Hx1 Hx2 L0 L1 L2) as Hint.
  rewrite HV in Hint. injection Hint as ->.
  assert (Hnz : ~ triple x0 x1 x2 == 0).
  { intros Hz. rewrite Hz in Hpos. vm_compute in Hpos. discriminate Hpos. }
  destruct (vec3 x0 L0) as (a0 & a1 & a2 & E0).
  destruct (vec3 x1 L1) as (b0 & b1 & b2 & E1).
  destruct (vec3 x2 L2) as (c0 & c1 & c2 & E2).
  destruct (functional_veccross x0 x1) as [c01|] eqn:Hc01; [|by subst].
  destruct (functional_veccross x1 x2) as [c12|] eqn:Hc12; [|by subst].
  destruct (functional_veccross x2 x0) as [c20|] eqn:Hc20; [|by subst].
  assert (Lc : length c01 = 3%nat /\ length c12 = 3%nat /\ length c20 = 3%nat).
  { subst. injection Hc01 as <-. injection Hc12 as <-. injection Hc20 as <-. done. }
  destruct Lc as (Lc01 & Lc12 & Lc20).
  assert (Htriple : triple x0 x1 x2 = functional_vecdot 3 c01 x2).
  { unfold triple. by rewrite Hc01. }
  set (D := triple x0 x1 x2) in *.
  set (alpha := D / Qabs D / 6).
  (* the three additions to the force *)
  destruct (getcolumn_is_Some frc (uint v2) ltac:(lia)) as [f2 Hf2].
  destruct (addtocolumn_columns frc (uint v2) alpha c01 f2 Hwff ltac:(lia) Hf2)
    as (Hwf1 & Hr1 & Hn1 & Hcol1 & Hoth1).
  set (frc1 := snd (matrix_addtocolumn frc (uint v2) alpha c01)) in *.
  destruct (getcolumn_is_Some frc1 (uint v0) ltac:(lia)) as [f0 Hf0].
  destruct (addtocolumn_columns frc1 (uint v0) alpha c12 f0 Hwf1 ltac:(lia) Hf0)
    as (Hwf2 & Hr2 & Hn2 & Hcol2 & Hoth2).
  set (frc2 := snd (matrix_addtocolumn frc1 (uint v0) alpha c12)) in *.
  destruct (getcolumn_is_Some frc2 (uint v1) ltac:(lia)) as [f1 Hf1].
  destruct (addtocolumn_columns frc2 (uint v1) alpha c20 f1 Hwf2 ltac:(lia) Hf1)
    as (Hwf3 & Hr3 & Hn3 & Hcol3 & Hoth3).
  set (frc3 := snd (matrix_addtocolumn frc2 (uint v1) alpha c20)) in *.
  assert (Hzip : forall f c : list Q,
            zip_with (fun y x => radd y (rmul alpha x)) f c
            = zip_with Qplus f (Qmult alpha <$> c)).
  { intros f c. revert c. induction f as [|y f IH]; intros [|x c]; simpl; try done.
    by rewrite IH. }
  exists frc3, (Qmult alpha <$> c12), (Qmult alpha <$> c20), (Qmult alpha <$> c01).
  split; [|split].
  - unfold volumeenclosed_gradient, element_positions.
    rewrite bool_decide_eq_true_2 by done. cbn [mapM]. rewrite Hx0, Hx1, Hx2.
    cbn -[functional_veccross functional_vecdot matrix_addtocolumn unit_sign].
    rewrite Hc01. bind_some. rewrite Hdim, <- Htriple.
    rewrite (unit_sign_nonzero D Hnz). bind_some.
    cbn -[functional_veccross functional_vecdot matrix_addtocolumn].
    fold alpha. fold frc1. rewrite Hc12. bind_some. fold frc2. rewrite Hc20. bind_some.
    reflexivity.
  - intros c f Hf. destruct (decide (c = uint v0)) as [->|N0].
    + rewrite Hoth3 by done. rewrite Hcol2, Hzip. do 2 f_equal.
      rewrite Hoth1 in Hf0 by done. congruence.
    + destruct (decide (c = uint v1)) as [->|N1].
      * rewrite Hcol3, Hzip. do 2 f_equal.
        rewrite Hoth2, Hoth1 in Hf1 by done. congruence.
      * destruct (decide (c = uint v2)) as [->|N2].
        -- rewrite Hoth3, Hoth2 by done. rewrite Hcol1, Hzip. do 2 f_equal. congruence.
        -- by rewrite Hoth3, Hoth2, Hoth1.
  - intros h Lh.
    assert (Lz : forall x : list Q, length x = 3%nat -> length (zip_with Qplus x h) = 3%nat).
    { intros x Lx. rewrite length_zip_with. lia. }
    split; [|split]; intros Hsmall.
    + destruct (moved_columns mesh (uint v0) x0 h Hwf Hx0 ltac:(lia)) as (Hd & Hsame & Hother).
      exists (Qabs (triple (zip_with Qplus x0 h) x1 x2) / 6). split.
      * apply (integrand_eval _ id v0 v1 v2 (zip_with Qplus x0 h) x1 x2);
          [by rewrite Hd|exact Hsame|by rewrite Hother|by rewrite Hother|by apply Lz|done|done].
      * rewrite dotQ_scale in *. rewrite (triple_move0 x0 x1 x2 h c12) by done.
        fold D. by apply abs_first_order.
    + destruct (moved_columns mesh (uint v1) x1 h Hwf Hx1 ltac:(lia)) as (Hd & Hsame & Hother).
      exists (Qabs (triple x0 (zip_with Qplus x1 h) x2) / 6). split.
      * apply (integrand_eval _ id v0 v1 v2 x0 (zip_with Qplus x1 h) x2);
          [by rewrite Hd|by rewrite Hother|exact Hsame|by rewrite Hother|done|by apply Lz|done].
      * rewrite dotQ_scale in *. rewrite (triple_move1 x0 x1 x2 h c20) by done.
        fold D. by apply abs_first_order.
    + destruct (moved_columns mesh (uint v2) x2 h Hwf Hx2 ltac:(lia)) as (Hd & Hsame & Hother).
      exists (Qabs (triple x0 x1 (zip_with Qplus x2 h)) / 6). split.
      * apply (integrand_eval _ id v0 v1 v2 x0 x1 (zip_with Qplus x2 h));
          [by rewrite Hd|by rewrite Hother|by rewrite Hother|exact Hsame|done|done|by apply Lz].
      * rewrite dotQ_scale in *. rewrite (triple_move2 x0 x1 x2 h c01) by done.
        fold D. by apply abs_first_order.
Qed.

End Volume.

(** The squared first coordinate of the vertex [i]. *)
Definition square_integrand : functional_integrand (R:=Q) :=
  fun mesh i vs => x ← matrix_getelement (vert mesh) 0 i; Some (x * x)%Q.

(** One vertex at the coordinate 3 of a line. *)
Definition point_mesh : objectmesh Q :=
  {| dim := 1;
     vert := {| nrows := 1; ncols := 1; elements := [3%Q] |};
     conn := fun _ _ => None |}.

Definition point_state : ngstate Q :=
  {| ng_vert := vert point_mesh; ng_frc := object_newmatrix 1 1;
     ng_f0 := 0%Q; ng_x0 := 0%Q |}.

Lemma numericalremotegradient_central_differences_witness :
  ng_vert (snd (functional_numericalremotegradient square_integrand point_mesh 0%Z 0 [0%Z]
                  point_state))
  = ng_vert point_state
  /\ exists d,
       central_difference square_integrand point_mesh 0 [0%Z] (vert point_mesh) 0 0 = Some d
       /\ (d == 6)%Q.
Proof.
  destruct (numericalremotegradient_central_differences square_integrand point_mesh 0%Z 0
              [0%Z] point_state
              (snd (functional_numericalremotegradient square_integrand point_mesh 0%Z 0
                      [0%Z] point_state)))
    as (Hvert & Hforce & _);
    [reflexivity|reflexivity|simpl; lia|simpl; lia|vm_compute; lia|vm_compute; lia|
     vm_compute; reflexivity|].
  split; [exact Hvert|].
  destruct (Hforce 0%nat) as (f0 & d & _ & Hd & _); [simpl; lia|].
  exists d. split; [exact Hd|].
  vm_compute in Hd. injection Hd as <-. reflexivity.
Defined.

Lemma numericalgradient_success_restores_witness :
  ng_vert (snd (functional_numericalgradient square_integrand point_mesh 0 [0%Z] point_state))
  = ng_vert point_state.
Proof.
  apply (numericalgradient_success_restores square_integrand point_mesh 0 [0%Z]);
    [reflexivity|vm_compute; reflexivity].
Defined.

Lemma total_is_kahan_sum_of_integrand_witness :
  exists n l,
    21%Q = fst (foldl kahan_add (rzero, rzero) l.*2)
    /\ {| nrows := 1; ncols := 3; elements := [1; 4; 16]%Q |}
       = store_results (object_newmatrix 1 n) l.
Proof.
  destruct (total_is_kahan_sum_of_integrand some_slots 0 (line_info [1; 2; 4]%Q [] None)
              21%Q {| nrows := 1; ncols := 3; elements := [1; 4; 16]%Q |})
    as (n & l & Htotal & Hrow & _); [vm_compute; reflexivity|vm_compute; reflexivity|].
  exists n, l. split; [exact Htotal|exact Hrow].
Defined.

(** A mesh of one vertex, a functional that is 1 on every element, and a
    selection that also holds the id 5, which the mesh does not have. *)
Definition unit_info : functional_mapinfo Q :=
  {| mesh := mesh (line_info [1]%Q [] None);
     sel := Some (select_vertices {[0; 5]});
     g := 0;
     integrand := fun _ _ _ => Some 1%Q;
     grad := square_gradient;
     sym := SYMMETRY_NONE |}.

(** The value of the id outside the mesh is counted in the total and has
    no column in the row of the integrand. *)
Lemma selected_outside_mesh_in_total_only :
  functional_sumintegrand some_slots 0 unit_info = Some (Some 2%Q)
  /\ functional_mapintegrand some_slots 0 unit_info
     = Some {| nrows := 1; ncols := 1; elements := [1%Q] |}.
Proof. vm_compute. done. Qed.

(** The face spanned by the three unit vectors. *)
Definition corner_mesh : objectmesh Q :=
  {| dim := 3;
     vert := {| nrows := 3; ncols := 3; elements := [1; 0; 0; 0; 1; 0; 0; 0; 1]%Q |};
     conn := fun _ _ => None |}.

Lemma volumeenclosed_gradient_is_derivative_witness :
  exists frc',
    volumeenclosed_integrand corner_mesh 0 [0; 1; 2]%Z = Some (1 # 6)%Q
    /\ volumeenclosed_gradient corner_mesh 0 [0; 1; 2]%Z (object_newmatrix 3 3) = Some frc'.
Proof.
  destruct (volumeenclosed_gradient_is_derivative corner_mesh 0 0%Z 1%Z 2%Z
              (object_newmatrix 3 3) (1 # 6)%Q)
    as (frc' & g0 & g1 & g2 & Hgrad & _);
    [reflexivity|reflexivity|reflexivity|reflexivity|reflexivity|reflexivity|
     vm_compute; lia|vm_compute; lia|vm_compute; lia|
     vm_compute; lia|vm_compute; lia|vm_compute; lia|reflexivity|reflexivity|].
  exists frc'. split; [reflexivity|exact Hgrad].
Defined.

(** A face in the plane z = 0: its triple product is zero, the code divides
    zero by zero, and the gradient has no value in the model. *)
Definition flat_mesh : objectmesh Q :=
  {| dim := 3;
     vert := {| nrows := 3; ncols := 3; elements := [1; 0; 0; 0; 1; 0; 1; 1; 0]%Q |};
     conn := fun _ _ => None |}.

Lemma flat_face_gradient_undefined :
  exists V,
    volumeenclosed_integrand flat_mesh 0 [0; 1; 2]%Z = Some V
    /\ (V == 0)%Q
    /\ volumeenclosed_gradient flat_mesh 0 [0; 1; 2]%Z (object_newmatrix 3 3) = None.
Proof. eexists. split; [reflexivity|]. split; reflexivity. Qed.

End FunctionalOpsProps.

(* ===================================================================== *)
(** ** The state-and-failure monad *)
(* ===================================================================== *)

Lemma mbind_Some {S A B : Type} (c : M S A) (k : A -> M S B) (s : S) (r : B * S) :
  mbind c k s = Some r <-> exists a s', c s = Some (a, s') /\ k a s' = Some r.
Proof.
  unfold mbind. split.
  - destruct (c s) as [[a s']|]; [|done]. intros Hk. by exists a, s'.
  - intros (a & s' & -> & Hk). done.
Qed.

Lemma mret_Some {S A : Type} (a : A) (s : S) (r : A * S) :
  mret a s = Some r <-> r = (a, s).
Proof. unfold mret. split; [by intros [= <-]|by intros ->]. Qed.

(** Inversion of a successful run, one bind at a time. *)
Ltac minv H :=
  let a := fresh "a" in
  let s := fresh "st" in
  let H1 := fresh "Hrun" in
  apply mbind_Some in H as (a & s & H1 & H).

(* ===================================================================== *)
(** ** Optimisation problems and optimizers *)
(* ===================================================================== *)

Module OptimizeProps.
Import Matrix MatrixProps Optimize.

Section Problem.
Context {R : Type} `{Scalar R}.

(** C2, as amended.  [addconstraint] records as target the total of the
    functional on the current mesh of the problem (restricted to the
    selection, if one is given) at the time of the call, and it returns
    whenever that total can be evaluated.  [addlocalconstraint] does not
    evaluate the functional: it records the target it is given, and 0 when
    none is given. *)
Theorem constraint_target_capture (p : OptimizationProblem R) (w : world R)
    (f : functional R) (sl : option selection) (field : option loc) :
  (forall t, f_total f w (p_mesh p) sl = Some t ->
     exists cons p',
       addconstraint p w f sl field = Some (cons, p')
       /\ c_target cons = t
       /\ c_functional cons = f /\ c_selection cons = sl /\ c_field cons = field
       /\ p_constraints p' = p_constraints p ++ [cons]
       /\ p_mesh p' = p_mesh p)
  /\ (forall cons p', addconstraint p w f sl field = Some (cons, p') ->
        f_total f w (p_mesh p) sl = Some (c_target cons))
  /\ (forall onesided target,
        let '(lc, p') := addlocalconstraint p w f sl field onesided target in
        c_target lc = default rzero target
        /\ c_functional lc = f /\ c_selection lc = sl
        /\ p_localconstraints p' = p_localconstraints p ++ [lc]).
Proof.
  split; [|split].
  - intros t Ht. unfold addconstraint. rewrite Ht. simpl. eauto 10.
  - intros cons p'. unfold addconstraint.
    destruct (f_total f w (p_mesh p) sl) as [t|]; [|done]. simpl.
    by intros [= <- _].
  - intros onesided target. simpl. done.
Qed.

(** C2, as stated, for local constraints: without an explicit target the
    recorded target is the total of the functional. *)
Definition localconstraint_target_is_total (p : OptimizationProblem R) (w : world R)
    (f : functional R) (sl : option selection) (field : option loc) : Prop :=
  forall cons p',
    addlocalconstraint p w f sl field None None = (cons, p') ->
    f_total f w (p_mesh p) sl = Some (c_target cons).

End Problem.

Section Optimizer.
Context {R : Type} `{Scalar R}.
Variable active : world R -> Optimizer R -> option (list (option selection)).
Variable rlocal rglobal cforce : world R -> Optimizer R -> option (objectmatrix R).

Local Abbreviation step := (Optimize.step active rlocal rglobal).
Local Abbreviation energywithstepsize := (Optimize.energywithstepsize active rlocal rglobal).
Local Abbreviation bracket_pass := (Optimize.bracket_pass active rlocal rglobal).
Local Abbreviation bracket_loop := (Optimize.bracket_loop active rlocal rglobal).
Local Abbreviation bracket_start := (Optimize.bracket_start active rlocal rglobal).
Local Abbreviation bracketstepsize := (Optimize.bracketstepsize active rlocal rglobal).
Local Abbreviation dolinesearch := (Optimize.dolinesearch active rlocal rglobal).
Local Abbreviation linesearch_loop := (Optimize.linesearch_loop active rlocal rglobal cforce).
Local Abbreviation linesearch := (Optimize.linesearch active rlocal rglobal cforce).
Local Abbreviation totalforcewithconstraints :=
  (Optimize.totalforcewithconstraints active cforce).

Implicit Types st : ostate R.

(** The entries of the target of the optimizer. *)
Definition target_content st : option (objectmatrix R) :=
  match gettarget st with
  | Some (t, _) => heap (fst st) !! t
  | None => None
  end.

(** Two states name the same target object. *)
Definition same_target st st' : Prop :=
  kind (snd st') = kind (snd st)
  /\ problem (snd st') = problem (snd st)
  /\ meshes (fst st') = meshes (fst st).

(** Two states agree on everything the optimizer records but [lcactive]. *)
Definition same_record st st' : Prop :=
  snd st' = set_lcactive (lcactive (snd st')) (snd st).

Lemma same_target_refl st : same_target st st.
Proof. done. Qed.

Lemma same_target_trans st1 st2 st3 :
  same_target st1 st2 -> same_target st2 st3 -> same_target st1 st3.
Proof. unfold same_target. intros (-> & -> & ->) (-> & -> & ->). done. Qed.

Lemma same_record_refl st : same_record st st.
Proof. unfold same_record. by destruct st as [w []]. Qed.

Lemma same_record_snd st st' : snd st' = snd st -> same_record st st'.
Proof. unfold same_record. intros ->. by destruct st as [w []]. Qed.

Lemma same_record_trans st1 st2 st3 :
  same_record st1 st2 -> same_record st2 st3 -> same_record st1 st3.
Proof.
  unfold same_record. intros H12 H23. rewrite H23 at 1. rewrite H12 at 1. done.
Qed.

Lemma same_record_energy st st' : same_record st st' -> energy (snd st') = energy (snd st).
Proof. unfold same_record. by intros ->. Qed.

Lemma same_record_target st st' :
  same_record st st' ->
  kind (snd st') = kind (snd st) /\ problem (snd st') = problem (snd st).
Proof. unfold same_record. by intros ->. Qed.

Lemma gettarget_state st t st' : gettarget st = Some (t, st') -> st' = st.
Proof.
  unfold gettarget. destruct (kind (snd st)).
  - destruct (meshes _ !! _); simpl; [|done]. by intros [= _ <-].
  - by intros [= _ <-].
Qed.

Lemma gettarget_same st st' t :
  same_target st st' -> gettarget st = Some (t, st) -> gettarget st' = Some (t, st').
Proof.
  unfold same_target, gettarget. intros (-> & -> & ->).
  destruct (kind (snd st)).
  - destruct (meshes _ !! _); simpl; [|done]. by intros [= ->].
  - by intros [= ->].
Qed.

Lemma total_state en st x st' : total en st = Some (x, st') -> st' = st.
Proof.
  unfold total. destruct (f_total _ _ _ _); simpl; [|done]. by intros [= _ <-].
Qed.

Lemma sum_energies_state ens acc st x st' :
  sum_energies ens acc st = Some (x, st') -> st' = st.
Proof.
  revert acc st. induction ens as [|en ens IH]; intros acc st; simpl.
  - by intros [= _ <-].
  - intros Hrun. minv Hrun. apply total_state in Hrun0 as ->. by eapply IH.
Qed.

(** [totalenergy] reads the state and leaves it as it is. *)
Lemma totalenergy_state st x st' : totalenergy st = Some (x, st') -> st' = st.
Proof.
  unfold totalenergy. intros Hrun. minv Hrun.
  injection Hrun0 as <- <-. by eapply sum_energies_state.
Qed.

(** The writes of a method: it leaves every object but [t] as it is, and
    the target and the record of the optimizer the same. *)
Definition writes_only (t : loc) st st' : Prop :=
  same_target st st' /\ same_record st st'
  /\ forall l, l <> t -> heap (fst st') !! l = heap (fst st) !! l.

Lemma writes_only_refl t st : writes_only t st st.
Proof. split; [apply same_target_refl|]. split; [apply same_record_refl|done]. Qed.

Lemma writes_only_trans t st1 st2 st3 :
  writes_only t st1 st2 -> writes_only t st2 st3 -> writes_only t st1 st3.
Proof.
  intros (Ht1 & Hr1 & Hh1) (Ht2 & Hr2 & Hh2). split; [by eapply same_target_trans|].
  split; [by eapply same_record_trans|]. intros l Hl. rewrite Hh2, Hh1; done.
Qed.

Lemma write_writes_only t m st u st' :
  write t m st = Some (u, st') -> writes_only t st st'.
Proof.
  unfold write. intros [= _ <-]. split; [done|]. split; [by apply same_record_snd|].
  intros l Hl. simpl. by rewrite lookup_insert_ne.
Qed.

Lemma initlocalconstraints_writes_only t st u st' :
  initlocalconstraints active st = Some (u, st') -> writes_only t st st'.
Proof.
  unfold initlocalconstraints. destruct (active _ _); simpl; [|done].
  intros [= _ <-]. split; [done|]. split; [|done]. unfold same_record. simpl.
  by destruct st as [w []].
Qed.

Lemma reproject_writes_only (r : world R -> Optimizer R -> option (objectmatrix R)) t st u st' :
  gettarget st = Some (t, st) ->
  (target <- gettarget ;;
   v <- (fun st => v ← r (fst st) (snd st); Some (v, st)) ;;
   write target v)%monad st = Some (u, st') ->
  writes_only t st st'.
Proof.
  intros Ht Hrun. minv Hrun. rewrite Ht in Hrun0. injection Hrun0 as <- <-.
  minv Hrun. destruct (r _ _); simpl in Hrun0; [|done]. injection Hrun0 as <- <-.
  by eapply write_writes_only.
Qed.

(** [step] writes the target and [lcactive] only. *)
Lemma step_writes_only size t st u st' :
  gettarget st = Some (t, st) ->
  step size st = Some (u, st') -> writes_only t st st'.
Proof.
  intros Ht Hrun. unfold Optimize.step in Hrun.
  minv Hrun. rewrite Ht in Hrun0. injection Hrun0 as <- <-.
  minv Hrun. injection Hrun0 as <- <-.
  destruct (force (snd st)) as [frc|].
  2:{ injection Hrun as _ <-. apply writes_only_refl. }
  minv Hrun. unfold read in Hrun0. destruct (heap _ !! _); simpl in Hrun0; [|done].
  injection Hrun0 as <- <-.
  minv Hrun. unfold mlift in Hrun0. destruct (matrix_accumulate _ _ _); [|done].
  injection Hrun0 as <- <-.
  minv Hrun. pose proof (write_writes_only _ _ _ _ _ Hrun0) as W1.
  minv Hrun. pose proof (initlocalconstraints_writes_only t _ _ _ Hrun1) as W2.
  minv Hrun.
  assert (Ht2 : gettarget st1 = Some (t, st1)).
  { eapply gettarget_same; [|exact Ht].
    eapply same_target_trans; [apply W1|apply W2]. }
  pose proof (reproject_writes_only _ _ _ _ _ Ht2 Hrun2) as W3.
  assert (Ht3 : gettarget st2 = Some (t, st2)).
  { eapply gettarget_same; [apply W3|exact Ht2]. }
  pose proof (reproject_writes_only _ _ _ _ _ Ht3 Hrun) as W4.
  eapply writes_only_trans; [exact W1|].
  eapply writes_only_trans; [exact W2|].
  eapply writes_only_trans; [exact W3|exact W4].
Qed.

Lemma clonematrix_wf (m : objectmatrix R) : wf_matrix m -> object_clonematrix m = m.
Proof.
  unfold wf_matrix, object_clonematrix. intros Hwf. destruct m as [nr nc els].
  simpl in *. f_equal. apply take_ge. lia.
Qed.

(** The state in which [energywithstepsize] takes its step: the state of the
    call with one more object, the copy [vsave] of the target. *)
Definition with_saved_copy st : option (loc * ostate R) :=
  match gettarget st with
  | Some (t, _) => clone t st
  | None => None
  end.

(** [energywithstepsize]: the energy is the total energy after the step,
    and the target has the entries it had before the call. *)
Lemma energywithstepsize_spec size st e st' m :
  target_content st = Some m -> wf_matrix m ->
  energywithstepsize size st = Some (e, st') ->
  (exists vsave st1 st2,
     with_saved_copy st = Some (vsave, st1)
     /\ step size st1 = Some (tt, st2)
     /\ totalenergy st2 = Some (e, st2))
  /\ target_content st' = Some m
  /\ same_record st st'.
Proof.
  unfold target_content, with_saved_copy. intros Hm Hwf Hrun.
  unfold Optimize.energywithstepsize in Hrun.
  minv Hrun. pose proof (gettarget_state _ _ _ Hrun0) as ->. rename a into t.
  rewrite Hrun0 in Hm |- *.
  minv Hrun.
  assert (Hclone := Hrun1). unfold clone in Hrun1. rewrite Hm in Hrun1. simpl in Hrun1.
  injection Hrun1 as <- <-.
  assert (Hfresh : fresh (dom (heap (fst st))) <> t).
  { intros Heq. assert (Hin : t ∈ dom (heap (fst st))) by (apply elem_of_dom; eauto).
    rewrite <- Heq in Hin. exact (is_fresh _ Hin). }
  set (vsave := fresh (dom (heap (fst st)))) in *.
  set (st1 := (set_heap (<[vsave:=object_clonematrix m]> (heap (fst st))) (fst st), snd st)) in *.
  assert (Ht1 : gettarget st1 = Some (t, st1)).
  { eapply gettarget_same; [|exact Hrun0]. done. }
  minv Hrun. destruct a.
  pose proof (step_writes_only _ _ _ _ _ Ht1 Hrun1) as (Hsame & Hrec & Hheap).
  minv Hrun. pose proof (totalenergy_state _ _ _ Hrun2) as ->. rename a into en.
  minv Hrun. injection Hrun as <- <-.
  split; [exists vsave, st1, st0; done|].
  assert (Hsaved : heap (fst st0) !! vsave = Some m).
  { rewrite Hheap by done. simpl. rewrite lookup_insert_eq. by rewrite clonematrix_wf. }
  assert (Hrec0 : same_record st st0).
  { eapply same_record_trans; [|exact Hrec]. by apply same_record_snd. }
  destruct (same_record_target _ _ Hrec0) as [Hkind Hprob].
  unfold settarget in Hrun3. unfold gettarget in Hrun0 |- *.
  destruct (kind (snd st0)) as [|fld] eqn:Ek.
  - injection Hrun3 as Ha <-. simpl. rewrite Ek. rewrite lookup_insert_eq. simpl.
    split; [done|]. exact Hrec0.
  - rewrite <- Hkind in Hrun0. injection Hrun0 as <-.
    apply mbind_Some in Hrun3 as (val & st3 & Hread & Hwrite).
    unfold read in Hread. rewrite Hsaved in Hread. simpl in Hread.
    injection Hread as <- <-. unfold write in Hwrite. injection Hwrite as Ha <-.
    simpl. rewrite Ek. rewrite lookup_insert_eq. split; [done|]. exact Hrec0.
Qed.

(** [energywithstepsize] returns as soon as the step it takes on the saved
    state succeeds and the energy after it can be evaluated. *)
Lemma energywithstepsize_returns size st vsave st1 st2 e :
  with_saved_copy st = Some (vsave, st1) ->
  step size st1 = Some (tt, st2) ->
  totalenergy st2 = Some (e, st2) ->
  exists st', energywithstepsize size st = Some (e, st').
Proof.
  unfold with_saved_copy. intros Hsave Hstep Hen.
  destruct (gettarget st) as [[t st0]|] eqn:Ht; [|done].
  pose proof (gettarget_state _ _ _ Ht) as ->.
  unfold Optimize.energywithstepsize, mbind. rewrite Ht, Hsave, Hstep, Hen.
  unfold settarget. destruct (kind (snd st2)) as [|fld] eqn:Ek; [by eexists|].
  unfold mbind, read, write.
  assert (Hv : is_Some (heap (fst st2) !! vsave)).
  { assert (Ht1 : gettarget st1 = Some (t, st1)).
    { unfold clone in Hsave. destruct (heap (fst st) !! t); simpl in Hsave; [|done].
      injection Hsave as <- <-. eapply gettarget_same; [|exact Ht]. done. }
    pose proof (step_writes_only _ _ _ _ _ Ht1 Hstep) as (_ & _ & Hheap).
    unfold clone in Hsave. destruct (heap (fst st) !! t) as [m|] eqn:Em; simpl in Hsave; [|done].
    injection Hsave as <- <-. rewrite Hheap.
    - simpl. rewrite lookup_insert_eq. eauto.
    - intros Heq. assert (Hin : t ∈ dom (heap (fst st))) by (apply elem_of_dom; eauto).
      rewrite <- Heq in Hin. exact (is_fresh _ Hin). }
  destruct Hv as [v ->]. simpl. by eexists.
Qed.

(** C10.  [energywithstepsize(s)] clones the target, takes the step
    (with the reprojection onto local and global constraints), evaluates the
    total energy and puts the saved copy back: the value it returns is the
    total energy after that step, and the target (the vertex matrix of the
    mesh of a [ShapeOptimizer], the field of a [FieldOptimizer]) has after
    the call the entries it had before.  The call returns whenever the step
    and the evaluation of the energy do. *)
Theorem energywithstepsize_restores_target size st m :
  target_content st = Some m -> wf_matrix m ->
  (forall e st', energywithstepsize size st = Some (e, st') ->
     (exists vsave st1 st2,
        with_saved_copy st = Some (vsave, st1)
        /\ step size st1 = Some (tt, st2)
        /\ totalenergy st2 = Some (e, st2))
     /\ target_content st' = Some m)
  /\ (forall vsave st1 st2 e,
        with_saved_copy st = Some (vsave, st1) ->
        step size st1 = Some (tt, st2) ->
        totalenergy st2 = Some (e, st2) ->
        exists st', energywithstepsize size st = Some (e, st')
                    /\ target_content st' = Some m).
Proof.
  intros Hm Hwf. split.
  - intros e st' Hrun.
    destruct (energywithstepsize_spec _ _ _ _ _ Hm Hwf Hrun) as (Hex & Ht & _). done.
  - intros vsave st1 st2 e Hsave Hstep Hen.
    destruct (energywithstepsize_returns _ _ _ _ _ _ Hsave Hstep Hen) as [st' Hrun].
    exists st'. split; [done|].
    by destruct (energywithstepsize_spec _ _ _ _ _ Hm Hwf Hrun) as (_ & Ht & _).
Qed.

(** *** Bracketing *)

(** What the bracketing methods keep: the entries of the target and the
    record of the optimizer (but for [lcactive]). *)
Definition keeps m st st' : Prop :=
  target_content st' = Some m /\ same_record st st'.

Lemma energywithstepsize_keeps size m st e st' :
  target_content st = Some m -> wf_matrix m ->
  energywithstepsize size st = Some (e, st') -> keeps m st st'.
Proof.
  intros Hm Hwf Hrun.
  by destruct (energywithstepsize_spec _ _ _ _ _ Hm Hwf Hrun) as (_ & Ht & Hr).
Qed.

Lemma bracket_pass_keeps m b st ob st' :
  target_content st = Some m -> wf_matrix m ->
  bracket_pass b st = Some (ob, st') -> keeps m st st'.
Proof.
  intros Hm Hwf. unfold Optimize.bracket_pass.
  destruct (rltb (e2 b) (e1 b)); [|destruct (rltb (e0 b) (e1 b))].
  - intros Hrun. minv Hrun. injection Hrun as _ <-.
    by eapply energywithstepsize_keeps.
  - intros Hrun. minv Hrun. injection Hrun as _ <-.
    by eapply energywithstepsize_keeps.
  - intros [= _ <-]. split; [done|apply same_record_refl].
Qed.

Lemma keeps_trans m st1 st2 st3 : keeps m st1 st2 -> keeps m st2 st3 -> keeps m st1 st3.
Proof. intros [_ Hr1] [Ht Hr2]. split; [done|by eapply same_record_trans]. Qed.

Lemma bracket_loop_keeps m fuel iter b st r st' :
  target_content st = Some m -> wf_matrix m ->
  bracket_loop fuel iter b st = Some (r, st') -> keeps m st st'.
Proof.
  intros Hm Hwf. revert iter b st Hm.
  induction fuel as [|fuel IH]; intros iter b st Hm; simpl.
  - destruct (bracketed b); intros [= _ <-]; (split; [done|apply same_record_refl]).
  - destruct (bracketed b).
    { intros [= _ <-]; (split; [done|apply same_record_refl]). }
    intros Hrun. minv Hrun.
    pose proof (bracket_pass_keeps _ _ _ _ _ Hm Hwf Hrun0) as Hk.
    destruct a as [b'|].
    2:{ by injection Hrun as _ <-. }
    case_bool_decide.
    { by injection Hrun as _ <-. }
    eapply keeps_trans; [exact Hk|]. eapply IH; [apply Hk|exact Hrun].
Qed.

Lemma bracket_start_keeps m st b st' :
  target_content st = Some m -> wf_matrix m ->
  bracket_start st = Some (b, st') ->
  keeps m st st'
  /\ s0 b = rzero /\ s1 b = stepsize (snd st)
  /\ s2 b = rmul (rconst 2) (stepsize (snd st)).
Proof.
  intros Hm Hwf Hrun. unfold Optimize.bracket_start in Hrun.
  minv Hrun. injection Hrun0 as <- <-.
  minv Hrun. apply totalenergy_state in Hrun0 as ->.
  minv Hrun. pose proof (energywithstepsize_keeps _ _ _ _ _ Hm Hwf Hrun0) as K1.
  minv Hrun. pose proof (energywithstepsize_keeps _ _ _ _ _ (proj1 K1) Hwf Hrun1) as K2.
  injection Hrun as <- <-. simpl. split; [|done]. by eapply keeps_trans.
Qed.

Lemma bracketstepsize_keeps m st ob st' :
  target_content st = Some m -> wf_matrix m ->
  bracketstepsize st = Some (ob, st') -> keeps m st st'.
Proof.
  intros Hm Hwf Hrun. unfold Optimize.bracketstepsize in Hrun.
  minv Hrun. destruct (bracket_start_keeps _ _ _ _ Hm Hwf Hrun0) as (K1 & _).
  minv Hrun. pose proof (bracket_loop_keeps _ _ _ _ _ _ _ (proj1 K1) Hwf Hrun1) as K2.
  destruct a0; [injection Hrun as _ <-|injection Hrun as _ <-|done];
    by eapply keeps_trans.
Qed.

(** A bracket that is returned is a bracket. *)
Lemma bracket_loop_bracketed fuel iter b st b' st' :
  bracket_loop fuel iter b st = Some (Bracketed b', st') -> bracketed b' = true.
Proof.
  revert iter b st. induction fuel as [|fuel IH]; intros iter b st; simpl.
  - destruct (bracketed b) eqn:E; [by intros [= <- _]|done].
  - destruct (bracketed b) eqn:E; [by intros [= <- _]|].
    intros Hrun. minv Hrun. destruct a as [b1|]; [|done].
    case_bool_decide; [done|]. by eapply IH.
Qed.

(** The recursion budget is never used up: a pass with [iter = 11] ends
    the loop. *)
Lemma bracket_loop_fuel fuel iter b st r st' :
  12 <= fuel + iter -> 1 <= fuel ->
  bracket_loop fuel iter b st = Some (r, st') -> r <> OutOfFuel.
Proof.
  revert iter b st. induction fuel as [|fuel IH]; intros iter b st Hle Hpos; [lia|].
  simpl. destruct (bracketed b); [by intros [= <- _]|].
  intros Hrun. minv Hrun. destruct a as [b1|]; [|by injection Hrun as <- _].
  case_bool_decide; [by injection Hrun as <- _|].
  eapply IH; [| |exact Hrun]; lia.
Qed.

(** [k] passes of the loop body, none of which starts from a bracket or
    stops the search. *)
Fixpoint passes (k : nat) (b : brackets R) : M (ostate R) (option (brackets R)) :=
  match k with
  | O => mret (Some b)
  | Datatypes.S k' =>
      if bracketed b then mret None
      else
        mbind (bracket_pass b)
              (fun ob => match ob with
                         | Some b' => passes k' b'
                         | None => mret None
                         end)
  end.

Lemma bracket_loop_passes k fuel iter b st bk stk :
  passes k b st = Some (Some bk, stk) ->
  iter + k <= 11 ->
  bracket_loop (k + fuel) iter b st = bracket_loop fuel (iter + k) bk stk.
Proof.
  revert iter b st. induction k as [|k IH]; intros iter b st; simpl.
  - intros [= <- <-] _. by rewrite Nat.add_0_r.
  - destruct (bracketed b); [done|].
    intros Hrun Hle. minv Hrun. destruct a as [b1|]; [|done].
    unfold mbind at 1. rewrite Hrun0.
    rewrite bool_decide_eq_false_2 by lia.
    rewrite (IH _ _ _ Hrun) by lia. f_equal. lia.
Qed.

(** After eleven passes without a bracket the twelfth pass is the last:
    whatever it finds, the search gives up. *)
Lemma bracket_loop_twelfth_pass b st b11 st11 ob st12 :
  passes 11 b st = Some (Some b11, st11) ->
  bracketed b11 = false ->
  bracket_pass b11 st11 = Some (ob, st12) ->
  bracket_loop 12 0 b st = Some (GaveUp, st12).
Proof.
  intros Hp Hb Hpass.
  change 12 with (11 + 1). rewrite (bracket_loop_passes _ _ _ _ _ _ _ Hp) by lia.
  simpl. rewrite Hb. unfold mbind. rewrite Hpass.
  destruct ob; [|done]. done.
Qed.

(** What a pass of the loop body does: it doubles the sizes and evaluates
    the energy at the new [s2] only; or it halves [s1] and evaluates the
    energy there; or, when neither test applies, it stops the search and
    leaves the state as it is. *)
Lemma bracket_pass_cases b st1 ob st2 :
  bracket_pass b st1 = Some (ob, st2) ->
  (rltb (e2 b) (e1 b) = true
   /\ exists e, energywithstepsize (rmul (rconst 2) (s2 b)) st1 = Some (e, st2)
        /\ ob = Some {| s0 := s0 b; s1 := s2 b; s2 := rmul (rconst 2) (s2 b);
                        e0 := e0 b; e1 := e2 b; e2 := e |})
  \/ (rltb (e2 b) (e1 b) = false /\ rltb (e0 b) (e1 b) = true
      /\ exists e, energywithstepsize (rdiv (s1 b) (rconst 2)) st1 = Some (e, st2)
           /\ ob = Some {| s0 := s0 b; s1 := rdiv (s1 b) (rconst 2); s2 := s2 b;
                           e0 := e0 b; e1 := e; e2 := e2 b |})
  \/ (rltb (e2 b) (e1 b) = false /\ rltb (e0 b) (e1 b) = false
      /\ ob = None /\ st2 = st1).
Proof.
  unfold Optimize.bracket_pass.
  destruct (rltb (e2 b) (e1 b)) eqn:E21; [|destruct (rltb (e0 b) (e1 b)) eqn:E01].
  - intros Hrun. apply mbind_Some in Hrun as (e & st' & He & Hrun).
    injection Hrun as <- <-. left. split; [done|]. by exists e.
  - intros Hrun. apply mbind_Some in Hrun as (e & st' & He & Hrun).
    injection Hrun as <- <-. right. left. split; [done|]. split; [done|]. by exists e.
  - intros [= <- <-]. right. right. done.
Qed.

(** The energies of a bracket are measured: [s0] is 0 and [e0] the total
    energy at the start [st] of the search; [e1] and [e2] are the values
    that [energywithstepsize] returned for the sizes [s1] and [s2], called
    with the entries of the target and the record of the optimizer as they
    were at the start. *)
Definition measured m st (b : brackets R) : Prop :=
  s0 b = rzero
  /\ totalenergy st = Some (e0 b, st)
  /\ (exists sa sa', keeps m st sa /\ energywithstepsize (s1 b) sa = Some (e1 b, sa'))
  /\ (exists sb sb', keeps m st sb /\ energywithstepsize (s2 b) sb = Some (e2 b, sb')).

Lemma keeps_refl m st : target_content st = Some m -> keeps m st st.
Proof. intros Hm. split; [done|apply same_record_refl]. Qed.

Lemma bracket_start_measured m st b st0 :
  target_content st = Some m -> wf_matrix m ->
  bracket_start st = Some (b, st0) ->
  (exists sta,
     totalenergy st = Some (e0 b, st)
     /\ energywithstepsize (stepsize (snd st)) st = Some (e1 b, sta)
     /\ energywithstepsize (rmul (rconst 2) (stepsize (snd st))) sta = Some (e2 b, st0))
  /\ measured m st b.
Proof.
  intros Hm Hwf Hrun. unfold Optimize.bracket_start in Hrun.
  apply mbind_Some in Hrun as (o & st1 & Ho & Hrun). injection Ho as <- <-.
  apply mbind_Some in Hrun as (ea & st1 & Hea & Hrun).
  pose proof (totalenergy_state _ _ _ Hea) as ->.
  apply mbind_Some in Hrun as (eb & stb & Heb & Hrun).
  apply mbind_Some in Hrun as (ec & stc & Hec & Hrun).
  injection Hrun as <- <-. cbn [s0 s1 s2 e0 e1 e2].
  pose proof (energywithstepsize_keeps _ _ _ _ _ Hm Hwf Heb) as K1.
  split; [by exists stb|]. split; [done|]. split; [done|]. cbn [s0 s1 s2 e0 e1 e2]. split.
  - exists st, stb. split; [by apply keeps_refl|done].
  - exists stb, stc. split; [done|done].
Qed.

Lemma bracket_pass_measured m st b st1 b' st2 :
  wf_matrix m -> measured m st b -> keeps m st st1 ->
  bracket_pass b st1 = Some (Some b', st2) ->
  measured m st b' /\ keeps m st st2.
Proof.
  intros Hwf (Hs0 & He0 & (sa & sa' & Ka & Ha) & (sb & sb' & Kb & Hb)) K Hrun.
  assert (K2 : keeps m st st2).
  { eapply keeps_trans; [exact K|]. eapply bracket_pass_keeps; [exact (proj1 K)|done|done]. }
  split; [|done].
  destruct (bracket_pass_cases _ _ _ _ Hrun)
    as [(_ & e & He & Hb')|[(_ & _ & e & He & Hb')|(_ & _ & Hb' & _)]]; [| |done].
  - injection Hb' as ->. split; [done|]. split; [done|]. cbn [s1 s2 e1 e2]. split.
    + by exists sb, sb'.
    + by exists st1, st2.
  - injection Hb' as ->. split; [done|]. split; [done|]. cbn [s1 s2 e1 e2]. split.
    + by exists st1, st2.
    + by exists sb, sb'.
Qed.

Lemma passes_measured m st k b st1 bk stk :
  wf_matrix m -> measured m st b -> keeps m st st1 ->
  passes k b st1 = Some (Some bk, stk) ->
  measured m st bk /\ keeps m st stk.
Proof.
  intros Hwf. revert b st1. induction k as [|k IH]; intros b st1 Hmeas K; simpl.
  - by intros [= <- <-].
  - destruct (bracketed b); [done|].
    intros Hrun. apply mbind_Some in Hrun as (ob & st2 & Hpass & Hrun).
    destruct ob as [b'|]; [|done].
    destruct (bracket_pass_measured _ _ _ _ _ _ Hwf Hmeas K Hpass) as [Hmeas' K'].
    by eapply IH.
Qed.

(** Every run of the loop is a number of passes, each from sizes that are
    no bracket, followed by one of the three ways in which the loop ends: at
    a bracket; at sizes to which neither test applies; or in the pass that
    starts with [iter] above 10, whatever that pass finds. *)
Lemma bracket_loop_runs fuel iter b st r st' :
  bracket_loop fuel iter b st = Some (r, st') -> r <> OutOfFuel ->
  exists k bk stk,
    passes k b st = Some (Some bk, stk)
    /\ (k = 0 \/ iter + k <= 11)
    /\ ((r = Bracketed bk /\ st' = stk /\ bracketed bk = true)
        \/ (r = GaveUp /\ bracketed bk = false
            /\ bracket_pass bk stk = Some (None, st'))
        \/ (r = GaveUp /\ bracketed bk = false /\ 10 < iter + k
            /\ exists b', bracket_pass bk stk = Some (Some b', st'))).
Proof.
  revert iter b st. induction fuel as [|fuel IH]; intros iter b st; simpl.
  - destruct (bracketed b) eqn:Eb; [|by intros [= <- _]].
    intros [= <- <-] _. exists 0, b, st. split; [done|]. split; [by left|]. by left.
  - destruct (bracketed b) eqn:Eb.
    { intros [= <- <-] _. exists 0, b, st. split; [done|]. split; [by left|]. by left. }
    intros Hrun Hne. apply mbind_Some in Hrun as (ob & st1 & Hpass & Hrun).
    destruct ob as [b1|].
    2:{ injection Hrun as <- <-. exists 0, b, st. split; [done|]. split; [by left|].
        right. left. done. }
    case_bool_decide as Hiter.
    { injection Hrun as <- <-. exists 0, b, st. split; [done|]. split; [by left|].
      right. right. split; [done|]. split; [done|]. split; [lia|]. by exists b1. }
    destruct (IH _ _ _ Hrun Hne) as (k & bk & stk & Hp & Hk & Hend).
    exists (Datatypes.S k), bk, stk. split.
    { simpl. rewrite Eb. unfold mbind at 1. by rewrite Hpass. }
    split.
    { right. destruct Hk as [->|Hk]; lia. }
    replace (iter + Datatypes.S k) with (Datatypes.S iter + k) by lia. exact Hend.
Qed.

Lemma target_content_same st st' :
  same_target st st' -> heap (fst st') = heap (fst st) ->
  target_content st' = target_content st.
Proof.
  unfold same_target, target_content, gettarget. intros (-> & -> & ->) ->.
  destruct (kind (snd st)); [|done]. by destruct (meshes _ !! _).
Qed.

(** The state in which [dolinesearch] runs: the force and the active local
    constraints of [totalforcewithconstraints] are recorded. *)
Definition with_force (f : objectmatrix R) (a : list (option selection)) st : ostate R :=
  (fst st, set_force (Some f) (set_lcactive a (snd st))).

Lemma linesearch_loop_bracket_failure n st f a st2 m :
  target_content st = Some m -> wf_matrix m ->
  cforce (fst st) (snd st) = Some f ->
  active (fst st) (snd st) = Some a ->
  bracketstepsize (with_force f a st) = Some (None, st2) ->
  linesearch_loop (Datatypes.S n) st = Some (tt, st2)
  /\ target_content st2 = Some m
  /\ energy (snd st2) = energy (snd st).
Proof.
  intros Hm Hwf Hf Ha Hb.
  assert (Hm' : target_content (with_force f a st) = Some m).
  { rewrite <- Hm. by apply target_content_same. }
  destruct (bracketstepsize_keeps _ _ _ _ Hm' Hwf Hb) as [Ht Hr].
  split; [|split; [done|]].
  - simpl. unfold Optimize.totalforcewithconstraints, Optimize.initlocalconstraints,
      Optimize.dolinesearch, update_self, mbind, mret. rewrite Hf. simpl. rewrite Ha. simpl.
    unfold with_force in Hb. rewrite Hb. done.
  - by rewrite (same_record_energy _ _ Hr).
Qed.

Lemma record_initial_energy_keeps st u st0 :
  record_initial_energy st = Some (u, st0) ->
  target_content st0 = target_content st.
Proof.
  unfold record_initial_energy. intros Hrun. minv Hrun. injection Hrun0 as <- <-.
  case_bool_decide.
  - minv Hrun. apply totalenergy_state in Hrun0 as ->. injection Hrun as _ <-.
    by apply target_content_same.
  - by injection Hrun as _ <-.
Qed.

(** C6, as amended.  Bracketing starts from the sizes 0, [stepsize] and
    2*[stepsize], with the total energy and the two values of
    [energywithstepsize] as energies.  Every pass of its loop starts from
    sizes that are no bracket and doubles them (evaluating the energy at the
    new largest size) when E(s2) < E(s1), otherwise halves s1 (evaluating the
    energy there) when E(s0) < E(s1); through all passes E(s0) is the total
    energy at the start and E(s1), E(s2) are the values [energywithstepsize]
    returned for s1 and s2, called with the target as it was at the start.
    The search returns the first sizes so reached with E(s1) < E(s0) and
    E(s1) < E(s2), after at most eleven passes; it gives up, with [nil] and
    no error, as soon as neither test applies, and at the end of the twelfth
    pass of its loop whatever that pass found; in no other way does it end.
    It leaves the target and the energy history as they were.  When it
    gives up, [linesearch] leaves its loop at once, with the target and the
    history as they were at the head of the loop, and returns the
    history. *)
Theorem linesearch_bracketing st m :
  target_content st = Some m -> wf_matrix m ->
  (forall b st', bracket_start st = Some (b, st') ->
     s0 b = rzero /\ s1 b = stepsize (snd st)
     /\ s2 b = rmul (rconst 2) (stepsize (snd st))
     /\ exists sta,
          totalenergy st = Some (e0 b, st)
          /\ energywithstepsize (s1 b) st = Some (e1 b, sta)
          /\ energywithstepsize (s2 b) sta = Some (e2 b, st'))
  /\ (forall b st1 ob st2, bracket_pass b st1 = Some (ob, st2) ->
        (rltb (e2 b) (e1 b) = true
         /\ exists e, energywithstepsize (rmul (rconst 2) (s2 b)) st1 = Some (e, st2)
              /\ ob = Some {| s0 := s0 b; s1 := s2 b; s2 := rmul (rconst 2) (s2 b);
                              e0 := e0 b; e1 := e2 b; e2 := e |})
        \/ (rltb (e2 b) (e1 b) = false /\ rltb (e0 b) (e1 b) = true
            /\ exists e, energywithstepsize (rdiv (s1 b) (rconst 2)) st1 = Some (e, st2)
                 /\ ob = Some {| s0 := s0 b; s1 := rdiv (s1 b) (rconst 2); s2 := s2 b;
                                 e0 := e0 b; e1 := e; e2 := e2 b |})
        \/ (rltb (e2 b) (e1 b) = false /\ rltb (e0 b) (e1 b) = false
            /\ ob = None /\ st2 = st1))
  /\ (forall b st0 k bk stk,
        bracket_start st = Some (b, st0) ->
        passes k b st0 = Some (Some bk, stk) ->
        measured m st bk)
  /\ (forall ob st', bracketstepsize st = Some (ob, st') ->
        exists b st0 k bk stk,
          bracket_start st = Some (b, st0)
          /\ passes k b st0 = Some (Some bk, stk)
          /\ k <= 11
          /\ ((ob = Some bk /\ st' = stk
               /\ rltb (e1 bk) (e0 bk) = true /\ rltb (e1 bk) (e2 bk) = true)
              \/ (ob = None /\ st' = stk /\ bracketed bk = false
                  /\ rltb (e2 bk) (e1 bk) = false /\ rltb (e0 bk) (e1 bk) = false)
              \/ (ob = None /\ k = 11 /\ bracketed bk = false
                  /\ exists b12, bracket_pass bk stk = Some (Some b12, st'))))
  /\ (forall b st0 k bk stk,
        bracket_start st = Some (b, st0) ->
        passes k b st0 = Some (Some bk, stk) -> k <= 11 ->
        bracketed bk = true ->
        bracketstepsize st = Some (Some bk, stk))
  /\ (forall b st0 k bk stk,
        bracket_start st = Some (b, st0) ->
        passes k b st0 = Some (Some bk, stk) -> k <= 11 ->
        bracketed bk = false ->
        rltb (e2 bk) (e1 bk) = false -> rltb (e0 bk) (e1 bk) = false ->
        bracketstepsize st = Some (None, stk))
  /\ (forall b st0 b11 st11 ob st12,
        bracket_start st = Some (b, st0) ->
        passes 11 b st0 = Some (Some b11, st11) ->
        bracketed b11 = false ->
        bracket_pass b11 st11 = Some (ob, st12) ->
        bracketstepsize st = Some (None, st12))
  /\ (forall ob st', bracketstepsize st = Some (ob, st') ->
        target_content st' = Some m /\ energy (snd st') = energy (snd st))
  /\ (forall n f a st2,
        cforce (fst st) (snd st) = Some f ->
        active (fst st) (snd st) = Some a ->
        bracketstepsize (with_force f a st) = Some (None, st2) ->
        linesearch_loop (Datatypes.S n) st = Some (tt, st2)
        /\ target_content st2 = Some m
        /\ energy (snd st2) = energy (snd st))
  /\ (forall n st0 f a st2,
        record_initial_energy st = Some (tt, st0) ->
        cforce (fst st0) (snd st0) = Some f ->
        active (fst st0) (snd st0) = Some a ->
        bracketstepsize (with_force f a st0) = Some (None, st2) ->
        linesearch (Datatypes.S n) st = Some (energy (snd st0), st2)
        /\ target_content st2 = Some m).
Proof.
  intros Hm Hwf. repeat match goal with |- _ /\ _ => split end.
  - intros b st' Hs.
    destruct (bracket_start_keeps _ _ _ _ Hm Hwf Hs) as (_ & H0 & H1 & H2).
    destruct (bracket_start_measured _ _ _ _ Hm Hwf Hs) as [(sta & Hea & Heb & Hec) _].
    split; [done|]. split; [done|]. split; [done|].
    exists sta. rewrite H1, H2. done.
  - intros b st1 ob st2. apply bracket_pass_cases.
  - intros b st0 k bk stk Hs Hp.
    destruct (bracket_start_measured _ _ _ _ Hm Hwf Hs) as [_ Hmeas].
    destruct (bracket_start_keeps _ _ _ _ Hm Hwf Hs) as (K & _).
    by destruct (passes_measured _ _ _ _ _ _ _ Hwf Hmeas K Hp).
  - intros ob st' Hrun. unfold Optimize.bracketstepsize in Hrun.
    apply mbind_Some in Hrun as (b & st0 & Hs & Hrun).
    apply mbind_Some in Hrun as (r & st1 & Hloop & Hrun).
    assert (Hne : r <> OutOfFuel) by (by intros ->).
    destruct (bracket_loop_runs _ _ _ _ _ _ Hloop Hne) as (k & bk & stk & Hp & Hk & Hend).
    exists b, st0, k, bk, stk. split; [done|]. split; [done|]. split; [lia|].
    destruct Hend as [(-> & -> & Hb)|[(-> & Hb & Hpass)|(-> & Hb & Hlate & b12 & Hpass)]].
    + injection Hrun as <- <-. left. unfold bracketed in Hb.
      apply andb_true_iff in Hb as [? ?]. done.
    + injection Hrun as <- <-. right. left.
      destruct (bracket_pass_cases _ _ _ _ Hpass)
        as [(_ & e & _ & ?)|[(_ & _ & e & _ & ?)|(? & ? & _ & ->)]]; done.
    + injection Hrun as <- <-. right. right.
      split; [done|]. split; [lia|]. split; [done|]. by exists b12.
  - intros b st0 k bk stk Hs Hp Hk Hb.
    unfold Optimize.bracketstepsize, mbind. rewrite Hs.
    replace 12 with (k + (12 - k)) by lia.
    rewrite (bracket_loop_passes _ _ _ _ _ _ _ Hp) by lia.
    destruct (12 - k); simpl; by rewrite Hb.
  - intros b st0 k bk stk Hs Hp Hk Hb H21 H01.
    unfold Optimize.bracketstepsize, mbind. rewrite Hs.
    replace 12 with (k + Datatypes.S (11 - k)) by lia.
    rewrite (bracket_loop_passes _ _ _ _ _ _ _ Hp) by lia.
    simpl. rewrite Hb. unfold Optimize.bracket_pass, mbind. rewrite H21, H01. done.
  - intros b st0 b11 st11 ob st12 Hs Hp Hb Hpass.
    unfold Optimize.bracketstepsize, mbind. rewrite Hs.
    by rewrite (bracket_loop_twelfth_pass _ _ _ _ _ _ Hp Hb Hpass).
  - intros ob st' Hrun. destruct (bracketstepsize_keeps _ _ _ _ Hm Hwf Hrun) as [Ht Hr].
    split; [done|]. by rewrite (same_record_energy _ _ Hr).
  - intros n f a st2. by apply linesearch_loop_bracket_failure.
  - intros n st0 f a st2 Hinit Hf Ha Hb.
    assert (Hm0 : target_content st0 = Some m).
    { by rewrite (record_initial_energy_keeps _ _ _ Hinit). }
    destruct (linesearch_loop_bracket_failure n _ _ _ _ _ Hm0 Hwf Hf Ha Hb)
      as (Hloop & Ht & He).
    split; [|done].
    unfold Optimize.linesearch, mbind. rewrite Hinit, Hloop. simpl.
    unfold self, mret. simpl. by rewrite He.
Qed.

(** C6, as stated: when ten passes of the loop have not produced a bracket,
    the search gives up. *)
Definition gives_up_after_ten_passes st : Prop :=
  forall b st0 b10 st10,
    bracket_start st = Some (b, st0) ->
    passes 10 b st0 = Some (Some b10, st10) ->
    bracketed b10 = false ->
    exists st', bracketstepsize st = Some (None, st').

(** The search never stops for lack of recursion budget in this model, and
    it returns whenever the energy evaluations it asks for do. *)
Lemma bracketstepsize_total st :
  (forall size st1, exists e st2, energywithstepsize size st1 = Some (e, st2)) ->
  (forall st1, exists e, totalenergy st1 = Some (e, st1)) ->
  exists ob st', bracketstepsize st = Some (ob, st').
Proof.
  intros HE HT.
  assert (Hpass : forall b st1, exists ob st2, bracket_pass b st1 = Some (ob, st2)).
  { intros b st1. unfold Optimize.bracket_pass, mbind.
    destruct (rltb (e2 b) (e1 b)); [|destruct (rltb (e0 b) (e1 b))].
    - destruct (HE (rmul (rconst 2) (s2 b)) st1) as (e & st2 & ->). by eexists _, _.
    - destruct (HE (rdiv (s1 b) (rconst 2)) st1) as (e & st2 & ->). by eexists _, _.
    - by eexists _, _. }
  assert (Hloop : forall fuel iter b st1, exists r st2,
             bracket_loop fuel iter b st1 = Some (r, st2)).
  { induction fuel as [|fuel IH]; intros iter b st1; simpl.
    - destruct (bracketed b); by eexists _, _.
    - destruct (bracketed b); [by eexists _, _|].
      unfold mbind. destruct (Hpass b st1) as (ob & st2 & ->).
      destruct ob as [b'|]; [|by eexists _, _].
      case_bool_decide; [by eexists _, _|]. apply IH. }
  assert (Hstart : exists b st1, bracket_start st = Some (b, st1)).
  { unfold Optimize.bracket_start, mbind, self.
    destruct (HT st) as (ea & ->).
    destruct (HE (stepsize (snd st)) st) as (eb & stb & ->).
    destruct (HE (rmul (rconst 2) (stepsize (snd st))) stb) as (ec & stc & ->).
    by eexists _, _. }
  destruct Hstart as (b & st1 & Hs).
  destruct (Hloop 12 0 b st1) as (r & st2 & Hr).
  assert (Hne : r <> OutOfFuel) by (eapply bracket_loop_fuel; [| |exact Hr]; lia).
  unfold Optimize.bracketstepsize, mbind. rewrite Hs, Hr.
  destruct r; [by eexists _, _|by eexists _, _|done].
Qed.

End Optimizer.

(** The length of a segment on a line: the difference of the coordinates of
    its two vertices, read from the vertex matrix of the mesh. *)
Definition segment_length : functional Q :=
  {| f_total := fun w m sl =>
       v ← meshes w !! m;
       x ← heap w !! v;
       a ← matrix_getelement x 0 0;
       b ← matrix_getelement x 0 1;
       Some (b - a)%Q;
     f_field := None |}.

(** The mesh object 0 whose vertex matrix is the object 1: two vertices, at
    0 and at 1. *)
Definition unit_segment_world : world Q :=
  {| heap := {[ 1 := {| nrows := 1; ncols := 2; elements := [0; 1]%Q |} ]};
     meshes := {[ 0 := 1 ]} |}.

Lemma localconstraint_target_counterexample :
  ~ localconstraint_target_is_total (problem_init 0) unit_segment_world
      segment_length None None.
Proof.
  intros Hclaim. specialize (Hclaim _ _ eq_refl).
  vm_compute in Hclaim. discriminate Hclaim.
Qed.

Example addconstraint_unit_segment :
  c_target <$> (fst <$> addconstraint (problem_init 0) unit_segment_world
                  segment_length None None) = Some 1%Q.
Proof. vm_compute. reflexivity. Qed.

(** *** A descent on a line *)

(** The energy (x - 3000)^2 of the single vertex of a mesh on a line. *)
Definition quadratic : functional Q :=
  {| f_total := fun w m sl =>
       v ← meshes w !! m;
       x ← heap w !! v;
       a ← matrix_getelement x 0 0;
       Some ((a - 3000) * (a - 3000))%Q;
     f_field := None |}.

(** The mesh object 0 with the vertex matrix 1: one vertex, at 0. *)
Definition line_world : world Q :=
  {| heap := {[ 1 := {| nrows := 1; ncols := 1; elements := [0%Q] |} ]};
     meshes := {[ 0 := 1 ]} |}.

Definition line_problem : OptimizationProblem Q :=
  snd (addenergy (problem_init 0) quadratic None None).

(** No constraints: nothing is active and the reprojections leave the
    target where it is; the force is the unit descent direction. *)
Definition no_active : world Q -> Optimizer Q -> option (list (option selection)) :=
  fun _ _ => Some [].

Definition stay : world Q -> Optimizer Q -> option (objectmatrix Q) :=
  fun w o => target_content (w, o).

Definition unit_force : world Q -> Optimizer Q -> option (objectmatrix Q) :=
  fun _ _ => Some {| nrows := 1; ncols := 1; elements := [(-1)%Q] |}.

(** A shape optimizer on the line with the given step size, the force
    already computed. *)
Definition line_state (size : Q) : ostate Q :=
  (line_world,
   set_stepsize size
     (set_force (Some {| nrows := 1; ncols := 1; elements := [(-1)%Q] |})
        (optimizer_init line_problem ShapeOptimizer))).

(** With step size 1 the energy along the line is (s - 3000)^2: the sizes
    double until s1 = 2048, s2 = 4096, which is a bracket; it is found in
    the eleventh pass of the loop. *)
Example bracket_found_in_eleventh_pass :
  match bracketstepsize no_active stay stay (line_state 1) with
  | Some (Some r, _) => Some (s0 r, s1 r, s2 r)
  | _ => None
  end = Some (0, 2048, 4096)%Q.
Proof. vm_compute. reflexivity. Qed.

Lemma gives_up_after_ten_passes_counterexample :
  ~ gives_up_after_ten_passes no_active stay stay (line_state 1).
Proof.
  intros Hclaim.
  edestruct Hclaim as [st' Hst'].
  - vm_compute. reflexivity.
  - vm_compute. reflexivity.
  - vm_compute. reflexivity.
  - vm_compute in Hst'. discriminate Hst'.
Qed.

(** With the step size 0.1 of a new optimizer the sizes reach 409.6 only:
    the search gives up at the twelfth pass, and [linesearch] returns the
    energy history, which holds the energy at the start. *)
Lemma linesearch_bracketing_witness :
  exists st2,
    linesearch no_active stay stay unit_force 3 (line_state (1 # 10))
    = Some ([9000000%Q], st2)
    /\ target_content st2
       = Some {| nrows := 1; ncols := 1; elements := [0%Q] |}.
Proof.
  pose proof (linesearch_bracketing no_active stay stay unit_force (line_state (1 # 10))
                {| nrows := 1; ncols := 1; elements := [0%Q] |}
                ltac:(vm_compute; reflexivity) ltac:(vm_compute; reflexivity))
    as (_ & _ & _ & _ & _ & _ & _ & _ & _ & Hexit).
  edestruct (Hexit 2) as [Hrun Ht].
  - vm_compute. reflexivity.
  - vm_compute. reflexivity.
  - vm_compute. reflexivity.
  - vm_compute. reflexivity.
  - eexists. split; [|exact Ht]. exact Hrun.
Defined.

Lemma energywithstepsize_restores_target_witness :
  exists st',
    energywithstepsize no_active stay stay 2048%Q (line_state 1)
    = Some ((2048 - 3000) * (2048 - 3000), st')%Q
    /\ target_content st' = Some {| nrows := 1; ncols := 1; elements := [0%Q] |}.
Proof.
  pose proof (energywithstepsize_restores_target no_active stay stay 2048%Q (line_state 1)
                {| nrows := 1; ncols := 1; elements := [0%Q] |}
                ltac:(vm_compute; reflexivity) ltac:(vm_compute; reflexivity))
    as [_ Hret].
  edestruct Hret as (st' & Hrun & Ht).
  - vm_compute. reflexivity.
  - vm_compute. reflexivity.
  - vm_compute. reflexivity.
  - exists st'. split; [|exact Ht]. rewrite Hrun. reflexivity.
Defined.


End OptimizeProps.

(* ===================================================================== *)
(** ** Forces and fixed vertices *)
(* ===================================================================== *)

Module OptimizeOpsProps.
Import Matrix MatrixOps MatrixProps MatrixOpsProps OptimizeOps.

(** *** Fixed vertices *)

Lemma fix_step_spec (lst fx : list nat) :
  NoDup fx ->
  let r := foldl (fun fx i => if bool_decide (i ∈ fx) then fx else fx ++ [i]) fx lst in
  NoDup r /\ (forall i, i ∈ r <-> i ∈ fx \/ i ∈ lst) /\ fx `prefix_of` r.
Proof.
  revert fx. induction lst as [|i lst IH]; intros fx Hnd; simpl.
  - split; [done|]. split; [|done]. intros i. rewrite elem_of_nil. tauto.
  - case_bool_decide as Hin.
    + destruct (IH fx Hnd) as (Hnd' & Hmem & Hpre). split; [done|]. split; [|done].
      intros k. rewrite Hmem, elem_of_cons. split; [tauto|].
      intros [?|[->|?]]; tauto.
    + destruct (IH (fx ++ [i])) as (Hnd' & Hmem & Hpre).
      { apply NoDup_app. split; [done|]. split; [|apply NoDup_singleton].
        intros k Hk Hk'. apply list_elem_of_singleton in Hk'. by subst. }
      split; [done|]. split.
      * intros k. rewrite Hmem, elem_of_app, list_elem_of_singleton, elem_of_cons. tauto.
      * etransitivity; [|exact Hpre]. by apply prefix_app_r.
Qed.

Lemma fix_step_members (lst fx : list nat) :
  (forall i, i ∈ lst -> i ∈ fx) ->
  foldl (fun fx i => if bool_decide (i ∈ fx) then fx else fx ++ [i]) fx lst = fx.
Proof.
  induction lst as [|i lst IH]; intros Hall; simpl; [done|].
  rewrite bool_decide_eq_true_2 by (apply Hall; by left).
  apply IH. intros k Hk. apply Hall. by right.
Qed.

(** [fix] keeps the list of fixed vertices free of duplicates: the vertices
    fixed before stay at the front, a vertex of the list given is added
    unless it is already there, and fixing the same list again changes
    nothing. *)
Theorem fix_vertices_spec (fixed : option (list nat)) (lst : list nat) :
  NoDup (default [] fixed) ->
  NoDup (fix_vertices fixed lst)
  /\ (forall i, i ∈ fix_vertices fixed lst <-> i ∈ default [] fixed \/ i ∈ lst)
  /\ default [] fixed `prefix_of` fix_vertices fixed lst
  /\ fix_vertices (Some (fix_vertices fixed lst)) lst = fix_vertices fixed lst.
Proof.
  intros Hnd. destruct (fix_step_spec lst (default [] fixed) Hnd) as (Hnd' & Hmem & Hpre).
  split; [done|]. split; [done|]. split; [done|].
  unfold fix_vertices at 1. simpl. apply fix_step_members.
  intros i Hi. apply Hmem. by right.
Qed.

Lemma fix_vertices_spec_witness :
  fix_vertices (Some [3; 1]) [1; 2; 2; 5] = [3; 1; 2; 5]
  /\ NoDup (fix_vertices (Some [3; 1]) [1; 2; 2; 5])
  /\ fix_vertices (Some (fix_vertices (Some [3; 1]) [1; 2; 2; 5])) [1; 2; 2; 5]
     = fix_vertices (Some [3; 1]) [1; 2; 2; 5].
Proof.
  destruct (fix_vertices_spec (Some [3; 1]) [1; 2; 2; 5]) as (Hnd & _ & _ & Hidem).
  { simpl. apply NoDup_cons. split; [|apply NoDup_singleton].
    intros Hin. apply list_elem_of_singleton in Hin. discriminate. }
  split; [by vm_compute|]. split; [exact Hnd|exact Hidem].
Defined.

(** A loop that stops at the first runtime error. *)
Lemma foldl_option_cons {A B : Type} (F : A -> B -> option A) (a : A) (b : B) (l : list B) :
  foldl (fun oa b => a ← oa; F a b) (Some a) (b :: l)
  = foldl (fun oa b => a ← oa; F a b) (F a b) l.
Proof. done. Qed.

Lemma foldl_option_None {A B : Type} (F : A -> B -> option A) (l : list B) :
  foldl (fun oa b => a ← oa; F a b) None l = None.
Proof. induction l as [|b l IH]; [done|]. simpl. apply IH. Qed.

Section Generic.
Context {R : Type} `{Scalar R}.
Implicit Types a b m f g : objectmatrix R.

Lemma Matrix_setcolumn_zero m (nr : nat) i :
  nrows m = nr -> i < ncols m ->
  Matrix_setcolumn m i (matrix_constructor nr 1)
  = Some (snd (matrix_setcolumn m i (replicate nr rzero))).
Proof.
  intros Hr Hi. unfold Matrix_setcolumn, matrix_constructor, object_newmatrix.
  cbn [nrows ncols elements]. rewrite bool_decide_eq_true_2 by done.
  rewrite bool_decide_eq_true_2 by lia. by rewrite Nat.mul_1_l.
Qed.

Lemma fixgrad_loop (nr : nat) (l : list nat) m :
  wf_matrix m -> nrows m = nr ->
  (forall i, i ∈ l -> i < ncols m) ->
  exists m',
    foldl (fun og i => g ← og; Matrix_setcolumn g i (matrix_constructor nr 1)) (Some m) l
    = Some m'
    /\ nrows m' = nrows m /\ ncols m' = ncols m /\ wf_matrix m'
    /\ (forall i, i ∈ l -> matrix_getcolumn m' i = Some (replicate nr rzero))
    /\ (forall i, i ∉ l -> matrix_getcolumn m' i = matrix_getcolumn m i).
Proof.
  revert m. induction l as [|k l IH]; intros m Hwf Hr Hall.
  - exists m. simpl. repeat split; try done. intros i Hi. by apply elem_of_nil in Hi.
  - rewrite foldl_option_cons.
    rewrite Matrix_setcolumn_zero by (done || apply Hall; by left).
    set (m1 := snd (matrix_setcolumn m k (replicate nr rzero))).
    destruct (setcolumn_dims m k (replicate nr rzero)) as [Hr1 Hc1]. fold m1 in Hr1, Hc1.
    destruct (IH m1) as (m' & Hrun & Hr' & Hc' & Hwf' & Hzero & Hother).
    { by apply wf_setcolumn. }
    { lia. }
    { intros i Hi. rewrite Hc1. apply Hall. by right. }
    exists m'. split; [done|]. split; [lia|]. split; [lia|]. split; [done|]. split.
    + intros i Hi. destruct (decide (i ∈ l)) as [Hil|Hil]; [by apply Hzero|].
      apply elem_of_cons in Hi as [->|Hi]; [|done].
      rewrite Hother by done. apply getcolumn_setcolumn_same; [done| |].
      * apply Hall. by left.
      * rewrite length_replicate. lia.
    + intros i Hi. apply not_elem_of_cons in Hi as [Hne Hil].
      rewrite Hother by done. apply getcolumn_setcolumn_other; [|done].
      rewrite length_replicate. lia.
Qed.

Lemma fixgrad_loop_error (nr : nat) (l : list nat) m :
  nrows m = nr ->
  (exists i, i ∈ l /\ ncols m <= i) ->
  foldl (fun og i => g ← og; Matrix_setcolumn g i (matrix_constructor nr 1)) (Some m) l
  = None.
Proof.
  revert m. induction l as [|k l IH]; intros m Hr (i & Hi & Hout).
  - by apply elem_of_nil in Hi.
  - rewrite foldl_option_cons.
    destruct (decide (k < ncols m)) as [Hk|Hk].
    + rewrite Matrix_setcolumn_zero by done.
      destruct (setcolumn_dims m k (replicate nr rzero)) as [Hr1 Hc1].
      apply IH; [lia|].
      apply elem_of_cons in Hi as [->|Hi]; [lia|]. exists i. split; [done|lia].
    + unfold Matrix_setcolumn at 2. rewrite bool_decide_eq_false_2 by done.
      apply foldl_option_None.
Qed.

(** [fixgrad] sets the column of every fixed vertex of the gradient to
    zero and leaves the other columns as they are; nothing is done when no
    vertex was ever fixed, and a fixed vertex that the gradient has no
    column for is a runtime error. *)
Theorem fixgrad_zeroes_fixed_columns (l : list nat) (grad : objectmatrix R) :
  wf_matrix grad ->
  fixgrad None grad = Some grad
  /\ ((exists i, i ∈ l /\ ncols grad <= i) -> fixgrad (Some l) grad = None)
  /\ ((forall i, i ∈ l -> i < ncols grad) ->
      exists grad',
        fixgrad (Some l) grad = Some grad'
        /\ nrows grad' = nrows grad /\ ncols grad' = ncols grad
        /\ (forall i, i ∈ l ->
              matrix_getcolumn grad' i = Some (replicate (nrows grad) rzero))
        /\ (forall i, i ∉ l -> matrix_getcolumn grad' i = matrix_getcolumn grad i)).
Proof.
  intros Hwf. split; [done|]. split.
  - intros Hbad. by apply fixgrad_loop_error.
  - intros Hall.
    destruct (fixgrad_loop (nrows grad) l grad Hwf eq_refl Hall)
      as (g' & Hrun & Hr & Hc & _ & Hzero & Hother).
    exists g'. done.
Qed.

End Generic.

(** *** The matrix of force inner products *)

Local Ltac bind_some :=
  match goal with
  | |- context [Some ?x ≫= ?k] => change (Some x ≫= k) with (k x); cbv beta
  end.


Lemma foldl_nested_dep {A B C : Type} (f : A -> C -> B -> C) (l1 : list A)
    (l2 : A -> list B) (c : C) :
  foldl (fun c a => foldl (f a) c (l2 a)) c l1
  = foldl (fun c ab => f (fst ab) c (snd ab)) c (l1 ≫= fun a => pair a <$> l2 a).
Proof.
  revert c. induction l1 as [|a l1 IH]; intros c; [done|].
  change ((a :: l1) ≫= fun a => pair a <$> l2 a)
    with ((pair a <$> l2 a) ++ (l1 ≫= fun a => pair a <$> l2 a)).
  rewrite foldl_app, <- IH. cbn [foldl]. f_equal. by rewrite foldl_fmap.
Qed.

Lemma elem_of_upper_pairs (n : nat) (p : nat * nat) :
  p ∈ (seq 0 n ≫= fun i => pair i <$> seq i (n - i)) <-> fst p <= snd p /\ snd p < n.
Proof.
  rewrite list_elem_of_bind. split.
  - intros (i & Hp & Hi). apply list_elem_of_fmap in Hp as (j & -> & Hj).
    apply elem_of_seq in Hi, Hj. simpl. lia.
  - intros [Hle Hlt]. exists (fst p). split.
    + apply list_elem_of_fmap. exists (snd p). split; [by destruct p|].
      apply elem_of_seq. lia.
    + apply elem_of_seq. lia.
Qed.

Section Gram.
Context {R : Type} `{Scalar R}.
Implicit Types m a b : objectmatrix R.

(** The inner product of the forces [i] and [j], [0] where it is not
    defined. *)
Definition gram (fv : list (objectmatrix R)) (i j : nat) : R :=
  default rzero (a ← fv !! i; b ← fv !! j; Matrix_inner a b).

(** The two writes of one pass through the body of the loops. *)
Definition gram_writes (fv : list (objectmatrix R)) (n : nat) (p : nat * nat)
  : list (nat * R) :=
  [(snd p * n + fst p, gram fv (fst p) (snd p));
   (fst p * n + snd p, gram fv (fst p) (snd p))].

Lemma Matrix_setindex_inside m (i j : nat) (x : R) :
  i < nrows m -> j < ncols m ->
  Matrix_setindex m i j x
  = Some {| nrows := nrows m; ncols := ncols m;
            elements := <[j * nrows m + i := x]> (elements m) |}.
Proof.
  intros Hi Hj. unfold Matrix_setindex, matrix_setelement.
  by rewrite !bool_decide_eq_true_2 by done.
Qed.

Lemma forceinnerproducts_entry_spec fv (n : nat) (els : list R) (i j : nat) a b :
  length els = n * n -> i < n -> j < n ->
  fv !! i = Some a -> fv !! j = Some b ->
  nrows a = nrows b -> ncols a = ncols b ->
  forceinnerproducts_entry fv i (Some {| nrows := n; ncols := n; elements := els |}) j
  = Some {| nrows := n; ncols := n; elements := writes (gram_writes fv n (i, j)) els |}.
Proof.
  intros Hlen Hi Hj Ha Hb Hr Hc.
  assert (Hx : Matrix_inner a b = Some (gram fv i j)).
  { unfold gram. rewrite Ha, Hb. simpl. unfold Matrix_inner, matrix_inner.
    by rewrite !bool_decide_eq_true_2 by done. }
  unfold forceinnerproducts_entry. bind_some. rewrite Ha. bind_some.
  rewrite Hb. bind_some. rewrite Hx. bind_some.
  rewrite Matrix_setindex_inside by done. bind_some. cbn [nrows ncols elements].
  unfold Matrix_getindex, matrix_getelement. cbn [nrows ncols elements].
  rewrite !bool_decide_eq_true_2 by done. cbn [andb].
  rewrite list_lookup_insert_eq by nia. bind_some.
  by rewrite Matrix_setindex_inside by done.
Qed.

Lemma forceinnerproducts_loop fv (n : nat) (ps : list (nat * nat)) :
  (forall a b, a ∈ fv -> b ∈ fv -> nrows a = nrows b /\ ncols a = ncols b) ->
  (forall p, p ∈ ps -> fst p < length fv /\ snd p < length fv) ->
  n = length fv ->
  forall els : list R,
    length els = n * n ->
    foldl (fun om p => forceinnerproducts_entry fv (fst p) om (snd p))
          (Some {| nrows := n; ncols := n; elements := els |}) ps
    = Some {| nrows := n; ncols := n;
              elements := writes (ps ≫= gram_writes fv n) els |}.
Proof.
  intros Hdims Hps Hn. induction ps as [|[i j] ps IH]; intros els Hlen; [done|].
  destruct (Hps (i, j)) as [Hi Hj]; [by left|]. simpl in Hi, Hj.
  destruct (lookup_lt_is_Some_2 fv i Hi) as [a Ha].
  destruct (lookup_lt_is_Some_2 fv j Hj) as [b Hb].
  destruct (Hdims a b) as [Hr Hc]; [by eapply list_elem_of_lookup_2..|].
  cbn [foldl fst snd].
  rewrite (forceinnerproducts_entry_spec fv n els i j a b) by (done || lia).
  rewrite IH.
  - change (((i, j) :: ps) ≫= gram_writes fv n)
      with (gram_writes fv n (i, j) ++ (ps ≫= gram_writes fv n)).
    unfold writes at 3. by rewrite foldl_app.
  - intros p Hp. apply Hps. by right.
  - by rewrite length_writes.
Qed.

(** [forceinnerproducts(fv)] is the symmetric matrix of the inner products
    of the forces: the entries (i, j) and (j, i) both hold
    [fv[i].inner(fv[j])] for [i <= j]. *)
Theorem forceinnerproducts_gram_matrix (fv : list (objectmatrix R)) :
  (forall a b, a ∈ fv -> b ∈ fv -> nrows a = nrows b /\ ncols a = ncols b) ->
  exists m,
    forceinnerproducts fv = Some m
    /\ nrows m = length fv /\ ncols m = length fv
    /\ forall i j a b,
         i <= j -> fv !! i = Some a -> fv !! j = Some b ->
         Matrix_getindex m i j = Matrix_inner a b
         /\ Matrix_getindex m j i = Matrix_inner a b.
Proof.
  intros Hdims. unfold forceinnerproducts. cbv zeta.
  set (n := length fv).
  rewrite (foldl_nested_dep (forceinnerproducts_entry fv)).
  unfold matrix_constructor, object_newmatrix.
  rewrite (forceinnerproducts_loop fv n); [|done| |done|by rewrite length_replicate].
  2:{ intros p Hp. apply elem_of_upper_pairs in Hp. fold n. lia. }
  eexists. split; [done|]. split; [done|]. split; [done|].
  intros i j a b Hle Ha Hb.
  assert (Hj : j < n) by (by eapply lookup_lt_Some).
  assert (Hx : Matrix_inner a b = Some (gram fv i j)).
  { destruct (Hdims a b) as [Hr Hc]; [by eapply list_elem_of_lookup_2..|].
    unfold gram. rewrite Ha, Hb. simpl. unfold Matrix_inner, matrix_inner.
    by rewrite !bool_decide_eq_true_2 by done. }
  rewrite Hx. unfold Matrix_getindex, matrix_getelement. cbn [nrows ncols elements].
  rewrite !bool_decide_eq_true_2 by lia. cbn [andb].
  assert (Hin : (i, j) ∈ (seq 0 n ≫= fun i => pair i <$> seq i (n - i))).
  { apply elem_of_upper_pairs. simpl. lia. }
  split.
  - apply writes_lookup.
    + intros u Hu Hk. apply list_elem_of_bind in Hu as ([i' j'] & Hu & Hp).
      apply elem_of_upper_pairs in Hp. simpl in Hp. unfold gram_writes in Hu. simpl in Hu.
      apply elem_of_cons in Hu as [->|Hu]; simpl in *.
      * destruct (index_injective n i' j' i j) as [-> ->]; [lia|lia|lia|done].
      * apply list_elem_of_singleton in Hu as ->. simpl in *.
        destruct (index_injective n j' i' i j) as [-> ->]; [lia|lia|lia|].
        by replace j with i by lia.
    + right. exists (j * n + i, gram fv i j). split; [|done].
      apply list_elem_of_bind. exists (i, j). split; [|done]. by left.
    + rewrite length_replicate. nia.
  - apply writes_lookup.
    + intros u Hu Hk. apply list_elem_of_bind in Hu as ([i' j'] & Hu & Hp).
      apply elem_of_upper_pairs in Hp. simpl in Hp. unfold gram_writes in Hu. simpl in Hu.
      apply elem_of_cons in Hu as [->|Hu]; simpl in *.
      * destruct (index_injective n i' j' j i) as [-> ->]; [lia|lia|lia|].
        by replace j with i by lia.
      * apply list_elem_of_singleton in Hu as ->. simpl in *.
        destruct (index_injective n j' i' j i) as [-> ->]; [lia|lia|lia|done].
    + right. exists (i * n + j, gram fv i j). split; [|done].
      apply list_elem_of_bind. exists (i, j). split; [|done]. right. by left.
    + rewrite length_replicate. nia.
Qed.

End Gram.

(** *** Projection of the force on the local constraints *)

Section Rational.
Local Open Scope Q_scope.
Implicit Types f g m : objectmatrix Q.

Lemma column_length m i col :
  wf_matrix m -> matrix_getcolumn m i = Some col -> length col = nrows m.
Proof. intros Hwf Hcol. by eapply getcolumn_length. Qed.

Lemma Matrix_getcolumn_wf m i col :
  wf_matrix m -> matrix_getcolumn m i = Some col ->
  Matrix_getcolumn m i = Some {| nrows := nrows m; ncols := 1; elements := col |}.
Proof.
  intros Hwf Hcol. pose proof (column_length m i col Hwf Hcol) as Hlen.
  unfold Matrix_getcolumn. rewrite Hcol.
  assert (Hi : (i < ncols m)%nat).
  { unfold matrix_getcolumn in Hcol. by case_bool_decide. }
  rewrite bool_decide_eq_true_2 by done. simpl. f_equal.
  unfold object_matrixfromfloats. f_equal. simpl elements.
  apply dcopy_full; [lia|]. rewrite length_replicate. lia.
Qed.

Lemma Matrix_inner_column (nr : nat) (x y : list Q) :
  Matrix_inner {| nrows := nr; ncols := 1; elements := x |}
               {| nrows := nr; ncols := 1; elements := y |}
  = Some (cblas_ddot (1 * nr) x y).
Proof.
  unfold Matrix_inner, matrix_inner. cbn [nrows ncols elements].
  by rewrite !bool_decide_eq_true_2 by done.
Qed.

Lemma Matrix_acc_column (nr : nat) (lambda : Q) (x y : list Q) :
  Matrix_acc {| nrows := nr; ncols := 1; elements := x |} lambda
             {| nrows := nr; ncols := 1; elements := y |}
  = Some {| nrows := nr; ncols := 1;
            elements := zip_with (fun a b => radd a (rmul lambda b)) x y |}.
Proof.
  unfold Matrix_acc, matrix_accumulate. cbn [nrows ncols elements].
  by rewrite !bool_decide_eq_true_2 by done.
Qed.

(** The step of [sublocal] for one vertex. *)
Lemma sublocal_vertex_spec (ctol : Q) f g i fi gi :
  0 <= ctol -> wf_matrix f -> nrows f = nrows g ->
  matrix_getcolumn f i = Some fi -> matrix_getcolumn g i = Some gi ->
  wf_matrix g ->
  exists f' fi',
    sublocal_vertex ctol g (Some f) i = Some f'
    /\ nrows f' = nrows f /\ ncols f' = ncols f /\ wf_matrix f'
    /\ matrix_getcolumn f' i = Some fi'
    /\ (ctol < Qabs (dotQ gi gi) -> dotQ fi' gi == 0)
    /\ (Qabs (dotQ gi gi) <= ctol -> fi' = fi)
    /\ (forall k, k <> i -> matrix_getcolumn f' k = matrix_getcolumn f k).
Proof.
  intros Hctol Hwf Hr Hfi Hgi Hwfg.
  pose proof (column_length f i fi Hwf Hfi) as Hlf.
  pose proof (column_length g i gi Hwfg Hgi) as Hlg.
  assert (Hi : (i < ncols f)%nat).
  { unfold matrix_getcolumn in Hfi. by case_bool_decide. }
  unfold sublocal_vertex. bind_some.
  rewrite (Matrix_getcolumn_wf g i gi Hwfg Hgi). bind_some.
  rewrite Matrix_inner_column. bind_some.
  set (gg := cblas_ddot (1 * nrows g) gi gi).
  assert (Hgg : gg == dotQ gi gi) by (apply ddot_exact; lia).
  destruct (rltb ctol (rabs gg)) eqn:Etest.
  - apply Q_rltb_spec in Etest. cbn [rabs Q_Scalar] in Etest.
    rewrite (Matrix_getcolumn_wf f i fi Hwf Hfi). bind_some.
    rewrite Hr, Matrix_inner_column. bind_some.
    set (p := cblas_ddot (1 * nrows g) fi gi).
    assert (Hp : p == dotQ fi gi) by (apply ddot_exact; lia).
    rewrite Matrix_acc_column. bind_some.
    unfold Matrix_setcolumn. cbn [nrows ncols elements].
    rewrite bool_decide_eq_true_2 by done. rewrite bool_decide_eq_true_2 by lia.
    set (fc := zip_with (fun x y => radd x (rmul (ropp (rdiv p gg)) y)) fi gi).
    assert (Hlfc : length fc = nrows f) by (unfold fc; rewrite length_zip_with; lia).
    exists (snd (matrix_setcolumn f i fc)), fc.
    destruct (setcolumn_dims f i fc) as [Hr' Hc'].
    split; [done|]. split; [lia|]. split; [done|]. split; [by apply wf_setcolumn|].
    split; [by apply getcolumn_setcolumn_same|]. split; [|split].
    + intros _. unfold fc. rewrite dotQ_axpy by lia. cbn [ropp rdiv Q_Scalar].
      rewrite <- Hp, <- Hgg.
      assert (Hne : ~ gg == 0).
      { intros Hz. assert (Ha : Qabs gg == 0) by (rewrite Hz; reflexivity). lra. }
      field. exact Hne.
    + intros Hsmall. rewrite <- Hgg in Hsmall. lra.
    + intros k Hk. apply getcolumn_setcolumn_other; [done|lia].
  - apply Q_rltb_false in Etest. cbn [rabs Q_Scalar] in Etest.
    exists f, fi. repeat split; try done.
    intros Hbig. rewrite <- Hgg in Hbig. lra.
Qed.

Lemma sublocal_loop (ctol : Q) f0 g (n : nat) :
  0 <= ctol -> wf_matrix g -> nrows f0 = nrows g -> ncols f0 = ncols g ->
  forall (k : nat) f,
    (k + n <= ncols f0)%nat ->
    wf_matrix f -> nrows f = nrows f0 -> ncols f = ncols f0 ->
    (forall i, (k <= i)%nat -> matrix_getcolumn f i = matrix_getcolumn f0 i) ->
    exists f',
      foldl (sublocal_vertex ctol g) (Some f) (seq k n) = Some f'
      /\ wf_matrix f' /\ nrows f' = nrows f0 /\ ncols f' = ncols f0
      /\ (forall i, (i < k)%nat -> matrix_getcolumn f' i = matrix_getcolumn f i)
      /\ (forall i, (k + n <= i)%nat -> matrix_getcolumn f' i = matrix_getcolumn f0 i)
      /\ (forall i fi gi, (k <= i < k + n)%nat ->
            matrix_getcolumn f0 i = Some fi -> matrix_getcolumn g i = Some gi ->
            exists fi',
              matrix_getcolumn f' i = Some fi'
              /\ (ctol < Qabs (dotQ gi gi) -> dotQ fi' gi == 0)
              /\ (Qabs (dotQ gi gi) <= ctol -> fi' = fi)).
Proof.
  intros Hctol Hwfg Hr0 Hc0. induction n as [|n IH]; intros k f Hk Hwf Hr Hc Hrest.
  - exists f. simpl. repeat split; try done.
    + intros i Hi. apply Hrest. lia.
    + intros i fi gi Hi. lia.
  - cbn [seq foldl].
    destruct (getcolumn_is_Some f k) as [fk Hfk]; [lia|].
    destruct (getcolumn_is_Some g k) as [gk Hgk]; [lia|].
    destruct (sublocal_vertex_spec ctol f g k fk gk Hctol Hwf ltac:(lia) Hfk Hgk Hwfg)
      as (f1 & fk' & Hstep & Hr1 & Hc1 & Hwf1 & Hk1 & Horth & Hsame & Hother).
    rewrite Hstep.
    destruct (IH (Datatypes.S k) f1) as (f' & Hrun & Hwf' & Hr' & Hc' & Hlow & Hhigh & Hmid).
    { lia. } { done. } { lia. } { lia. }
    { intros i Hi. rewrite Hother by lia. apply Hrest. lia. }
    exists f'. split; [done|]. split; [done|]. split; [done|]. split; [done|]. split; [|split].
    + intros i Hi. rewrite Hlow by lia. apply Hother. lia.
    + intros i Hi. apply Hhigh. lia.
    + intros i fi gi Hi Hfi Hgi. destruct (decide (i = k)) as [->|Hne].
      * exists fk'. rewrite Hlow by lia. split; [done|].
        rewrite Hrest in Hfk by lia. rewrite Hfk in Hfi. rewrite Hgk in Hgi.
        injection Hfi as <-. injection Hgi as <-. done.
      * apply Hmid; [lia|done|done].
Qed.

(** [sublocal(f, g)] makes the force on every vertex orthogonal to the
    constraint gradient of that vertex when the gradient is not negligible
    (its squared length exceeds [ctol]), and leaves the force on the other
    vertices as it is. *)
Theorem sublocal_removes_gradient_component (ctol : Q) f g :
  0 <= ctol -> wf_matrix f -> wf_matrix g ->
  nrows f = nrows g -> ncols f = ncols g ->
  exists f',
    sublocal ctol f g = Some f'
    /\ nrows f' = nrows f /\ ncols f' = ncols f
    /\ forall i fi gi,
         matrix_getcolumn f i = Some fi -> matrix_getcolumn g i = Some gi ->
         exists fi',
           matrix_getcolumn f' i = Some fi'
           /\ (ctol < Qabs (dotQ gi gi) -> dotQ fi' gi == 0)
           /\ (Qabs (dotQ gi gi) <= ctol -> fi' = fi).
Proof.
  intros Hctol Hwf Hwfg Hr Hc.
  destruct (sublocal_loop ctol f g (ncols f) Hctol Hwfg Hr Hc 0%nat f)
    as (f' & Hrun & _ & Hr' & Hc' & _ & _ & Hmid); try done.
  exists f'. split; [done|]. split; [done|]. split; [done|].
  intros i fi gi Hfi Hgi. apply Hmid; [|done|done].
  unfold matrix_getcolumn in Hfi. case_bool_decide; [lia|done].
Qed.

End Rational.

(** The force (1,2), (3,4), (5,6) on three vertices and a constraint
    gradient that vanishes on the last vertex. *)
Definition example_gradient : objectmatrix Q :=
  {| nrows := 2; ncols := 3; elements := [1; 0; 1; 1; 0; 0]%Q |}.

Lemma sublocal_removes_gradient_component_witness :
  exists f',
    sublocal (1 # 10000000000) example_matrix example_gradient = Some f'
    /\ (exists c, matrix_getcolumn f' 1 = Some c /\ (dotQ c [1; 1] == 0)%Q)
    /\ matrix_getcolumn f' 2 = Some [5; 6]%Q.
Proof.
  destruct (sublocal_removes_gradient_component (1 # 10000000000)
              example_matrix example_gradient)
    as (f' & Hrun & _ & _ & Hcols); [discriminate|reflexivity|reflexivity|done|done|].
  exists f'. split; [exact Hrun|]. split.
  - destruct (Hcols 1%nat [3; 4]%Q [1; 1]%Q eq_refl eq_refl) as (c & Hc & Horth & _).
    exists c. split; [exact Hc|]. apply Horth. reflexivity.
  - destruct (Hcols 2%nat [5; 6]%Q [0; 0]%Q eq_refl eq_refl) as (c & Hc & _ & Hsame).
    rewrite Hc. f_equal. apply Hsame. discriminate.
Defined.

Lemma forceinnerproducts_gram_matrix_witness :
  exists m,
    forceinnerproducts [example_matrix; example_gradient] = Some m
    /\ Matrix_getindex m 0 1 = Some (8 : Q)%Q
    /\ Matrix_getindex m 1 0 = Some (8 : Q)%Q.
Proof.
  destruct (forceinnerproducts_gram_matrix [example_matrix; example_gradient])
    as (m & Hrun & _ & _ & Hsym).
  - intros a b Ha Hb. repeat (apply elem_of_cons in Ha as [->|Ha]);
      repeat (apply elem_of_cons in Hb as [->|Hb]);
      try done; by apply elem_of_nil in Ha || by apply elem_of_nil in Hb.
  - exists m. split; [exact Hrun|].
    destruct (Hsym 0 1 example_matrix example_gradient) as [H01 H10]; [lia|done|done|].
    rewrite H01, H10. split; reflexivity.
Defined.

Lemma fixgrad_zeroes_fixed_columns_witness :
  exists grad',
    fixgrad (Some [2; 0]) example_matrix = Some grad'
    /\ matrix_getcolumn grad' 2 = Some [0; 0]%Q
    /\ matrix_getcolumn grad' 1 = Some [3; 4]%Q
    /\ fixgrad (Some [2; 3]) example_matrix = None.
Proof.
  destruct (fixgrad_zeroes_fixed_columns [2; 0] example_matrix example_matrix_wf)
    as (_ & _ & Hok).
  destruct Hok as (g' & Hrun & _ & _ & Hzero & Hother).
  { intros i Hi. simpl.
    apply elem_of_cons in Hi as [->|Hi]; [lia|].
    apply list_elem_of_singleton in Hi as ->. lia. }
  destruct (fixgrad_zeroes_fixed_columns [2; 3] example_matrix example_matrix_wf)
    as (_ & Hbad & _).
  exists g'. split; [exact Hrun|]. split; [|split].
  - apply Hzero. by left.
  - rewrite Hother; [reflexivity|].
    intros Hin. apply elem_of_cons in Hin as [?|Hin]; [discriminate|].
    apply list_elem_of_singleton in Hin. discriminate.
  - apply Hbad. exists 3. split; [right; by left|simpl; lia].
Defined.

End OptimizeOpsProps.

(* ===================================================================== *)
(** ** The energy history and the bracket of the line search *)
(* ===================================================================== *)

Module OptimizeLoopProps.
Import Matrix MatrixProps Optimize OptimizeLoops OptimizeProps.

Section History.
Context {R : Type} `{Scalar R}.
Variable active : world R -> Optimizer R -> option (list (option selection)).
Variable rlocal rglobal cforce : world R -> Optimizer R -> option (objectmatrix R).





























End History.

Section Bracket.
Local Open Scope Q_scope.
Variable active : world Q -> Optimizer Q -> option (list (option selection)).
Variable rlocal rglobal : world Q -> Optimizer Q -> option (objectmatrix Q).

(** The trial step sizes are in order. *)
Definition ordered (b : brackets Q) : Prop := s0 b = 0 /\ 0 < s1 b /\ s1 b < s2 b.

Lemma bracket_pass_ordered b st b' st' :
  ordered b ->
  bracket_pass active rlocal rglobal b st = Some (Some b', st') -> ordered b'.
Proof.
  intros (H0 & H1 & H2). unfold bracket_pass.
  destruct (rltb (e2 b) (e1 b)); [|destruct (rltb (e0 b) (e1 b))].
  - intros Hrun. apply mbind_Some in Hrun as (e & st1 & _ & Hrun).
    injection Hrun as <- _. unfold ordered. simpl. split; [done|]. split; lra.
  - intros Hrun. apply mbind_Some in Hrun as (e & st1 & _ & Hrun).
    injection Hrun as <- _. unfold ordered. simpl.
    split; [done|]. unfold Qdiv. change (/ 2) with (1 # 2). split; lra.
  - done.
Qed.

Lemma bracket_loop_ordered fuel iter b st b' st' :
  ordered b ->
  bracket_loop active rlocal rglobal fuel iter b st = Some (Bracketed b', st') ->
  ordered b'.
Proof.
  revert iter b st. induction fuel as [|fuel IH]; intros iter b st Hord; simpl.
  - destruct (bracketed b); [by intros [= <- _]|done].
  - destruct (bracketed b); [by intros [= <- _]|].
    intros Hrun. apply mbind_Some in Hrun as (ob & st1 & Hpass & Hrun).
    destruct ob as [b1|]; [|done].
    case_bool_decide; [done|].
    eapply IH; [|exact Hrun]. by eapply bracket_pass_ordered.
Qed.

(** With a positive step size, the bracket [bracketstepsize] returns is a
    bracket: its step sizes are [0 < s1 < s2], and the energy recorded for
    [s1] is below the energies recorded for [0] and for [s2]. *)
Theorem bracketstepsize_ordered st b st' :
  0 < stepsize (snd st) ->
  bracketstepsize active rlocal rglobal st = Some (Some b, st') ->
  s0 b = 0 /\ 0 < s1 b /\ s1 b < s2 b /\ e1 b < e0 b /\ e1 b < e2 b.
Proof.
  intros Hpos Hrun. unfold bracketstepsize in Hrun.
  apply mbind_Some in Hrun as (b0 & st1 & Hstart & Hrun).
  assert (Hord : ordered b0).
  { unfold bracket_start in Hstart.
    apply mbind_Some in Hstart as (o & st2 & Hself & Hstart). injection Hself as <- <-.
    apply mbind_Some in Hstart as (ea & st3 & _ & Hstart).
    apply mbind_Some in Hstart as (eb & st4 & _ & Hstart).
    apply mbind_Some in Hstart as (ec & st5 & _ & Hstart).
    injection Hstart as <- _. unfold ordered. simpl. split; [done|]. split; lra. }
  apply mbind_Some in Hrun as (r & st2 & Hloop & Hrun).
  destruct r as [b'| |]; [|done|done]. injection Hrun as <- _.
  pose proof (bracket_loop_ordered _ _ _ _ _ _ Hord Hloop) as (H0 & H1 & H2).
  pose proof (bracket_loop_bracketed _ _ _ _ _ _ _ _ _ Hloop) as Hb.
  unfold bracketed in Hb. apply andb_true_iff in Hb as [Hb1 Hb2].
  apply Q_rltb_spec in Hb1, Hb2. done.
Qed.

End Bracket.



Lemma bracketstepsize_ordered_witness :
  exists b st',
    bracketstepsize no_active stay stay (line_state 1) = Some (Some b, st')
    /\ (0 < s1 b)%Q /\ (s1 b < s2 b)%Q /\ (e1 b < e0 b)%Q /\ (e1 b < e2 b)%Q.
Proof.
  destruct (bracketstepsize no_active stay stay (line_state 1)) as [[[b|] st']|] eqn:Hrun;
    [|vm_compute in Hrun; discriminate Hrun|vm_compute in Hrun; discriminate Hrun].
  exists b, st'. split; [reflexivity|].
  destruct (bracketstepsize_ordered no_active stay stay (line_state 1) b st')
    as (_ & H1 & H2 & H3 & H4); [reflexivity|exact Hrun|].
  split; [exact H1|]. split; [exact H2|]. split; [exact H3|exact H4].
Defined.

End OptimizeLoopProps.

(* ===================================================================== *)
(** ** The mesh refiner *)
(* ===================================================================== *)

Module RefineProps.
Import Refine.

Section Selections.

Lemma selection_select_spec sel g id g' id' :
  id' ∈ selected (selection_select sel g id) g'
  <-> id' ∈ selected sel g' \/ (g' = g /\ id' = id).
Proof.
  unfold selection_select. simpl. case_bool_decide; set_solver.
Qed.

Lemma refineselection_entry_spec sel g id entry result g' id' :
  id' ∈ selected (refineselection_entry sel g id entry result) g'
  <-> id' ∈ selected result g'
      \/ (g' = g /\ id' = id /\ exists old, entry = MapInt old /\ old ∈ selected sel g).
Proof.
  unfold refineselection_entry, selection_isselected. destruct entry as [old|olds].
  - case_bool_decide as Hsel.
    + rewrite selection_select_spec. naive_solver.
    + split; [by left|]. intros [?|(_ & _ & old' & [= <-] & ?)]; done.
  - split; [by left|]. intros [?|(_ & _ & old' & ? & _)]; done.
Qed.

Lemma refineselection_dict_spec sel g (dict : gmap nat mapentry) result g' id' :
  id' ∈ selected (map_fold (refineselection_entry sel g) result dict) g'
  <-> id' ∈ selected result g'
      \/ (g' = g /\ exists old, dict !! id' = Some (MapInt old) /\ old ∈ selected sel g).
Proof.
  apply (map_fold_weak_ind
           (fun r (m : gmap nat mapentry) =>
              id' ∈ selected r g'
              <-> id' ∈ selected result g'
                  \/ (g' = g /\ exists old, m !! id' = Some (MapInt old)
                                         /\ old ∈ selected sel g))).
  - split; [by left|]. intros [?|(_ & old & Hl & _)]; [done|].
    by rewrite lookup_empty in Hl.
  - intros id entry m r Hnone IH. rewrite refineselection_entry_spec, IH.
    split.
    + intros [[?|(-> & old & Hl & Hs)]|(-> & -> & old & -> & Hs)].
      * by left.
      * right. split; [done|]. exists old. split; [|done].
        rewrite lookup_insert_ne; [done|]. intros ->. by rewrite Hnone in Hl.
      * right. split; [done|]. exists old. by rewrite lookup_insert_eq.
    + intros [?|(-> & old & Hl & Hs)]; [by left; left|].
      destruct (decide (id = id')) as [->|Hne].
      * rewrite lookup_insert_eq in Hl. injection Hl as ->.
        right. split; [done|]. split; [done|]. by exists old.
      * rewrite lookup_insert_ne in Hl by done. left. right. split; [done|]. by exists old.
Qed.

Lemma refineselection_grades_spec rm sel gs r0 result g id :
  foldl (refineselection_grade rm sel) (Some r0) gs = Some result ->
  id ∈ selected result g
  <-> id ∈ selected r0 g
      \/ (g ∈ gs /\ exists dict old, rm !! g = Some dict
                                    /\ dict !! id = Some (MapInt old)
                                    /\ old ∈ selected sel g).
Proof.
  revert r0. induction gs as [|g0 gs IH]; intros r0; simpl.
  - intros [= <-]. split; [by left|]. intros [?|[Hin _]]; [done|]. by apply elem_of_nil in Hin.
  - destruct (rm !! g0) as [dict|] eqn:Ed; simpl.
    2:{ intros Hrun. exfalso. clear -Hrun. induction gs as [|g1 gs IHgs]; [done|]. by apply IHgs. }
    case_bool_decide as Hcount.
    + intros Hrun. rewrite (IH _ Hrun). split.
      * intros [?|(Hin & Hex)]; [by left|]. right. split; [by right|done].
      * intros [?|(Hin & dict' & old & Hd & Hl & Hs)]; [by left|].
        apply elem_of_cons in Hin as [->|Hin]; [|right; eauto 10].
        exfalso. unfold selection_count in Hcount. apply size_empty_inv in Hcount.
        set_solver.
    + intros Hrun. rewrite (IH _ Hrun), refineselection_dict_spec. split.
      * intros [[?|(-> & old & Hl & Hs)]|(Hin & Hex)].
        -- by left.
        -- right. split; [by left|]. eauto.
        -- right. split; [by right|done].
      * intros [?|(Hin & dict' & old & Hd & Hl & Hs)]; [by left; left|].
        apply elem_of_cons in Hin as [->|Hin]; [|right; eauto 10].
        left. right. split; [done|]. rewrite Ed in Hd. injection Hd as <-. eauto.
Qed.

(** Whatever [refineselection] selects is the copy of a selected element. *)
Lemma refineselection_selected_inv (mr : MeshRefiner) (rm : list (gmap nat mapentry))
    (sel result : Selection) :
  refinemap mr = Some rm ->
  refineselection mr sel = Some (Some result) ->
  forall g id,
    id ∈ selected result g ->
    exists dict old, rm !! g = Some dict /\ dict !! id = Some (MapInt old)
                     /\ old ∈ selected sel g.
Proof.
  intros Hrm. unfold refineselection. rewrite Hrm.
  destruct (foldl _ _ _) as [r|] eqn:Hrun; simpl; [|done].
  intros [= <-] g id. rewrite (refineselection_grades_spec _ _ _ _ _ g id Hrun).
  intros [Hempty|(_ & Hex)]; [by apply not_elem_of_empty in Hempty|done].
Qed.

(** C4, as amended.  [refineselection(sel)] selects a new element exactly
    when the refinement map gives it a single old id (an integer entry) and
    that old element is selected in [sel]; a new element whose entry is a
    list of parents (a midpoint vertex) is never selected. *)
Theorem refineselection_selects_copies (mr : MeshRefiner) (rm : list (gmap nat mapentry))
    (sel result : Selection) :
  refinemap mr = Some rm ->
  refineselection mr sel = Some (Some result) ->
  forall g id,
    id ∈ selected result g
    <-> g <= new_maxgrade mr
        /\ exists dict old, rm !! g = Some dict
                            /\ dict !! id = Some (MapInt old)
                            /\ old ∈ selected sel g.
Proof.
  intros Hrm. unfold refineselection. rewrite Hrm.
  destruct (foldl _ _ _) as [r|] eqn:Hrun; simpl; [|done].
  intros [= <-] g id. rewrite (refineselection_grades_spec _ _ _ _ _ g id Hrun).
  rewrite elem_of_seq. split.
  - intros [Hempty|(Hin & Hex)]; [by apply not_elem_of_empty in Hempty|]. split; [lia|done].
  - intros (Hle & Hex). right. split; [lia|done].
Qed.

(** [refineselection] returns a selection whenever the refinement map has a
    dictionary for every grade of the new mesh. *)
Lemma refineselection_returns (mr : MeshRefiner) (rm : list (gmap nat mapentry))
    (sel : Selection) :
  refinemap mr = Some rm -> new_maxgrade mr < length rm ->
  exists result, refineselection mr sel = Some (Some result).
Proof.
  intros Hrm Hlen. unfold refineselection. rewrite Hrm.
  assert (Hfold : forall gs r0, (forall g, g ∈ gs -> g < length rm) ->
            exists r, foldl (refineselection_grade rm sel) (Some r0) gs = Some r).
  { induction gs as [|g gs IH]; intros r0 Hgs; simpl; [by eexists|].
    destruct (lookup_lt_is_Some_2 rm g) as [dict ->]; [apply Hgs; by left|]. simpl.
    case_bool_decide; apply IH; intros g' Hg'; apply Hgs; by right. }
  destruct (Hfold (seq 0 (Datatypes.S (new_maxgrade mr))) selection_new) as [r ->].
  { intros g Hg. apply elem_of_seq in Hg. lia. }
  by eexists.
Qed.

(** The old elements an entry of the refinement map names. *)
Definition parents (entry : mapentry) : list nat :=
  match entry with
  | MapInt old => [old]
  | MapList olds => olds
  end.

(** C4, as stated: a new element is selected if and only if all its
    parents are. *)
Definition selected_iff_all_parents (mr : MeshRefiner) (sel : Selection) : Prop :=
  forall rm result,
    refinemap mr = Some rm ->
    refineselection mr sel = Some (Some result) ->
    forall g dict id entry,
      g <= new_maxgrade mr ->
      rm !! g = Some dict -> dict !! id = Some entry ->
      (id ∈ selected result g <-> forall old, old ∈ parents entry -> old ∈ selected sel g).

End Selections.

Section Fields.
Context {R : Type} `{Scalar R}.
Implicit Types (f r : Field R) (v : item R).

Lemma field_setitem_spec f g id k v f' :
  field_setitem f g id k v = Some f' ->
  fshape f' = fshape f /\ fcount f' = fcount f
  /\ id < fcount f g /\ k < default 0 (fshape f !! g)
  /\ fitems f' g id k = v
  /\ forall g' id' k', (g', id', k') <> (g, id, k) ->
       fitems f' g' id' k' = fitems f g' id' k'.
Proof.
  unfold field_setitem.
  destruct (bool_decide (id < fcount f g)) eqn:E1; [|done].
  destruct (bool_decide (k < default 0 (fshape f !! g))) eqn:E2; [|done].
  apply bool_decide_eq_true in E1. apply bool_decide_eq_true in E2.
  simpl. intros [= <-]. simpl. repeat split; try done.
  - by rewrite bool_decide_eq_true_2.
  - intros g' id' k' Hne. rewrite bool_decide_eq_false_2; [done|].
    intros (-> & -> & ->). done.
Qed.

Lemma field_getitem_Some f g id k v :
  field_getitem f g id k = Some v <->
  id < fcount f g /\ k < default 0 (fshape f !! g) /\ v = fitems f g id k.
Proof.
  unfold field_getitem.
  destruct (bool_decide (id < fcount f g)) eqn:E1;
    destruct (bool_decide (k < default 0 (fshape f !! g))) eqn:E2; simpl;
    try apply bool_decide_eq_true in E1; try apply bool_decide_eq_false in E1;
    try apply bool_decide_eq_true in E2; try apply bool_decide_eq_false in E2;
    naive_solver.
Qed.

(** The value [refinefield] computes for one entry of the map, if any:
    the item of the single parent, or the sum of the items of the parents
    divided by their number; nothing for an empty list. *)
Definition entry_value (field : Field R) (prototype : item R) (g : nat)
    (entry : mapentry) : option (option (item R)) :=
  match entry with
  | MapList olds =>
      if bool_decide (length olds = 0) then Some None
      else
        sum ← sum_parents field g olds
                (if isfloat prototype then Some (FloatItem rzero) else None);
        sum ← sum;
        sum ← item_div sum (length olds);
        Some (Some sum)
  | MapInt old =>
      x ← field_getindex field g old; Some (Some x)
  end.

Lemma refinefield_entry_value field prototype g r kv :
  refinefield_entry field prototype g (Some r) kv
  = ov ← entry_value field prototype g (snd kv);
    match ov with
    | Some v => field_setindex r g (fst kv) v
    | None => Some r
    end.
Proof.
  unfold refinefield_entry, entry_value. simpl. destruct (snd kv) as [old|olds].
  - by destruct (field_getindex field g old).
  - case_bool_decide; [done|].
    destruct (sum_parents _ _ _ _) as [[sum|]|]; [|done|done]. simpl.
    by destruct (item_div sum (length olds)).
Qed.

Lemma foldl_entry_None field prototype g l :
  foldl (refinefield_entry field prototype g) None l = None.
Proof. induction l as [|kv l IH]; [done|]. simpl. exact IH. Qed.

(** The items a loop over a dictionary writes. *)
Lemma refinefield_entries_spec field prototype g l r0 r :
  foldl (refinefield_entry field prototype g) (Some r0) l = Some r ->
  fshape r = fshape r0 /\ fcount r = fcount r0
  /\ (forall g' id' k', g' <> g \/ k' <> 0 \/ id' ∉ l.*1 ->
        fitems r g' id' k' = fitems r0 g' id' k')
  /\ (NoDup l.*1 -> forall id entry, (id, entry) ∈ l ->
        exists ov, entry_value field prototype g entry = Some ov
          /\ match ov with
             | Some v => field_getindex r g id = Some v
             | None => fitems r g id 0 = fitems r0 g id 0
             end).
Proof.
  revert r0. induction l as [|[id0 e0] l IH]; intros r0; cbn [foldl].
  - intros [= <-]. repeat split; try done. intros _ id entry Hin.
    by apply elem_of_nil in Hin.
  - rewrite refinefield_entry_value. simpl.
    destruct (entry_value field prototype g e0) as [ov|] eqn:Ev; simpl.
    2:{ by rewrite foldl_entry_None. }
    destruct (match ov with Some v => field_setindex r0 g id0 v | None => Some r0 end)
      as [r1|] eqn:Hr1.
    2:{ by rewrite foldl_entry_None. }
    intros Hrun. destruct (IH _ Hrun) as (Hs & Hc & Hother & Hentries).
    assert (H1 : fshape r1 = fshape r0 /\ fcount r1 = fcount r0
                 /\ (forall g' id' k', (g', id', k') <> (g, id0, 0) ->
                       fitems r1 g' id' k' = fitems r0 g' id' k')
                 /\ match ov with
                    | Some v => id0 < fcount r0 g /\ 0 < default 0 (fshape r0 !! g)
                                /\ fitems r1 g id0 0 = v
                    | None => r1 = r0
                    end).
    { destruct ov as [v|].
      - apply field_setitem_spec in Hr1 as (? & ? & ? & ? & ? & ?). done.
      - by injection Hr1 as <-. }
    destruct H1 as (Hs1 & Hc1 & Hother1 & Hov).
    split; [by rewrite Hs|]. split; [by rewrite Hc|]. split.
    + intros g' id' k' Hcase. rewrite Hother.
      * apply Hother1. intros [= -> -> ->].
        destruct Hcase as [?|[?|Hnin]]; [done|done|]. apply Hnin. by left.
      * destruct Hcase as [?|[?|Hnin]]; [by left|by right; left|].
        right; right. intros Hin. apply Hnin. by right.
    + intros Hnd id entry Hin. apply NoDup_cons in Hnd as [Hid0 Hnd].
      apply elem_of_cons in Hin as [[= -> ->]|Hin].
      * exists ov. split; [done|]. destruct ov as [v|].
        -- destruct Hov as (Hlt & Hk & Hv).
           apply field_getitem_Some. rewrite Hc, Hs, Hc1, Hs1.
           split; [done|]. split; [done|]. rewrite Hother by (right; right; done).
           done.
        -- subst r1. apply Hother. by right; right.
      * destruct (Hentries Hnd id entry Hin) as (ov' & Hev & Hres).
        exists ov'. split; [done|]. destruct ov' as [v|]; [done|].
        rewrite Hres. apply Hother1. intros [= ->]. apply Hid0.
        apply list_elem_of_fmap. by exists (id0, entry).
Qed.

(** A property of items that holds of the items of the start and of every
    value that is written holds of the items of the result. *)
Lemma refinefield_entries_preserve (P : item R -> Prop) field prototype g l r0 r :
  foldl (refinefield_entry field prototype g) (Some r0) l = Some r ->
  (forall g' id' k', P (fitems r0 g' id' k')) ->
  (forall entry v, entry ∈ l.*2 -> entry_value field prototype g entry = Some (Some v) -> P v) ->
  forall g' id' k', P (fitems r g' id' k').
Proof.
  revert r0. induction l as [|[id0 e0] l IH]; intros r0; cbn [foldl].
  - by intros [= <-].
  - rewrite refinefield_entry_value. simpl.
    destruct (entry_value field prototype g e0) as [ov|] eqn:Ev; simpl.
    2:{ by rewrite foldl_entry_None. }
    destruct ov as [v|].
    + destruct (field_setindex r0 g id0 v) as [r1|] eqn:Hr1.
      2:{ by rewrite foldl_entry_None. }
      intros Hrun H0 Hv. apply (IH _ Hrun).
      * intros g' id' k'.
        apply field_setitem_spec in Hr1 as (_ & _ & _ & _ & Hsame & Hother).
        destruct (decide ((g', id', k') = (g, id0, 0))) as [[= -> -> ->]|Hne].
        -- rewrite Hsame. apply (Hv e0); [by left|done].
        -- rewrite Hother by done. apply H0.
      * intros entry v' Hin. apply Hv. by right.
    + intros Hrun H0 Hv. apply (IH _ Hrun); [done|].
      intros entry v' Hin. apply Hv. by right.
Qed.

Lemma foldl_grade_None rm field prototype gs :
  foldl (refinefield_grade rm field prototype) None gs = None.
Proof. induction gs as [|g gs IH]; [done|]. simpl. exact IH. Qed.

Lemma refinefield_grade_eq rm field prototype r0 g :
  refinefield_grade rm field prototype (Some r0) g
  = if bool_decide (default 0 (fshape field !! g) = 0) then Some r0
    else dict ← rm !! g;
         foldl (refinefield_entry field prototype g) (Some r0) (map_to_list dict).
Proof. done. Qed.

(** The loop over the grades. *)
Lemma refinefield_grades_spec rm field prototype gs r0 r :
  NoDup gs ->
  foldl (refinefield_grade rm field prototype) (Some r0) gs = Some r ->
  fshape r = fshape r0 /\ fcount r = fcount r0
  /\ (forall g id k,
        g ∉ gs \/ k <> 0 \/ default 0 (fshape field !! g) = 0
        \/ (exists dict, rm !! g = Some dict /\ dict !! id = None) ->
        fitems r g id k = fitems r0 g id k)
  /\ (forall g dict id entry,
        g ∈ gs -> default 0 (fshape field !! g) <> 0 ->
        rm !! g = Some dict -> dict !! id = Some entry ->
        exists ov, entry_value field prototype g entry = Some ov
          /\ match ov with
             | Some v => field_getindex r g id = Some v
             | None => fitems r g id 0 = fitems r0 g id 0
             end).
Proof.
  intros Hnd. revert r0. induction gs as [|g0 gs IH]; intros r0; cbn [foldl].
  - intros [= <-]. repeat split; try done. intros g dict id entry Hin.
    by apply elem_of_nil in Hin.
  - apply NoDup_cons in Hnd as [Hg0 Hnd]. specialize (IH Hnd).
    rewrite refinefield_grade_eq. case_bool_decide as Hshape.
    + intros Hrun. destruct (IH _ Hrun) as (Hs & Hc & Hother & Hentries).
      split; [done|]. split; [done|]. split.
      * intros g id k Hcase. apply Hother.
        destruct Hcase as [Hnin|[?|[?|?]]]; [|by right; left|by right; right; left|by right; right; right].
        left. intros Hin. apply Hnin. by right.
      * intros g dict id entry Hin Hsh Hd Hl.
        apply elem_of_cons in Hin as [->|Hin]; [done|]. by eapply Hentries.
    + destruct (rm !! g0) as [dict0|] eqn:Ed0; simpl.
      2:{ by rewrite foldl_grade_None. }
      destruct (foldl (refinefield_entry field prototype g0) (Some r0) (map_to_list dict0))
        as [r1|] eqn:Hr1.
      2:{ by rewrite foldl_grade_None. }
      intros Hrun. destruct (IH _ Hrun) as (Hs & Hc & Hother & Hentries).
      destruct (refinefield_entries_spec _ _ _ _ _ _ Hr1) as (Hs1 & Hc1 & Hother1 & Hentries1).
      split; [by rewrite Hs|]. split; [by rewrite Hc|]. split.
      * intros g id k Hcase.
        destruct (decide (g = g0)) as [->|Hne].
        -- rewrite Hother by (by left). apply Hother1.
           destruct Hcase as [Hnin|[?|[?|(dict & Hd & Hl)]]];
             [exfalso; apply Hnin; by left|by right; left|done|].
           right; right. rewrite Ed0 in Hd. injection Hd as <-.
           intros Hin. apply list_elem_of_fmap in Hin as ([id' e] & -> & Hin).
           apply elem_of_map_to_list in Hin. simpl in Hl. congruence.
        -- rewrite Hother.
           ++ apply Hother1. by left.
           ++ destruct Hcase as [Hnin|[?|[?|?]]];
                [|by right; left|by right; right; left|by right; right; right].
              left. intros Hin. apply Hnin. by right.
      * intros g dict id entry Hin Hsh Hd Hl.
        apply elem_of_cons in Hin as [->|Hin].
        -- rewrite Ed0 in Hd. injection Hd as <-.
           destruct (Hentries1 (NoDup_fst_map_to_list _) id entry) as (ov & Hev & Hres).
           { by apply elem_of_map_to_list. }
           exists ov. split; [done|]. destruct ov as [v|].
           ++ apply field_getitem_Some. apply field_getitem_Some in Hres as (? & ? & ?).
              rewrite Hc, Hs. split; [done|]. split; [done|].
              rewrite Hother by (by left). done.
           ++ rewrite Hother by (by left). done.
        -- destruct (Hentries g dict id entry Hin Hsh Hd Hl) as (ov & Hev & Hres).
           exists ov. split; [done|]. destruct ov as [v|]; [done|].
           rewrite Hres. apply Hother1. left. intros ->. done.
Qed.

Lemma refinefield_grades_preserve (P : item R -> Prop) rm field prototype gs r0 r :
  foldl (refinefield_grade rm field prototype) (Some r0) gs = Some r ->
  (forall g id k, P (fitems r0 g id k)) ->
  (forall g entry v, entry_value field prototype g entry = Some (Some v) -> P v) ->
  forall g id k, P (fitems r g id k).
Proof.
  revert r0. induction gs as [|g0 gs IH]; intros r0; cbn [foldl].
  - by intros [= <-].
  - rewrite refinefield_grade_eq. case_bool_decide as Hshape.
    + intros Hrun H0 Hv. by apply (IH _ Hrun).
    + destruct (rm !! g0) as [dict0|] eqn:Ed0; simpl.
      2:{ by rewrite foldl_grade_None. }
      destruct (foldl (refinefield_entry field prototype g0) (Some r0) (map_to_list dict0))
        as [r1|] eqn:Hr1.
      2:{ by rewrite foldl_grade_None. }
      intros Hrun H0 Hv. apply (IH _ Hrun); [|done].
      apply (refinefield_entries_preserve P _ _ _ _ _ _ Hr1); [done|].
      intros entry v _. apply Hv.
Qed.

End Fields.

(** *** Field refinement over the rationals *)

Section FieldsQ.
Local Open Scope Q_scope.

(** Equality of items up to equality of rationals. *)
Definition item_equiv (a b : item Q) : Prop :=
  match a, b with
  | FloatItem x, FloatItem y => x == y
  | MatrixItem xs, MatrixItem ys => Forall2 Qeq xs ys
  | _, _ => False
  end.

(** Every item of a field equals [c]. *)
Definition constant_field (f : Field Q) (c : item Q) : Prop :=
  forall g id k v, field_getitem f g id k = Some v -> item_equiv v c.

Definition nat_Q (n : nat) : Q := inject_Z (Z.of_nat n).

Definition item_scale (k : nat) (c : item Q) : item Q :=
  match c with
  | FloatItem x => FloatItem (nat_Q k * x)
  | MatrixItem xs => MatrixItem (Qmult (nat_Q k) <$> xs)
  end.

Lemma nat_Q_succ k : nat_Q (Datatypes.S k) == nat_Q k + 1.
Proof.
  unfold nat_Q. rewrite Nat2Z.inj_succ. unfold Z.succ. by rewrite inject_Z_plus.
Qed.

Lemma nat_Q_nonzero n : n <> 0%nat -> ~ nat_Q n == 0.
Proof.
  intros Hn Heq. unfold nat_Q, Qeq in Heq. simpl in Heq. lia.
Qed.

Lemma scale_add_list k (s x cs : list Q) :
  Forall2 Qeq s (Qmult (nat_Q k) <$> cs) -> Forall2 Qeq x cs ->
  length s = length x
  /\ Forall2 Qeq (zip_with Qplus s x) (Qmult (nat_Q (Datatypes.S k)) <$> cs).
Proof.
  revert s x. induction cs as [|c cs IH]; intros s x Hs Hx.
  - inversion Hs; inversion Hx; subst. split; [done|constructor].
  - inversion Hs as [|s0 ? s' ? Hs0 Hs']; inversion Hx as [|x0 ? x' ? Hx0 Hx']; subst.
    destruct (IH _ _ Hs' Hx') as [Hlen Hrest]. split; [simpl; lia|].
    simpl. constructor; [|done]. rewrite Hs0, Hx0, nat_Q_succ. ring.
Qed.

Lemma scale_div_list n (s cs : list Q) :
  n <> 0%nat -> Forall2 Qeq s (Qmult (nat_Q n) <$> cs) ->
  Forall2 Qeq ((fun x => 1 / nat_Q n * x) <$> s) cs.
Proof.
  intros Hn. revert s. induction cs as [|c cs IH]; intros s Hs.
  - inversion Hs; subst. constructor.
  - inversion Hs as [|s0 ? s' ? Hs0 Hs']; subst. simpl. constructor; [|by apply IH].
    rewrite Hs0. field. by apply nat_Q_nonzero.
Qed.

Lemma item_add_scale k (s x c : item Q) :
  item_equiv s (item_scale k c) -> item_equiv x c ->
  exists s', item_add s x = Some s' /\ item_equiv s' (item_scale (Datatypes.S k) c).
Proof.
  destruct s as [s|s], x as [x|x], c as [c|c]; simpl; try done.
  - intros Hs Hx. eexists. split; [done|]. simpl. rewrite Hs, Hx, nat_Q_succ. ring.
  - intros Hs Hx. destruct (scale_add_list _ _ _ _ Hs Hx) as [Hlen Hsum].
    rewrite bool_decide_eq_true_2 by done. eexists. split; [done|]. exact Hsum.
Qed.

Lemma item_div_scale n (s c : item Q) :
  n <> 0%nat -> item_equiv s (item_scale n c) ->
  exists v, item_div s n = Some v /\ item_equiv v c.
Proof.
  intros Hn. destruct s as [s|s], c as [c|c]; simpl; try done.
  - intros Hs. eexists. split; [done|]. simpl. rewrite Hs.
    fold (nat_Q n). field. by apply nat_Q_nonzero.
  - intros Hs. rewrite bool_decide_eq_false_2 by done.
    eexists. split; [done|]. simpl. by apply scale_div_list.
Qed.

Lemma item_scale_one c : item_equiv c (item_scale 1 c).
Proof.
  destruct c as [c|cs]; simpl.
  - unfold nat_Q. simpl. ring.
  - induction cs as [|c cs IH]; simpl; constructor; [|done]. unfold nat_Q. simpl. ring.
Qed.

Lemma item_equiv_trans (a b c : item Q) :
  item_equiv a b -> item_equiv b c -> item_equiv a c.
Proof.
  destruct a as [a|a], b as [b|b], c as [c|c]; simpl; try done.
  - intros -> ->. reflexivity.
  - intros Hab. revert c. induction Hab as [|x y xs ys Hxy Hab IH]; intros c Hbc.
    + inversion Hbc. constructor.
    + inversion Hbc; subst. constructor; [by etransitivity|by apply IH].
Qed.

(** The sum of the items of the parents of a constant field. *)
Lemma sum_parents_constant field g c olds k s sum :
  constant_field field c ->
  item_equiv s (item_scale k c) ->
  sum_parents field g olds (Some s) = Some (Some sum) ->
  item_equiv sum (item_scale (k + length olds) c).
Proof.
  intros Hconst. revert k s. induction olds as [|old olds IH]; intros k s Hs; simpl.
  - intros [= <-]. by rewrite Nat.add_0_r.
  - destruct (field_getindex field g old) as [x|] eqn:Ex; simpl; [|done].
    destruct (item_add_scale k s x c Hs (Hconst _ _ _ _ Ex)) as (s' & -> & Hs').
    simpl. intros Hrun. replace (k + Datatypes.S (length olds))%nat
      with (Datatypes.S k + length olds)%nat by lia.
    by eapply IH.
Qed.

Lemma entry_value_constant field prototype g c entry v :
  constant_field field c -> item_equiv prototype c ->
  entry_value field prototype g entry = Some (Some v) ->
  item_equiv v c.
Proof.
  intros Hconst Hproto. unfold entry_value. destruct entry as [old|olds].
  - destruct (field_getindex field g old) as [x|] eqn:Ex; simpl; [|done].
    intros [= <-]. by eapply Hconst.
  - case_bool_decide as Hlen; [done|].
    destruct (sum_parents _ _ _ _) as [[sum|]|] eqn:Es; simpl; [|done|done].
    assert (Hsum : item_equiv sum (item_scale (length olds) c)).
    { destruct prototype as [p|p], c as [c|c]; simpl in Hproto; try done; simpl in Es.
      + change (length olds) with (0 + length olds)%nat.
        eapply (sum_parents_constant _ _ _ _ 0); [done| |exact Es].
        simpl. unfold nat_Q. simpl. ring.
      + destruct olds as [|old olds]; [done|]. simpl in Es.
        destruct (field_getindex field g old) as [x|] eqn:Ex; simpl in Es; [|done].
        change (length (old :: olds)) with (1 + length olds)%nat.
        eapply sum_parents_constant; [done| |exact Es].
        eapply item_equiv_trans; [by eapply Hconst|]. apply item_scale_one. }
    destruct (item_div_scale _ _ _ Hlen Hsum) as (v' & -> & Hv'). simpl.
    by intros [= <-].
Qed.

Lemma enumerate0_getitem (f : Field Q) p :
  field_enumerate0 f = Some p -> exists g, field_getitem f g 0 0 = Some p.
Proof.
  unfold field_enumerate0.
  destruct (list_find _ _) as [[i g]|] eqn:Ef; simpl; [|done].
  intros [= <-]. apply list_find_Some in Ef as (_ & (Hs & Hc) & _).
  exists g. apply field_getitem_Some. done.
Qed.

(** The sum of the numbers read from the parents. *)
Lemma sum_parents_floats field g olds xs a :
  Forall2 (fun old x => field_getindex field g old = Some (FloatItem x)) olds xs ->
  sum_parents field g olds (Some (FloatItem a)) = Some (Some (FloatItem (foldl Qplus a xs))).
Proof.
  intros Hf. revert a. induction Hf as [|old x olds xs Hread Hf IH]; intros a; simpl; [done|].
  rewrite Hread. simpl. apply IH.
Qed.

(** What [refinefield] does to the item that [f[g, id]] addresses, the
    first item of an element.  For every new element listed in the
    refinement map it is the first item of its single parent, unchanged, or
    the sum of the first items of its parents divided by their number (their
    mean, for numbers); every other item of the new field holds the
    prototype, the first item of the old field.  In exact arithmetic the
    refinement of a constant field is constant with the same value. *)
Lemma refinefield_means (mr : MeshRefiner) (rm : list (gmap nat mapentry))
    (field result : Field Q) (prototype : item Q) :
  refinemap mr = Some rm ->
  field_enumerate0 field = Some prototype ->
  refinefield mr field = Some (Some result) ->
  (forall g dict id old,
     (g < length (fshape field))%nat -> default 0%nat (fshape field !! g) <> 0%nat ->
     rm !! g = Some dict -> dict !! id = Some (MapInt old) ->
     exists x, field_getindex field g old = Some x /\ field_getindex result g id = Some x)
  /\ (forall g dict id olds,
        (g < length (fshape field))%nat -> default 0%nat (fshape field !! g) <> 0%nat ->
        rm !! g = Some dict -> dict !! id = Some (MapList olds) -> olds <> [] ->
        exists sum v,
          sum_parents field g olds
            (if isfloat prototype then Some (FloatItem 0) else None) = Some (Some sum)
          /\ item_div sum (length olds) = Some v
          /\ field_getindex result g id = Some v)
  /\ (forall g dict id olds xs p,
        (g < length (fshape field))%nat -> default 0%nat (fshape field !! g) <> 0%nat ->
        rm !! g = Some dict -> dict !! id = Some (MapList olds) -> olds <> [] ->
        prototype = FloatItem p ->
        Forall2 (fun old x => field_getindex field g old = Some (FloatItem x)) olds xs ->
        field_getindex result g id
        = Some (FloatItem (foldl Qplus 0 xs / nat_Q (length olds))))
  /\ (forall g id k,
        k <> 0%nat \/ (exists dict, rm !! g = Some dict /\ dict !! id = None) ->
        fitems result g id k = prototype)
  /\ (forall c, constant_field field c -> constant_field result c).
Proof.
  intros Hrm Hproto. unfold refinefield. rewrite Hrm, Hproto.
  destruct (foldl _ _ _) as [r|] eqn:Hrun; simpl; [|done].
  intros [= <-].
  destruct (refinefield_grades_spec _ _ _ _ _ _ (NoDup_seq _ _) Hrun)
    as (Hs & Hc & Hother & Hentries).
  assert (Hmeans : forall g dict id olds,
            (g < length (fshape field))%nat -> default 0%nat (fshape field !! g) <> 0%nat ->
            rm !! g = Some dict -> dict !! id = Some (MapList olds) -> olds <> [] ->
            exists sum v,
              sum_parents field g olds
                (if isfloat prototype then Some (FloatItem 0) else None) = Some (Some sum)
              /\ item_div sum (length olds) = Some v
              /\ field_getindex r g id = Some v).
  { intros g dict id olds Hg Hsh Hd Hl Hne.
    destruct (Hentries g dict id _ ltac:(apply elem_of_seq; lia) Hsh Hd Hl) as (ov & Hev & Hres).
    unfold entry_value in Hev. rewrite bool_decide_eq_false_2 in Hev.
    2:{ destruct olds; [done|simpl; lia]. }
    destruct (sum_parents _ _ _ _) as [[sum|]|]; simpl in Hev; [|done|done].
    destruct (item_div sum (length olds)) as [v|] eqn:Ediv; simpl in Hev; [|done].
    injection Hev as <-. by exists sum, v. }
  repeat match goal with |- _ /\ _ => split end.
  - intros g dict id old Hg Hsh Hd Hl.
    destruct (Hentries g dict id _ ltac:(apply elem_of_seq; lia) Hsh Hd Hl) as (ov & Hev & Hres).
    simpl in Hev. destruct (field_getindex field g old) as [x|]; simpl in Hev; [|done].
    injection Hev as <-. by exists x.
  - exact Hmeans.
  - intros g dict id olds xs p Hg Hsh Hd Hl Hne -> Hreads.
    destruct (Hmeans g dict id olds Hg Hsh Hd Hl Hne) as (sum & v & Hsum & Hdiv & Hres).
    simpl in Hsum. rewrite (sum_parents_floats _ _ _ _ _ Hreads) in Hsum.
    injection Hsum as <-. simpl in Hdiv. injection Hdiv as <-. exact Hres.
  - intros g id k Hcase. rewrite Hother; [done|].
    destruct Hcase as [?|?]; [by right; left|by right; right; right].
  - intros c Hconst g id k v Hget. apply field_getitem_Some in Hget as (_ & _ & ->).
    destruct (enumerate0_getitem _ _ Hproto) as [g0 Hg0].
    apply (refinefield_grades_preserve (fun v => item_equiv v c) _ _ _ _ _ _ Hrun).
    + intros g' id' k'. simpl. by eapply Hconst.
    + intros g' entry v. apply entry_value_constant; [done|]. by eapply Hconst.
Qed.

(** The refined field takes over the values of the parents of every new
    element: in particular a new element with a single parent has all the
    items of that parent. *)
Definition copies_all_items (mr : MeshRefiner) (field : Field Q) : Prop :=
  forall rm result,
    refinemap mr = Some rm ->
    refinefield mr field = Some (Some result) ->
    forall g dict id old k,
      rm !! g = Some dict -> dict !! id = Some (MapInt old) ->
      (k < default 0 (fshape field !! g))%nat ->
      field_getitem result g id k = field_getitem field g old k.

End FieldsQ.

(** One edge between the vertices (0,0) and (1,0), refined: the new vertex
    2 is the midpoint, and the old edge 0 becomes the new edges 0 and 1
    (recorded by [refine1]). *)
Definition edge_vertices : list (list Q) := [[0; 0]; [1; 0]]%Q.

Definition edge_refiner : MeshRefiner :=
  {| refinemap :=
       (fun st => [vdict st; {[ 0 := MapInt 0; 1 := MapInt 0 ]}]) <$>
         refinemesh_vertices edge_vertices [[[0; 1]]] None;
     new_maxgrade := 1;
     new_count := fun g => match g with 0 => 3 | 1 => 2 | _ => 0 end |}.

Definition edge_vertex_map : gmap nat mapentry :=
  {[ 0 := MapInt 0; 1 := MapInt 1; 2 := MapList [0; 1] ]}.

Definition edge_edge_map : gmap nat mapentry :=
  {[ 0 := MapInt 0; 1 := MapInt 0 ]}.

Lemma edge_refiner_map :
  refinemap edge_refiner = Some [edge_vertex_map; edge_edge_map].
Proof. vm_compute. reflexivity. Qed.

(** Both end points and the edge are selected. *)
Definition edge_selection : Selection :=
  {| selected := fun g => match g with 0 => {[0; 1]} | 1 => {[0]} | _ => ∅ end |}.

Lemma edge_refineselection_returns :
  exists result, refineselection edge_refiner edge_selection = Some (Some result).
Proof.
  apply (refineselection_returns edge_refiner _ edge_selection edge_refiner_map).
  simpl. lia.
Qed.

Lemma selected_iff_all_parents_counterexample :
  ~ selected_iff_all_parents edge_refiner edge_selection.
Proof.
  intros Hclaim.
  destruct edge_refineselection_returns as [result Hres].
  pose proof (Hclaim _ result edge_refiner_map Hres 0 edge_vertex_map 2 (MapList [0; 1])
                ltac:(simpl; lia) eq_refl ltac:(by vm_compute)) as Hiff.
  assert (Hsel : 2 ∈ selected result 0).
  { apply Hiff. simpl. intros old Hold.
    repeat (apply elem_of_cons in Hold as [->|Hold]; [set_solver|]).
    by apply elem_of_nil in Hold. }
  apply (refineselection_selected_inv edge_refiner _ _ _ edge_refiner_map Hres) in Hsel.
  destruct Hsel as (dict & old & Hd & Hl & _).
  injection Hd as <-. vm_compute in Hl. discriminate Hl.
Qed.

Lemma refineselection_selects_copies_witness :
  exists result,
    refineselection edge_refiner edge_selection = Some (Some result)
    /\ forall id, id ∈ selected result 0 <-> id = 0 \/ id = 1.
Proof.
  destruct edge_refineselection_returns as [result Hres].
  exists result. split; [exact Hres|]. intros id.
  rewrite (refineselection_selects_copies edge_refiner _ edge_selection result
             edge_refiner_map Hres 0 id).
  split.
  - intros (_ & dict & old & Hd & Hl & Hs). injection Hd as <-.
    destruct id as [|[|[|id]]]; [by left|by right| |].
    + vm_compute in Hl. discriminate Hl.
    + unfold edge_vertex_map in Hl.
      rewrite !lookup_insert_ne in Hl by lia. rewrite lookup_singleton_ne in Hl by lia.
      discriminate Hl.
  - intros [->| ->].
    + split; [simpl; lia|]. exists edge_vertex_map, 0.
      split; [reflexivity|]. split; [by vm_compute|]. set_solver.
    + split; [simpl; lia|]. exists edge_vertex_map, 1.
      split; [reflexivity|]. split; [by vm_compute|]. set_solver.
Defined.

(** A field with two numbers on each vertex of the edge: 1 and 2 on vertex
    0, 11 and 12 on vertex 1. *)
Definition two_item_field : Field Q :=
  {| fshape := [2];
     fcount := fun g => match g with 0 => 2 | _ => 0 end;
     fitems := fun _ id k => FloatItem (inject_Z (Z.of_nat (10 * id + k + 1))) |}.

Lemma two_item_field_refined :
  exists result, refinefield edge_refiner two_item_field = Some (Some result).
Proof. eexists. vm_compute. reflexivity. Qed.

(** The second number of vertex 0 is 2, but the refined field holds the
    prototype 1 there. *)
Lemma two_item_field_not_copied :
  ~ copies_all_items edge_refiner two_item_field.
Proof.
  intros Hclaim.
  eassert (Hres : refinefield edge_refiner two_item_field = Some (Some _)).
  { vm_compute. reflexivity. }
  pose proof (Hclaim _ _ edge_refiner_map Hres 0 edge_vertex_map 0 0 1
                eq_refl ltac:(by vm_compute) ltac:(simpl; lia)) as Heq.
  vm_compute in Heq. discriminate Heq.
Qed.

Lemma refinefield_first_items :
  exists result,
    refinefield edge_refiner two_item_field = Some (Some result)
    /\ field_getindex result 0 0 = Some (FloatItem 1%Q)
    /\ field_getindex result 0 2 = Some (FloatItem ((0 + 1 + 11) / 2)%Q)
    /\ fitems result 0 0 1 = FloatItem 1%Q.
Proof.
  destruct two_item_field_refined as [result Hres]. exists result.
  destruct (refinefield_means edge_refiner _ two_item_field result (FloatItem 1%Q)
              edge_refiner_map eq_refl Hres) as (Hcopy & _ & Hmean & Hother & _).
  split; [exact Hres|]. split; [|split].
  - destruct (Hcopy 0 edge_vertex_map 0 0 ltac:(simpl; lia) ltac:(simpl; lia)
                eq_refl ltac:(by vm_compute)) as (x & Hx & Hr).
    vm_compute in Hx. injection Hx as <-. exact Hr.
  - apply (Hmean 0 edge_vertex_map 2 [0; 1] [1; 11]%Q 1%Q); try done.
    + simpl; lia.
    + repeat constructor.
  - apply Hother. left. lia.
Qed.

(** C5, at a field with two numbers on each vertex of the refined edge: 1
    and 2 on the vertex 0, 11 and 12 on the vertex 1.  In the refinement map
    the new vertex 0 is a copy of the old vertex 0 and the new vertex 2 is
    the midpoint of the old vertices 0 and 1.  [refinefield] reads
    [field[g, id]] and writes [result[g, id]], the first number of a vertex,
    and has no loop over the numbers of a vertex: the refined field holds 1
    and 6 as first numbers, and as second number of both vertices the
    prototype 1, where the old field has 2 on the parent of the copy and the
    mean of 2 and 12 is 7. *)
Theorem refinefield_drops_items :
  exists result x,
    refinefield edge_refiner two_item_field = Some (Some result)
    /\ refinemap edge_refiner = Some [edge_vertex_map; edge_edge_map]
    /\ edge_vertex_map !! 0 = Some (MapInt 0)
    /\ edge_vertex_map !! 2 = Some (MapList [0; 1])
    /\ field_enumerate0 two_item_field = Some (FloatItem 1%Q)
    /\ field_getitem two_item_field 0 0 1 = Some (FloatItem 2%Q)
    /\ field_getitem two_item_field 0 1 1 = Some (FloatItem 12%Q)
    /\ field_getitem result 0 0 0 = Some (FloatItem 1%Q)
    /\ field_getitem result 0 0 1 = Some (FloatItem 1%Q)
    /\ field_getitem result 0 2 0 = Some (FloatItem x) /\ (x == 6)%Q
    /\ field_getitem result 0 2 1 = Some (FloatItem 1%Q).
Proof.
  eexists. eexists.
  split; [vm_compute; reflexivity|].
  repeat (split; [vm_compute; reflexivity|]). vm_compute. reflexivity.
Qed.

End RefineProps.

(* ===================================================================== *)
(** ** The vertices of a refined mesh *)
(* ===================================================================== *)

Module RefineMeshProps.
Import Sparse SparseOps SparseProps SparseOpsProps Refine MeshBuild.

Section Generic.
Context {R : Type} `{Scalar R}.
Implicit Types st : splitstate R.

(** What the splitting keeps: the vertices of the builder are the old
    vertices followed by new ones, the dictionary of grade 0 sends an old
    vertex to itself and a new vertex to its two parents, of which it is
    the midpoint, and it has no other key. *)
Definition vertices_mapped (vert : list (list R)) st : Prop :=
  exists new,
    mb_vertices st = vert ++ new
    /\ (forall i, i < length vert -> vdict st !! i = Some (MapInt i))
    /\ (forall k m, new !! k = Some m ->
          exists a b, vdict st !! (length vert + k) = Some (MapList [a; b])
                      /\ midpoint vert a b = Some m)
    /\ (forall id, length vert + length new <= id -> vdict st !! id = None).

Lemma seed_lookup (n i : nat) :
  (list_to_map ((fun i => (i, MapInt i)) <$> seq 0 n) : gmap nat mapentry) !! i
  = if decide (i < n) then Some (MapInt i) else None.
Proof.
  induction n as [|n IH].
  - simpl. rewrite lookup_empty. destruct (decide (i < 0)); [lia|done].
  - rewrite seq_S, fmap_app, list_to_map_app. simpl.
    rewrite lookup_union. rewrite IH.
    destruct (decide (i = n)) as [->|Hne].
    + rewrite lookup_insert_eq. rewrite decide_False by lia. by rewrite decide_True by lia.
    + rewrite lookup_insert_ne by done. rewrite lookup_empty.
      destruct (decide (i < n)).
      * by rewrite decide_True by lia.
      * by rewrite decide_False by lia.
Qed.

Lemma vertices_mapped_seed vert : vertices_mapped vert (seed_vertices vert).
Proof.
  exists []. simpl. rewrite app_nil_r. split; [done|]. split; [|split].
  - intros i Hi. rewrite seed_lookup. by rewrite decide_True.
  - intros k m Hk. by rewrite lookup_nil in Hk.
  - intros id Hid. rewrite seed_lookup. rewrite decide_False; [done|lia].
Qed.

Lemma vertices_mapped_split_pair vert st ab st' :
  vertices_mapped vert st -> split_pair vert (Some st) ab = Some st' ->
  vertices_mapped vert st'.
Proof.
  intros (new & Hv & Hold & Hnew & Hnone). unfold split_pair. simpl.
  destruct (midpoint vert (fst ab) (snd ab)) as [m|] eqn:Hm; simpl; [|done].
  destruct (tree_ismember (tree st) m).
  - intros [= <-]. by exists new.
  - intros [= <-]. exists (new ++ [m]). simpl. rewrite Hv, length_app.
    split; [by rewrite app_assoc|]. split; [|split].
    + intros i Hi. rewrite lookup_insert_ne by lia. by apply Hold.
    + intros k m' Hk. destruct (decide (k = length new)) as [->|Hne].
      * rewrite lookup_app_r in Hk by lia. rewrite Nat.sub_diag in Hk. injection Hk as <-.
        exists (fst ab), (snd ab). by rewrite lookup_insert_eq.
      * assert (Hlt : k < length new).
        { apply lookup_lt_Some in Hk. rewrite length_app in Hk. simpl in Hk. lia. }
        rewrite lookup_app_l in Hk by done. rewrite lookup_insert_ne by lia.
        by apply Hnew.
    + intros id Hid. rewrite length_app in Hid. simpl in Hid.
      rewrite lookup_insert_ne by lia. apply Hnone. lia.
Qed.

Lemma foldl_option_invariant {A B : Type} (f : option A -> B -> option A) (P : A -> Prop) :
  (forall b, f None b = None) ->
  (forall a b a', P a -> f (Some a) b = Some a' -> P a') ->
  forall l a a', P a -> foldl f (Some a) l = Some a' -> P a'.
Proof.
  intros Hnone Hstep. induction l as [|b l IH]; intros a a' Ha; simpl.
  - by intros [= <-].
  - destruct (f (Some a) b) as [a1|] eqn:E.
    + apply IH. by eapply Hstep.
    + intros Hrun. exfalso. clear -Hnone Hrun.
      induction l as [|b' l IH]; simpl in Hrun; [done|]. rewrite Hnone in Hrun. auto.
Qed.

Lemma vertices_mapped_split vert el st st' :
  vertices_mapped vert st -> split el vert (Some st) = Some st' -> vertices_mapped vert st'.
Proof.
  unfold split. apply (foldl_option_invariant (split_pair vert) (vertices_mapped vert)).
  - done.
  - intros a b a' Ha. by apply vertices_mapped_split_pair.
Qed.

Lemma split_None vert el : split (R:=R) el vert None = None.
Proof.
  unfold split. induction (vertex_pairs el) as [|ab l IH]; [done|]. simpl. apply IH.
Qed.

Lemma vertices_mapped_split_grade vert selection gels st st' :
  vertices_mapped vert st -> split_grade vert selection (Some st) gels = Some st' ->
  vertices_mapped vert st'.
Proof.
  unfold split_grade.
  apply (foldl_option_invariant
           (fun ost iel =>
              match selection with
              | Some sel =>
                  if selection_isselected sel (fst gels) (fst iel)
                  then split (snd iel) vert ost else ost
              | None => split (snd iel) vert ost
              end) (vertices_mapped vert)).
  - intros b. destruct selection as [sel|]; [|apply split_None].
    destruct (selection_isselected _ _ _); [apply split_None|done].
  - intros a b a' Ha. destruct selection as [sel|].
    + destruct (selection_isselected _ _ _); [by apply vertices_mapped_split|].
      by intros [= <-].
    + by apply vertices_mapped_split.
Qed.

Lemma split_grade_None vert selection gels :
  split_grade (R:=R) vert selection None gels = None.
Proof.
  unfold split_grade. induction (imap _ _) as [|iel l IH]; [done|]. simpl.
  destruct selection as [sel|].
  - destruct (selection_isselected _ _ _); [by rewrite split_None|done].
  - by rewrite split_None.
Qed.

(** In the first part of [refinemesh], every vertex of the old mesh keeps
    its id and its position in the new mesh and is recorded in the
    dictionary of grade 0 as a copy of itself; every vertex added is the
    midpoint of two old vertices, which the dictionary records as its
    parents; and the dictionary has no key beyond the vertices of the new
    mesh. *)
Theorem refinemesh_vertices_mapped (vert : list (list R))
    (elements : list (list (list nat))) (selection : option Selection) st :
  refinemesh_vertices vert elements selection = Some st ->
  exists new,
    mb_vertices st = vert ++ new
    /\ (forall i, i < length vert -> vdict st !! i = Some (MapInt i))
    /\ (forall k m, new !! k = Some m ->
          exists a b, vdict st !! (length vert + k) = Some (MapList [a; b])
                      /\ midpoint vert a b = Some m)
    /\ (forall id, length vert + length new <= id -> vdict st !! id = None).
Proof.
  unfold refinemesh_vertices.
  apply (foldl_option_invariant (split_grade vert selection) (vertices_mapped vert)).
  - apply split_grade_None.
  - intros a b a' Ha. by apply vertices_mapped_split_grade.
  - apply vertices_mapped_seed.
Qed.

(** *** The connectivity matrix of the elements *)

Lemma setindex_loop (id : nat) (lst : list nat) (s : objectsparse R) :
  let s' := foldl (fun s v => Sparse_setindex s v id (rconst 1)) s lst in
  ccs s' = (if lst is [] then ccs s else None)
  /\ (dok_consistent (dok s) -> dok_consistent (dok s'))
  /\ (wf_dok (dok s) -> wf_dok (dok s'))
  /\ forall v j,
       sparsedok_get (dok s') v j
       = if decide (j = id /\ v ∈ lst) then Some (VFloat (rconst 1))
         else sparsedok_get (dok s) v j.
Proof.
  revert s. induction lst as [|w lst IH]; intros s; cbn zeta.
  - simpl. split; [done|]. split; [done|]. split; [done|]. intros v j.
    destruct (decide _) as [[_ Hv]|]; [by apply elem_of_nil in Hv|done].
  - cbn [foldl]. destruct (IH (Sparse_setindex s w id (rconst 1))) as (Hc & Hk & Hw & Hg).
    cbn zeta in Hc, Hk, Hw, Hg. split; [|split; [|split]].
    + rewrite Hc. by destruct lst.
    + intros Hs. apply Hk. by apply dok_consistent_insert.
    + intros Hs. apply Hw. by apply wf_dok_insert.
    + intros v j. rewrite Hg. unfold Sparse_setindex, sparse_setelement. cbn [snd dok].
      destruct (decide (j = id /\ v ∈ lst)) as [[-> Hv]|Hn].
      * rewrite decide_True; [done|]. split; [done|by right].
      * destruct (decide ((v, j) = (w, id))) as [[= -> ->]|Hne].
        -- rewrite decide_True by (split; [done|by left]).
           unfold sparsedok_get, sparsedok_insert.
           destruct (dict (dok s) !! (w, id)); simpl; by rewrite lookup_insert_eq.
        -- rewrite decide_False.
           ++ unfold sparsedok_get, sparsedok_insert.
              destruct (dict (dok s) !! (w, id)); simpl; by rewrite lookup_insert_ne.
           ++ intros [-> Hv]. apply elem_of_cons in Hv as [->|Hv]; [done|].
              apply Hn. done.
Qed.

Lemma makeconnectivity_loop (els : list (list nat)) (base : nat) (s : objectsparse R) :
  let s' := foldl (fun s idlst =>
                     foldl (fun s v => Sparse_setindex s v (fst idlst) (rconst 1))
                           s (snd idlst))
                  s (imap (fun i => pair (base + i)) els) in
  (dok_consistent (dok s) -> dok_consistent (dok s'))
  /\ (wf_dok (dok s) -> wf_dok (dok s'))
  /\ (ccs s = None -> ccs s' = None)
  /\ forall v j,
       sparsedok_get (dok s') v j
       = match els !! (j - base) with
         | Some lst =>
             if decide (base <= j /\ v ∈ lst) then Some (VFloat (rconst 1))
             else sparsedok_get (dok s) v j
         | None => sparsedok_get (dok s) v j
         end.
Proof.
  revert base s. induction els as [|lst els IH]; intros base s; cbn zeta.
  - simpl. split; [done|]. split; [done|]. split; done.
  - cbn [imap foldl fst snd]. rewrite Nat.add_0_r.
    destruct (setindex_loop base lst s) as (Hc1 & Hk1 & Hw1 & Hg1). cbn zeta in *.
    set (s1 := foldl (fun s v => Sparse_setindex s v base (rconst 1)) s lst) in *.
    rewrite (imap_ext _ (fun i => pair (Datatypes.S base + i))).
    2:{ intros i x _. simpl. f_equal. lia. }
    destruct (IH (Datatypes.S base) s1) as (Hk & Hw & Hc & Hg). cbn zeta in *.
    split; [by intros; apply Hk, Hk1|]. split; [by intros; apply Hw, Hw1|]. split.
    + intros Hs. apply Hc. rewrite Hc1. by destruct lst.
    + intros v j. rewrite Hg, Hg1.
      destruct (decide (j = base)) as [->|Hne].
      * rewrite Nat.sub_diag. cbn [lookup list_lookup].
        replace (base - Datatypes.S base) with 0 by lia.
        assert (Hfirst : (if decide (base = base /\ v ∈ lst)
                          then Some (VFloat (rconst 1)) else sparsedok_get (dok s) v base)
                         = if decide (base <= base /\ v ∈ lst)
                           then Some (VFloat (rconst 1)) else sparsedok_get (dok s) v base).
        { destruct (decide (v ∈ lst)).
          - rewrite !decide_True; [done|split; [lia|done]|done].
          - rewrite !decide_False; [done|by intros [_ ?]|by intros [_ ?]]. }
        rewrite Hfirst. destruct (els !! 0) as [l|]; [|done].
        rewrite (decide_False (P := Datatypes.S base <= base /\ v ∈ l)); [done|lia].
      * rewrite (decide_False (P := j = base /\ v ∈ lst)) by (by intros [? _]).
        destruct (decide (base <= j)) as [Hle|Hgt].
        -- replace (j - base) with (Datatypes.S (j - Datatypes.S base)) by lia.
           cbn [lookup list_lookup]. destruct (els !! (j - Datatypes.S base)) as [l|]; [|done].
           destruct (decide (v ∈ l)).
           ++ rewrite !decide_True; [done|split; [lia|done]|split; [lia|done]].
           ++ rewrite !decide_False; [done|by intros [_ ?]|by intros [_ ?]].
        -- replace (j - base) with 0 by lia. replace (j - Datatypes.S base) with 0 by lia.
           cbn [lookup list_lookup].
           rewrite (decide_False (P := base <= j /\ v ∈ lst)) by (by intros [? _]).
           destruct (els !! 0) as [l|]; [|done].
           rewrite (decide_False (P := Datatypes.S base <= j /\ v ∈ l)); [done|lia].
Qed.

(** [makeconnectivity] returns [nil] for an empty list of elements.
    Otherwise it returns a sparse matrix without a CCS form whose DOK holds
    a one at (v, id) exactly when [v] is a vertex of the element [id], and
    nothing else; its list of keys names each of these entries once, and
    its keys lie within its dimensions. *)
Theorem makeconnectivity_entries (el : list (list nat)) :
  (el = [] -> makeconnectivity (R:=R) el = None)
  /\ (el <> [] ->
      exists s,
        makeconnectivity el = Some s
        /\ ccs s = None
        /\ dok_consistent (dok s) /\ wf_dok (dok s)
        /\ forall v id,
             sparsedok_get (dok s) v id
             = match el !! id with
               | Some lst => if decide (v ∈ lst) then Some (VFloat (rconst 1)) else None
               | None => None
               end).
Proof.
  split; [by intros ->|]. intros Hne. unfold makeconnectivity.
  rewrite bool_decide_eq_false_2 by (by destruct el).
  eexists. split; [done|].
  destruct (makeconnectivity_loop el 0 (sparse_constructor 0 0)) as (Hk & Hw & Hc & Hg).
  cbn zeta in *. rewrite (imap_ext _ pair) in Hk, Hw, Hc, Hg by done.
  split; [by apply Hc|]. split; [apply Hk, dok_consistent_init|].
  split; [apply Hw, wf_dok_init|].
  intros v id. rewrite Hg, Nat.sub_0_r.
  destruct (el !! id) as [l|]; [|apply lookup_empty].
  destruct (decide (v ∈ l)).
  - rewrite decide_True; [done|split; [lia|done]].
  - rewrite decide_False; [apply lookup_empty|by intros [_ ?]].
Qed.

End Generic.

Lemma refinemesh_vertices_mapped_witness :
  exists st new,
    refinemesh_vertices [[0%Q]; [1%Q]] [[[0; 1]]] None = Some st
    /\ mb_vertices st = [[0%Q]; [1%Q]] ++ new
    /\ vdict st !! 0 = Some (MapInt 0).
Proof.
  destruct (refinemesh_vertices [[0%Q]; [1%Q]] [[[0; 1]]] None) as [st|] eqn:Hrun;
    [|vm_compute in Hrun; discriminate Hrun].
  destruct (refinemesh_vertices_mapped [[0%Q]; [1%Q]] [[[0; 1]]] None st Hrun)
    as (new & Hv & Hold & _).
  exists st, new. split; [reflexivity|]. split; [exact Hv|]. apply Hold. simpl. lia.
Defined.

Lemma makeconnectivity_entries_witness :
  exists s,
    makeconnectivity (R:=Q) [[0; 1]; [1; 2]] = Some s
    /\ sparsedok_get (dok s) 2 1 = Some (VFloat 1%Q)
    /\ sparsedok_get (dok s) 2 0 = None.
Proof.
  destruct (makeconnectivity_entries (R:=Q) [[0; 1]; [1; 2]]) as [_ Hsome].
  destruct Hsome as (s & Hrun & _ & _ & _ & Hget); [discriminate|].
  exists s. split; [exact Hrun|]. rewrite !Hget. split; reflexivity.
Defined.

End RefineMeshProps.
